(** * Folder/tag rule engine: shallow embedding and verified properties

    The development follows the TypeScript sources:
    - [transformers/caseTransformers.ts], [emojiTransformers.ts],
      [numberTransformers.ts], [regexTransformers.ts], [pipeline.ts];
    - [engine/ruleMatcher.ts].

    JavaScript strings are sequences of UTF-16 code units; numbers are
    doubles, kept as the rationals they stand for, with the rounding of
    every operation, the infinities and NaN.  The built-in [RegExp] is modelled by a parser for
    pattern text and a backtracking matcher written in the continuation
    style of the ECMAScript specification. *)

From Stdlib Require Import Ascii String.
From Stdlib Require Import List Bool Arith NArith ZArith QArith.
From Stdlib Require Import Lia Lqa Permutation.
Import ListNotations.

Close Scope Q_scope.
Open Scope nat_scope.

(* ================================================================= *)
(** ** JavaScript strings *)

Module JS.

(** A string is a list of UTF-16 code units. *)
Definition jsstring := list N.

(** ASCII text as a JavaScript string. *)
Definition lit (s : string) : jsstring :=
  map N_of_ascii (list_ascii_of_string s).

Definition ch (a : ascii) : N := N_of_ascii a.

Definition in_range (lo hi c : N) : bool := ((lo <=? c) && (c <=? hi))%N.

(** [WhiteSpace] and [LineTerminator] code points: what [\s] matches and
    what [String.prototype.trim] removes. *)
Definition isWhiteSpace (c : N) : bool :=
  (in_range 9 13 c || (c =? 32) || (c =? 160) || (c =? 0x1680)
   || in_range 0x2000 0x200A c || (c =? 0x2028) || (c =? 0x2029)
   || (c =? 0x202F) || (c =? 0x205F) || (c =? 0x3000) || (c =? 0xFEFF))%N.

Definition isLineTerminator (c : N) : bool :=
  ((c =? 10) || (c =? 13) || (c =? 0x2028) || (c =? 0x2029))%N.

Definition isDigit (c : N) : bool := in_range 48 57 c.
Definition isUpper (c : N) : bool := in_range 65 90 c.
Definition isLower (c : N) : bool := in_range 97 122 c.

(** [\w] is [[A-Za-z0-9_]]. *)
Definition isWordChar (c : N) : bool :=
  (isUpper c || isLower c || isDigit c || (c =? 95))%N.

(** Case mapping is modelled on the ASCII letters; other code units are
    left unchanged. *)
Definition upperChar (c : N) : N := if isLower c then (c - 32)%N else c.
Definition lowerChar (c : N) : N := if isUpper c then (c + 32)%N else c.

Definition toUpperCase (s : jsstring) : jsstring := map upperChar s.
Definition toLowerCase (s : jsstring) : jsstring := map lowerChar s.

Fixpoint trimStart (s : jsstring) : jsstring :=
  match s with
  | c :: s' => if isWhiteSpace c then trimStart s' else s
  | [] => []
  end.

Definition trimEnd (s : jsstring) : jsstring := rev (trimStart (rev s)).

(** [String.prototype.trim] *)
Definition trim (s : jsstring) : jsstring := trimEnd (trimStart s).

Definition eqb (s t : jsstring) : bool :=
  if list_eq_dec N.eq_dec s t then true else false.

(** [s.split(sep)] for a one-unit separator: never returns the empty list. *)
Fixpoint split (sep : N) (s : jsstring) : list jsstring :=
  match s with
  | [] => [[]]
  | c :: s' =>
      if (c =? sep)%N then [] :: split sep s'
      else match split sep s' with
           | seg :: segs => (c :: seg) :: segs
           | [] => [[c]]
           end
  end.

(** [parts.join(sep)] *)
Fixpoint join (sep : jsstring) (parts : list jsstring) : jsstring :=
  match parts with
  | [] => []
  | [p] => p
  | p :: ps => p ++ sep ++ join sep ps
  end.

(** Code points of a string, as the [u] flag sees it: a high surrogate
    followed by a low surrogate is one code point. *)
Fixpoint decode (s : jsstring) : list N :=
  match s with
  | h :: ((l :: s') as t) =>
      if in_range 0xD800 0xDBFF h && in_range 0xDC00 0xDFFF l
      then (0x10000 + (h - 0xD800) * 0x400 + (l - 0xDC00))%N :: decode s'
      else h :: decode t
  | _ => s
  end.

Definition encodeCodePoint (cp : N) : jsstring :=
  if (cp <? 0x10000)%N then [cp]
  else [(0xD800 + (cp - 0x10000) / 0x400)%N; (0xDC00 + (cp - 0x10000) mod 0x400)%N].

Definition encode (cps : list N) : jsstring := flat_map encodeCodePoint cps.

(** [s.padStart(targetLength, fill)] for a one-unit fill string. *)
Definition padStart (s : jsstring) (targetLength : nat) (fill : N) : jsstring :=
  repeat fill (targetLength - List.length s) ++ s.

(** [s.startsWith(prefix)] *)
Fixpoint startsWith (s prefix : jsstring) : bool :=
  match prefix, s with
  | [], _ => true
  | p :: prefix', c :: s' => (c =? p)%N && startsWith s' prefix'
  | _ :: _, [] => false
  end.

End JS.

(* ================================================================= *)
(** ** JavaScript numbers *)

Module Num.

(** IEEE doubles.  A finite value is kept as the rational it stands for,
    and every arithmetic operation rounds its exact result to the
    nearest double, ties to the even significand, as the language
    prescribes; the infinities and NaN are kept.  Signed zero is not
    distinguished, and the exponent is not bounded: the numbers computed
    here are small integers, lengths of strings (below [2 ^ 53]) and
    scores around the unit interval, all far inside the range of the
    normal doubles. *)
Inductive number :=
| Fin (q : Q)
| PosInf
| NegInf
| NaN.

(** [n / d] multiplied by [2 ^ s], as a fraction *)
Definition scaled (n d s : Z) : Z * Z :=
  if (0 <=? s)%Z then (n * 2 ^ s, d)%Z else (n, d * 2 ^ (- s))%Z.

(** The integer nearest to [a / b], the even one of two at equal distance *)
Definition nearestEven (a b : Z) : Z :=
  let k := (a / b)%Z in
  let r := (a mod b)%Z in
  match (2 * r ?= b)%Z with
  | Lt => k
  | Gt => (k + 1)%Z
  | Eq => if Z.even k then k else (k + 1)%Z
  end.

(** The exponent [e] of the leading bit of [n / d]:
    [2 ^ e <= n / d < 2 ^ (e + 1)] *)
Definition exponentOf (n d : Z) : Z :=
  let e := (Z.log2 n - Z.log2 d)%Z in
  let '(a, b) := scaled n d (- e) in
  if (a <? b)%Z then (e - 1)%Z else e.

(** The double nearest to [n / d], for [n] and [d] positive: a
    significand of 53 bits at the exponent of [n / d] *)
Definition roundPos (n d : Z) : Q :=
  let e := exponentOf n d in
  let '(a, b) := scaled n d (52 - e) in
  let k := nearestEven a b in
  let '(x, y) := scaled k 1 (e - 52) in
  Qmake x (Z.to_pos y).

Definition round (q : Q) : Q :=
  match Qnum q with
  | Z0 => 0%Q
  | Zpos n => roundPos (Zpos n) (Zpos (Qden q))
  | Zneg n => Qopp (roundPos (Zpos n) (Zpos (Qden q)))
  end.

(** The Number value for [q]: the value of a decimal literal such as [0.1] *)
Definition ofQ (q : Q) : number := Fin (round q).

Definition ofNat (n : nat) : number := Fin (inject_Z (Z.of_nat n)).
Definition ofZ (z : Z) : number := Fin (inject_Z z).

Definition add (a b : number) : number :=
  match a, b with
  | NaN, _ | _, NaN => NaN
  | PosInf, NegInf | NegInf, PosInf => NaN
  | PosInf, _ | _, PosInf => PosInf
  | NegInf, _ | _, NegInf => NegInf
  | Fin x, Fin y => Fin (round (x + y))
  end.

Definition neg (a : number) : number :=
  match a with
  | Fin x => Fin (- x)%Q
  | PosInf => NegInf
  | NegInf => PosInf
  | NaN => NaN
  end.

Definition sub (a b : number) : number := add a (neg b).

Definition signOf (q : Q) : comparison := Qcompare q 0%Q.

Definition infTimes (positive : bool) (q : Q) : number :=
  match signOf q with
  | Eq => NaN
  | Gt => if positive then PosInf else NegInf
  | Lt => if positive then NegInf else PosInf
  end.

Definition mul (a b : number) : number :=
  match a, b with
  | NaN, _ | _, NaN => NaN
  | Fin x, Fin y => Fin (round (x * y))
  | PosInf, Fin y => infTimes true y
  | NegInf, Fin y => infTimes false y
  | Fin x, PosInf => infTimes true x
  | Fin x, NegInf => infTimes false x
  | PosInf, PosInf | NegInf, NegInf => PosInf
  | PosInf, NegInf | NegInf, PosInf => NegInf
  end.

Definition div (a b : number) : number :=
  match a, b with
  | NaN, _ | _, NaN => NaN
  | Fin x, Fin y =>
      match signOf y with
      | Eq => match signOf x with Eq => NaN | Gt => PosInf | Lt => NegInf end
      | _ => Fin (round (x / y))
      end
  | Fin _, _ => Fin 0%Q
  | PosInf, Fin y => match signOf y with Lt => NegInf | _ => PosInf end
  | NegInf, Fin y => match signOf y with Lt => PosInf | _ => NegInf end
  | _, _ => NaN
  end.

(** [a < b]; false as soon as one side is NaN. *)
Definition ltb (a b : number) : bool :=
  match a, b with
  | NaN, _ | _, NaN => false
  | Fin x, Fin y => match Qcompare x y with Lt => true | _ => false end
  | NegInf, NegInf => false
  | NegInf, _ => true
  | _, PosInf => match a with PosInf => false | _ => true end
  | _, _ => false
  end.

(** [Math.min] and [Math.max] on two arguments. *)
Definition min (a b : number) : number :=
  match a, b with
  | NaN, _ | _, NaN => NaN
  | _, _ => if ltb b a then b else a
  end.

Definition max (a b : number) : number :=
  match a, b with
  | NaN, _ | _, NaN => NaN
  | _, _ => if ltb a b then b else a
  end.

(** A number lies in the closed interval [[lo, hi]]. *)
Definition between (lo hi : Q) (a : number) : Prop :=
  exists q, a = Fin q /\ (lo <= q)%Q /\ (q <= hi)%Q.

End Num.

(* ================================================================= *)
(** ** Regular expressions: syntax trees and the matcher *)

Module RegExp.
Import JS.

Inductive ClassItem :=
| CIChar (c : N)
| CIRange (lo hi : N)
| CIDigit (negated : bool)
| CISpace (negated : bool)
| CIWord (negated : bool).

Inductive regex :=
| Empty
| Chr (c : N)
| Dot
| Class (negated : bool) (items : list ClassItem)
| Bol
| Eol
| WordBoundary (negated : bool)
| Group (idx : nat) (r : regex)
| Backref (idx : nat)
| Lookahead (negated : bool) (r : regex)
| Seq (r1 r2 : regex)
| Alt (r1 r2 : regex)
| Quant (min : nat) (max : option nat) (greedy : bool) (r : regex).

Record Flags := mkFlags {
  global : bool;
  ignoreCase : bool;
  multiline : bool;
  dotAll : bool;
  unicode : bool;
  sticky : bool;
  hasIndices : bool
}.

Definition noFlags : Flags := mkFlags false false false false false false false.

(** The matcher works on a zipper: [rpre] is the text before the current
    position, reversed, and [suf] the text from the current position on.
    [caps] holds the captures that are defined. *)
Record MatchState := mkState {
  rpre : jsstring;
  suf : jsstring;
  caps : list (nat * jsstring)
}.

Definition Continuation := MatchState -> option MatchState.

Definition getCap (i : nat) (cs : list (nat * jsstring)) : option jsstring :=
  option_map snd (find (fun p => Nat.eqb (fst p) i) cs).

Definition setCap (i : nat) (v : jsstring) (cs : list (nat * jsstring)) :=
  (i, v) :: filter (fun p => negb (Nat.eqb (fst p) i)) cs.

Definition clearCaps (ids : list nat) (cs : list (nat * jsstring)) :=
  filter (fun p => negb (existsb (Nat.eqb (fst p)) ids)) cs.

(** Indices of the capturing groups inside a term. *)
Fixpoint groupsOf (r : regex) : list nat :=
  match r with
  | Group i r' => i :: groupsOf r'
  | Lookahead _ r' => groupsOf r'
  | Seq a b | Alt a b => groupsOf a ++ groupsOf b
  | Quant _ _ _ r' => groupsOf r'
  | _ => []
  end.

(** [Canonicalize]: with the [i] flag characters are compared through
    their upper-case form. *)
Definition canon (fl : Flags) (c : N) : N :=
  if ignoreCase fl then upperChar c else c.

(** Membership of a character in a set given by a predicate; with the [i]
    flag the set contains [c] when it contains a character with the same
    canonical form. *)
Definition setMem (fl : Flags) (P : N -> bool) (c : N) : bool :=
  if ignoreCase fl then P (upperChar c) || P (lowerChar c) else P c.

Definition itemSet (it : ClassItem) (c : N) : bool :=
  match it with
  | CIChar a => (c =? a)%N
  | CIRange lo hi => in_range lo hi c
  | CIDigit n => xorb n (isDigit c)
  | CISpace n => xorb n (isWhiteSpace c)
  | CIWord n => xorb n (isWordChar c)
  end.

Definition classMem (fl : Flags) (negated : bool) (items : list ClassItem) (c : N) : bool :=
  xorb negated (setMem fl (fun a => existsb (fun it => itemSet it a) items) c).

Definition dotMem (fl : Flags) (c : N) : bool :=
  dotAll fl || negb (isLineTerminator c).

(** One character is consumed. *)
Definition step (x : MatchState) (P : N -> bool) (c : Continuation) : option MatchState :=
  match suf x with
  | a :: s' => if P a then c (mkState (a :: rpre x) s' (caps x)) else None
  | [] => None
  end.

(** Text consumed between an earlier state [x] and a later state [y]. *)
Definition consumed (x y : MatchState) : jsstring :=
  rev (firstn (length (rpre y) - length (rpre x)) (rpre y)).

Definition atBol (fl : Flags) (x : MatchState) : bool :=
  match rpre x with
  | [] => true
  | a :: _ => multiline fl && isLineTerminator a
  end.

Definition atEol (fl : Flags) (x : MatchState) : bool :=
  match suf x with
  | [] => true
  | a :: _ => multiline fl && isLineTerminator a
  end.

Definition isWordAt (s : jsstring) : bool :=
  match s with
  | a :: _ => isWordChar a
  | [] => false
  end.

Definition atWordBoundary (x : MatchState) : bool :=
  xorb (isWordAt (rpre x)) (isWordAt (suf x)).

(** The text [s] is matched against the input at the current position
    (backreference). *)
Fixpoint matchText (fl : Flags) (s : jsstring) (x : MatchState) : option MatchState :=
  match s with
  | [] => Some x
  | a :: s' =>
      match suf x with
      | b :: t =>
          if (canon fl a =? canon fl b)%N
          then matchText fl s' (mkState (b :: rpre x) t (caps x))
          else None
      | [] => None
      end
  end.

Definition orElse (a : option MatchState) (b : unit -> option MatchState) :=
  match a with
  | Some z => Some z
  | None => b tt
  end.

(** [RepeatMatcher] for a body [m]: an iteration that is not required
    and consumes nothing is rejected, and the captures [ids] of the body
    are cleared at the start of each iteration.  The recursion is on
    [fuel]; the number of required iterations plus the length of the
    remaining input, plus one, is enough fuel (see
    [repeatMatcher_fuel]). *)
Fixpoint repeatMatcher (m : MatchState -> Continuation -> option MatchState)
  (ids : list nat) (greedy : bool) (c : Continuation)
  (fuel : nat) (min : nat) (max : option nat) (x : MatchState)
  {struct fuel} : option MatchState :=
  match fuel with
  | O => None
  | S fuel' =>
      match max with
      | Some O => c x
      | _ =>
          let d := fun y : MatchState =>
            if Nat.eqb min 0 && Nat.eqb (List.length (suf y)) (List.length (suf x))
            then None
            else repeatMatcher m ids greedy c fuel' (Nat.pred min) (option_map Nat.pred max) y in
          let xr := mkState (rpre x) (suf x) (clearCaps ids (caps x)) in
          if negb (Nat.eqb min 0) then m xr d
          else if greedy
               then orElse (m xr d) (fun _ => c x)
               else orElse (c x) (fun _ => m xr d)
      end
  end.

Definition repeatFuel (min : nat) (x : MatchState) : nat := S (min + List.length (suf x)).

(** The matcher of a term applied to a state and a continuation. *)
Fixpoint matcher (fl : Flags) (r : regex) (x : MatchState) (c : Continuation)
  {struct r} : option MatchState :=
  match r with
  | Empty => c x
  | Chr a => step x (fun b => (canon fl b =? canon fl a)%N) c
  | Dot => step x (dotMem fl) c
  | Class n items => step x (classMem fl n items) c
  | Bol => if atBol fl x then c x else None
  | Eol => if atEol fl x then c x else None
  | WordBoundary n => if xorb n (atWordBoundary x) then c x else None
  | Group i r' =>
      matcher fl r' x
        (fun y => c (mkState (rpre y) (suf y) (setCap i (consumed x y) (caps y))))
  | Backref i =>
      match getCap i (caps x) with
      | None => c x
      | Some s => match matchText fl s x with
                  | Some y => c y
                  | None => None
                  end
      end
  | Lookahead n r' =>
      match matcher fl r' x (fun y => Some y) with
      | Some y => if n then None else c (mkState (rpre x) (suf x) (caps y))
      | None => if n then c x else None
      end
  | Seq r1 r2 => matcher fl r1 x (fun y => matcher fl r2 y c)
  | Alt r1 r2 => orElse (matcher fl r1 x c) (fun _ => matcher fl r2 x c)
  | Quant min max greedy r' =>
      repeatMatcher (matcher fl r') (groupsOf r') greedy c (repeatFuel min x) min max x
  end.

(** *** Pattern text *)

(** The outcome of a built-in that may throw. *)
Inductive result (A : Type) :=
| Ok (a : A)
| Throw (msg : string).
Arguments Ok {A} a.
Arguments Throw {A} msg.

Definition bind {A B} (m : result A) (f : A -> result B) : result B :=
  match m with
  | Ok a => f a
  | Throw e => Throw e
  end.

Notation "x <- m ;; k" := (bind m (fun x => k))
  (at level 61, m at next level, right associativity).
Notation "' p <- m ;; k" := (bind m (fun p => k))
  (at level 61, p pattern, m at next level, right associativity).

Definition hexVal (c : N) : option N :=
  if isDigit c then Some (c - 48)%N
  else if in_range 97 102 c then Some (c - 87)%N
  else if in_range 65 70 c then Some (c - 55)%N
  else None.

Definition isOctal (c : N) : bool := in_range 48 55 c.

Definition nextIsDigit (s : jsstring) : bool :=
  match s with
  | c :: _ => isDigit c
  | [] => false
  end.

Fixpoint readDigitsAcc (s : jsstring) (acc : N) : N * jsstring :=
  match s with
  | c :: s' => if isDigit c then readDigitsAcc s' (acc * 10 + (c - 48))%N else (acc, s)
  | [] => (acc, [])
  end.

(** One or more decimal digits. *)
Definition readDecimal (s : jsstring) : option (N * jsstring) :=
  match s with
  | c :: _ => if isDigit c then Some (readDigitsAcc s 0%N) else None
  | [] => None
  end.

Fixpoint readHexN (n : nat) (s : jsstring) (acc : N) : option (N * jsstring) :=
  match n with
  | O => Some (acc, s)
  | S n' =>
      match s with
      | c :: s' =>
          match hexVal c with
          | Some v => readHexN n' s' (acc * 16 + v)%N
          | None => None
          end
      | [] => None
      end
  end.

(** Hexadecimal digits up to a closing brace ([\u{...}]). *)
Fixpoint readHexBraced (s : jsstring) (acc : N) (seen : bool) : option (N * jsstring) :=
  match s with
  | c :: s' =>
      if (c =? ch "}")%N then (if seen then Some (acc, s') else None)
      else match hexVal c with
           | Some v => readHexBraced s' (acc * 16 + v)%N true
           | None => None
           end
  | [] => None
  end.

(** Legacy octal escape, first digit already known to be octal. *)
Definition readOctal (s : jsstring) : N * jsstring :=
  match s with
  | a :: s1 =>
      let va := (a - 48)%N in
      match s1 with
      | b :: s2 =>
          if isOctal b then
            let vb := (va * 8 + (b - 48))%N in
            match s2 with
            | c :: s3 =>
                if isOctal c && (va <=? 3)%N then ((vb * 8 + (c - 48))%N, s3)
                else (vb, s2)
            | [] => (vb, s2)
            end
          else (va, s1)
      | [] => (va, s1)
      end
  | [] => (0%N, [])
  end.

Definition isIdentStart (c : N) : bool :=
  (isUpper c || isLower c || (c =? ch "_") || (c =? ch "$"))%N.

Fixpoint readNameAcc (s : jsstring) (acc : jsstring) : option (jsstring * jsstring) :=
  match s with
  | c :: s' =>
      if (c =? ch ">")%N then (match acc with [] => None | _ => Some (rev acc, s') end)
      else if isIdentStart c || isDigit c then readNameAcc s' (c :: acc)
      else None
  | [] => None
  end.

(** A group name up to the closing [>]. *)
Definition readName (s : jsstring) : option (jsstring * jsstring) :=
  match s with
  | c :: _ => if isIdentStart c then readNameAcc s [] else None
  | [] => None
  end.

(** First pass over the pattern: the capturing groups in the order of
    their opening parentheses, each with its name if it has one. *)
Fixpoint scanGroups (inClass : bool) (s : jsstring) : list (option jsstring) :=
  match s with
  | [] => []
  | c :: s' =>
      if (c =? ch "\")%N then
        match s' with
        | _ :: s'' => scanGroups inClass s''
        | [] => []
        end
      else if inClass then scanGroups (negb (c =? ch "]")%N) s'
      else if (c =? ch "[")%N then scanGroups true s'
      else if (c =? ch "(")%N then
        match s' with
        | q :: s2 =>
            if (q =? ch "?")%N then
              match s2 with
              | lt :: s3 =>
                  if (lt =? ch "<")%N then
                    match readName s3 with
                    | Some (nm, _) => Some nm :: scanGroups false s2
                    | None => scanGroups false s2
                    end
                  else scanGroups false s2
              | [] => []
              end
            else None :: scanGroups false s'
        | [] => [None]
        end
      else scanGroups false s'
  end.

Fixpoint indexOfName (nm : jsstring) (gs : list (option jsstring)) (i : nat) : option nat :=
  match gs with
  | [] => None
  | Some n :: gs' => if JS.eqb n nm then Some i else indexOfName nm gs' (S i)
  | None :: gs' => indexOfName nm gs' (S i)
  end.

(** What the parser knows about the whole pattern. *)
Record Env := mkEnv {
  uMode : bool;
  groupNames : list (option jsstring)
}.

Definition nGroups (e : Env) : nat := List.length (groupNames e).
Definition hasNames (e : Env) : bool := existsb (fun o => match o with Some _ => true | None => false end) (groupNames e).

Definition isSyntaxChar (c : N) : bool :=
  existsb (N.eqb c) (lit "^$\.*+?()[]{}|/").

(** The escapes shared by terms and classes: control escapes, [\cX],
    [\xHH], [\uHHHH], [\u{...}] and identity escapes.  [c] is the
    character after the backslash. *)
Definition parseCharEscape (e : Env) (c : N) (s : jsstring) : result (N * jsstring) :=
  if (c =? ch "t")%N then Ok (9%N, s)
  else if (c =? ch "n")%N then Ok (10%N, s)
  else if (c =? ch "v")%N then Ok (11%N, s)
  else if (c =? ch "f")%N then Ok (12%N, s)
  else if (c =? ch "r")%N then Ok (13%N, s)
  else if (c =? ch "x")%N then
    match readHexN 2 s 0%N with
    | Some r => Ok r
    | None => if uMode e then Throw "Invalid escape" else Ok (c, s)
    end
  else if (c =? ch "u")%N then
    match s with
    | b :: s' =>
        if (b =? ch "{")%N && uMode e then
          match readHexBraced s' 0%N false with
          | Some (v, rest) =>
              if (v <=? 0x10FFFF)%N then Ok (v, rest) else Throw "Invalid Unicode escape"
          | None => Throw "Invalid Unicode escape"
          end
        else
          match readHexN 4 s 0%N with
          | Some (hi, rest) =>
              if uMode e && in_range 0xD800 0xDBFF hi then
                match rest with
                | b1 :: b2 :: rest' =>
                    if (b1 =? ch "\")%N && (b2 =? ch "u")%N then
                      match readHexN 4 rest' 0%N with
                      | Some (lo, rest'') =>
                          if in_range 0xDC00 0xDFFF lo
                          then Ok ((0x10000 + (hi - 0xD800) * 0x400 + (lo - 0xDC00))%N, rest'')
                          else Ok (hi, rest)
                      | None => Ok (hi, rest)
                      end
                    else Ok (hi, rest)
                | _ => Ok (hi, rest)
                end
              else Ok (hi, rest)
          | None => if uMode e then Throw "Invalid Unicode escape" else Ok (c, s)
          end
    | [] => if uMode e then Throw "Invalid Unicode escape" else Ok (c, s)
    end
  else if uMode e then
    (if isSyntaxChar c then Ok (c, s) else Throw "Invalid escape")
  else Ok (c, s).

Definition classEscapeSet (c : N) : option ClassItem :=
  if (c =? ch "d")%N then Some (CIDigit false)
  else if (c =? ch "D")%N then Some (CIDigit true)
  else if (c =? ch "s")%N then Some (CISpace false)
  else if (c =? ch "S")%N then Some (CISpace true)
  else if (c =? ch "w")%N then Some (CIWord false)
  else if (c =? ch "W")%N then Some (CIWord true)
  else None.

(** An atom of a character class: a single character or a set. *)
Definition parseClassAtom (e : Env) (s : jsstring) : result (ClassItem * jsstring) :=
  match s with
  | [] => Throw "Unterminated character class"
  | c :: s' =>
      if (c =? ch "\")%N then
        match s' with
        | [] => Throw "\ at end of pattern"
        | d :: s'' =>
            match classEscapeSet d with
            | Some it => Ok (it, s'')
            | None =>
                if (d =? ch "b")%N then Ok (CIChar 8%N, s'')
                else if (d =? ch "-")%N then Ok (CIChar d, s'')
                else if (d =? ch "c")%N then
                  match s'' with
                  | l :: s3 =>
                      if isUpper l || isLower l
                         || (negb (uMode e) && (isDigit l || (l =? ch "_")%N))
                      then Ok (CIChar (l mod 32)%N, s3)
                      else if uMode e then Throw "Invalid class escape"
                      else Ok (CIChar c, s')
                  | [] => if uMode e then Throw "Invalid class escape" else Ok (CIChar c, s')
                  end
                else if isDigit d then
                  if uMode e then
                    (if (d =? ch "0")%N && negb (nextIsDigit s'')
                     then Ok (CIChar 0%N, s'') else Throw "Invalid class escape")
                  else if isOctal d then
                    let '(v, rest) := readOctal s' in Ok (CIChar v, rest)
                  else Ok (CIChar d, s'')
                else
                  '(v, rest) <- parseCharEscape e d s'' ;; Ok (CIChar v, rest)
            end
        end
      else Ok (CIChar c, s')
  end.

Definition singleChar (it : ClassItem) : option N :=
  match it with
  | CIChar c => Some c
  | _ => None
  end.

(** The items of a class up to the closing bracket. *)
Fixpoint parseClassItems (fuel : nat) (e : Env) (s : jsstring) (acc : list ClassItem)
  : result (list ClassItem * jsstring) :=
  match fuel with
  | O => Throw "Unterminated character class"
  | S fuel' =>
      match s with
      | [] => Throw "Unterminated character class"
      | c :: s' =>
          if (c =? ch "]")%N then Ok (rev acc, s')
          else
            '(a, rest) <- parseClassAtom e s ;;
            match rest with
            | dash :: rest2 =>
                if (dash =? ch "-")%N && match rest2 with
                                         | r :: _ => negb (r =? ch "]")%N
                                         | [] => false
                                         end
                then
                  '(b, rest3) <- parseClassAtom e rest2 ;;
                  match singleChar a, singleChar b with
                  | Some lo, Some hi =>
                      if (hi <? lo)%N then Throw "Range out of order in character class"
                      else parseClassItems fuel' e rest3 (CIRange lo hi :: acc)
                  | _, _ =>
                      if uMode e then Throw "Invalid character class"
                      else parseClassItems fuel' e rest3 (b :: CIChar dash :: a :: acc)
                  end
                else parseClassItems fuel' e rest (a :: acc)
            | [] => Throw "Unterminated character class"
            end
      end
  end.

Definition parseClass (e : Env) (s : jsstring) : result (regex * jsstring) :=
  match s with
  | c :: s' =>
      if (c =? ch "^")%N
      then '(items, rest) <- parseClassItems (S (List.length s')) e s' [] ;; Ok (Class true items, rest)
      else '(items, rest) <- parseClassItems (S (List.length s)) e s [] ;; Ok (Class false items, rest)
  | [] => Throw "Unterminated character class"
  end.

(** A braced quantifier [{n}], [{n,}] or [{n,m}], after the opening
    brace. *)
Definition readBraces (s : jsstring) : option (result (nat * option nat) * jsstring) :=
  match readDecimal s with
  | None => None
  | Some (lo, s1) =>
      match s1 with
      | c :: s2 =>
          if (c =? ch "}")%N then Some (Ok (N.to_nat lo, Some (N.to_nat lo)), s2)
          else if (c =? ch ",")%N then
            match s2 with
            | c2 :: s3 =>
                if (c2 =? ch "}")%N then Some (Ok (N.to_nat lo, None), s3)
                else
                  match readDecimal s2 with
                  | Some (hi, s4) =>
                      match s4 with
                      | c3 :: s5 =>
                          if (c3 =? ch "}")%N then
                            Some (if (hi <? lo)%N
                                  then Throw "numbers out of order in {} quantifier"
                                  else Ok (N.to_nat lo, Some (N.to_nat hi)), s5)
                          else None
                      | [] => None
                      end
                  | None => None
                  end
            | [] => None
            end
          else None
      | [] => None
      end
  end.

(** The quantifier that follows an atom, if there is one. *)
Definition readQuantifier (e : Env) (s : jsstring)
  : result (option (nat * option nat * bool) * jsstring) :=
  let lazy (q : nat * option nat) (rest : jsstring) :=
    match rest with
    | c :: rest' =>
        if (c =? ch "?")%N then Ok (Some (q, false), rest') else Ok (Some (q, true), rest)
    | [] => Ok (Some (q, true), rest)
    end in
  match s with
  | c :: s' =>
      if (c =? ch "*")%N then lazy (0, None) s'
      else if (c =? ch "+")%N then lazy (1, None) s'
      else if (c =? ch "?")%N then lazy (0, Some 1) s'
      else if (c =? ch "{")%N then
        match readBraces s' with
        | Some (Ok q, rest) => lazy q rest
        | Some (Throw m, _) => Throw m
        | None => if uMode e then Throw "Incomplete quantifier" else Ok (None, s)
        end
      else Ok (None, s)
  | [] => Ok (None, s)
  end.

Definition startsQuantifier (s : jsstring) : bool :=
  match s with
  | c :: s' =>
      ((c =? ch "*") || (c =? ch "+") || (c =? ch "?"))%N
      || ((c =? ch "{")%N && match readBraces s' with Some _ => true | None => false end)
  | [] => false
  end.

Definition quantified (e : Env) (r : regex) (s : jsstring) : result (regex * jsstring) :=
  '(q, rest) <- readQuantifier e s ;;
  match q with
  | Some (lo, hi, greedy) => Ok (Quant lo hi greedy r, rest)
  | None => Ok (r, rest)
  end.

(** An assertion cannot be repeated. *)
Definition unquantified (r : regex) (s : jsstring) : result (regex * jsstring) :=
  if startsQuantifier s then Throw "Nothing to repeat" else Ok (r, s).

(** An escape in term position; [c] is the character after the backslash. *)
Definition parseAtomEscape (e : Env) (c : N) (s : jsstring) : result (regex * jsstring) :=
  if (c =? ch "b")%N then unquantified (WordBoundary false) s
  else if (c =? ch "B")%N then unquantified (WordBoundary true) s
  else
    match classEscapeSet c with
    | Some it => quantified e (Class false [it]) s
    | None =>
        if (c =? ch "0")%N && negb (nextIsDigit s) then
          quantified e (Chr 0%N) s
        else if isDigit c then
          let '(n, rest) := readDigitsAcc (c :: s) 0%N in
          if negb (c =? ch "0")%N && (N.to_nat n <=? nGroups e) then quantified e (Backref (N.to_nat n)) rest
          else if uMode e then Throw "Invalid escape"
          else if isOctal c then
            let '(v, rest') := readOctal (c :: s) in quantified e (Chr v) rest'
          else quantified e (Chr c) s
        else if (c =? ch "k")%N && (uMode e || hasNames e) then
          match s with
          | lt :: s' =>
              if (lt =? ch "<")%N then
                match readName s' with
                | Some (nm, rest) =>
                    match indexOfName nm (groupNames e) 1 with
                    | Some i => quantified e (Backref i) rest
                    | None => Throw "Invalid named capture referenced"
                    end
                | None => Throw "Invalid named reference"
                end
              else Throw "Invalid named reference"
          | [] => Throw "Invalid named reference"
          end
        else if (c =? ch "c")%N then
          match s with
          | l :: s' =>
              if isUpper l || isLower l then quantified e (Chr (l mod 32)%N) s'
              else if uMode e then Throw "Invalid unicode escape"
              else quantified e (Chr (ch "\")) (c :: s)
          | [] => if uMode e then Throw "Invalid unicode escape"
                  else quantified e (Chr (ch "\")) (c :: s)
          end
        else
          '(v, rest) <- parseCharEscape e c s ;; quantified e (Chr v) rest
    end.

(** Recursive descent over [Disjunction], [Alternative] and [Term].  The
    state threaded through is the index of the next capturing group. *)
Fixpoint parseDisjunction (fuel : nat) (e : Env) (next : nat) (s : jsstring)
  {struct fuel} : result (regex * nat * jsstring) :=
  match fuel with
  | O => Throw "Pattern too deeply nested"
  | S fuel' =>
      '(a, next1, rest) <- parseAlternative fuel' e next s ;;
      match rest with
      | c :: rest' =>
          if (c =? ch "|")%N then
            '(b, next2, rest2) <- parseDisjunction fuel' e next1 rest' ;;
            Ok (Alt a b, next2, rest2)
          else Ok (a, next1, rest)
      | [] => Ok (a, next1, rest)
      end
  end

with parseAlternative (fuel : nat) (e : Env) (next : nat) (s : jsstring)
  {struct fuel} : result (regex * nat * jsstring) :=
  match fuel with
  | O => Throw "Pattern too deeply nested"
  | S fuel' =>
      match s with
      | [] => Ok (Empty, next, s)
      | c :: _ =>
          if ((c =? ch "|") || (c =? ch ")"))%N then Ok (Empty, next, s)
          else
            '(t, next1, rest) <- parseTerm fuel' e next s ;;
            '(ts, next2, rest2) <- parseAlternative fuel' e next1 rest ;;
            Ok (match ts with Empty => t | _ => Seq t ts end, next2, rest2)
      end
  end

with parseTerm (fuel : nat) (e : Env) (next : nat) (s : jsstring)
  {struct fuel} : result (regex * nat * jsstring) :=
  let lift (next : nat) (m : result (regex * jsstring)) :=
    '(r, rest) <- m ;; Ok (r, next, rest) in
  let closing (rest : jsstring) (k : jsstring -> result (regex * nat * jsstring)) :=
    match rest with
    | c :: rest' => if (c =? ch ")")%N then k rest' else Throw "Unterminated group"
    | [] => Throw "Unterminated group"
    end in
  match fuel with
  | O => Throw "Pattern too deeply nested"
  | S fuel' =>
      match s with
      | [] => Ok (Empty, next, s)
      | c :: s' =>
          if (c =? ch "^")%N then lift next (unquantified Bol s')
          else if (c =? ch "$")%N then lift next (unquantified Eol s')
          else if (c =? ch ".")%N then lift next (quantified e Dot s')
          else if (c =? ch "\")%N then
            match s' with
            | d :: s'' => lift next (parseAtomEscape e d s'')
            | [] => Throw "\ at end of pattern"
            end
          else if (c =? ch "[")%N then
            lift next ('(r, rest) <- parseClass e s' ;; quantified e r rest)
          else if (c =? ch "(")%N then
            match s' with
            | q :: s2 =>
                if (q =? ch "?")%N then
                  match s2 with
                  | k :: s3 =>
                      if (k =? ch ":")%N then
                        '(r, next1, rest) <- parseDisjunction fuel' e next s3 ;;
                        closing rest (fun rest' => lift next1 (quantified e r rest'))
                      else if ((k =? ch "=") || (k =? ch "!"))%N then
                        '(r, next1, rest) <- parseDisjunction fuel' e next s3 ;;
                        closing rest (fun rest' =>
                          if uMode e
                          then lift next1 (unquantified (Lookahead (k =? ch "!")%N r) rest')
                          else lift next1 (quantified e (Lookahead (k =? ch "!")%N r) rest'))
                      else if (k =? ch "<")%N then
                        match readName s3 with
                        | Some (_, s4) =>
                            '(r, next1, rest) <- parseDisjunction fuel' e (S next) s4 ;;
                            closing rest (fun rest' => lift next1 (quantified e (Group next r) rest'))
                        | None =>
                            match s3 with
                            | b :: _ =>
                                if ((b =? ch "=") || (b =? ch "!"))%N
                                then Throw "Lookbehind is outside the modelled fragment"
                                else Throw "Invalid capture group name"
                            | [] => Throw "Invalid capture group name"
                            end
                        end
                      else Throw "Invalid group"
                  | [] => Throw "Invalid group"
                  end
                else
                  '(r, next1, rest) <- parseDisjunction fuel' e (S next) s' ;;
                  closing rest (fun rest' => lift next1 (quantified e (Group next r) rest'))
            | [] => Throw "Unterminated group"
            end
          else if ((c =? ch "*") || (c =? ch "+") || (c =? ch "?"))%N then
            Throw "Nothing to repeat"
          else if (c =? ch "{")%N then
            match readBraces s' with
            | Some _ => Throw "Nothing to repeat"
            | None => if uMode e then Throw "Lone quantifier brackets"
                      else lift next (quantified e (Chr c) s')
            end
          else if ((c =? ch "}") || (c =? ch "]"))%N && uMode e then
            Throw "Lone quantifier brackets"
          else lift next (quantified e (Chr c) s')
      end
  end.

Definition parseFuel (s : jsstring) : nat := 4 + 4 * List.length s.

(** The pattern text as a syntax tree, or the [SyntaxError]. *)
Definition parsePattern (u : bool) (s : jsstring) : result (regex * list (option jsstring)) :=
  let e := mkEnv u (scanGroups false s) in
  '(r, _, rest) <- parseDisjunction (parseFuel s) e 1 s ;;
  match rest with
  | [] => Ok (r, groupNames e)
  | _ => Throw "Unmatched ')'"
  end.


(** *** The [RegExp] object and the string methods that take one *)

Record RegExp := mkRegExp {
  source : jsstring;
  flags : Flags;
  tree : regex;
  groups : list (option jsstring)
}.

(** The flags of ECMAScript 2022, each at most once.  The flag [v] of
    ECMAScript 2024 (unicode sets), which gives character classes
    another grammar, is not part of this model: it is answered as by an
    engine that does not know it, with a [SyntaxError]. *)
Definition setFlag (fl : Flags) (c : N) : option Flags :=
  let fresh (b : bool) (fl' : Flags) := if b then None else Some fl' in
  match fl with
  | mkFlags g i m s u y d =>
      if (c =? ch "g")%N then fresh g (mkFlags true i m s u y d)
      else if (c =? ch "i")%N then fresh i (mkFlags g true m s u y d)
      else if (c =? ch "m")%N then fresh m (mkFlags g i true s u y d)
      else if (c =? ch "s")%N then fresh s (mkFlags g i m true u y d)
      else if (c =? ch "u")%N then fresh u (mkFlags g i m s true y d)
      else if (c =? ch "y")%N then fresh y (mkFlags g i m s u true d)
      else if (c =? ch "d")%N then fresh d (mkFlags g i m s u y true)
      else None
  end.

Fixpoint parseFlagsFrom (fl : Flags) (s : jsstring) : result Flags :=
  match s with
  | [] => Ok fl
  | c :: s' =>
      match setFlag fl c with
      | Some fl' => parseFlagsFrom fl' s'
      | None => Throw "Invalid flags supplied to RegExp constructor"
      end
  end.

Definition parseFlags (s : jsstring) : result Flags := parseFlagsFrom noFlags s.

(** With the [u] flag the pattern and the input are read as code points. *)
Definition view (fl : Flags) (s : jsstring) : list N :=
  if unicode fl then decode s else s.

Definition unview (fl : Flags) (s : list N) : jsstring :=
  if unicode fl then encode s else s.

(** [new RegExp(pattern, flags)]: the compiled expression, or the
    [SyntaxError] it throws. *)
Definition RegExp_new (pattern : jsstring) (fs : option jsstring) : result RegExp :=
  fl <- parseFlags (match fs with Some f => f | None => [] end) ;;
  '(r, gs) <- parsePattern (unicode fl) (view fl pattern) ;;
  Ok (mkRegExp pattern fl r gs).

(** A successful match: the text before it (reversed), the matched text,
    the text after it, and the captures. *)
Record Match := mkMatch {
  rbefore : jsstring;
  matched : jsstring;
  rest : jsstring;
  captures : list (nat * jsstring)
}.

(** The match that starts exactly at the current position. *)
Definition matchAt (rx : RegExp) (rp sf : jsstring) : option Match :=
  match matcher (flags rx) (tree rx) (mkState rp sf []) (fun y => Some y) with
  | Some y => Some (mkMatch rp (firstn (List.length sf - List.length (suf y)) sf) (suf y) (caps y))
  | None => None
  end.

(** The leftmost match at or after the current position, with the text
    that was skipped to reach it.  A sticky expression matches at the
    current position only. *)
Fixpoint search (rx : RegExp) (rp sf : jsstring) {struct sf} : option (jsstring * Match) :=
  match matchAt rx rp sf with
  | Some m => Some ([], m)
  | None =>
      if sticky (flags rx) then None
      else match sf with
           | [] => None
           | a :: sf' =>
               match search rx (a :: rp) sf' with
               | Some (sk, m) => Some (a :: sk, m)
               | None => None
               end
           end
  end.

(** [regex.test(input)] on a freshly created expression. *)
Definition test (rx : RegExp) (input : jsstring) : bool :=
  match search rx [] (view (flags rx) input) with
  | Some _ => true
  | None => false
  end.

(** [regex.exec(input)] on a freshly created expression. *)
Definition exec (rx : RegExp) (input : jsstring) : option Match :=
  option_map snd (search rx [] (view (flags rx) input)).

(** The text of capture [i] of a match; undefined captures read as the
    empty text. *)
Definition group (rx : RegExp) (m : Match) (i : nat) : jsstring :=
  match getCap i (captures m) with
  | Some s => unview (flags rx) s
  | None => []
  end.

(** The successive matches of a global expression: after a match the
    search resumes at its end, one character further when the match was
    empty. *)
Fixpoint matchLoop (fuel : nat) (rx : RegExp) (rp sf : jsstring) : list Match :=
  match fuel with
  | O => []
  | S fuel' =>
      match search rx rp sf with
      | None => []
      | Some (sk, m) =>
          m :: match matched m with
               | [] => match rest m with
                       | [] => []
                       | a :: sf' => matchLoop fuel' rx (a :: rbefore m) sf'
                       end
               | _ => matchLoop fuel' rx (rev (matched m) ++ rbefore m) (rest m)
               end
      end
  end.

(** [input.match(regex)] for a global expression, with [null] read as
    the empty list. *)
Definition matchAll (rx : RegExp) (input : jsstring) : list Match :=
  let s := view (flags rx) input in
  matchLoop (S (List.length s)) rx [] s.

(** [GetSubstitution]: the replacement template with [$$], [$&], the
    text before and after the match, [$n], [$nn] and [$<name>] expanded. *)
Fixpoint substitute (rx : RegExp) (m : Match) (template : list N) : list N :=
  let ngroups := List.length (groups rx) in
  let capture (i : nat) := match getCap i (captures m) with Some s => s | None => [] end in
  match template with
  | [] => []
  | c :: t =>
      if negb (c =? ch "$")%N then c :: substitute rx m t
      else
        match t with
        | [] => [c]
        | d :: t' =>
            if (d =? ch "$")%N then d :: substitute rx m t'
            else if (d =? ch "&")%N then matched m ++ substitute rx m t'
            else if (d =? ch "`")%N then rev (rbefore m) ++ substitute rx m t'
            else if (d =? ch "'")%N then rest m ++ substitute rx m t'
            else if isDigit d then
              let one := N.to_nat (d - 48) in
              match t' with
              | d2 :: t'' =>
                  let two := one * 10 + N.to_nat (d2 - 48) in
                  if isDigit d2 && (1 <=? two) && (two <=? ngroups)
                  then capture two ++ substitute rx m t''
                  else if (1 <=? one) && (one <=? ngroups)
                       then capture one ++ substitute rx m t'
                       else c :: substitute rx m t
              | [] =>
                  if (1 <=? one) && (one <=? ngroups)
                  then capture one
                  else c :: substitute rx m t
              end
            else if (d =? ch "<")%N && existsb (fun o => match o with Some _ => true | None => false end) (groups rx) then
              match readNameAcc t' [] with
              | Some (nm, _) =>
                  match indexOfName nm (groups rx) 1 with
                  | Some i => capture i
                  | None => []
                  end
                  ++ (fix afterName (u : list N) : list N :=
                        match u with
                        | [] => []
                        | g :: u' => if (g =? ch ">")%N then substitute rx m u' else afterName u'
                        end) t'
              | None => c :: substitute rx m t
              end
            else c :: substitute rx m t
        end
  end.

(** The scan of [String.prototype.replace] for a global expression:
    skipped text is copied, every match is replaced by [repl]. *)
Fixpoint replaceLoop (fuel : nat) (rx : RegExp) (repl : Match -> list N)
  (rp sf : jsstring) : list N :=
  match fuel with
  | O => sf
  | S fuel' =>
      match search rx rp sf with
      | None => sf
      | Some (sk, m) =>
          sk ++ repl m ++
          match matched m with
          | [] => match rest m with
                  | [] => []
                  | a :: sf' => a :: replaceLoop fuel' rx repl (a :: rbefore m) sf'
                  end
          | _ => replaceLoop fuel' rx repl (rev (matched m) ++ rbefore m) (rest m)
          end
      end
  end.

(** [input.replace(regex, f)] in the matcher's view of the text: all
    matches with the [g] flag, the first one without. *)
Definition replaceWith (rx : RegExp) (repl : Match -> list N) (s : list N) : list N :=
  if global (flags rx)
  then replaceLoop (S (List.length s)) rx repl [] s
  else match search rx [] s with
       | None => s
       | Some (sk, m) => sk ++ repl m ++ rest m
       end.

(** [input.replace(regex, replacement)] with a replacement template. *)
Definition replace (rx : RegExp) (input replacement : jsstring) : jsstring :=
  let fl := flags rx in
  unview fl (replaceWith rx (fun m => substitute rx m (view fl replacement)) (view fl input)).

(** [input.replace(regex, f)] with a replacer function of the matched
    text. *)
Definition replaceFn (rx : RegExp) (input : jsstring) (f : jsstring -> jsstring) : jsstring :=
  let fl := flags rx in
  unview fl (replaceWith rx (fun m => view fl (f (unview fl (matched m)))) (view fl input)).

(** [input.replace(regex, f)] with a replacer of the first capture. *)
Definition replaceFn1 (rx : RegExp) (input : jsstring) (f : jsstring -> jsstring) : jsstring :=
  let fl := flags rx in
  unview fl (replaceWith rx (fun m => view fl (f (group rx m 1))) (view fl input)).

(** A regular expression literal of the source: its text and flags.
    Every literal below compiles; should one not, the literal would
    stand for an expression that matches nothing. *)
Definition literal (src fs : string) : RegExp :=
  match RegExp_new (lit src) (Some (lit fs)) with
  | Ok rx => rx
  | Throw _ => mkRegExp (lit src) noFlags (Class false []) []
  end.

End RegExp.

Import JS.
Import RegExp.

(* ================================================================= *)
(** ** Arrays *)

Module JSArray.
Import Num.

(** [SortCompare]: a comparator result of NaN counts as [+0]. *)
Definition sortCompare {A} (cmp : A -> A -> number) (x y : A) : number :=
  match cmp x y with
  | NaN => Fin 0%Q
  | v => v
  end.

Fixpoint insertSorted {A} (cmp : A -> A -> number) (x : A) (l : list A) : list A :=
  match l with
  | [] => [x]
  | y :: l' =>
      if ltb (Fin 0%Q) (sortCompare cmp x y) then y :: insertSorted cmp x l'
      else x :: l
  end.

(** [Array.prototype.sort(cmp)].  The sort is stable; for a consistent
    comparator the sorted array is then unique, and it is computed here
    by insertion from the right, an element being placed before the
    elements it does not compare greater than. *)
Definition sort {A} (cmp : A -> A -> number) (l : list A) : list A :=
  fold_right (insertSorted cmp) [] l.

End JSArray.

(* ================================================================= *)
(** ** types/settings.ts *)

Module Settings.

Inductive RuleDirection := FolderToTag | TagToFolder | Bidirectional.

Definition RuleDirection_eqb (a b : RuleDirection) : bool :=
  match a, b with
  | FolderToTag, FolderToTag | TagToFolder, TagToFolder | Bidirectional, Bidirectional => true
  | _, _ => false
  end.

Inductive CaseTransformType :=
| CaseNone | SnakeCase | KebabCase | CamelCase | PascalCase | TitleCase | LowerCase | UpperCase.

(** The string each member of the union stands for. *)
Definition caseName (t : CaseTransformType) : jsstring :=
  match t with
  | CaseNone => lit "none"
  | SnakeCase => lit "snake_case"
  | KebabCase => lit "kebab-case"
  | CamelCase => lit "camelCase"
  | PascalCase => lit "PascalCase"
  | TitleCase => lit "Title Case"
  | LowerCase => lit "lowercase"
  | UpperCase => lit "UPPERCASE"
  end.

Inductive EmojiHandling := EmojiKeep | EmojiStrip.

Inductive NumberHandling := NumberKeep | NumberStrip | NumberExtract.

Record RegexTransform := mkRegexTransform {
  pattern : jsstring;
  replacement : jsstring;
  flags : option jsstring
}.

Record TransformConfig := mkTransformConfig {
  caseTransform : option CaseTransformType;
  emojiHandling : option EmojiHandling;
  numberPrefixHandling : option NumberHandling;
  customTransforms : option (list RegexTransform)
}.

Inductive ConflictPolicy := Prompt | AutoResolve | Skip.
Inductive TagSpecificity := Broader | Narrower.

Record RuleOptions := mkRuleOptions {
  createFolders : bool;
  addTags : bool;
  removeOrphanedTags : bool;
  syncOnFileCreate : bool;
  syncOnFileMove : bool;
  syncOnFileRename : bool;
  onConflict : option ConflictPolicy;
  tagSpecificity : option TagSpecificity;
  removeSourceTag : option bool;
  keepDestinationTag : option bool;
  keepRelationTags : option bool;
  handleFolderNote : option bool;
  moveAttachments : option bool
}.

Record MappingRule := mkMappingRule {
  id : jsstring;
  name : jsstring;
  description : option jsstring;
  enabled : bool;
  priority : Z;
  direction : RuleDirection;
  folderPattern : option jsstring;
  folderEntryPoint : option jsstring;
  folderTransforms : option TransformConfig;
  tagPattern : option jsstring;
  tagEntryPoint : option jsstring;
  tagTransforms : option TransformConfig;
  options : RuleOptions
}.

(** Truthiness of an optional string: present and not empty. *)
Definition present (o : option jsstring) : bool :=
  match o with
  | Some (_ :: _) => true
  | _ => false
  end.

(** Truthiness of an optional boolean. *)
Definition isTrue (o : option bool) : bool :=
  match o with
  | Some true => true
  | _ => false
  end.

End Settings.

Import Settings.

(* ================================================================= *)
(** ** transformers/caseTransformers.ts *)

Module CaseTransformers.

Definition toSnakeCase (input : jsstring) : jsstring :=
  let s := replace (literal "([A-Z])" "g") input (lit "_$1") in
  let s := replace (literal "[\s\-]+" "g") s (lit "_") in
  let s := toLowerCase s in
  let s := replace (literal "^_" "") s (lit "") in
  replace (literal "_+" "g") s (lit "_").

Definition toTitleCase (input : jsstring) : jsstring :=
  let s := replace (literal "[_\-]+" "g") input (lit " ") in
  let s := replaceFn (literal "\b\w" "g") s toUpperCase in
  let s := replace (literal "\s+" "g") s (lit " ") in
  trim s.

Definition toKebabCase (input : jsstring) : jsstring :=
  let s := replace (literal "([A-Z])" "g") input (lit "-$1") in
  let s := replace (literal "[\s_]+" "g") s (lit "-") in
  let s := toLowerCase s in
  let s := replace (literal "^-" "") s (lit "") in
  replace (literal "-+" "g") s (lit "-").

Definition toCamelCase (input : jsstring) : jsstring :=
  let s := replaceFn1 (literal "[\s_\-]+(.)" "g") input toUpperCase in
  replaceFn (literal "^(.)" "") s toLowerCase.

Definition toPascalCase (input : jsstring) : jsstring :=
  let s := replaceFn1 (literal "[\s_\-]+(.)" "g") input toUpperCase in
  replaceFn (literal "^(.)" "") s toUpperCase.

(** The [switch] on the transform name; unknown names leave the input
    unchanged. *)
Definition applyCaseTransform (input transformType : jsstring) : jsstring :=
  if JS.eqb transformType (lit "snake_case") then toSnakeCase input
  else if JS.eqb transformType (lit "Title Case") then toTitleCase input
  else if JS.eqb transformType (lit "kebab-case") then toKebabCase input
  else if JS.eqb transformType (lit "camelCase") then toCamelCase input
  else if JS.eqb transformType (lit "PascalCase") then toPascalCase input
  else if JS.eqb transformType (lit "lowercase") then toLowerCase input
  else if JS.eqb transformType (lit "UPPERCASE") then toUpperCase input
  else input.

Definition applyCaseTransformToPath (input transformType : jsstring) : jsstring :=
  join (lit "/") (map (fun segment => applyCaseTransform segment transformType)
                      (split (ch "/") input)).

End CaseTransformers.

(* ================================================================= *)
(** ** transformers/emojiTransformers.ts *)

Module EmojiTransformers.

Definition stripEmoji (input : jsstring) : jsstring :=
  let s := replace (literal "[\u{1F600}-\u{1F64F}]" "gu") input [] in
  let s := replace (literal "[\u{1F300}-\u{1F5FF}]" "gu") s [] in
  let s := replace (literal "[\u{1F680}-\u{1F6FF}]" "gu") s [] in
  let s := replace (literal "[\u{1F1E0}-\u{1F1FF}]" "gu") s [] in
  let s := replace (literal "[\u{2600}-\u{26FF}]" "gu") s [] in
  let s := replace (literal "[\u{2700}-\u{27BF}]" "gu") s [] in
  let s := replace (literal "[\u{1F900}-\u{1F9FF}]" "gu") s [] in
  let s := replace (literal "[\u{1FA00}-\u{1FA6F}]" "gu") s [] in
  let s := replace (literal "[\u{1FA70}-\u{1FAFF}]" "gu") s [] in
  let s := replace (literal "[\u{FE00}-\u{FE0F}]" "gu") s [] in
  let s := replace (literal "[\u{1F000}-\u{1F02F}]" "gu") s [] in
  let s := replace (literal "[\u{2B00}-\u{2BFF}]" "gu") s [] in
  let s := replace (literal "\s+" "g") s (lit " ") in
  trim s.

Definition containsEmoji (input : jsstring) : bool :=
  let emojiRegex := literal "[\u{1F600}-\u{1F64F}\u{1F300}-\u{1F5FF}\u{1F680}-\u{1F6FF}\u{1F1E0}-\u{1F1FF}\u{2600}-\u{26FF}\u{2700}-\u{27BF}\u{1F900}-\u{1F9FF}\u{1FA00}-\u{1FA6F}\u{1FA70}-\u{1FAFF}\u{2B00}-\u{2BFF}]" "u" in
  test emojiRegex input.

(** [input.match(emojiRegex) || []]: the matched texts. *)
Definition extractEmoji (input : jsstring) : list jsstring :=
  let emojiRegex := literal "([\u{1F600}-\u{1F64F}\u{1F300}-\u{1F5FF}\u{1F680}-\u{1F6FF}\u{1F1E0}-\u{1F1FF}\u{2600}-\u{26FF}\u{2700}-\u{27BF}\u{1F900}-\u{1F9FF}\u{1FA00}-\u{1FA6F}\u{1FA70}-\u{1FAFF}\u{2B00}-\u{2BFF}][\u{FE00}-\u{FE0F}]?)" "gu" in
  map (fun m => unview (RegExp.flags emojiRegex) (matched m)) (matchAll emojiRegex input).

Definition stripInvalidTagChars (input : jsstring) : jsstring :=
  replace (literal "[.:;,?!@\\]" "g") input [].

Definition applyEmojiHandling (input : jsstring) (handling : EmojiHandling) : jsstring :=
  match handling with
  | EmojiStrip => stripEmoji input
  | EmojiKeep => input
  end.

End EmojiTransformers.

(* ================================================================= *)
(** ** transformers/numberTransformers.ts *)

Module NumberTransformers.

Record NumberPrefixResult := mkNumberPrefixResult {
  number : option jsstring;
  name : jsstring;
  fullMatch : bool
}.

Definition extractNumberPrefix (input : jsstring) : NumberPrefixResult :=
  let johnny := literal "^(\d+)\s*-\s*(.+)$" "" in
  match exec johnny input with
  | Some m => mkNumberPrefixResult (Some (group johnny m 1)) (trim (group johnny m 2)) true
  | None =>
      let simple := literal "^(\d+)\.?\s+(.+)$" "" in
      match exec simple input with
      | Some m => mkNumberPrefixResult (Some (group simple m 1)) (trim (group simple m 2)) true
      | None => mkNumberPrefixResult None input false
      end
  end.

Definition stripNumberPrefix (input : jsstring) : jsstring :=
  name (extractNumberPrefix input).

Inductive PrefixFormat := JohnnyDecimal | Simple.

(** The format defaults to [johnny-decimal]. *)
Definition addNumberPrefix (name number : jsstring) (format : option PrefixFormat) : jsstring :=
  match format with
  | Some Simple => number ++ lit " " ++ name
  | _ => number ++ lit " - " ++ name
  end.

Definition hasNumberPrefix (input : jsstring) : bool :=
  fullMatch (extractNumberPrefix input).

(** The pad length defaults to 2. *)
Definition normalizeNumberPrefix (input : jsstring) (padLength : option nat) : jsstring :=
  let result := extractNumberPrefix input in
  if negb (fullMatch result) || negb (present (number result)) then input
  else
    let paddedNumber :=
      padStart (match number result with Some n => n | None => [] end)
               (match padLength with Some n => n | None => 2 end) (ch "0") in
    addNumberPrefix (name result) paddedNumber None.

(** The result of [applyNumberHandling] is a string or, for [extract],
    the extraction record. *)
Definition applyNumberHandling (input : jsstring) (handling : NumberHandling)
  : jsstring + NumberPrefixResult :=
  match handling with
  | NumberStrip => inl (stripNumberPrefix input)
  | NumberExtract => inr (extractNumberPrefix input)
  | NumberKeep => inl input
  end.

End NumberTransformers.

(* ================================================================= *)
(** ** transformers/regexTransformers.ts *)

Module RegexTransformers.

(** [transform.flags || 'g']: an absent or empty flags string gives [g]. *)
Definition flagsOrG (fs : option jsstring) : jsstring :=
  match fs with
  | Some (c :: f) => c :: f
  | _ => lit "g"
  end.

Definition applyRegexTransform (input : jsstring) (transform : RegexTransform) : jsstring :=
  match RegExp_new (pattern transform) (Some (flagsOrG (Settings.flags transform))) with
  | Ok regex => replace regex input (replacement transform)
  | Throw _ => input
  end.

Definition applyRegexTransforms (input : jsstring) (transforms : list RegexTransform) : jsstring :=
  fold_left applyRegexTransform transforms input.


Definition matchesPattern (input pattern : jsstring) (flags : option jsstring) : bool :=
  match RegExp_new pattern flags with
  | Ok regex => test regex input
  | Throw _ => false
  end.

(** The object [match.groups]: undefined when the expression has no
    named group, otherwise each name with its capture. *)
Definition namedGroups (regex : RegExp) (m : Match)
  : option (list (jsstring * option jsstring)) :=
  let named :=
    flat_map (fun p => match snd p with
                       | Some nm => [(nm, option_map (unview (RegExp.flags regex))
                                                    (getCap (fst p) (captures m)))]
                       | None => []
                       end)
             (combine (seq 1 (List.length (groups regex))) (groups regex)) in
  match named with
  | [] => None
  | _ => Some named
  end.

(** [input.match(regex)] as an array: with the [g] flag the matched
    texts, without it the matched text followed by the captures. *)
Definition matchArray (regex : RegExp) (input : jsstring) : option (list (option jsstring)) :=
  let fl := RegExp.flags regex in
  if global fl then
    match matchAll regex input with
    | [] => None
    | ms => Some (map (fun m => Some (unview fl (matched m))) ms)
    end
  else
    match exec regex input with
    | None => None
    | Some m =>
        Some (Some (unview fl (matched m))
              :: map (fun i => option_map (unview fl) (getCap i (captures m)))
                     (seq 1 (List.length (groups regex))))
    end.

Record CaptureGroups := mkCaptureGroups {
  cgGroups : option (list (jsstring * option jsstring));
  cgMatches : list (option jsstring)
}.

Definition extractCaptureGroups (input pattern : jsstring) (flags : option jsstring)
  : option CaptureGroups :=
  match RegExp_new pattern flags with
  | Ok regex =>
      match matchArray regex input with
      | None => None
      | Some arr =>
          Some (mkCaptureGroups
                  (if global (RegExp.flags regex) then None
                   else match exec regex input with
                        | Some m => namedGroups regex m
                        | None => None
                        end)
                  arr)
      end
  | Throw _ => None
  end.

Definition DOUBLE_STAR_PLACEHOLDER : jsstring := [0%N] ++ lit "DOUBLESTAR" ++ [0%N].
Definition PATH_SEG_PLACEHOLDER : jsstring := [0%N] ++ lit "PATHSEG" ++ [0%N].
Definition START_PATH_SEG_PLACEHOLDER : jsstring := [0%N] ++ lit "STARTPATHSEG" ++ [0%N].

(** [new RegExp(placeholder, 'g')] *)
Definition placeholderRegExp (p : jsstring) : RegExp :=
  match RegExp_new p (Some (lit "g")) with
  | Ok rx => rx
  | Throw _ => mkRegExp p noFlags (Class false []) []
  end.

Definition globToRegex (glob : jsstring) : jsstring :=
  let regex := glob in
  let regex := replace (literal "[.+^${}()|[\]\\]" "g") regex (lit "\$&") in
  let regex := replace (literal "\/\*\*\/" "g") regex PATH_SEG_PLACEHOLDER in
  let regex := replace (literal "\/\*\*$" "g") regex (lit "/" ++ DOUBLE_STAR_PLACEHOLDER) in
  let regex := replace (literal "^\*\*\/" "g") regex START_PATH_SEG_PLACEHOLDER in
  let regex := replace (literal "\*\*" "g") regex DOUBLE_STAR_PLACEHOLDER in
  let regex := replace (literal "\*" "g") regex (lit "[^/]*") in
  let regex := replace (literal "\?" "g") regex (lit ".") in
  let regex := replace (placeholderRegExp DOUBLE_STAR_PLACEHOLDER) regex (lit ".*") in
  let regex := replace (placeholderRegExp PATH_SEG_PLACEHOLDER) regex (lit "(?:/[^/]+)*/") in
  let regex := replace (placeholderRegExp START_PATH_SEG_PLACEHOLDER) regex (lit "(?:[^/]+/)*") in
  lit "^" ++ regex ++ lit "$".

Definition isGlobPattern (pattern : jsstring) : bool :=
  test (literal "[*?]" "") pattern.

Definition patternToRegex (pattern : jsstring) : result RegExp :=
  if isGlobPattern pattern
  then RegExp_new (globToRegex pattern) None
  else RegExp_new pattern None.

End RegexTransformers.

Import CaseTransformers EmojiTransformers NumberTransformers RegexTransformers.

(* ================================================================= *)
(** ** transformers/pipeline.ts *)

Module Pipeline.

Record PipelineOptions := mkPipelineOptions {
  isTagTransform : option bool;
  preserveOnError : option bool
}.

Definition defaultOptions : PipelineOptions := mkPipelineOptions None None.

(** The functions the pipeline calls.  A call may throw, so each is taken
    with a result that is either a value or an exception. *)
Record Callees := mkCallees {
  call_applyEmojiHandling : jsstring -> EmojiHandling -> result jsstring;
  call_stripNumberPrefix : jsstring -> result jsstring;
  call_applyNumberHandling : jsstring -> NumberHandling -> result (jsstring + NumberPrefixResult);
  call_applyCaseTransformToPath : jsstring -> jsstring -> result jsstring;
  call_applyRegexTransforms : jsstring -> list RegexTransform -> result jsstring;
  call_stripInvalidTagChars : jsstring -> result jsstring
}.

(** The transformers of the source: none of them throws. *)
Definition sourceCallees : Callees := {|
  call_applyEmojiHandling := fun s h => Ok (applyEmojiHandling s h);
  call_stripNumberPrefix := fun s => Ok (stripNumberPrefix s);
  call_applyNumberHandling := fun s h => Ok (applyNumberHandling s h);
  call_applyCaseTransformToPath := fun s t => Ok (applyCaseTransformToPath s t);
  call_applyRegexTransforms := fun s ts => Ok (applyRegexTransforms s ts);
  call_stripInvalidTagChars := fun s => Ok (stripInvalidTagChars s)
|}.

(** A statement of the [try] block: it reads and updates the variable
    [result] and either completes or throws, leaving [result] as it was
    when the exception was raised. *)
Definition Block (A : Type) := jsstring -> result A * jsstring.

Definition skip : Block unit := fun r => (Ok tt, r).

(** [result = call(result)] *)
Definition assign (call : jsstring -> result jsstring) : Block unit :=
  fun r => match call r with
           | Ok v => (Ok tt, v)
           | Throw e => (Throw e, r)
           end.

Definition andThen {A} (a : Block unit) (b : Block A) : Block A :=
  fun r => match a r with
           | (Ok _, r') => b r'
           | (Throw e, r') => (Throw e, r')
           end.

Notation "a ;;; b" := (andThen a b) (at level 62, right associativity).

(** [return result.trim()] *)
Definition returnTrimmed : Block jsstring := fun r => (Ok (trim r), r).

(** For [extract], the name replaces the result when it is a non-empty
    string. *)
Definition extractedName (r : jsstring) (extracted : jsstring + NumberPrefixResult) : jsstring :=
  match extracted with
  | inr e => match NumberTransformers.name e with
             | [] => r
             | n => n
             end
  | inl _ => r
  end.

Definition tryBlock (c : Callees) (config : TransformConfig) (options : PipelineOptions)
  : Block jsstring :=
  (match emojiHandling config with
   | Some h => assign (fun r => call_applyEmojiHandling c r h)
   | None => skip
   end) ;;;
  (match numberPrefixHandling config with
   | Some NumberStrip => assign (call_stripNumberPrefix c)
   | Some NumberExtract =>
       assign (fun r => extracted <- call_applyNumberHandling c r NumberExtract ;;
                        Ok (extractedName r extracted))
   | _ => skip
   end) ;;;
  (match caseTransform config with
   | Some CaseNone | None => skip
   | Some t => assign (fun r => call_applyCaseTransformToPath c r (caseName t))
   end) ;;;
  (match customTransforms config with
   | Some (t :: ts) => assign (fun r => call_applyRegexTransforms c r (t :: ts))
   | _ => skip
   end) ;;;
  (if isTrue (isTagTransform options)
   then assign (call_stripInvalidTagChars c)
   else skip) ;;;
  returnTrimmed.

(** [applyTransformPipeline] over arbitrary callees: the completion of
    the call.  The [catch] clause returns the input or the current value
    of [result]. *)
Definition applyTransformPipelineWith (c : Callees) (input : jsstring)
  (config : TransformConfig) (options : PipelineOptions) : result jsstring :=
  let result := trim input in
  match tryBlock c config options result with
  | (Ok v, _) => Ok v
  | (Throw _, result) => Ok (if isTrue (preserveOnError options) then input else result)
  end.

Definition valueOf (r : result jsstring) : jsstring :=
  match r with
  | Ok v => v
  | Throw _ => []
  end.

Definition applyTransformPipeline (input : jsstring) (config : TransformConfig)
  (options : PipelineOptions) : jsstring :=
  valueOf (applyTransformPipelineWith sourceCallees input config options).

Definition folderToTag (folderPath : jsstring) (config : TransformConfig) : jsstring :=
  applyTransformPipeline folderPath config (mkPipelineOptions (Some true) None).

Definition tagToFolder (tagName : jsstring) (config : TransformConfig) : jsstring :=
  applyTransformPipeline tagName config (mkPipelineOptions (Some false) None).

Definition createBidirectionalMapping (input : jsstring)
  (folderConfig tagConfig : TransformConfig) : jsstring * jsstring :=
  (tagToFolder input folderConfig, folderToTag input tagConfig).

(** [isTransformReversible]: the flag and the warnings. *)
Definition isTransformReversible (config : TransformConfig) : bool * list jsstring :=
  let w1 := match emojiHandling config with
            | Some EmojiStrip => [lit "Emoji stripping is not reversible"]
            | _ => []
            end in
  let w2 := match numberPrefixHandling config with
            | Some NumberStrip | Some NumberExtract => [lit "Number prefix removal is not reversible"]
            | _ => []
            end in
  let w3 := match caseTransform config with
            | None | Some CaseNone | Some TitleCase => []
            | Some t => [lit "Case transformation to " ++ caseName t
                         ++ lit " may not preserve original casing"]
            end in
  let w4 := match customTransforms config with
            | Some (_ :: _) => [lit "Custom regex transformations may not be reversible"]
            | _ => []
            end in
  (match w1, w2, w4 with [], [], [] => true | _, _, _ => false end, w1 ++ w2 ++ w3 ++ w4).

End Pipeline.

Import Pipeline.

(* ================================================================= *)
(** ** engine/ruleMatcher.ts *)

Module RuleMatcher.
Import Num.

Inductive MatchType := Folder | Tag.

Record RuleMatch := mkRuleMatch {
  rule : MappingRule;
  matchType : MatchType;
  matchedPattern : jsstring;
  confidence : number
}.

Record RuleEvaluationContext := mkContext {
  ctxInput : jsstring;
  ctxMatchType : MatchType;
  ctxDirection : option RuleDirection;
  includeDisabled : option bool
}.

(** [(s.match(re) || []).length] for a global expression *)
Definition countMatches (re : RegExp) (s : jsstring) : nat :=
  List.length (matchAll re s).

Definition calculateMatchConfidence (input pattern : jsstring) : number :=
  let confidence := Fin (1 # 2) in
  if JS.eqb pattern input then Fin 1
  else
    let wildcardCount := countMatches (literal "\*" "g") pattern in
    let questionMarkCount := countMatches (literal "\?" "g") pattern in
    let confidence := sub confidence (mul (ofNat wildcardCount) (ofQ (1 # 10))) in
    let confidence := sub confidence (mul (ofNat questionMarkCount) (ofQ (1 # 20))) in
    let patternLength := List.length (replace (literal "[*?]" "g") pattern []) in
    let lengthRatio := div (ofNat patternLength) (ofNat (List.length input)) in
    let confidence := add confidence (mul lengthRatio (ofQ (1 # 5))) in
    let slashCount := countMatches (literal "\/" "g") pattern in
    let confidence := add confidence (mul (ofNat slashCount) (ofQ (1 # 20))) in
    max (Fin 0) (min (Fin 1) confidence).

(** The pattern field selected by the match type. *)
Definition selectedPattern (rule : MappingRule) (t : MatchType) : option jsstring :=
  match t with
  | Folder => folderPattern rule
  | Tag => tagPattern rule
  end.

Definition directionExcluded (rule : MappingRule) (context : RuleEvaluationContext) : bool :=
  match ctxDirection context with
  | Some d => negb (RuleDirection_eqb (direction rule) Bidirectional)
              && negb (RuleDirection_eqb (direction rule) d)
  | None => false
  end.

Definition evaluateRule (input : jsstring) (rule : MappingRule)
  (context : RuleEvaluationContext) : option RuleMatch :=
  if negb (enabled rule) && negb (isTrue (includeDisabled context)) then None
  else if directionExcluded rule context then None
  else
    match selectedPattern rule (ctxMatchType context) with
    | Some (c :: p) =>
        let pattern := c :: p in
        if negb (matchesPattern input pattern None) then None
        else
          let confidence := calculateMatchConfidence input pattern in
          Some (mkRuleMatch rule (ctxMatchType context) pattern confidence)
    | _ => None
    end.

Definition findMatchingRules (input : jsstring) (rules : list MappingRule)
  (context : RuleEvaluationContext) : list RuleMatch :=
  fold_left (fun matches rule =>
               match evaluateRule input rule context with
               | Some m => matches ++ [m]
               | None => matches
               end) rules [].

(** The comparator of [findBestMatch]. *)
Definition compareMatches (a b : RuleMatch) : number :=
  if negb (priority (rule a) =? priority (rule b))%Z
  then ofZ (priority (rule a) - priority (rule b))
  else sub (confidence b) (confidence a).

Definition findBestMatch (input : jsstring) (rules : list MappingRule)
  (context : RuleEvaluationContext) : option RuleMatch :=
  let matches := findMatchingRules input rules context in
  match matches with
  | [] => None
  | _ => hd_error (JSArray.sort compareMatches matches)
  end.

(** [byPriority.get(priority).push(match)] on a map that keeps the order
    in which its keys were first inserted. *)
Fixpoint pushByPriority (byPriority : list (Z * list RuleMatch)) (m : RuleMatch)
  : list (Z * list RuleMatch) :=
  match byPriority with
  | [] => [(priority (rule m), [m])]
  | (k, g) :: others =>
      if (k =? priority (rule m))%Z then (k, g ++ [m]) :: others
      else (k, g) :: pushByPriority others m
  end.

Definition findConflicts (input : jsstring) (rules : list MappingRule)
  (context : RuleEvaluationContext) : list (list RuleMatch) :=
  let matches := findMatchingRules input rules context in
  if List.length matches <=? 1 then []
  else
    let byPriority := fold_left pushByPriority matches [] in
    filter (fun g => 1 <? List.length g) (map snd byPriority).

Definition isRuleApplicable (rule : MappingRule) (direction : RuleDirection) : bool :=
  RuleDirection_eqb (Settings.direction rule) Bidirectional
  || RuleDirection_eqb (Settings.direction rule) direction.

Definition getFolderToTagRules (rules : list MappingRule) : list MappingRule :=
  filter (fun r => enabled r && present (folderPattern r) && isRuleApplicable r FolderToTag) rules.

Definition getTagToFolderRules (rules : list MappingRule) : list MappingRule :=
  filter (fun r => enabled r && present (tagPattern r) && isRuleApplicable r TagToFolder) rules.

(** The text of a caught [SyntaxError] inside a template string. *)
Definition errorText (msg : string) : jsstring :=
  lit "SyntaxError: Invalid regular expression: " ++ lit msg.

Definition needsFolderPattern (rule : MappingRule) : bool :=
  RuleDirection_eqb (direction rule) FolderToTag || RuleDirection_eqb (direction rule) Bidirectional.

Definition needsTagPattern (rule : MappingRule) : bool :=
  RuleDirection_eqb (direction rule) TagToFolder || RuleDirection_eqb (direction rule) Bidirectional.

(** The error pushed by a [try { patternToRegex(p) } catch] statement. *)
Definition patternError (prefix : jsstring) (p : option jsstring) : list jsstring :=
  if present p then
    match patternToRegex (match p with Some s => s | None => [] end) with
    | Ok _ => []
    | Throw msg => [prefix ++ errorText msg]
    end
  else [].

Record Validation := mkValidation {
  valid : bool;
  errors : list jsstring
}.

Definition validateRule (rule : MappingRule) : Validation :=
  let errors := [] in
  let errors := errors ++
    (if negb (present (Some (id rule))) || JS.eqb (trim (id rule)) []
     then [lit "Rule must have a valid ID"] else []) in
  let errors := errors ++
    (if negb (present (Some (Settings.name rule))) || JS.eqb (trim (Settings.name rule)) []
     then [lit "Rule must have a name"] else []) in
  let errors := errors ++
    (if (priority rule <? 0)%Z then [lit "Priority must be non-negative"] else []) in
  let errors := errors ++
    (if needsFolderPattern rule && negb (present (folderPattern rule))
     then [lit "Folder-to-tag rules must have a folder pattern"] else []) in
  let errors := errors ++
    (if needsTagPattern rule && negb (present (tagPattern rule))
     then [lit "Tag-to-folder rules must have a tag pattern"] else []) in
  let errors := errors ++ patternError (lit "Invalid folder pattern: ") (folderPattern rule) in
  let errors := errors ++ patternError (lit "Invalid tag pattern: ") (tagPattern rule) in
  mkValidation (List.length errors =? 0) errors.

End RuleMatcher.

Import RuleMatcher.

(* ================================================================= *)
(** ** sync/FolderToTagSync.ts and sync/TagToFolderSync.ts *)

Module Sync.

(** The calls to the logger and the notices are left out: they take no
    part in the results.  The vault is read and written by the caller:
    [syncFile] is given the folder of the file and its content, and
    returns the new content. *)

Definition newline : jsstring := [10%N].

(** [tag.startsWith('#') ? tag : `#${tag}`] *)
Definition hashTag (tag : jsstring) : jsstring :=
  if startsWith tag (lit "#") then tag else lit "#" ++ tag.

(** [tag.startsWith('#') ? tag.slice(1) : tag] *)
Definition unhashTag (tag : jsstring) : jsstring :=
  if startsWith tag (lit "#") then skipn 1 tag else tag.

(** [text.replace(new RegExp(`^${entryPoint}/?`), '')] *)
Definition removeEntryPoint (entryPoint text : jsstring) : result jsstring :=
  regex <- RegExp_new (lit "^" ++ entryPoint ++ lit "/?") None ;;
  Ok (replace regex text []).

(** [transformed ? `${entryPoint}/${transformed}` : entryPoint], when
    there is an entry point. *)
Definition addEntryPoint (entryPoint : option jsstring) (transformed : jsstring) : jsstring :=
  match entryPoint with
  | Some (c :: e) =>
      match transformed with
      | [] => c :: e
      | _ => (c :: e) ++ lit "/" ++ transformed
      end
  | _ => transformed
  end.

(** An exception inside the [try] block gives null. *)
Definition transformFolderToTag (folderPath : jsstring) (rule : MappingRule)
  : option jsstring :=
  let attempt :=
    pattern <- RegExp_new (match folderPattern rule with
                           | Some (c :: p) => c :: p
                           | _ => lit ".*"
                           end) None ;;
    match exec pattern folderPath with
    | None => Ok None
    | Some m =>
        pathToTransform <-
          match folderEntryPoint rule with
          | Some (c :: e) =>
              removeEntryPoint (c :: e) (unview (RegExp.flags pattern) (matched m))
          | _ => Ok (unview (RegExp.flags pattern) (matched m))
          end ;;
        match tagTransforms rule with
        | Some config =>
            let transformed :=
              applyTransformPipeline pathToTransform config
                (mkPipelineOptions (Some true) None) in
            Ok (Some (hashTag (addEntryPoint (tagEntryPoint rule) transformed)))
        | None => Ok None
        end
    end in
  match attempt with
  | Ok tag => tag
  | Throw _ => None
  end.

Definition parseFrontmatter (content : jsstring) : jsstring * jsstring :=
  let fmRegex := literal "^---\n([\s\S]*?)\n---\n([\s\S]*)$" "" in
  match exec fmRegex content with
  | Some m => (group fmRegex m 1, group fmRegex m 2)
  | None => ([], content)
  end.

Definition tagsRegex : RegExp := literal "tags:\s*\n?((?:  - .+\n?)*|\[.*?\])" "".

(** The expression with the two quote characters, ['] and the double
    quote. *)
Definition quotesRegex : RegExp :=
  match RegExp_new (lit "['" ++ [34%N] ++ lit "]") (Some (lit "g")) with
  | Ok rx => rx
  | Throw _ => mkRegExp [] noFlags (Class false []) []
  end.

Definition extractTags (frontmatter : jsstring) : list jsstring :=
  let tags :=
    match exec tagsRegex frontmatter with
    | Some tagsMatch =>
        let tagsContent := group tagsRegex tagsMatch 1 in
        if startsWith (trim tagsContent) (lit "[") then
          let arrayRegex := literal "\[(.*?)\]" "" in
          match exec arrayRegex tagsContent with
          | Some arrayMatch =>
              map (fun t => replace quotesRegex (trim t) [])
                  (split (ch ",") (group arrayRegex arrayMatch 1))
          | None => []
          end
        else
          let listRegex := literal "- (.+)" "g" in
          map (fun m => trim (replace (literal "^- " "")
                                (unview (RegExp.flags listRegex) (matched m)) []))
              (matchAll listRegex tagsContent)
    | None => []
    end in
  map hashTag tags.

(** [`tags:\n${cleanTags.map(t => `  - ${t}`).join('\n')}`] *)
Definition tagsSection (cleanTags : list jsstring) : jsstring :=
  lit "tags:" ++ newline ++ join newline (map (fun t => lit "  - " ++ t) cleanTags).

Definition updateTags (frontmatter : jsstring) (tags : list jsstring) : jsstring :=
  let cleanTags := map (fun t => replace (literal "^#" "") t []) tags in
  if JS.eqb (trim frontmatter) [] then tagsSection cleanTags
  else
    match exec tagsRegex frontmatter with
    | Some _ => replace tagsRegex frontmatter (tagsSection cleanTags)
    | None => frontmatter ++ newline ++ tagsSection cleanTags
    end.

Definition reconstructFile (frontmatter body : jsstring) : jsstring :=
  if JS.eqb (trim frontmatter) [] then body
  else lit "---" ++ newline ++ frontmatter ++ newline ++ lit "---" ++ newline ++ body.

(** The results of [FolderToTagSync.syncFile], named after their
    messages; [TagAdded] carries the tag and the content written back. *)
Inductive FolderSyncResult :=
| NoMatchingRules
| RuleOnlySupportsTagToFolder
| TransformationFailed
| TagAlreadyExists
| TagAdded (tag newContent : jsstring).

Definition syncFile (folderPath : jsstring) (rules : list MappingRule) (content : jsstring)
  : FolderSyncResult :=
  let matchingRules :=
    findMatchingRules folderPath rules (mkContext folderPath Folder (Some FolderToTag) None) in
  match matchingRules with
  | [] => NoMatchingRules
  | first :: _ =>
      if RuleDirection_eqb (direction (rule first)) TagToFolder
      then RuleOnlySupportsTagToFolder
      else
        match transformFolderToTag folderPath (rule first) with
        | Some (c :: t) =>
            let tag := c :: t in
            let (frontmatter, body) := parseFrontmatter content in
            let currentTags := extractTags frontmatter in
            if existsb (JS.eqb tag) currentTags then TagAlreadyExists
            else
              let newTags := currentTags ++ [tag] in
              TagAdded tag (reconstructFile (updateTags frontmatter newTags) body)
        | _ => TransformationFailed
        end
  end.

Definition transformTagToFolder (tag : jsstring) (rule : MappingRule) : option jsstring :=
  let attempt :=
    tagContent <-
      match tagEntryPoint rule with
      | Some (c :: e) => removeEntryPoint (unhashTag (c :: e)) (unhashTag tag)
      | _ => Ok (unhashTag tag)
      end ;;
    match folderTransforms rule with
    | Some config =>
        let transformed :=
          applyTransformPipeline tagContent config (mkPipelineOptions (Some false) None) in
        Ok (Some (addEntryPoint (folderEntryPoint rule) transformed))
    | None => Ok None
    end in
  match attempt with
  | Ok folderPath => folderPath
  | Throw _ => None
  end.

(** The first tag, in order, whose first matching rule gives a folder. *)
Fixpoint determineTargetFolder (rules : list MappingRule) (tags : list jsstring)
  : option jsstring :=
  match tags with
  | [] => None
  | tag :: others =>
      let tagWithoutHash := unhashTag tag in
      match findMatchingRules tagWithoutHash rules
              (mkContext tagWithoutHash Tag (Some TagToFolder) None) with
      | first :: _ =>
          if RuleDirection_eqb (direction (rule first)) FolderToTag
          then determineTargetFolder rules others
          else
            match transformTagToFolder tag (rule first) with
            | Some (c :: p) => Some (c :: p)
            | _ => determineTargetFolder rules others
            end
      | [] => determineTargetFolder rules others
      end
  end.

End Sync.

Import Sync.

(* ================================================================= *)
(** * Properties *)

(** ** Sample evaluations *)

Lemma JS_eqb_eq (s t : jsstring) : JS.eqb s t = true <-> s = t.
Proof. unfold JS.eqb. destruct (list_eq_dec N.eq_dec s t); split; congruence. Qed.

Example literal_samples :
  test (literal "^Projects/[^/]*$" "") (lit "Projects/file.md") = true /\
  test (literal "^Projects/[^/]*$" "") (lit "Projects/sub/file.md") = false /\
  replace (literal "^(\d+) - (.+)$" "g") (lit "01 - Projects") (lit "$2_$1") = lit "Projects_01" /\
  replace (literal "a" "g") (lit "aaa") (lit "b") = lit "bbb" /\
  replace (literal "a" "") (lit "aaa") (lit "b") = lit "baa" /\
  replace (literal "x*" "g") (lit "abc") (lit "-") = lit "-a-b-c-" /\
  replace (literal "(a)|(b)" "g") (lit "abc") (lit "[$1$2]") = lit "[a][b]c" /\
  test (literal "^(?<folder>\w+)/(?<file>.+)$" "") (lit "docs/readme.md") = true /\
  replace (literal "(?<y>\d{4})-(?<m>\d{2})" "") (lit "on 2024-05!") (lit "$<m>/$<y>") = lit "on 05/2024!" /\
  replace (literal "(a+)+b" "") (lit "aaab") (lit "<$1>") = lit "<aaa>" /\
  replace (literal "(?:(a)|b)*" "") (lit "ab") (lit "<$1>") = lit "<>" /\
  replace (literal "\bfoo\b" "gi") (lit "Foo food FOO") (lit "x") = lit "x food x" /\
  replace (literal "a.c" "g") (lit "abc a
c") (lit "_") = lit "_ a
c".
Proof. vm_compute. repeat split. Qed.

Open Scope string_scope.
Example literals_compile :
  forallb (fun p => match RegExp_new (lit (fst p)) (Some (lit (snd p))) with
                    | Ok _ => true | Throw _ => false end)
    [("([A-Z])", "g"); ("[\s\-]+", "g"); ("^_", ""); ("_+", "g"); ("[_\-]+", "g");
     ("\b\w", "g"); ("\s+", "g"); ("[\s_]+", "g"); ("^-", ""); ("-+", "g");
     ("[\s_\-]+(.)", "g"); ("^(.)", "");
     ("[\u{1F600}-\u{1F64F}]", "gu"); ("[\u{1F300}-\u{1F5FF}]", "gu");
     ("[\u{1F680}-\u{1F6FF}]", "gu"); ("[\u{1F1E0}-\u{1F1FF}]", "gu");
     ("[\u{2600}-\u{26FF}]", "gu"); ("[\u{2700}-\u{27BF}]", "gu");
     ("[\u{1F900}-\u{1F9FF}]", "gu"); ("[\u{1FA00}-\u{1FA6F}]", "gu");
     ("[\u{1FA70}-\u{1FAFF}]", "gu"); ("[\u{FE00}-\u{FE0F}]", "gu");
     ("[\u{1F000}-\u{1F02F}]", "gu"); ("[\u{2B00}-\u{2BFF}]", "gu");
     ("[.:;,?!@\\]", "g"); ("^(\d+)\s*-\s*(.+)$", ""); ("^(\d+)\.?\s+(.+)$", "");
     ("[.+^${}()|[\]\\]", "g"); ("\/\*\*\/", "g"); ("\/\*\*$", "g"); ("^\*\*\/", "g");
     ("\*\*", "g"); ("\*", "g"); ("\?", "g"); ("[*?]", "")] = true.
Proof. vm_compute. reflexivity. Qed.
Close Scope string_scope.

Example case_samples :
  toSnakeCase (lit "My Project Name") = lit "my_project_name" /\
  toSnakeCase (lit "myProjectName") = lit "my_project_name" /\
  toSnakeCase (lit "my-project-name") = lit "my_project_name" /\
  toTitleCase (lit "my_project_name") = lit "My Project Name" /\
  toTitleCase (lit "my-project-name") = lit "My Project Name" /\
  toKebabCase (lit "My Project") = lit "my-project" /\
  toCamelCase (lit "my project name") = lit "myProjectName" /\
  toPascalCase (lit "my project name") = lit "MyProjectName" /\
  stripNumberPrefix (lit "01  -  Projects") = lit "Projects" /\
  stripNumberPrefix (lit "1. Projects") = lit "Projects" /\
  stripNumberPrefix (lit "Project 123") = lit "Project 123" /\
  stripInvalidTagChars (lit "test.:;,?!@name") = lit "testname" /\
  stripEmoji ([0xD83D; 0xDCC1]%N ++ lit " Projects") = lit "Projects" /\
  globToRegex (lit "Projects/**") = lit "^Projects/.*$" /\
  globToRegex (lit "Projects/*") = lit "^Projects/[^/]*$" /\
  globToRegex (lit "**/Projects/*.md") = lit "^(?:[^/]+/)*Projects/[^/]*\.md$" /\
  globToRegex (lit "file?.md") = lit "^file.\.md$" /\
  applyRegexTransforms (lit "01 - My Project")
    [mkRegexTransform (lit "^(\d+) - ") [] None;
     mkRegexTransform (lit "\s+") (lit "_") (Some (lit "g"));
     mkRegexTransform (lit "_+") (lit "_") (Some (lit "g"))] = lit "My_Project" /\
  applyRegexTransform (lit "test") (mkRegexTransform (lit "[invalid(") (lit "test") None) = lit "test" /\
  matchesPattern (lit "Projects") (lit "^projects$") (Some (lit "i")) = true.
Proof. vm_compute. repeat split. Qed.

(** ** The scanning loops of the matcher *)

Section Scanning.

Variable rx : RegExp.
Hypothesis not_sticky : sticky (RegExp.flags rx) = false.

Lemma search_hit (rp sf : jsstring) (m : Match) :
  matchAt rx rp sf = Some m -> search rx rp sf = Some ([], m).
Proof. intros H. destruct sf; simpl; rewrite H; reflexivity. Qed.

Lemma search_miss_nil (rp : jsstring) :
  matchAt rx rp [] = None -> search rx rp [] = None.
Proof. intros H. simpl. rewrite H, not_sticky. reflexivity. Qed.

Lemma search_miss_cons (rp : jsstring) (a : N) (sf : jsstring) :
  matchAt rx rp (a :: sf) = None ->
  search rx rp (a :: sf) =
  match search rx (a :: rp) sf with
  | Some (sk, m) => Some (a :: sk, m)
  | None => None
  end.
Proof. intros H. simpl. rewrite H, not_sticky. reflexivity. Qed.

Lemma matchLoop_miss (fuel : nat) (rp : jsstring) (a : N) (sf : jsstring) :
  matchAt rx rp (a :: sf) = None ->
  matchLoop (S fuel) rx rp (a :: sf) = matchLoop (S fuel) rx (a :: rp) sf.
Proof.
  intros H. cbn [matchLoop]. rewrite (search_miss_cons _ _ _ H).
  destruct (search rx (a :: rp) sf) as [[sk m]|]; reflexivity.
Qed.

Lemma replaceLoop_miss (fuel : nat) (repl : Match -> list N) (rp : jsstring) (a : N) (sf : jsstring) :
  matchAt rx rp (a :: sf) = None ->
  replaceLoop (S fuel) rx repl rp (a :: sf) = a :: replaceLoop (S fuel) rx repl (a :: rp) sf.
Proof.
  intros H. cbn [replaceLoop]. rewrite (search_miss_cons _ _ _ H).
  destruct (search rx (a :: rp) sf) as [[sk m]|]; reflexivity.
Qed.

Lemma matchLoop_nil (fuel : nat) (rp : jsstring) :
  matchAt rx rp [] = None -> matchLoop fuel rx rp [] = [].
Proof. intros H. destruct fuel; cbn [matchLoop]; [|rewrite (search_miss_nil _ H)]; reflexivity. Qed.

Lemma replaceLoop_nil (fuel : nat) (repl : Match -> list N) (rp : jsstring) :
  matchAt rx rp [] = None -> replaceLoop fuel rx repl rp [] = [].
Proof. intros H. destruct fuel; cbn [replaceLoop]; [|rewrite (search_miss_nil _ H)]; reflexivity. Qed.

Lemma matchLoop_hit (fuel : nat) (rp sf : jsstring) (m : Match) :
  matchAt rx rp sf = Some m ->
  matchLoop (S fuel) rx rp sf =
  m :: match matched m with
       | [] => match rest m with
               | [] => []
               | a :: sf' => matchLoop fuel rx (a :: rbefore m) sf'
               end
       | _ => matchLoop fuel rx (rev (matched m) ++ rbefore m) (rest m)
       end.
Proof. intros H. cbn [matchLoop]. rewrite (search_hit _ _ _ H). reflexivity. Qed.

Lemma replaceLoop_hit (fuel : nat) (repl : Match -> list N) (rp sf : jsstring) (m : Match) :
  matchAt rx rp sf = Some m ->
  replaceLoop (S fuel) rx repl rp sf =
  repl m ++
  match matched m with
  | [] => match rest m with
          | [] => []
          | a :: sf' => a :: replaceLoop fuel rx repl (a :: rbefore m) sf'
          end
  | _ => replaceLoop fuel rx repl (rev (matched m) ++ rbefore m) (rest m)
  end.
Proof. intros H. cbn [replaceLoop]. rewrite (search_hit _ _ _ H). reflexivity. Qed.

(** An expression that matches exactly one character, those of a set
    [P], and records the captures [cs] of that character. *)
Definition oneChar (P : N -> bool) (cs : N -> list (nat * jsstring)) : Prop :=
  forall rp sf,
    matchAt rx rp sf =
    match sf with
    | a :: sf' => if P a then Some (mkMatch rp [a] sf' (cs a)) else None
    | [] => None
    end.

Variable P : N -> bool.
Variable cs : N -> list (nat * jsstring).
Hypothesis one : oneChar P cs.

Lemma oneChar_matchLoop (sf : jsstring) : forall fuel rp,
  List.length sf < fuel ->
  List.length (matchLoop fuel rx rp sf) = List.length (filter P sf).
Proof.
  induction sf as [|a sf IH]; intros fuel rp Hf.
  - rewrite matchLoop_nil; [reflexivity | apply one].
  - destruct fuel as [|fuel]; [simpl in Hf; lia|]. simpl in Hf.
    pose proof (one rp (a :: sf)) as Ha. simpl in Ha. simpl filter.
    destruct (P a).
    + rewrite (matchLoop_hit _ _ _ _ Ha). cbn [matched rest rbefore rev app List.length]. f_equal. apply IH. lia.
    + rewrite (matchLoop_miss _ _ _ _ Ha). apply IH. lia.
Qed.

Lemma oneChar_replaceLoop (repl : Match -> list N) (f : N -> list N) :
  (forall rp a sf, repl (mkMatch rp [a] sf (cs a)) = f a) ->
  forall sf fuel rp,
  List.length sf < fuel ->
  replaceLoop fuel rx repl rp sf = flat_map (fun a => if P a then f a else [a]) sf.
Proof.
  intros Hr sf. induction sf as [|a sf IH]; intros fuel rp Hf.
  - rewrite replaceLoop_nil; [reflexivity | apply one].
  - destruct fuel as [|fuel]; [simpl in Hf; lia|]. simpl in Hf.
    pose proof (one rp (a :: sf)) as Ha. simpl in Ha. simpl flat_map.
    destruct (P a).
    + rewrite (replaceLoop_hit _ _ _ _ _ Ha). cbn [matched rest rbefore rev app]. rewrite Hr. f_equal. apply IH. lia.
    + rewrite (replaceLoop_miss _ _ _ _ _ Ha). cbn [app]. f_equal. apply IH. lia.
Qed.

End Scanning.

(** ** The one-character literals of the source *)

Lemma firstn_one (a : N) (sf : jsstring) :
  firstn (List.length (a :: sf) - List.length sf) (a :: sf) = [a].
Proof.
  cbn [List.length]. replace (S (List.length sf) - List.length sf) with 1 by lia.
  reflexivity.
Qed.

Definition isStar (a : N) : bool := (a =? ch "*")%N.
Definition isQuestion (a : N) : bool := (a =? ch "?")%N.
Definition isSlash (a : N) : bool := (a =? ch "/")%N.
Definition isWildcard (a : N) : bool := isStar a || isQuestion a.

Ltac class_test :=
  cbv [classMem setMem canon ignoreCase existsb itemSet xorb
       isStar isQuestion isSlash isWildcard ch];
  rewrite ?orb_false_r; reflexivity.

Ltac one_char :=
  let rp := fresh "rp" in
  let sf := fresh "sf" in
  let a := fresh "a" in
  intros rp sf; unfold matchAt;
  destruct sf as [|a sf];
  [ reflexivity
  | cbn [RegExp.flags tree matcher step suf rpre caps];
    match goal with
    | |- _ = (if ?Q then _ else _) =>
        match goal with
        | |- context [if ?T then Some (mkState _ _ _) else None] =>
            replace T with Q by class_test
        end;
        destruct Q; [|reflexivity]
    end;
    cbn [suf caps]; rewrite ?firstn_one; reflexivity ].

Lemma star_literal :
  literal "\*" "g" = mkRegExp (lit "\*") (mkFlags true false false false false false false) (Chr 42) [].
Proof. reflexivity. Qed.

Lemma oneChar_star : oneChar (literal "\*" "g") isStar (fun _ => []).
Proof. rewrite star_literal. one_char. Qed.

Lemma question_literal :
  literal "\?" "g" = mkRegExp (lit "\?") (mkFlags true false false false false false false) (Chr 63) [].
Proof. reflexivity. Qed.

Lemma oneChar_question : oneChar (literal "\?" "g") isQuestion (fun _ => []).
Proof. rewrite question_literal. one_char. Qed.

Lemma slash_literal :
  literal "\/" "g" = mkRegExp (lit "\/") (mkFlags true false false false false false false) (Chr 47) [].
Proof. reflexivity. Qed.

Lemma oneChar_slash : oneChar (literal "\/" "g") isSlash (fun _ => []).
Proof. rewrite slash_literal. one_char. Qed.

Lemma wildcard_literal :
  literal "[*?]" "g" = mkRegExp (lit "[*?]") (mkFlags true false false false false false false)
                         (Class false [CIChar 42; CIChar 63]) [].
Proof. reflexivity. Qed.

Lemma oneChar_wildcard : oneChar (literal "[*?]" "g") isWildcard (fun _ => []).
Proof. rewrite wildcard_literal. one_char. Qed.

Lemma countMatches_oneChar (rx : RegExp) (P : N -> bool) (cs : N -> list (nat * jsstring)) (s : jsstring) :
  sticky (RegExp.flags rx) = false -> unicode (RegExp.flags rx) = false ->
  oneChar rx P cs ->
  countMatches rx s = List.length (filter P s).
Proof.
  intros Hs Hu H1. unfold countMatches, matchAll, view. rewrite Hu.
  apply oneChar_matchLoop with (cs := cs); auto.
Qed.

Lemma filter_length_count (c : N) (s : jsstring) :
  List.length (filter (fun a => (a =? c)%N) s) = count_occ N.eq_dec s c.
Proof.
  induction s as [|a s IH]; [reflexivity|]. simpl.
  destruct (N.eqb_spec a c) as [->|Hne].
  - destruct (N.eq_dec c c); [|congruence]. simpl. now rewrite IH.
  - destruct (N.eq_dec a c); [congruence|]. exact IH.
Qed.

Lemma count_stars (s : jsstring) :
  countMatches (literal "\*" "g") s = count_occ N.eq_dec s (ch "*").
Proof.
  rewrite countMatches_oneChar with (P := isStar) (cs := fun _ => []).
  - apply filter_length_count.
  - reflexivity.
  - reflexivity.
  - apply oneChar_star.
Qed.

Lemma strip_wildcards (s : jsstring) :
  replace (literal "[*?]" "g") s [] = filter (fun a => negb (isWildcard a)) s.
Proof.
  unfold replace, replaceWith, view, unview. rewrite wildcard_literal.
  cbn [RegExp.flags unicode global]. rewrite <- wildcard_literal.
  rewrite oneChar_replaceLoop with (P := isWildcard) (cs := fun _ => []) (f := fun _ => []).
  - induction s as [|a s IH]; [reflexivity|]. simpl. destruct (isWildcard a); simpl; now rewrite IH.
  - reflexivity.
  - apply oneChar_wildcard.
  - reflexivity.
  - lia.
Qed.

Lemma count_questions (s : jsstring) :
  countMatches (literal "\?" "g") s = count_occ N.eq_dec s (ch "?").
Proof.
  rewrite countMatches_oneChar with (P := isQuestion) (cs := fun _ => []).
  - apply filter_length_count.
  - reflexivity.
  - reflexivity.
  - apply oneChar_question.
Qed.

Lemma count_slashes (s : jsstring) :
  countMatches (literal "\/" "g") s = count_occ N.eq_dec s (ch "/").
Proof.
  rewrite countMatches_oneChar with (P := isSlash) (cs := fun _ => []).
  - apply filter_length_count.
  - reflexivity.
  - reflexivity.
  - apply oneChar_slash.
Qed.

(** A pattern that begins with a quantifier character does not compile:
    there is nothing to repeat. *)
Lemma leading_wildcard_throws (c : N) (p : jsstring) :
  isWildcard c = true -> exists msg, RegExp_new (c :: p) None = Throw msg.
Proof.
  intros H. unfold isWildcard, isStar, isQuestion in H.
  apply orb_true_iff in H. destruct H as [H|H]; apply N.eqb_eq in H; subst c.
  - eexists. unfold RegExp_new. cbn [parseFlags parseFlagsFrom bind unicode noFlags view].
    unfold parsePattern. cbn. reflexivity.
  - eexists. unfold RegExp_new. cbn [parseFlags parseFlagsFrom bind unicode noFlags view].
    unfold parsePattern. cbn. reflexivity.
Qed.

(** ** Confidence *)

Import Num.

(** Rounding keeps the sign: no number of the program is small enough to
    round to zero. *)

Lemma scaled_denominator (n d s : Z) : (0 < d)%Z -> (0 < snd (scaled n d s))%Z.
Proof.
  intros Hd. unfold scaled. destruct (Z.leb_spec 0 s); cbn [snd]; [exact Hd|].
  apply Z.mul_pos_pos; [exact Hd|]. apply Z.pow_pos_nonneg; lia.
Qed.

(** Scaling by a greater power of two keeps a fraction at or above one. *)
Lemma scaled_mono (n d s t : Z) :
  (0 <= n)%Z -> (0 < d)%Z -> (s <= t)%Z ->
  (snd (scaled n d s) <= fst (scaled n d s))%Z ->
  (snd (scaled n d t) <= fst (scaled n d t))%Z.
Proof.
  intros Hn Hd Hst. unfold scaled.
  destruct (Z.leb_spec 0 s) as [Hs|Hs]; destruct (Z.leb_spec 0 t) as [Ht|Ht]; cbn [fst snd]; intros H;
    try lia.
  - assert (P : (2 ^ s <= 2 ^ t)%Z) by (apply Z.pow_le_mono_r; lia).
    assert (P0 : (0 < 2 ^ s)%Z) by (apply Z.pow_pos_nonneg; lia). nia.
  - assert (P : (1 <= 2 ^ t)%Z) by (apply (Z.pow_le_mono_r 2 0 t); lia).
    assert (P0 : (1 <= 2 ^ (- s))%Z) by (apply (Z.pow_le_mono_r 2 0 (- s)); lia). nia.
  - assert (P : (2 ^ (- t) <= 2 ^ (- s))%Z) by (apply Z.pow_le_mono_r; lia).
    assert (P0 : (0 < 2 ^ (- t))%Z) by (apply Z.pow_pos_nonneg; lia). nia.
Qed.

(** The exponent found is not above the exponent of the leading bit. *)
Lemma exponentOf_below (n d : Z) :
  (0 < n)%Z -> (0 < d)%Z ->
  (snd (scaled n d (- exponentOf n d)) <= fst (scaled n d (- exponentOf n d)))%Z.
Proof.
  intros Hn Hd. unfold exponentOf.
  destruct (scaled n d (- (Z.log2 n - Z.log2 d))) as [a b] eqn:E.
  destruct (Z.ltb_spec a b) as [L|L]; [|rewrite E; exact L].
  destruct (Z.log2_spec n Hn) as [N1 N2]. destruct (Z.log2_spec d Hd) as [D1 D2].
  pose proof (Z.log2_nonneg n) as Pn. pose proof (Z.log2_nonneg d) as Pd.
  set (p := Z.log2 n) in *. set (q := Z.log2 d) in *.
  unfold scaled. destruct (Z.leb_spec 0 (- (p - q - 1))) as [S|S]; cbn [fst snd].
  - replace (- (p - q - 1))%Z with (Z.succ q - p)%Z by lia.
    assert (X : (2 ^ p * 2 ^ (Z.succ q - p) = 2 ^ Z.succ q)%Z).
    { rewrite <- Z.pow_add_r by lia. f_equal. lia. }
    assert (P0 : (0 < 2 ^ (Z.succ q - p))%Z) by (apply Z.pow_pos_nonneg; lia). nia.
  - replace (- - (p - q - 1))%Z with (p - Z.succ q)%Z by lia.
    assert (X : (2 ^ Z.succ q * 2 ^ (p - Z.succ q) = 2 ^ p)%Z).
    { rewrite <- Z.pow_add_r by lia. f_equal. lia. }
    assert (P0 : (0 < 2 ^ (p - Z.succ q))%Z) by (apply Z.pow_pos_nonneg; lia). nia.
Qed.

Lemma nearestEven_pos (a b : Z) : (0 < b <= a)%Z -> (0 < nearestEven a b)%Z.
Proof.
  intros H. pose proof (Z.div_str_pos a b H) as P. unfold nearestEven.
  destruct (2 * (a mod b) ?= b)%Z; [destruct (Z.even (a / b))| |]; lia.
Qed.

Lemma roundPos_pos (n d : Z) : (0 < n)%Z -> (0 < d)%Z -> (0 < roundPos n d)%Q.
Proof.
  intros Hn Hd. unfold roundPos.
  pose proof (scaled_mono n d (- exponentOf n d) (52 - exponentOf n d)
                ltac:(lia) Hd ltac:(lia) (exponentOf_below n d Hn Hd)) as P.
  pose proof (scaled_denominator n d (52 - exponentOf n d) Hd) as Pd.
  destruct (scaled n d (52 - exponentOf n d)) as [a b]. cbn [fst snd] in P, Pd.
  pose proof (nearestEven_pos a b ltac:(lia)) as K.
  set (k := nearestEven a b) in *.
  assert (X : (0 < fst (scaled k 1 (exponentOf n d - 52)))%Z).
  { unfold scaled. destruct (Z.leb_spec 0 (exponentOf n d - 52)); cbn [fst]; [|exact K].
    apply Z.mul_pos_pos; [exact K|]. apply Z.pow_pos_nonneg; lia. }
  destruct (scaled k 1 (exponentOf n d - 52)) as [x y]. cbn [fst] in X.
  unfold Qlt. cbn [Qnum Qden]. lia.
Qed.

Lemma round_sign (q : Q) : signOf (round q) = signOf q.
Proof.
  unfold signOf, round. destruct q as [[|n|n] d]; cbn [Qnum Qden].
  - reflexivity.
  - pose proof (roundPos_pos (Z.pos n) (Z.pos d) ltac:(lia) ltac:(lia)) as P.
    apply Qgt_alt in P. etransitivity; [exact P | reflexivity].
  - pose proof (roundPos_pos (Z.pos n) (Z.pos d) ltac:(lia) ltac:(lia)) as P.
    assert (L : (- roundPos (Z.pos n) (Z.pos d) < 0)%Q) by lra.
    apply Qlt_alt in L. etransitivity; [exact L | reflexivity].
Qed.

Lemma round_pos_iff (q : Q) : (0 < round q)%Q <-> (0 < q)%Q.
Proof.
  pose proof (round_sign q) as H. unfold signOf in H.
  rewrite !Qgt_alt. now rewrite H.
Qed.

(** The score as the specification words it. *)
Definition clampUnit (x : number) : number := max (Fin 0) (min (Fin 1) x).

Definition referenceConfidence (input pattern : jsstring) : number :=
  if JS.eqb pattern input then Fin 1
  else
    let stars := ofNat (count_occ N.eq_dec pattern (ch "*")) in
    let questions := ofNat (count_occ N.eq_dec pattern (ch "?")) in
    let literalChars := ofNat (List.length (filter (fun a => negb (isWildcard a)) pattern)) in
    let slashes := ofNat (count_occ N.eq_dec pattern (ch "/")) in
    let ratio := div literalChars (ofNat (List.length input)) in
    clampUnit
      (add (add (sub (sub (Fin (1 # 2)) (mul stars (ofQ (1 # 10))))
                     (mul questions (ofQ (1 # 20))))
                (mul ratio (ofQ (1 # 5))))
           (mul slashes (ofQ (1 # 20)))).

Lemma calculateMatchConfidence_reference (input pattern : jsstring) :
  calculateMatchConfidence input pattern = referenceConfidence input pattern.
Proof.
  unfold calculateMatchConfidence, referenceConfidence, clampUnit.
  rewrite count_stars, count_questions, count_slashes, strip_wildcards.
  reflexivity.
Qed.

Lemma clampUnit_fin (q : Q) : between 0 1 (clampUnit (Fin q)).
Proof.
  unfold clampUnit, min, max, ltb, between.
  destruct (Qcompare q 1) eqn:E1.
  - exists 1%Q. cbn. repeat split; lra.
  - apply Qlt_alt in E1. destruct (Qcompare 0 q) eqn:E0.
    + exists 0%Q. repeat split; lra.
    + exists q. apply Qlt_alt in E0. repeat split; lra.
    + exists 0%Q. repeat split; lra.
  - exists 1%Q. cbn. repeat split; lra.
Qed.

Lemma signOf_ofNat (n : nat) :
  signOf (inject_Z (Z.of_nat n)) = match n with O => Eq | S _ => Gt end.
Proof.
  unfold signOf, Qcompare. cbn [Qnum Qden inject_Z].
  rewrite !Z.mul_1_r. destruct n; [reflexivity|]. cbn. reflexivity.
Qed.

(** The score is a number of the unit interval unless both the input
    and the literal part of the pattern are empty. *)
Lemma referenceConfidence_between (input pattern : jsstring) :
  (input = [] -> exists a, In a pattern /\ isWildcard a = false) ->
  between 0 1 (referenceConfidence input pattern).
Proof.
  intros H. unfold referenceConfidence.
  destruct (JS.eqb pattern input).
  { exists 1%Q. repeat split; lra. }
  set (lc := List.length (filter (fun a => negb (isWildcard a)) pattern)).
  unfold div, ofNat, ofQ. rewrite !signOf_ofNat.
  destruct input as [|i input]; cbn [List.length].
  - destruct lc eqn:Elc.
    + exfalso. destruct (H eq_refl) as (a & Ha & Hw).
      assert (Hin : In a (filter (fun a => negb (isWildcard a)) pattern)).
      { apply filter_In. split; [exact Ha | now rewrite Hw]. }
      subst lc. apply length_zero_iff_nil in Elc. rewrite Elc in Hin. exact Hin.
    + cbn. exists 1%Q. repeat split; lra.
  - cbn [mul sub add neg]. apply clampUnit_fin.
Qed.

(** ** Rule evaluation *)

Definition gatesPass (rule : MappingRule) (context : RuleEvaluationContext) : bool :=
  (enabled rule || isTrue (includeDisabled context)) && negb (directionExcluded rule context).

Lemma evaluateRule_some (input : jsstring) (r : MappingRule) (context : RuleEvaluationContext)
  (m : RuleMatch) :
  evaluateRule input r context = Some m ->
  exists c p,
    selectedPattern r (ctxMatchType context) = Some (c :: p) /\
    gatesPass r context = true /\
    matchesPattern input (c :: p) None = true /\
    m = mkRuleMatch r (ctxMatchType context) (c :: p) (calculateMatchConfidence input (c :: p)).
Proof.
  unfold evaluateRule, gatesPass. intros H.
  destruct (enabled r); destruct (isTrue (includeDisabled context)); cbn in H |- *;
    try discriminate;
    (destruct (directionExcluded r context); cbn in H |- *; [discriminate|];
     destruct (selectedPattern r (ctxMatchType context)) as [[|c p]|]; try discriminate;
     destruct (matchesPattern input (c :: p) None) eqn:E; cbn in H; [|discriminate];
     exists c, p; repeat split; congruence).
Qed.

Lemma evaluateRule_intro (input : jsstring) (r : MappingRule) (context : RuleEvaluationContext)
  (c : N) (p : jsstring) :
  selectedPattern r (ctxMatchType context) = Some (c :: p) ->
  gatesPass r context = true ->
  matchesPattern input (c :: p) None = true ->
  evaluateRule input r context =
  Some (mkRuleMatch r (ctxMatchType context) (c :: p) (calculateMatchConfidence input (c :: p))).
Proof.
  unfold evaluateRule, gatesPass. intros Hs Hg Hm.
  apply andb_true_iff in Hg. destruct Hg as [Hg1 Hg2].
  apply orb_true_iff in Hg1. apply negb_true_iff in Hg2.
  rewrite Hg2, Hs, Hm. cbn.
  destruct Hg1 as [-> | ->]; cbn; [reflexivity|].
  destruct (enabled r); reflexivity.
Qed.

Lemma matched_pattern_has_literal (input : jsstring) (c : N) (p : jsstring) :
  matchesPattern input (c :: p) None = true -> isWildcard c = false.
Proof.
  intros H. destruct (isWildcard c) eqn:E; [|reflexivity].
  destruct (leading_wildcard_throws c p E) as [msg Hm].
  unfold matchesPattern in H. rewrite Hm in H. discriminate.
Qed.

Lemma evaluateRule_confidence_between (input : jsstring) (r : MappingRule)
  (context : RuleEvaluationContext) (m : RuleMatch) :
  evaluateRule input r context = Some m -> between 0 1 (confidence m).
Proof.
  intros H. destruct (evaluateRule_some _ _ _ _ H) as (c & p & _ & _ & Hm & ->).
  cbn [confidence]. rewrite calculateMatchConfidence_reference.
  apply referenceConfidence_between. intros _.
  exists c. split; [left; reflexivity | exact (matched_pattern_has_literal _ _ _ Hm)].
Qed.

(** C4. The confidence of a returned match is the reference score: 1
    when the pattern equals the input, otherwise 0.5, minus 0.1 for each
    star and 0.05 for each question mark of the pattern, plus 0.2 times
    the number of its other characters divided by the length of the
    input, plus 0.05 for each slash, clamped to the unit interval; and
    it is a number of the unit interval. *)
Theorem confidence_matches_reference (input : jsstring) (r : MappingRule)
  (context : RuleEvaluationContext) (m : RuleMatch) :
  evaluateRule input r context = Some m ->
  confidence m = referenceConfidence input (matchedPattern m) /\
  between 0 1 (confidence m).
Proof.
  intros H. split.
  - destruct (evaluateRule_some _ _ _ _ H) as (c & p & _ & _ & _ & ->).
    cbn [confidence matchedPattern]. apply calculateMatchConfidence_reference.
  - exact (evaluateRule_confidence_between _ _ _ _ H).
Qed.

(** Sample rules in the style of the test suite. *)
Definition sampleOptions : RuleOptions :=
  mkRuleOptions true true false true true true None None None None None None None.

Definition folderRule (id pattern : string) (priority : Z) : MappingRule :=
  mkMappingRule (lit id) (lit "Test Rule") None true priority Bidirectional
    (Some (lit pattern)) None None None None None sampleOptions.

Definition folderContext (input : string) : RuleEvaluationContext :=
  mkContext (lit input) Folder None None.

Lemma confidence_matches_reference_witness :
  let input := lit "Projects/Test" in
  let r := folderRule "generic" "Projects/*" 1 in
  let m := mkRuleMatch r Folder (lit "Projects/*")
             (calculateMatchConfidence input (lit "Projects/*")) in
  evaluateRule input r (folderContext "Projects/Test") = Some m /\
  confidence m = referenceConfidence input (matchedPattern m) /\
  between 0 1 (confidence m).
Proof.
  intros input r m. split; [reflexivity|].
  apply (confidence_matches_reference input r (folderContext "Projects/Test") m).
  reflexivity.
Defined.

(** ** Sorting and the best match *)

Section SortHead.

Context {A : Type} (cmp : A -> A -> number).

(** [x] is placed after [y]: the comparator is positive. *)
Definition sortsAfter (x y : A) : bool := ltb (Fin 0) (JSArray.sortCompare cmp x y).

(** The element the sort puts first, computed from the right. *)
Fixpoint firstSorted (l : list A) : option A :=
  match l with
  | [] => None
  | x :: xs =>
      match firstSorted xs with
      | None => Some x
      | Some h => if sortsAfter x h then Some h else Some x
      end
  end.

Lemma insertSorted_perm (x : A) (l : list A) :
  Permutation (JSArray.insertSorted cmp x l) (x :: l).
Proof.
  induction l as [|y l IH]; cbn [JSArray.insertSorted]; [reflexivity|].
  destruct (ltb (Fin 0) (JSArray.sortCompare cmp x y)); [|reflexivity].
  rewrite IH. apply perm_swap.
Qed.

Lemma sort_perm (l : list A) : Permutation (JSArray.sort cmp l) l.
Proof.
  induction l as [|x l IH]; cbn; [reflexivity|].
  rewrite insertSorted_perm. now constructor.
Qed.

Lemma hd_insertSorted (x : A) (l : list A) :
  hd_error (JSArray.insertSorted cmp x l) =
  match hd_error l with
  | None => Some x
  | Some h => if sortsAfter x h then Some h else Some x
  end.
Proof.
  destruct l as [|y l]; cbn [JSArray.insertSorted hd_error]; [reflexivity|].
  unfold sortsAfter. now destruct (ltb (Fin 0) (JSArray.sortCompare cmp x y)).
Qed.

Lemma hd_sort (l : list A) : hd_error (JSArray.sort cmp l) = firstSorted l.
Proof.
  induction l as [|x l IH]; [reflexivity|].
  cbn [JSArray.sort fold_right firstSorted]. rewrite hd_insertSorted.
  fold (JSArray.sort cmp l). now rewrite IH.
Qed.

(** For an order [before] that the comparator decides, that is
    asymmetric and whose complement is transitive, the first element of
    the sorted array is the earliest of the least elements. *)
Variable before : A -> A -> Prop.
Variable ok : A -> Prop.
Hypothesis sortsAfter_iff : forall x y, ok x -> ok y -> (sortsAfter x y = true <-> before y x).
Hypothesis before_asym : forall x y, before x y -> ~ before y x.
Hypothesis before_negtrans : forall x y z, before x z -> before x y \/ before y z.

Lemma firstSorted_spec (l : list A) (M : A) :
  Forall ok l ->
  firstSorted l = Some M ->
  exists l1 l2, l = l1 ++ M :: l2 /\
                (forall x, In x l1 -> before M x) /\
                (forall x, In x l2 -> ~ before x M).
Proof.
  revert M. induction l as [|x xs IH]; intros M Hok HM; [discriminate|].
  inversion Hok as [|? ? Hx Hxs]; subst. cbn [firstSorted] in HM.
  destruct (firstSorted xs) as [h|] eqn:Eh.
  - destruct (IH h Hxs eq_refl) as (l1 & l2 & -> & H1 & H2).
    assert (Hh : ok h) by (rewrite Forall_forall in Hxs; apply Hxs, in_elt).
    destruct (sortsAfter x h) eqn:Ea; injection HM as <-.
    + exists (x :: l1), l2. repeat split; [|exact H2].
      intros y [<-|Hy]; [now apply sortsAfter_iff | now apply H1].
    + exists [], (l1 ++ h :: l2). repeat split; [intros ? []|].
      assert (Hnb : ~ before h x).
      { intros Hb. apply sortsAfter_iff in Hb; try assumption. congruence. }
      intros y Hy Hyx.
      destruct (before_negtrans y h x Hyx) as [Hyh|Hhx]; [|contradiction].
      apply in_app_or in Hy. destruct Hy as [Hy|[<-|Hy]].
      * exact (before_asym _ _ (H1 _ Hy) Hyh).
      * exact (before_asym _ _ Hyh Hyh).
      * exact (H2 _ Hy Hyh).
  - injection HM as <-.
    destruct xs as [|y ys];
      [|cbn [firstSorted] in Eh; destruct (firstSorted ys) as [h|]; [destruct (sortsAfter y h)|]; discriminate].
    exists [], []. repeat split; intros ? [].
Qed.

End SortHead.

(** The order of [findBestMatch]: lower priority number first, then
    higher confidence. *)
Definition confidenceValue (m : RuleMatch) : Q :=
  match confidence m with
  | Fin q => q
  | _ => 0%Q
  end.

Definition finiteConfidence (m : RuleMatch) : Prop := exists q, confidence m = Fin q.

Definition ranksBefore (a b : RuleMatch) : Prop :=
  (priority (rule a) < priority (rule b))%Z \/
  (priority (rule a) = priority (rule b) /\ (confidenceValue b < confidenceValue a)%Q).

Lemma ltb_zero_fin (v : Q) : ltb (Fin 0) (Fin v) = true <-> (0 < v)%Q.
Proof.
  unfold ltb. rewrite Qlt_alt. destruct (Qcompare 0 v); split; congruence.
Qed.

Lemma compareMatches_sortsAfter (x y : RuleMatch) :
  finiteConfidence x -> finiteConfidence y ->
  (sortsAfter compareMatches x y = true <-> ranksBefore y x).
Proof.
  intros [qx Hx] [qy Hy]. unfold sortsAfter, JSArray.sortCompare, compareMatches, ranksBefore,
    confidenceValue. rewrite Hx, Hy.
  destruct (Z.eqb_spec (priority (rule x)) (priority (rule y))) as [E|E]; cbn [negb].
  - cbn [sub neg add]. rewrite ltb_zero_fin, round_pos_iff. split.
    + intros H. right. split; [congruence | lra].
    + intros [H|[_ H]]; [lia | lra].
  - unfold ofZ. rewrite ltb_zero_fin. change 0%Q with (inject_Z 0). rewrite <- Zlt_Qlt. split.
    + intros H. left. lia.
    + intros [H|[H _]]; [lia | congruence].
Qed.

Lemma ranksBefore_asym (x y : RuleMatch) : ranksBefore x y -> ~ ranksBefore y x.
Proof. unfold ranksBefore. intros [H|[H1 H2]] [K|[K1 K2]]; try lia. lra. Qed.

Lemma ranksBefore_negtrans (x y z : RuleMatch) :
  ranksBefore x z -> ranksBefore x y \/ ranksBefore y z.
Proof.
  unfold ranksBefore. intros H.
  destruct (Z.lt_total (priority (rule x)) (priority (rule y))) as [L|[E|G]];
    [left; now left | | right; left; destruct H as [H|[H _]]; lia].
  destruct (Z.lt_total (priority (rule y)) (priority (rule z))) as [L'|[E'|G']];
    [right; now left | | exfalso; destruct H as [H|[H _]]; lia].
  destruct H as [H|[_ H]]; [lia|].
  destruct (Qlt_le_dec (confidenceValue y) (confidenceValue x)) as [Q1|Q1].
  - left. right. split; assumption.
  - right. right. split; [assumption | lra].
Qed.

Definition matchOf (input : jsstring) (context : RuleEvaluationContext) (r : MappingRule)
  : list RuleMatch :=
  match evaluateRule input r context with
  | Some m => [m]
  | None => []
  end.

(** [findMatchingRules] keeps the order of the rules. *)
Lemma findMatchingRules_flat_map (input : jsstring) (rules : list MappingRule)
  (context : RuleEvaluationContext) :
  findMatchingRules input rules context = flat_map (matchOf input context) rules.
Proof.
  unfold findMatchingRules.
  enough (H : forall acc,
             fold_left (fun matches r =>
                          match evaluateRule input r context with
                          | Some m => matches ++ [m]
                          | None => matches
                          end) rules acc
             = acc ++ flat_map (matchOf input context) rules) by apply (H []).
  induction rules as [|r rules IH]; intros acc; cbn [fold_left flat_map].
  - now rewrite app_nil_r.
  - rewrite IH. unfold matchOf at 2.
    destruct (evaluateRule input r context); [now rewrite <- app_assoc | reflexivity].
Qed.

Lemma findMatchingRules_in (input : jsstring) (rules : list MappingRule)
  (context : RuleEvaluationContext) (m : RuleMatch) :
  In m (findMatchingRules input rules context) <->
  exists r, In r rules /\ evaluateRule input r context = Some m.
Proof.
  rewrite findMatchingRules_flat_map, in_flat_map. unfold matchOf. split.
  - intros (r & Hr & Hm). exists r. split; [assumption|].
    destruct (evaluateRule input r context); [destruct Hm as [->|[]]; reflexivity | destruct Hm].
  - intros (r & Hr & Hm). exists r. split; [assumption|]. rewrite Hm. now left.
Qed.

Lemma findMatchingRules_finite (input : jsstring) (rules : list MappingRule)
  (context : RuleEvaluationContext) :
  Forall finiteConfidence (findMatchingRules input rules context).
Proof.
  apply Forall_forall. intros m Hm. apply findMatchingRules_in in Hm.
  destruct Hm as (r & _ & Hr).
  destruct (evaluateRule_confidence_between _ _ _ _ Hr) as (q & Hq & _).
  now exists q.
Qed.

Lemma findBestMatch_firstSorted (input : jsstring) (rules : list MappingRule)
  (context : RuleEvaluationContext) :
  findBestMatch input rules context =
  firstSorted compareMatches (findMatchingRules input rules context).
Proof.
  unfold findBestMatch. rewrite hd_sort.
  now destruct (findMatchingRules input rules context).
Qed.

(** The best match splits the matches: those before it rank strictly
    after it, those after it do not rank before it. *)
Lemma findBestMatch_split (input : jsstring) (rules : list MappingRule)
  (context : RuleEvaluationContext) (M : RuleMatch) :
  findBestMatch input rules context = Some M ->
  exists l1 l2, findMatchingRules input rules context = l1 ++ M :: l2 /\
                (forall x, In x l1 -> ranksBefore M x) /\
                (forall x, In x l2 -> ~ ranksBefore x M).
Proof.
  rewrite findBestMatch_firstSorted. intros H.
  apply firstSorted_spec with (cmp := compareMatches) (ok := finiteConfidence).
  - intros x y Hx Hy. now apply compareMatches_sortsAfter.
  - exact ranksBefore_asym.
  - exact ranksBefore_negtrans.
  - apply findMatchingRules_finite.
  - exact H.
Qed.

(** Confidence [a] is at most confidence [b], both being numbers. *)
Definition confidenceLe (a b : number) : Prop :=
  exists x y, a = Fin x /\ b = Fin y /\ (x <= y)%Q.

(** C1. [findBestMatch] returns null exactly when no rule matches; a
    returned match is one of the matches, its priority is the least
    priority among them, and among the matches of that priority its
    confidence is the greatest. *)
Theorem findBestMatch_minimal (input : jsstring) (rules : list MappingRule)
  (context : RuleEvaluationContext) :
  let matches := findMatchingRules input rules context in
  (findBestMatch input rules context = None <-> matches = []) /\
  (forall M, findBestMatch input rules context = Some M ->
     In M matches /\
     (forall m, In m matches -> (priority (rule M) <= priority (rule m))%Z) /\
     (forall m, In m matches -> priority (rule m) = priority (rule M) ->
                confidenceLe (confidence m) (confidence M))).
Proof.
  intros matches. split.
  - unfold findBestMatch. fold matches. destruct matches as [|m ms] eqn:E.
    + split; reflexivity.
    + split; [|discriminate]. intros H. exfalso.
      assert (P : Permutation (JSArray.sort compareMatches (m :: ms)) (m :: ms)) by apply sort_perm.
      destruct (JSArray.sort compareMatches (m :: ms)); [|discriminate].
      apply Permutation_nil in P. discriminate.
  - intros M HM. destruct (findBestMatch_split _ _ _ _ HM) as (l1 & l2 & E & H1 & H2).
    assert (Hnot : forall m, In m matches -> ~ ranksBefore m M).
    { intros m Hm. unfold matches in Hm. rewrite E in Hm.
      apply in_app_or in Hm. destruct Hm as [Hm|[<-|Hm]].
      - apply ranksBefore_asym. now apply H1.
      - intros K. exact (ranksBefore_asym _ _ K K).
      - now apply H2. }
    assert (Hfin : forall m, In m matches -> finiteConfidence m).
    { apply Forall_forall. apply findMatchingRules_finite. }
    assert (HinM : In M matches) by (unfold matches; rewrite E; apply in_elt).
    split; [exact HinM|]. split.
    + intros m Hm. specialize (Hnot m Hm). unfold ranksBefore in Hnot.
      destruct (Z.lt_ge_cases (priority (rule m)) (priority (rule M))) as [L|G]; [|lia].
      exfalso. apply Hnot. now left.
    + intros m Hm Hp. specialize (Hnot m Hm). unfold ranksBefore, confidenceValue in Hnot.
      destruct (Hfin m Hm) as [qm Em]. destruct (Hfin M HinM) as [qM EM].
      rewrite Em, EM in Hnot. exists qm, qM. repeat split; try assumption.
      destruct (Qlt_le_dec qM qm) as [L|G]; [|exact G].
      exfalso. apply Hnot. right. now split.
Qed.

(** Two rules match [Projects/Test]; the one of priority 1 is returned,
    although it comes second in the list. *)
Definition rankedRules : list MappingRule :=
  [folderRule "broad" "Projects" 5; folderRule "narrow" "Projects/*" 1].

Definition narrowMatch : RuleMatch :=
  mkRuleMatch (folderRule "narrow" "Projects/*" 1) Folder (lit "Projects/*")
    (calculateMatchConfidence (lit "Projects/Test") (lit "Projects/*")).

Lemma findBestMatch_minimal_witness :
  findBestMatch (lit "Projects/Test") rankedRules (folderContext "Projects/Test")
    = Some narrowMatch /\
  List.length (findMatchingRules (lit "Projects/Test") rankedRules (folderContext "Projects/Test"))
    = 2 /\
  forall m,
    In m (findMatchingRules (lit "Projects/Test") rankedRules (folderContext "Projects/Test")) ->
    (1 <= priority (rule m))%Z.
Proof.
  assert (H : findBestMatch (lit "Projects/Test") rankedRules (folderContext "Projects/Test")
              = Some narrowMatch) by (vm_compute; reflexivity).
  split; [exact H|]. split; [vm_compute; reflexivity|].
  pose proof (findBestMatch_minimal (lit "Projects/Test") rankedRules
                (folderContext "Projects/Test")) as T.
  cbv zeta in T. destruct T as [_ T]. destruct (T narrowMatch H) as (_ & P & _).
  exact P.
Defined.

Lemma matchOf_split (input : jsstring) (context : RuleEvaluationContext)
  (rules : list MappingRule) : forall (l1 l2 : list RuleMatch) (M : RuleMatch),
  flat_map (matchOf input context) rules = l1 ++ M :: l2 ->
  exists rs1 r rs2,
    rules = rs1 ++ r :: rs2 /\
    l1 = flat_map (matchOf input context) rs1 /\
    evaluateRule input r context = Some M /\
    l2 = flat_map (matchOf input context) rs2.
Proof.
  induction rules as [|r rules IH]; intros l1 l2 M H; cbn [flat_map] in H.
  - destruct l1; discriminate.
  - unfold matchOf at 1 in H. destruct (evaluateRule input r context) as [m|] eqn:E.
    + destruct l1 as [|x l1]; cbn in H; injection H as -> H.
      * exists [], r, rules. split; [reflexivity|]. split; [reflexivity|].
        split; [exact E | symmetry; exact H].
      * destruct (IH _ _ _ H) as (rs1 & r' & rs2 & -> & -> & Hr & ->).
        exists (r :: rs1), r', rs2. split; [reflexivity|]. split; [|split; [exact Hr | reflexivity]].
        cbn [flat_map]. unfold matchOf at 2. now rewrite E.
    + cbn in H. destruct (IH _ _ _ H) as (rs1 & r' & rs2 & -> & -> & Hr & ->).
      exists (r :: rs1), r', rs2. split; [reflexivity|]. split; [|split; [exact Hr | reflexivity]].
      cbn [flat_map]. unfold matchOf at 2. now rewrite E.
Qed.

Lemma evaluateRule_rule (input : jsstring) (r : MappingRule) (context : RuleEvaluationContext)
  (m : RuleMatch) : evaluateRule input r context = Some m -> rule m = r.
Proof. intros H. destruct (evaluateRule_some _ _ _ _ H) as (c & p & _ & _ & _ & ->). reflexivity. Qed.

Definition matchesRule (input : jsstring) (context : RuleEvaluationContext) (r : MappingRule) : bool :=
  match evaluateRule input r context with
  | Some _ => true
  | None => false
  end.

Lemma findMatchingRules_rules (input : jsstring) (rules : list MappingRule)
  (context : RuleEvaluationContext) :
  map rule (findMatchingRules input rules context) = filter (matchesRule input context) rules.
Proof.
  rewrite findMatchingRules_flat_map.
  induction rules as [|r rules IH]; [reflexivity|].
  cbn [flat_map filter]. rewrite map_app, IH. unfold matchOf, matchesRule.
  destruct (evaluateRule input r context) as [m|] eqn:E; [|reflexivity].
  cbn. now rewrite (evaluateRule_rule _ _ _ _ E).
Qed.

Section SortStable.

Context {A : Type} (cmp : A -> A -> number).

(** Inserting an element moves it past the elements it compares greater
    than, and past no other: among elements none of which compares
    greater than another, the order is kept. *)
Lemma filter_insertSorted (P : A -> bool) (x : A) (l : list A) :
  (forall y, P x = true -> P y = true -> sortsAfter cmp x y = false) ->
  filter P (JSArray.insertSorted cmp x l) = filter P (x :: l).
Proof.
  intros H. induction l as [|y l IH]; [reflexivity|].
  cbn [JSArray.insertSorted].
  destruct (ltb (Fin 0) (JSArray.sortCompare cmp x y)) eqn:E; [|reflexivity].
  cbn [filter] in *. rewrite IH.
  destruct (P x) eqn:Px; [|reflexivity].
  destruct (P y) eqn:Py; [|reflexivity].
  specialize (H y eq_refl Py). unfold sortsAfter in H. congruence.
Qed.

Lemma filter_sort (P : A -> bool) (l : list A) :
  (forall x y, P x = true -> P y = true -> sortsAfter cmp x y = false) ->
  filter P (JSArray.sort cmp l) = filter P l.
Proof.
  intros H. induction l as [|x l IH]; [reflexivity|].
  cbn [JSArray.sort fold_right]. fold (JSArray.sort cmp l).
  rewrite filter_insertSorted by (intros y; apply H).
  cbn [filter]. now rewrite IH.
Qed.

End SortStable.

(** Two numbers are the same number. *)
Definition sameNumber (a b : number) : bool :=
  match a, b with
  | Fin x, Fin y => Qeq_bool x y
  | PosInf, PosInf | NegInf, NegInf => true
  | _, _ => false
  end.

(** [m] ties with [m0]: the same priority and the same confidence. *)
Definition tiesWith (m0 m : RuleMatch) : bool :=
  (priority (rule m) =? priority (rule m0))%Z && sameNumber (confidence m) (confidence m0).

Lemma ties_not_sortsAfter (m0 x y : RuleMatch) :
  tiesWith m0 x = true -> tiesWith m0 y = true -> sortsAfter compareMatches x y = false.
Proof.
  unfold tiesWith, sortsAfter, JSArray.sortCompare, compareMatches.
  intros Hx Hy. apply andb_true_iff in Hx, Hy. destruct Hx as [Px Cx], Hy as [Py Cy].
  apply Z.eqb_eq in Px, Py. rewrite Px, Py, Z.eqb_refl. cbn [negb].
  destruct (confidence m0) as [q0| | |], (confidence x) as [qx| | |], (confidence y) as [qy| | |];
    try discriminate; try reflexivity.
  cbn [sameNumber] in Cx, Cy. apply Qeq_bool_iff in Cx, Cy.
  cbn [sub neg add].
  destruct (ltb (Fin 0) (Fin (round (qy + - qx)))) eqn:E; [|reflexivity].
  apply ltb_zero_fin in E. apply (proj1 (round_pos_iff _)) in E. lra.
Qed.

Lemma ranksBefore_not_tie (M m : RuleMatch) :
  finiteConfidence M -> finiteConfidence m -> ranksBefore M m -> tiesWith M m = false.
Proof.
  intros [qM EM] [qm Em]. unfold ranksBefore, tiesWith, confidenceValue. rewrite EM, Em.
  cbn [sameNumber]. intros [H|[H1 H2]].
  - apply andb_false_iff. left. apply Z.eqb_neq. lia.
  - apply andb_false_iff. right. destruct (Qeq_bool qm qM) eqn:E; [|reflexivity].
    apply Qeq_bool_iff in E. lra.
Qed.

(** C9. The matches keep the order of the rule list, the sort keeps the
    order of the matches that tie (same priority, same confidence), and
    the match returned is the best one from the earliest rule: a rule
    placed before its rule that matches does not tie with it and ranks
    strictly after it (a greater priority number, or the same priority
    and a smaller confidence), and a rule placed after its rule that
    matches does not rank before it (a greater priority number, or the
    same priority and a confidence that is not greater). *)
Theorem findBestMatch_earliest_on_tie (input : jsstring) (rules : list MappingRule)
  (context : RuleEvaluationContext) :
  let matches := findMatchingRules input rules context in
  map rule matches = filter (matchesRule input context) rules /\
  (forall m0, filter (tiesWith m0) (JSArray.sort compareMatches matches)
              = filter (tiesWith m0) matches) /\
  (forall M, findBestMatch input rules context = Some M ->
     finiteConfidence M /\
     exists rs1 rs2,
       rules = rs1 ++ rule M :: rs2 /\
       evaluateRule input (rule M) context = Some M /\
       (forall r m, In r rs1 -> evaluateRule input r context = Some m ->
          finiteConfidence m /\ tiesWith M m = false /\
          ((priority (rule M) < priority (rule m))%Z \/
           (priority (rule M) = priority (rule m) /\
            (confidenceValue m < confidenceValue M)%Q))) /\
       (forall r m, In r rs2 -> evaluateRule input r context = Some m ->
          finiteConfidence m /\
          ((priority (rule M) < priority (rule m))%Z \/
           (priority (rule M) = priority (rule m) /\
            (confidenceValue m <= confidenceValue M)%Q)))).
Proof.
  intros matches. split; [apply findMatchingRules_rules|]. split.
  { intros m0. apply filter_sort. intros x y. apply ties_not_sortsAfter. }
  intros M HM.
  destruct (findBestMatch_split _ _ _ _ HM) as (l1 & l2 & E & H1 & H2).
  assert (Hfin : Forall finiteConfidence (findMatchingRules input rules context))
    by apply findMatchingRules_finite.
  rewrite Forall_forall in Hfin.
  assert (HMfin : finiteConfidence M) by (apply Hfin; rewrite E; apply in_elt).
  split; [exact HMfin|].
  rewrite findMatchingRules_flat_map in E.
  destruct (matchOf_split _ _ _ _ _ _ E) as (rs1 & r & rs2 & -> & -> & Hr & ->).
  pose proof (evaluateRule_rule _ _ _ _ Hr) as Er. subst r.
  exists rs1, rs2. split; [reflexivity|]. split; [exact Hr|]. split.
  - intros r' m Hin Hm.
    assert (Hl1 : In m (flat_map (matchOf input context) rs1)).
    { apply in_flat_map. exists r'. split; [exact Hin|]. unfold matchOf. rewrite Hm. now left. }
    assert (Fm : finiteConfidence m).
    { apply Hfin. apply findMatchingRules_in. exists r'. split; [|exact Hm].
      apply in_or_app. now left. }
    split; [exact Fm|]. split; [now apply ranksBefore_not_tie, H1|].
    exact (H1 _ Hl1).
  - intros r' m Hin Hm.
    assert (Hl2 : In m (flat_map (matchOf input context) rs2)).
    { apply in_flat_map. exists r'. split; [exact Hin|]. unfold matchOf. rewrite Hm. now left. }
    assert (Fm : finiteConfidence m).
    { apply Hfin. apply findMatchingRules_in. exists r'. split; [|exact Hm].
      apply in_or_app. right. now right. }
    split; [exact Fm|].
    specialize (H2 _ Hl2). unfold ranksBefore in H2.
    destruct (Z.lt_total (priority (rule M)) (priority (rule m))) as [L|[Eq|G]].
    + now left.
    + right. split; [exact Eq|].
      destruct (Qlt_le_dec (confidenceValue M) (confidenceValue m)) as [Q1|Q1]; [|exact Q1].
      exfalso. apply H2. right. split; [now symmetry | exact Q1].
    + exfalso. apply H2. now left.
Qed.

(** Two rules with the same pattern and priority. *)
Definition tiedRules : list MappingRule :=
  [folderRule "first" "Projects/*" 1; folderRule "second" "Projects/*" 1].

Definition firstTiedMatch : RuleMatch :=
  mkRuleMatch (folderRule "first" "Projects/*" 1) Folder (lit "Projects/*")
    (calculateMatchConfidence (lit "Projects/Test") (lit "Projects/*")).

(** Four rules match [Projects/sub].  The first has the greater priority
    number.  Of the three of priority 1 the second scores [0.6] and the
    last two, with the same pattern, [0.6000000000000001]: the third
    rule is returned, the earlier of the two that tie. *)
Definition rankedTiedRules : list MappingRule :=
  [folderRule "late" "Projects/*" 5; folderRule "short" "Projec" 1;
   folderRule "first" "Projects/*" 1; folderRule "second" "Projects/*" 1].

Definition tiedMatch (id : string) : RuleMatch :=
  mkRuleMatch (folderRule id "Projects/*" 1) Folder (lit "Projects/*")
    (calculateMatchConfidence (lit "Projects/sub") (lit "Projects/*")).

Lemma findBestMatch_earliest_on_tie_witness :
  let input := lit "Projects/sub" in
  let context := folderContext "Projects/sub" in
  findBestMatch input rankedTiedRules context = Some (tiedMatch "first") /\
  map confidence (findMatchingRules input rankedTiedRules context)
    = [Fin (0x13333333333334 # 0x20000000000000); Fin (0x13333333333333 # 0x20000000000000);
       Fin (0x13333333333334 # 0x20000000000000); Fin (0x13333333333334 # 0x20000000000000)] /\
  filter (tiesWith (tiedMatch "first"))
    (JSArray.sort compareMatches (findMatchingRules input rankedTiedRules context))
    = [tiedMatch "first"; tiedMatch "second"] /\
  exists rs1 rs2,
    rankedTiedRules = rs1 ++ folderRule "first" "Projects/*" 1 :: rs2 /\
    (forall r m, In r rs1 -> evaluateRule input r context = Some m ->
       tiesWith (tiedMatch "first") m = false) /\
    (forall r m, In r rs2 -> evaluateRule input r context = Some m ->
       (1 <= priority (rule m))%Z).
Proof.
  intros input context.
  assert (H : findBestMatch input rankedTiedRules context = Some (tiedMatch "first"))
    by (vm_compute; reflexivity).
  split; [exact H|]. split; [vm_compute; reflexivity|].
  destruct (findBestMatch_earliest_on_tie input rankedTiedRules context) as (_ & S & B).
  split; [rewrite S; vm_compute; reflexivity|].
  destruct (B _ H) as (_ & rs1 & rs2 & E & _ & B1 & B2).
  exists rs1, rs2. split; [exact E|]. split.
  - intros r m Hr Hm. exact (proj1 (proj2 (B1 r m Hr Hm))).
  - intros r m Hr Hm. destruct (B2 r m Hr Hm) as (_ & [L|[L _]]); cbn in L; lia.
Defined.

(** ** Concrete scenarios *)

(** C5. The expression compiled from the glob [Projects/**] matches
    paths at any depth under [Projects/]; the one compiled from
    [Projects/*] matches a direct child only. *)
Theorem globToRegex_star_depth :
  let anyDepth := globToRegex (lit "Projects/**") in
  let oneLevel := globToRegex (lit "Projects/*") in
  matchesPattern (lit "Projects/file.md") anyDepth None = true /\
  matchesPattern (lit "Projects/sub/file.md") anyDepth None = true /\
  matchesPattern (lit "Projects/sub/deep/file.md") anyDepth None = true /\
  matchesPattern (lit "Projects/file.md") oneLevel None = true /\
  matchesPattern (lit "Projects/sub/file.md") oneLevel None = false /\
  matchesPattern (lit "Projects/sub/deep/file.md") oneLevel None = false.
Proof. vm_compute. repeat split. Qed.

(** The folder name of the scenario: U+1F4C1 (a surrogate pair) followed
    by ASCII text. *)
Definition coolProjectFolder : jsstring :=
  [0xD83D; 0xDCC1]%N ++ lit " 01 - My Cool Project!!!".

Definition coolProjectTransforms : list RegexTransform :=
  [mkRegexTransform (lit "[^a-z0-9\-]") (lit "") (Some (lit "gi"))].

Definition coolProjectConfig : TransformConfig :=
  mkTransformConfig (Some KebabCase) (Some EmojiStrip) (Some NumberStrip)
    (Some coolProjectTransforms).

(** C3. On the folder name of the scenario [folderToTag] returns
    [my-cool-project]; the stages run in the fixed order: trim, emoji
    stripping, number-prefix stripping, kebab-case on each path segment,
    the custom expression, invalid tag characters, trim. *)
Theorem folderToTag_cool_project :
  folderToTag coolProjectFolder coolProjectConfig = lit "my-cool-project" /\
  let s1 := trim coolProjectFolder in
  let s2 := applyEmojiHandling s1 EmojiStrip in
  let s3 := stripNumberPrefix s2 in
  let s4 := applyCaseTransformToPath s3 (lit "kebab-case") in
  let s5 := applyRegexTransforms s4 coolProjectTransforms in
  let s6 := stripInvalidTagChars s5 in
  folderToTag coolProjectFolder coolProjectConfig = trim s6 /\
  s1 = coolProjectFolder /\
  s2 = lit "01 - My Cool Project!!!" /\
  s3 = lit "My Cool Project!!!" /\
  s4 = lit "my-cool-project!!!" /\
  s5 = lit "my-cool-project" /\
  s6 = lit "my-cool-project".
Proof. vm_compute. repeat split. Qed.

(** ** The match test of [evaluateRule] *)

(** The reading under which a glob pattern is matched through
    [globToRegex]: the rule is rejected when the anchored expression
    does not match, and accepted when it does and the gates pass. *)
Definition usesGlobSemantics (input : jsstring) (r : MappingRule)
  (context : RuleEvaluationContext) : Prop :=
  forall p, selectedPattern r (ctxMatchType context) = Some p ->
            isGlobPattern p = true ->
            (matchesPattern input (globToRegex p) None = false ->
             evaluateRule input r context = None) /\
            (gatesPass r context = true ->
             matchesPattern input (globToRegex p) None = true ->
             evaluateRule input r context <> None).

(** The glob [Projects/*] does not match a path two levels down, yet the
    rule matches it: as an expression, [Projects/*] is the text
    [Projects] followed by any number of slashes, found anywhere. *)
Lemma evaluateRule_glob_counterexample :
  ~ usesGlobSemantics (lit "Projects/sub/file.md") (folderRule "generic" "Projects/*" 1)
      (folderContext "Projects/sub/file.md").
Proof.
  intros H.
  assert (G : isGlobPattern (lit "Projects/*") = true) by (vm_compute; reflexivity).
  destruct (H (lit "Projects/*") eq_refl G) as [H1 _].
  assert (N : matchesPattern (lit "Projects/sub/file.md") (globToRegex (lit "Projects/*")) None = false)
    by (vm_compute; reflexivity).
  specialize (H1 N). clear N G H. vm_compute in H1. discriminate H1.
Qed.

(** The glob of the test suite [*/test/*] matches [parent/test/child],
    yet the rule does not: the text does not compile as an expression. *)
Lemma evaluateRule_glob_counterexample_reject :
  ~ usesGlobSemantics (lit "parent/test/child") (folderRule "nested" "*/test/*" 1)
      (folderContext "parent/test/child").
Proof.
  intros H.
  assert (G : isGlobPattern (lit "*/test/*") = true) by (vm_compute; reflexivity).
  destruct (H (lit "*/test/*") eq_refl G) as [_ H2].
  assert (Y : matchesPattern (lit "parent/test/child") (globToRegex (lit "*/test/*")) None = true)
    by (vm_compute; reflexivity).
  apply (H2 eq_refl Y). vm_compute. reflexivity.
Qed.

(** C2, amended. The match test of [evaluateRule] compiles the text of
    the selected pattern itself, glob or not, with [new RegExp(pattern)]
    and searches the input for it: a rule whose selected pattern is [p]
    matches exactly when the gates pass, [p] is not empty, [p] compiles
    and the compiled expression is found in the input; [evaluateRule]
    returns null otherwise, in particular when [p] does not compile. *)
Theorem evaluateRule_compiles_pattern_text (input : jsstring) (r : MappingRule)
  (context : RuleEvaluationContext) (p : jsstring) :
  selectedPattern r (ctxMatchType context) = Some p ->
  (evaluateRule input r context <> None <->
   gatesPass r context = true /\ p <> [] /\
   exists rx, RegExp_new p None = Ok rx /\ test rx input = true) /\
  ((forall rx, RegExp_new p None = Ok rx -> test rx input = false) ->
   evaluateRule input r context = None) /\
  (forall m, evaluateRule input r context = Some m ->
             matchedPattern m = p /\ rule m = r /\ matchType m = ctxMatchType context).
Proof.
  intros Hs.
  assert (Hmp : forall q, matchesPattern input q None = true <->
                          exists rx, RegExp_new q None = Ok rx /\ test rx input = true).
  { intros q. unfold matchesPattern. destruct (RegExp_new q None) as [rx|msg]; split.
    - intros H. now exists rx.
    - intros (rx' & E & H). now injection E as ->.
    - discriminate.
    - intros (rx' & E & _). discriminate. }
  assert (Hsome : forall m, evaluateRule input r context = Some m ->
                  gatesPass r context = true /\ p <> [] /\ matchesPattern input p None = true /\
                  matchedPattern m = p /\ rule m = r /\ matchType m = ctxMatchType context).
  { intros m Hm. destruct (evaluateRule_some _ _ _ _ Hm) as (c & q & Hs' & Hg & Hq & ->).
    rewrite Hs in Hs'. injection Hs' as ->. repeat split; try assumption. discriminate. }
  split; [|split].
  - split.
    + intros Hne. destruct (evaluateRule input r context) as [m|] eqn:E; [|congruence].
      destruct (Hsome m eq_refl) as (Hg & Hp & Hm & _). repeat split; try assumption.
      now apply Hmp.
    + intros (Hg & Hp & Hrx). destruct p as [|c q]; [congruence|].
      rewrite (evaluateRule_intro _ _ _ _ _ Hs Hg); [discriminate | now apply Hmp].
  - intros Hno. destruct (evaluateRule input r context) as [m|] eqn:E; [|reflexivity].
    destruct (Hsome m eq_refl) as (_ & _ & Hm & _).
    apply Hmp in Hm. destruct Hm as (rx & Hrx & Ht). rewrite (Hno rx Hrx) in Ht. discriminate.
  - intros m Hm. destruct (Hsome m Hm) as (_ & _ & _ & H). exact H.
Qed.

Lemma evaluateRule_compiles_pattern_text_witness :
  let input := lit "Projects/sub/file.md" in
  let r := folderRule "generic" "Projects/*" 1 in
  let context := folderContext "Projects/sub/file.md" in
  selectedPattern r (ctxMatchType context) = Some (lit "Projects/*") /\
  evaluateRule input r context <> None.
Proof.
  intros input r context. split; [reflexivity|].
  apply (evaluateRule_compiles_pattern_text input r context (lit "Projects/*") eq_refl).
  split; [reflexivity|]. split; [discriminate|].
  destruct (RegExp_new (lit "Projects/*") None) as [rx|msg] eqn:E; [|vm_compute in E; discriminate].
  exists rx. split; [reflexivity|].
  vm_compute in E. injection E as <-. vm_compute. reflexivity.
Defined.

(** ** Rule validation *)

(** The conditions that [validateRule] reports. *)
Definition blank (s : jsstring) : bool := JS.eqb (trim s) [].

Definition compileFails (p : option jsstring) : bool :=
  match p with
  | Some (c :: q) => match patternToRegex (c :: q) with
                     | Ok _ => false
                     | Throw _ => true
                     end
  | _ => false
  end.

Definition violations (r : MappingRule) : list bool :=
  [ blank (id r);
    blank (Settings.name r);
    (priority r <? 0)%Z;
    needsFolderPattern r && negb (present (folderPattern r));
    needsTagPattern r && negb (present (tagPattern r));
    compileFails (folderPattern r);
    compileFails (tagPattern r) ].

Definition indicator (b : bool) : nat := if b then 1 else 0.

Lemma in_conditional (c : bool) (y x : jsstring) :
  In x (if c then [y] else []) <-> c = true /\ y = x.
Proof. destruct c; cbn; intuition congruence. Qed.

Lemma length_conditional (c : bool) (y : jsstring) :
  List.length (if c then [y] else []) = indicator c.
Proof. now destruct c. Qed.

Lemma patternError_in (prefix : jsstring) (p : option jsstring) (x : jsstring) :
  In x (patternError prefix p) <->
  exists c q msg, p = Some (c :: q) /\ patternToRegex (c :: q) = Throw msg /\
                  x = prefix ++ errorText msg.
Proof.
  unfold patternError. destruct p as [[|c q]|]; cbn [present].
  - split; [intros [] | intros (? & ? & ? & ? & _); discriminate].
  - destruct (patternToRegex (c :: q)) as [rx|msg] eqn:E; split.
    + intros [].
    + intros (c' & q' & msg & Hp & Ht & _). injection Hp as <- <-. congruence.
    + intros [<-|[]]. now exists c, q, msg.
    + intros (c' & q' & msg' & Hp & Ht & ->). injection Hp as <- <-.
      rewrite E in Ht. injection Ht as <-. now left.
  - split; [intros [] | intros (? & ? & ? & ? & _); discriminate].
Qed.

Lemma patternError_length (prefix : jsstring) (p : option jsstring) :
  List.length (patternError prefix p) = indicator (compileFails p).
Proof.
  unfold patternError, compileFails. destruct p as [[|c q]|]; cbn [present]; try reflexivity.
  now destruct (patternToRegex (c :: q)).
Qed.

Lemma blank_falsy (s : jsstring) :
  negb (present (Some s)) || JS.eqb (trim s) [] = blank s.
Proof. unfold blank. destruct s; reflexivity. Qed.

Lemma validateRule_errors (r : MappingRule) :
  errors (validateRule r) =
  (if blank (id r) then [lit "Rule must have a valid ID"] else []) ++
  (if blank (Settings.name r) then [lit "Rule must have a name"] else []) ++
  (if (priority r <? 0)%Z then [lit "Priority must be non-negative"] else []) ++
  (if needsFolderPattern r && negb (present (folderPattern r))
   then [lit "Folder-to-tag rules must have a folder pattern"] else []) ++
  (if needsTagPattern r && negb (present (tagPattern r))
   then [lit "Tag-to-folder rules must have a tag pattern"] else []) ++
  patternError (lit "Invalid folder pattern: ") (folderPattern r) ++
  patternError (lit "Invalid tag pattern: ") (tagPattern r).
Proof.
  unfold validateRule. cbn [errors]. rewrite !blank_falsy.
  cbn [app]. rewrite <- !app_assoc. reflexivity.
Qed.

Lemma validateRule_errors_in (r : MappingRule) (x : jsstring) :
  In x (errors (validateRule r)) <->
  (blank (id r) = true /\ lit "Rule must have a valid ID" = x) \/
  (blank (Settings.name r) = true /\ lit "Rule must have a name" = x) \/
  ((priority r <? 0)%Z = true /\ lit "Priority must be non-negative" = x) \/
  (needsFolderPattern r && negb (present (folderPattern r)) = true /\
   lit "Folder-to-tag rules must have a folder pattern" = x) \/
  (needsTagPattern r && negb (present (tagPattern r)) = true /\
   lit "Tag-to-folder rules must have a tag pattern" = x) \/
  (exists c q msg, folderPattern r = Some (c :: q) /\ patternToRegex (c :: q) = Throw msg /\
                   x = lit "Invalid folder pattern: " ++ errorText msg) \/
  (exists c q msg, tagPattern r = Some (c :: q) /\ patternToRegex (c :: q) = Throw msg /\
                   x = lit "Invalid tag pattern: " ++ errorText msg).
Proof.
  rewrite validateRule_errors. repeat rewrite in_app_iff. repeat rewrite in_conditional.
  repeat rewrite patternError_in. reflexivity.
Qed.

Lemma compileFails_iff (p : option jsstring) :
  compileFails p = true <->
  exists c q msg, p = Some (c :: q) /\ patternToRegex (c :: q) = Throw msg.
Proof.
  unfold compileFails. destruct p as [[|c q]|].
  - split; [discriminate | intros (? & ? & ? & ? & _); discriminate].
  - destruct (patternToRegex (c :: q)) as [rx|msg] eqn:E; split.
    + discriminate.
    + intros (c' & q' & msg & Hp & Ht). injection Hp as <- <-. congruence.
    + intros _. now exists c, q, msg.
    + reflexivity.
  - split; [discriminate | intros (? & ? & ? & ? & _); discriminate].
Qed.

Lemma needsFolderPattern_iff (r : MappingRule) :
  needsFolderPattern r = true <-> direction r = FolderToTag \/ direction r = Bidirectional.
Proof. unfold needsFolderPattern. destruct (direction r); cbn; intuition congruence. Qed.

Lemma needsTagPattern_iff (r : MappingRule) :
  needsTagPattern r = true <-> direction r = TagToFolder \/ direction r = Bidirectional.
Proof. unfold needsTagPattern. destruct (direction r); cbn; intuition congruence. Qed.

(** The messages are pairwise distinct, whatever the engine's text of a
    compilation error. *)
Ltac distinct_message H :=
  apply (f_equal (firstn 30)) in H; vm_compute in H; discriminate H.

Ltac other_messages :=
  match goal with
  | H : _ \/ _ |- _ => destruct H as [H|H]; other_messages
  | H : (exists c q msg, _ /\ _ /\ _) |- _ =>
      let c := fresh in let q := fresh in let m := fresh in
      let H1 := fresh in let H2 := fresh in let H3 := fresh in
      destruct H as (c & q & m & H1 & H2 & H3); try distinct_message H3
  | H : _ = true /\ _ = _ |- _ =>
      let H1 := fresh in let H2 := fresh in
      destruct H as [H1 H2]; try distinct_message H2
  end.

(** C7. [validateRule] reports every violated condition, one message
    each and none for a condition that holds: a blank id, a blank name,
    a negative priority, a missing folder pattern or tag pattern where
    the direction needs it, a folder pattern or tag pattern that does
    not compile; and the rule is valid exactly when no message is
    reported. *)
Theorem validateRule_accumulates (r : MappingRule) :
  let v := validateRule r in
  List.length (errors v) = list_sum (map indicator (violations r)) /\
  (In (lit "Rule must have a valid ID") (errors v) <-> blank (id r) = true) /\
  (In (lit "Rule must have a name") (errors v) <-> blank (Settings.name r) = true) /\
  (In (lit "Priority must be non-negative") (errors v) <-> (priority r < 0)%Z) /\
  (In (lit "Folder-to-tag rules must have a folder pattern") (errors v) <->
     (direction r = FolderToTag \/ direction r = Bidirectional) /\ present (folderPattern r) = false) /\
  (In (lit "Tag-to-folder rules must have a tag pattern") (errors v) <->
     (direction r = TagToFolder \/ direction r = Bidirectional) /\ present (tagPattern r) = false) /\
  ((exists e, In (lit "Invalid folder pattern: " ++ e) (errors v)) <->
     compileFails (folderPattern r) = true) /\
  ((exists e, In (lit "Invalid tag pattern: " ++ e) (errors v)) <->
     compileFails (tagPattern r) = true) /\
  (valid v = true <-> errors v = []).
Proof.
  intros v. subst v.
  split.
  { rewrite validateRule_errors.
    rewrite !length_app, !length_conditional, !patternError_length.
    unfold violations, list_sum. cbn [map fold_right]. lia. }
  split.
  { rewrite validateRule_errors_in. split.
    - intros H. other_messages; assumption.
    - intros H. left. now split. }
  split.
  { rewrite validateRule_errors_in. split.
    - intros H. other_messages; assumption.
    - intros H. right. left. now split. }
  split.
  { rewrite validateRule_errors_in, <- Z.ltb_lt. split.
    - intros H. other_messages; assumption.
    - intros H. right. right. left. now split. }
  split.
  { rewrite validateRule_errors_in, <- needsFolderPattern_iff, <- negb_true_iff, <- andb_true_iff.
    split.
    - intros H. other_messages; assumption.
    - intros H. right. right. right. left. now split. }
  split.
  { rewrite validateRule_errors_in, <- needsTagPattern_iff, <- negb_true_iff, <- andb_true_iff.
    split.
    - intros H. other_messages; assumption.
    - intros H. do 4 right. left. now split. }
  split.
  { rewrite compileFails_iff. split.
    - intros [e H]. apply validateRule_errors_in in H. other_messages.
      match goal with
      | Hp : folderPattern r = Some _, Ht : patternToRegex _ = Throw _ |- _ =>
          eexists _, _, _; split; [exact Hp | exact Ht]
      end.
    - intros (c & q & msg & Hp & Ht). exists (errorText msg).
      apply validateRule_errors_in. do 5 right. left. now exists c, q, msg. }
  split.
  { rewrite compileFails_iff. split.
    - intros [e H]. apply validateRule_errors_in in H. other_messages.
      match goal with
      | Hp : tagPattern r = Some _, Ht : patternToRegex _ = Throw _ |- _ =>
          eexists _, _, _; split; [exact Hp | exact Ht]
      end.
    - intros (c & q & msg & Hp & Ht). exists (errorText msg).
      apply validateRule_errors_in. do 6 right. now exists c, q, msg. }
  unfold validateRule. cbn [valid errors]. rewrite Nat.eqb_eq. apply length_zero_iff_nil.
Qed.

(** ** The transformation pipeline *)

(** A stage takes the accumulated text and returns the new text or
    throws. *)
Definition Stage := jsstring -> result jsstring.

Definition emojiStage (c : Callees) (config : TransformConfig) : list Stage :=
  match emojiHandling config with
  | Some h => [fun r => call_applyEmojiHandling c r h]
  | None => []
  end.

Definition numberStage (c : Callees) (config : TransformConfig) : list Stage :=
  match numberPrefixHandling config with
  | Some NumberStrip => [call_stripNumberPrefix c]
  | Some NumberExtract =>
      [fun r => extracted <- call_applyNumberHandling c r NumberExtract ;;
                Ok (extractedName r extracted)]
  | _ => []
  end.

Definition caseStage (c : Callees) (config : TransformConfig) : list Stage :=
  match caseTransform config with
  | Some CaseNone | None => []
  | Some t => [fun r => call_applyCaseTransformToPath c r (caseName t)]
  end.

Definition regexStage (c : Callees) (config : TransformConfig) : list Stage :=
  match customTransforms config with
  | Some (t :: ts) => [fun r => call_applyRegexTransforms c r (t :: ts)]
  | _ => []
  end.

Definition tagStage (c : Callees) (options : PipelineOptions) : list Stage :=
  if isTrue (isTagTransform options) then [call_stripInvalidTagChars c] else [].

(** The stages a configuration switches on, in the order of the
    specification: emoji, number prefix, case, custom expressions, tag
    characters. *)
Definition configuredStages (c : Callees) (config : TransformConfig)
  (options : PipelineOptions) : list Stage :=
  emojiStage c config ++ numberStage c config ++ caseStage c config
  ++ regexStage c config ++ tagStage c options.

(** The stages run one after the other on the accumulated text. *)
Fixpoint runStages (stages : list Stage) (r : jsstring) : result jsstring :=
  match stages with
  | [] => Ok r
  | st :: rest => r' <- st r ;; runStages rest r'
  end.

Fixpoint execStages (stages : list Stage) : Block unit :=
  match stages with
  | [] => skip
  | st :: rest => assign st ;;; execStages rest
  end.

Lemma andThen_skip_l {A} (b : Block A) (r : jsstring) : (skip ;;; b) r = b r.
Proof. reflexivity. Qed.

Lemma andThen_assoc {A} (a b : Block unit) (k : Block A) (r : jsstring) :
  ((a ;;; b) ;;; k) r = (a ;;; (b ;;; k)) r.
Proof. unfold andThen. destruct (a r) as [[[]|e] r']; [|reflexivity]. reflexivity. Qed.

Lemma execStages_app {A} (l1 l2 : list Stage) (k : Block A) (r : jsstring) :
  (execStages (l1 ++ l2) ;;; k) r = (execStages l1 ;;; (execStages l2 ;;; k)) r.
Proof.
  revert r. induction l1 as [|st l1 IH]; intros r; [reflexivity|].
  cbn [app execStages]. rewrite !andThen_assoc. unfold andThen at 1 3.
  destruct (assign st r) as [[[]|e] r']; [apply IH | reflexivity].
Qed.

Lemma andThen_congr {A} (a a' : Block unit) (k k' : Block A) (r : jsstring) :
  (forall s, a s = a' s) -> (forall s, k s = k' s) -> (a ;;; k) r = (a' ;;; k') r.
Proof. intros Ha Hk. unfold andThen. rewrite Ha. destruct (a' r) as [[[]|e] r']; [apply Hk | reflexivity]. Qed.

Lemma execStages_single (st : Stage) (r : jsstring) : execStages [st] r = assign st r.
Proof. cbn. unfold andThen, skip. now destruct (assign st r) as [[[]|e] r']. Qed.

Lemma stage_step {A} (m : Block unit) (l rest : list Stage) (k k' : Block A) :
  (forall s, execStages l s = m s) ->
  (forall s, (execStages rest ;;; k) s = k' s) ->
  forall s, (execStages (l ++ rest) ;;; k) s = (m ;;; k') s.
Proof. intros Hl Hk s. rewrite execStages_app. now apply andThen_congr. Qed.

(** The [try] block runs the configured stages and returns the trimmed
    text. *)
Lemma tryBlock_stages (c : Callees) (config : TransformConfig) (options : PipelineOptions)
  (r : jsstring) :
  tryBlock c config options r = (execStages (configuredStages c config options) ;;; returnTrimmed) r.
Proof.
  symmetry. revert r. unfold configuredStages, tryBlock.
  apply stage_step.
  { intros s. unfold emojiStage.
    destruct (emojiHandling config); [now rewrite execStages_single | reflexivity]. }
  apply stage_step.
  { intros s. unfold numberStage.
    destruct (numberPrefixHandling config) as [[]|];
      try reflexivity; now rewrite execStages_single. }
  apply stage_step.
  { intros s. unfold caseStage.
    destruct (caseTransform config) as [[]|];
      try reflexivity; now rewrite execStages_single. }
  apply stage_step.
  { intros s. unfold regexStage.
    destruct (customTransforms config) as [[]|];
      try reflexivity; now rewrite execStages_single. }
  intros s. apply andThen_congr; [|reflexivity].
  intros s'. unfold tagStage.
  destruct (isTrue (isTagTransform options)); [now rewrite execStages_single | reflexivity].
Qed.

Lemma execStages_ok (stages : list Stage) : forall r final,
  runStages stages r = Ok final -> execStages stages r = (Ok tt, final).
Proof.
  induction stages as [|st rest IH]; intros r final H; cbn in H |- *.
  - now injection H as ->.
  - unfold andThen, assign. destruct (st r) as [r'|e]; cbn in H; [now apply IH | discriminate].
Qed.

Lemma execStages_throw (pre : list Stage) (st : Stage) (post : list Stage) : forall r acc e,
  runStages pre r = Ok acc -> st acc = Throw e ->
  execStages (pre ++ st :: post) r = (Throw e, acc).
Proof.
  induction pre as [|s pre IH]; intros r acc e H Hst; cbn in H |- *.
  - injection H as ->. unfold andThen, assign. now rewrite Hst.
  - unfold andThen, assign. destruct (s r) as [r'|e']; cbn in H; [now apply IH | discriminate].
Qed.

(** C6. Whatever the callees do, [applyTransformPipeline] completes with
    a value.  When the stages all return, the value is the trimmed final
    text; when a stage throws after the earlier ones returned, the value
    is the untouched input if [preserveOnError] is true, and otherwise
    the text accumulated up to the failing stage. *)
Theorem applyTransformPipeline_never_throws (c : Callees) (input : jsstring)
  (config : TransformConfig) (options : PipelineOptions) :
  (exists v, applyTransformPipelineWith c input config options = Ok v) /\
  (forall final,
     runStages (configuredStages c config options) (trim input) = Ok final ->
     applyTransformPipelineWith c input config options = Ok (trim final)) /\
  (forall pre st post acc e,
     configuredStages c config options = pre ++ st :: post ->
     runStages pre (trim input) = Ok acc ->
     st acc = Throw e ->
     applyTransformPipelineWith c input config options =
     Ok (if isTrue (preserveOnError options) then input else acc)).
Proof.
  unfold applyTransformPipelineWith. rewrite tryBlock_stages. split; [|split].
  - destruct ((execStages (configuredStages c config options) ;;; returnTrimmed) (trim input))
      as [[v|e] r]; eexists; reflexivity.
  - intros final H. unfold andThen. rewrite (execStages_ok _ _ _ H). reflexivity.
  - intros pre st post acc e Hs Hpre Hst. unfold andThen.
    rewrite Hs, (execStages_throw pre st post _ _ _ Hpre Hst). reflexivity.
Qed.

(** The transformers of the source, except that applying the custom
    expressions throws. *)
Definition failingCallees : Callees := {|
  call_applyEmojiHandling := call_applyEmojiHandling sourceCallees;
  call_stripNumberPrefix := call_stripNumberPrefix sourceCallees;
  call_applyNumberHandling := call_applyNumberHandling sourceCallees;
  call_applyCaseTransformToPath := call_applyCaseTransformToPath sourceCallees;
  call_applyRegexTransforms := fun _ _ => Throw "TypeError"%string;
  call_stripInvalidTagChars := call_stripInvalidTagChars sourceCallees
|}.

Lemma applyTransformPipeline_never_throws_witness :
  applyTransformPipelineWith failingCallees coolProjectFolder coolProjectConfig
    (mkPipelineOptions (Some true) (Some true)) = Ok coolProjectFolder /\
  applyTransformPipelineWith failingCallees coolProjectFolder coolProjectConfig
    (mkPipelineOptions (Some true) None) = Ok (lit "my-cool-project!!!").
Proof.
  assert (Hacc : runStages (emojiStage failingCallees coolProjectConfig
                            ++ numberStage failingCallees coolProjectConfig
                            ++ caseStage failingCallees coolProjectConfig)
                   (trim coolProjectFolder) = Ok (lit "my-cool-project!!!"))
    by (vm_compute; reflexivity).
  split.
  - exact (proj2 (proj2 (applyTransformPipeline_never_throws failingCallees coolProjectFolder
             coolProjectConfig (mkPipelineOptions (Some true) (Some true))))
             (emojiStage failingCallees coolProjectConfig
              ++ numberStage failingCallees coolProjectConfig
              ++ caseStage failingCallees coolProjectConfig)
             (fun r => call_applyRegexTransforms failingCallees r coolProjectTransforms)
             [call_stripInvalidTagChars failingCallees] _ "TypeError"%string
             eq_refl Hacc eq_refl).
  - exact (proj2 (proj2 (applyTransformPipeline_never_throws failingCallees coolProjectFolder
             coolProjectConfig (mkPipelineOptions (Some true) None)))
             (emojiStage failingCallees coolProjectConfig
              ++ numberStage failingCallees coolProjectConfig
              ++ caseStage failingCallees coolProjectConfig)
             (fun r => call_applyRegexTransforms failingCallees r coolProjectTransforms)
             [call_stripInvalidTagChars failingCallees] _ "TypeError"%string
             eq_refl Hacc eq_refl).
Defined.

(** ** The matcher only moves forward *)

(** [y] is reached from [x] by consuming input. *)
Definition extends (x y : MatchState) : Prop :=
  exists consumed, suf x = consumed ++ suf y /\ rpre y = rev consumed ++ rpre x.

Lemma extends_refl (x : MatchState) : extends x x.
Proof. now exists []. Qed.

Lemma extends_trans (x y z : MatchState) : extends x y -> extends y z -> extends x z.
Proof.
  intros (u & Hu1 & Hu2) (v & Hv1 & Hv2). exists (u ++ v). split.
  - rewrite Hu1, Hv1. now rewrite app_assoc.
  - rewrite Hv2, Hu2, rev_app_distr. now rewrite app_assoc.
Qed.

Lemma extends_caps (x y : MatchState) (cs cs' : list (nat * jsstring)) :
  extends x y -> extends (mkState (rpre x) (suf x) cs) (mkState (rpre y) (suf y) cs').
Proof. intros (u & H1 & H2). now exists u. Qed.

Lemma extends_length (x y : MatchState) :
  extends x y -> List.length (suf y) <= List.length (suf x).
Proof. intros (u & H & _). rewrite H, length_app. lia. Qed.

Lemma extends_same_length (x y : MatchState) :
  extends x y -> List.length (suf y) = List.length (suf x) ->
  suf y = suf x /\ rpre y = rpre x.
Proof.
  intros (u & H1 & H2) Hl. rewrite H1, length_app in Hl.
  destruct u; [now rewrite H1, H2 | cbn in Hl; lia].
Qed.

Lemma matchText_extends (fl : Flags) (s : jsstring) : forall x y,
  matchText fl s x = Some y -> extends x y /\ caps y = caps x.
Proof.
  induction s as [|a s IH]; intros x y H; cbn in H.
  - injection H as <-. split; [apply extends_refl | reflexivity].
  - destruct (suf x) as [|b t] eqn:E; [discriminate|].
    destruct (canon fl a =? canon fl b)%N; [|discriminate].
    destruct (IH _ _ H) as [(u & H1 & H2) Hc]. cbn in H1, H2, Hc. split; [|exact Hc].
    exists (b :: u). rewrite E. split; [now rewrite H1 | cbn; now rewrite <- app_assoc].
Qed.

(** A matcher reports a result only through its continuation, called on
    a state that extends the starting state. *)
Definition forwardOnly (m : MatchState -> Continuation -> option MatchState) : Prop :=
  forall x c z, m x c = Some z -> exists y, extends x y /\ c y = Some z.

Lemma step_forward (P : N -> bool) : forwardOnly (fun x c => step x P c).
Proof.
  intros x c z H. unfold step in H. destruct (suf x) as [|a s] eqn:E; [discriminate|].
  destruct (P a); [|discriminate].
  eexists. split; [|exact H]. exists [a]. now rewrite E.
Qed.

Lemma repeatMatcher_forward (m : MatchState -> Continuation -> option MatchState)
  (ids : list nat) (greedy : bool) (c : Continuation) :
  forwardOnly m ->
  forall fuel min max x z,
    repeatMatcher m ids greedy c fuel min max x = Some z ->
    exists y, extends x y /\ c y = Some z.
Proof.
  intros Hm. induction fuel as [|fuel IH]; intros min max x z H; [discriminate|].
  cbn [repeatMatcher] in H.
  assert (Hbody : forall z',
    m (mkState (rpre x) (suf x) (clearCaps ids (caps x)))
      (fun y => if Nat.eqb min 0 && Nat.eqb (List.length (suf y)) (List.length (suf x))
                then None
                else repeatMatcher m ids greedy c fuel (Nat.pred min) (option_map Nat.pred max) y)
    = Some z' -> exists y, extends x y /\ c y = Some z').
  { intros z' Hz. destruct (Hm _ _ _ Hz) as (y & Hy & Hd).
    destruct (Nat.eqb min 0 && _); [discriminate|].
    destruct (IH _ _ _ _ Hd) as (y' & Hy' & Hc). exists y'. split; [|exact Hc].
    apply extends_trans with y; [|exact Hy'].
    destruct x as [rp sf cs]. destruct Hy as (u & H1 & H2). now exists u. }
  assert (Hself : forall z', c x = Some z' -> exists y, extends x y /\ c y = Some z').
  { intros z' Hz. exists x. split; [apply extends_refl | exact Hz]. }
  destruct max as [[|k]|].
  - now apply Hself.
  - destruct (Nat.eqb min 0); cbn [negb] in H; [|now apply Hbody].
    destruct greedy; unfold orElse in H.
    + destruct (m _ _) as [w|] eqn:E; [injection H as <-; now apply Hbody | now apply Hself].
    + destruct (c x) as [w|] eqn:E; [injection H as <-; now apply Hself | now apply Hbody].
  - destruct (Nat.eqb min 0); cbn [negb] in H; [|now apply Hbody].
    destruct greedy; unfold orElse in H.
    + destruct (m _ _) as [w|] eqn:E; [injection H as <-; now apply Hbody | now apply Hself].
    + destruct (c x) as [w|] eqn:E; [injection H as <-; now apply Hself | now apply Hbody].
Qed.

Lemma matcher_forward (fl : Flags) (r : regex) : forwardOnly (matcher fl r).
Proof.
  induction r as [| a | | n items | | | n | i r IH | i | n r IH | r1 IH1 r2 IH2 | r1 IH1 r2 IH2
                 | min max greedy r IH]; intros x c z H; cbn [matcher] in H.
  - exists x. split; [apply extends_refl | exact H].
  - exact (step_forward _ _ _ _ H).
  - exact (step_forward _ _ _ _ H).
  - exact (step_forward _ _ _ _ H).
  - destruct (atBol fl x); [|discriminate]. exists x. split; [apply extends_refl | exact H].
  - destruct (atEol fl x); [|discriminate]. exists x. split; [apply extends_refl | exact H].
  - destruct (xorb n (atWordBoundary x)); [|discriminate].
    exists x. split; [apply extends_refl | exact H].
  - destruct (IH _ _ _ H) as (y & Hy & Hc). eexists. split; [|exact Hc].
    destruct Hy as (u & H1 & H2). now exists u.
  - destruct (getCap i (caps x)) as [s|]; [|exists x; split; [apply extends_refl | exact H]].
    destruct (matchText fl s x) as [y|] eqn:E; [|discriminate].
    exists y. split; [apply (matchText_extends _ _ _ _ E) | exact H].
  - destruct (matcher fl r x (fun y => Some y)) as [y|]; destruct n; try discriminate.
    + eexists. split; [|exact H]. now exists [].
    + exists x. split; [apply extends_refl | exact H].
  - destruct (IH1 _ _ _ H) as (y1 & Hy1 & H1). destruct (IH2 _ _ _ H1) as (y2 & Hy2 & H2).
    exists y2. split; [apply extends_trans with y1; assumption | exact H2].
  - unfold orElse in H. destruct (matcher fl r1 x c) as [w|] eqn:E.
    + injection H as <-. exact (IH1 _ _ _ E).
    + exact (IH2 _ _ _ H).
  - exact (repeatMatcher_forward _ _ _ _ IH _ _ _ _ _ H).
Qed.

(** A matcher looks at its continuation only on states that extend the
    starting state. *)
Definition respectful (m : MatchState -> Continuation -> option MatchState) : Prop :=
  forall x c1 c2, (forall y, extends x y -> c1 y = c2 y) -> m x c1 = m x c2.

Lemma step_respectful (P : N -> bool) : respectful (fun x c => step x P c).
Proof.
  intros x c1 c2 H. unfold step. destruct (suf x) as [|a s] eqn:E; [reflexivity|].
  destruct (P a); [|reflexivity]. apply H. exists [a]. now rewrite E.
Qed.

Lemma repeatMatcher_respectful (m : MatchState -> Continuation -> option MatchState)
  (ids : list nat) (greedy : bool) :
  respectful m ->
  forall fuel c1 c2 min max x,
    (forall y, extends x y -> c1 y = c2 y) ->
    repeatMatcher m ids greedy c1 fuel min max x = repeatMatcher m ids greedy c2 fuel min max x.
Proof.
  intros Hm. induction fuel as [|fuel IH]; intros c1 c2 min max x H; [reflexivity|].
  cbn [repeatMatcher]. rewrite (H x (extends_refl x)).
  set (xr := mkState (rpre x) (suf x) (clearCaps ids (caps x))).
  assert (E : m xr (fun y => if Nat.eqb min 0 && Nat.eqb (List.length (suf y)) (List.length (suf x))
                             then None
                             else repeatMatcher m ids greedy c1 fuel (Nat.pred min)
                                    (option_map Nat.pred max) y)
            = m xr (fun y => if Nat.eqb min 0 && Nat.eqb (List.length (suf y)) (List.length (suf x))
                             then None
                             else repeatMatcher m ids greedy c2 fuel (Nat.pred min)
                                    (option_map Nat.pred max) y)).
  { apply Hm. intros y Hy. destruct (Nat.eqb min 0 && _); [reflexivity|].
    apply IH. intros y' Hy'. apply H. apply extends_trans with y; [|exact Hy'].
    destruct Hy as (u & H1 & H2). now exists u. }
  rewrite E. reflexivity.
Qed.

Lemma matcher_respectful (fl : Flags) (r : regex) : respectful (matcher fl r).
Proof.
  induction r as [| a | | n items | | | n | i r IH | i | n r IH | r1 IH1 r2 IH2 | r1 IH1 r2 IH2
                 | min max greedy r IH]; intros x c1 c2 H; cbn [matcher].
  - apply H, extends_refl.
  - now apply step_respectful.
  - now apply step_respectful.
  - now apply step_respectful.
  - now rewrite (H x (extends_refl x)).
  - now rewrite (H x (extends_refl x)).
  - now rewrite (H x (extends_refl x)).
  - apply IH. intros y (u & H1 & H2). apply H. now exists u.
  - rewrite (H x (extends_refl x)). destruct (getCap i (caps x)) as [s|]; [|reflexivity].
    destruct (matchText fl s x) as [y|] eqn:E; [|reflexivity].
    apply H. apply (matchText_extends _ _ _ _ E).
  - rewrite (H x (extends_refl x)).
    destruct (matcher fl r x (fun y => Some y)); [|reflexivity].
    destruct n; [reflexivity|]. apply H. now exists [].
  - apply IH1. intros y Hy. apply IH2. intros y' Hy'. apply H.
    now apply extends_trans with y.
  - rewrite (IH1 x c1 c2 H), (IH2 x c1 c2 H). reflexivity.
  - now apply repeatMatcher_respectful.
Qed.

(** Beyond [repeatFuel] the fuel of [RepeatMatcher] does not matter. *)
Lemma repeatMatcher_fuel (m : MatchState -> Continuation -> option MatchState)
  (ids : list nat) (greedy : bool) (c : Continuation) :
  respectful m ->
  forall f1 f2 min max x,
    repeatFuel min x <= f1 -> repeatFuel min x <= f2 ->
    repeatMatcher m ids greedy c f1 min max x = repeatMatcher m ids greedy c f2 min max x.
Proof.
  intros Hm. induction f1 as [|f1 IH]; intros f2 min max x H1 H2;
    [unfold repeatFuel in H1; lia|].
  destruct f2 as [|f2]; [unfold repeatFuel in H2; lia|].
  cbn [repeatMatcher].
  set (xr := mkState (rpre x) (suf x) (clearCaps ids (caps x))).
  assert (E : m xr (fun y => if Nat.eqb min 0 && Nat.eqb (List.length (suf y)) (List.length (suf x))
                             then None
                             else repeatMatcher m ids greedy c f1 (Nat.pred min)
                                    (option_map Nat.pred max) y)
            = m xr (fun y => if Nat.eqb min 0 && Nat.eqb (List.length (suf y)) (List.length (suf x))
                             then None
                             else repeatMatcher m ids greedy c f2 (Nat.pred min)
                                    (option_map Nat.pred max) y)).
  { apply Hm. intros y Hy.
    destruct (Nat.eqb min 0 && Nat.eqb (List.length (suf y)) (List.length (suf x))) eqn:T;
      [reflexivity|].
    apply extends_length in Hy. cbn [suf xr] in Hy.
    unfold repeatFuel in *.
    apply IH; destruct min as [|k]; cbn [Nat.pred];
      cbn [Nat.eqb andb] in T; try apply Nat.eqb_neq in T; lia. }
  rewrite E. reflexivity.
Qed.

(** ** What a search returns *)

Lemma firstn_app_length (u v : jsstring) :
  firstn (List.length (u ++ v) - List.length v) (u ++ v) = u.
Proof.
  rewrite length_app. replace (List.length u + List.length v - List.length v) with (List.length u) by lia.
  rewrite firstn_app, Nat.sub_diag, firstn_all. cbn. apply app_nil_r.
Qed.

Lemma matchAt_spec (rx : RegExp) (rp sf : jsstring) (m : Match) :
  matchAt rx rp sf = Some m ->
  rbefore m = rp /\ sf = matched m ++ rest m.
Proof.
  unfold matchAt. intros H.
  destruct (matcher (RegExp.flags rx) (tree rx) (mkState rp sf []) (fun y => Some y)) as [z|] eqn:E;
    [|discriminate].
  destruct (matcher_forward _ _ _ _ _ E) as (y & (u & H1 & H2) & Hy).
  injection Hy as ->. injection H as <-. destruct z as [zr zs zc].
  cbn in H1 |- *. subst sf. split; [reflexivity|].
  now rewrite firstn_app_length.
Qed.

Lemma search_spec (rx : RegExp) (sf : jsstring) : forall rp sk m,
  search rx rp sf = Some (sk, m) ->
  sf = sk ++ matched m ++ rest m /\
  rbefore m = rev sk ++ rp /\
  matchAt rx (rbefore m) (matched m ++ rest m) = Some m.
Proof.
  induction sf as [|a sf IH]; intros rp sk m H; cbn [search] in H.
  - destruct (matchAt rx rp []) as [m'|] eqn:E.
    + injection H as <- <-. destruct (matchAt_spec _ _ _ _ E) as [Hb Hs].
      cbn [app rev]. rewrite Hb, <- Hs. now repeat split.
    + destruct (sticky (RegExp.flags rx)); discriminate.
  - destruct (matchAt rx rp (a :: sf)) as [m'|] eqn:E.
    + injection H as <- <-. destruct (matchAt_spec _ _ _ _ E) as [Hb Hs].
      cbn [app rev]. rewrite Hb, <- Hs. now repeat split.
    + destruct (sticky (RegExp.flags rx)); [discriminate|].
      destruct (search rx (a :: rp) sf) as [[sk' m']|] eqn:Hsr; [|discriminate].
      injection H as <- <-. destruct (IH _ _ _ Hsr) as (H1 & H2 & H3).
      repeat split; [cbn; now rewrite <- H1 | | exact H3].
      rewrite H2. cbn [rev]. now rewrite <- app_assoc.
Qed.

(** The search finds the leftmost position at which the expression
    matches. *)
Lemma search_leftmost (rx : RegExp) (sf : jsstring) : forall rp u v m',
  sticky (RegExp.flags rx) = false ->
  sf = u ++ v ->
  matchAt rx (rev u ++ rp) v = Some m' ->
  exists sk m, search rx rp sf = Some (sk, m) /\ List.length sk <= List.length u.
Proof.
  induction sf as [|a sf IH]; intros rp u v m' Hs Hsf Hm.
  - destruct u; [|discriminate]. cbn in Hsf. subst v. cbn in Hm.
    exists [], m'. cbn [search]. rewrite Hm. split; [reflexivity | cbn; lia].
  - cbn [search]. destruct (matchAt rx rp (a :: sf)) as [m0|] eqn:E.
    + exists [], m0. split; [reflexivity | cbn; lia].
    + rewrite Hs. destruct u as [|b u].
      * cbn in Hsf, Hm. subst v. congruence.
      * cbn in Hsf. injection Hsf as <- ->. cbn [rev] in Hm. rewrite <- app_assoc in Hm.
        destruct (IH (a :: rp) u v m' Hs eq_refl Hm) as (sk & m & Hsr & L).
        rewrite Hsr. exists (a :: sk), m. split; [reflexivity | cbn; lia].
Qed.

(** ** Global replacement replaces every match *)

Definition startOf (m : Match) : nat := List.length (rbefore m).
Definition endOf (m : Match) : nat := startOf m + List.length (matched m).

(** The second phase of [String.prototype.replace] as the ECMAScript
    specification words it: the text from the end of the previous match
    to the start of each match is kept, the match is replaced, and the
    text after the last match is kept. *)
Fixpoint spliceFrom (repl : Match -> list N) (pos : nat) (ms : list Match) (s : list N) : list N :=
  match ms with
  | [] => skipn pos s
  | m :: ms' =>
      firstn (startOf m - pos) (skipn pos s) ++ repl m ++ spliceFrom repl (endOf m) ms' s
  end.

Lemma search_rest_length (rx : RegExp) (rp sf sk : jsstring) (m : Match) :
  search rx rp sf = Some (sk, m) ->
  List.length sf = List.length sk + List.length (matched m) + List.length (rest m).
Proof.
  intros H. destruct (search_spec _ _ _ _ _ H) as (H1 & _).
  rewrite H1 at 1. rewrite !length_app. lia.
Qed.

(** With more fuel than the text is long the loops do not depend on the
    fuel. *)
Lemma matchLoop_fuel (rx : RegExp) : forall f1 f2 rp sf,
  List.length sf < f1 -> List.length sf < f2 ->
  matchLoop f1 rx rp sf = matchLoop f2 rx rp sf.
Proof.
  induction f1 as [|f1 IH]; intros f2 rp sf H1 H2; [lia|].
  destruct f2 as [|f2]; [lia|]. cbn [matchLoop].
  destruct (search rx rp sf) as [[sk m]|] eqn:Hsr; [|reflexivity].
  pose proof (search_rest_length _ _ _ _ _ Hsr) as L. f_equal.
  destruct (matched m) as [|b bs]; cbn [List.length] in L.
  - destruct (rest m) as [|a sf']; [reflexivity|]. cbn [List.length] in L. apply IH; lia.
  - apply IH; lia.
Qed.

Lemma replaceLoop_fuel (rx : RegExp) (repl : Match -> list N) : forall f1 f2 rp sf,
  List.length sf < f1 -> List.length sf < f2 ->
  replaceLoop f1 rx repl rp sf = replaceLoop f2 rx repl rp sf.
Proof.
  induction f1 as [|f1 IH]; intros f2 rp sf H1 H2; [lia|].
  destruct f2 as [|f2]; [lia|]. cbn [replaceLoop].
  destruct (search rx rp sf) as [[sk m]|] eqn:Hsr; [|reflexivity].
  pose proof (search_rest_length _ _ _ _ _ Hsr) as L. do 2 f_equal.
  destruct (matched m) as [|b bs]; cbn [List.length] in L.
  - destruct (rest m) as [|a sf']; [reflexivity|]. cbn [List.length] in L. f_equal. apply IH; lia.
  - apply IH; lia.
Qed.

Ltac lens := repeat (rewrite length_app || rewrite length_rev); cbn [List.length]; lia.

Lemma skipn_rev_app (pos : nat) (rp sf : jsstring) :
  pos <= List.length rp -> skipn pos (rev rp ++ sf) = skipn pos (rev rp) ++ sf.
Proof.
  intros H. rewrite skipn_app. rewrite length_rev.
  replace (pos - List.length rp) with 0 by lia. reflexivity.
Qed.

Lemma replaceLoop_splice (rx : RegExp) (repl : Match -> list N) : forall fuel rp sf pos,
  pos <= List.length rp ->
  skipn pos (rev rp) ++ replaceLoop fuel rx repl rp sf =
  spliceFrom repl pos (matchLoop fuel rx rp sf) (rev rp ++ sf).
Proof.
  induction fuel as [|fuel IH]; intros rp sf pos Hpos.
  - cbn [replaceLoop matchLoop spliceFrom]. now rewrite skipn_rev_app.
  - cbn [replaceLoop matchLoop].
    destruct (search rx rp sf) as [[sk m]|] eqn:Hsr;
      [|cbn [spliceFrom]; now rewrite skipn_rev_app].
    destruct (search_spec _ _ _ _ _ Hsr) as (Hsf & Hb & _). clear Hsr.
    destruct m as [mb mm mr mc]. cbn [rbefore matched rest] in *. subst mb sf.
    cbn [spliceFrom]. unfold endOf, startOf. cbn [rbefore matched rest].
    rewrite length_app, length_rev.
    rewrite skipn_rev_app by exact Hpos.
    assert (Hfirst : firstn (List.length sk + List.length rp - pos)
                       (skipn pos (rev rp) ++ sk ++ mm ++ mr)
                     = skipn pos (rev rp) ++ sk).
    { rewrite app_assoc, firstn_app.
      rewrite length_app, length_skipn, length_rev.
      replace (List.length sk + List.length rp - pos - (List.length rp - pos + List.length sk))
        with 0 by lia.
      cbn [firstn]. rewrite app_nil_r. apply firstn_all2.
      rewrite length_app, length_skipn, length_rev. lia. }
    rewrite Hfirst, <- !app_assoc. do 3 apply f_equal. clear Hfirst.
    assert (Hs : rev rp ++ sk ++ mm ++ mr = rev (rev sk ++ rp) ++ mm ++ mr).
    { rewrite rev_app_distr, rev_involutive. now rewrite <- app_assoc. }
    rewrite Hs. clear Hs.
    destruct mm as [|b bs].
    + destruct mr as [|a sf'].
      * cbn [matchLoop spliceFrom app]. symmetry. apply skipn_all2. lens.
      * cbn [app List.length]. rewrite Nat.add_0_r.
        specialize (IH (a :: rev sk ++ rp) sf' (List.length sk + List.length rp)).
        cbn [rev List.length] in IH. rewrite <- app_assoc in IH. cbn [app] in IH.
        rewrite <- IH by lens.
        rewrite skipn_app, skipn_all2 by lens.
        replace (List.length sk + List.length rp - List.length (rev (rev sk ++ rp))) with 0 by lens.
        reflexivity.
    + specialize (IH (rev (b :: bs) ++ rev sk ++ rp) mr
                     (List.length sk + List.length rp + List.length (b :: bs))).
      rewrite rev_app_distr, rev_involutive, <- app_assoc in IH.
      rewrite <- IH by lens.
      rewrite skipn_all2; [reflexivity|]. lens.
Qed.

Lemma app_split_le {A} (l1 l2 u v : list A) :
  l1 ++ l2 = u ++ v -> List.length l1 <= List.length u ->
  exists u', u = l1 ++ u' /\ l2 = u' ++ v.
Proof.
  revert u. induction l1 as [|a l1 IH]; intros u H L.
  - exists u. now split.
  - destruct u as [|b u]; [cbn in L; lia|]. cbn in H. injection H as <- H.
    destruct (IH u H ltac:(cbn in L; lia)) as (u' & -> & ->). now exists u'.
Qed.

(** Every position at which the expression matches is the start of a
    match of the loop or lies inside one. *)
Lemma matchLoop_covers (rx : RegExp) :
  sticky (RegExp.flags rx) = false ->
  forall fuel rp sf u v m',
    List.length sf < fuel ->
    sf = u ++ v ->
    matchAt rx (rev u ++ rp) v = Some m' ->
    exists m, In m (matchLoop fuel rx rp sf) /\
              startOf m <= List.length rp + List.length u /\
              (List.length rp + List.length u < endOf m \/
               List.length rp + List.length u = startOf m).
Proof.
  intros Hst. induction fuel as [|fuel IH]; intros rp sf u v m' Hf Hsf Hm; [lia|].
  destruct (search_leftmost rx sf rp u v m' Hst Hsf Hm) as (sk & m & Hsr & L).
  cbn [matchLoop]. rewrite Hsr.
  destruct (search_spec _ _ _ _ _ Hsr) as (Hsf' & Hb & _). clear Hsr.
  assert (Hstart : startOf m = List.length rp + List.length sk).
  { unfold startOf. rewrite Hb. lens. }
  destruct (Nat.eq_dec (List.length sk) (List.length u)) as [E|NE].
  { exists m. split; [now left|]. split; [lia | right; lia]. }
  destruct (Nat.lt_ge_cases (List.length rp + List.length u) (endOf m)) as [In_|Out].
  { exists m. split; [now left|]. split; [lia | now left]. }
  unfold endOf in Out. rewrite Hstart in Out. unfold startOf in Hstart.
  destruct m as [mb mm mr mc]. cbn [rbefore matched rest] in *. subst mb.
  assert (Hsplit : exists u', u = sk ++ mm ++ u' /\ mr = u' ++ v).
  { rewrite Hsf in Hsf'. symmetry in Hsf'.
    destruct (app_split_le sk _ u v Hsf' ltac:(lia)) as (w & -> & Hw).
    rewrite length_app in Out.
    destruct (app_split_le mm _ w v Hw ltac:(lia)) as (u' & -> & Hr).
    now exists u'. }
  destruct Hsplit as (u' & Hu & Hr). subst u mr sf.
  destruct mm as [|b bs].
  - cbn [app] in *. destruct u' as [|a u'].
    { rewrite app_nil_r in NE. congruence. }
    cbn [app].
    destruct (IH (a :: rev sk ++ rp) (u' ++ v) u' v m') as (m2 & Hin & B1 & B2).
    + revert Hf. lens.
    + reflexivity.
    + rewrite rev_app_distr in Hm. cbn [rev] in Hm.
      rewrite <- !app_assoc in Hm. exact Hm.
    + exists m2. split; [now right|]. revert B1 B2. lens.
  - destruct (IH (rev (b :: bs) ++ rev sk ++ rp) (u' ++ v) u' v m') as (m2 & Hin & B1 & B2).
    + revert Hf. lens.
    + reflexivity.
    + rewrite !rev_app_distr in Hm. rewrite <- !app_assoc in Hm. exact Hm.
    + exists m2. split; [now right|]. revert B1 B2. lens.
Qed.

(** ** The default flags of [applyRegexTransform] *)

Lemma RegExp_new_g (pattern : jsstring) (rx : RegExp) :
  RegExp_new pattern (Some (lit "g")) = Ok rx ->
  RegExp.flags rx = mkFlags true false false false false false false.
Proof.
  unfold RegExp_new. cbn [parseFlags parseFlagsFrom lit list_ascii_of_string map].
  change (setFlag noFlags (N_of_ascii "g")) with (Some (mkFlags true false false false false false false)).
  cbn [parseFlagsFrom bind].
  destruct (parsePattern _ _) as [[r gs]|msg]; cbn [bind]; [|discriminate].
  intros H. now injection H as <-.
Qed.

(** C10. A transform without flags is compiled with the flag [g]: the
    result is that of the same transform with flags [g]; when the
    pattern compiles the expression is global and the result is the
    input in which every match found by the successive searches is
    replaced, the text between the matches being kept; and every
    position of the input at which the expression matches is the start
    of a replaced match or lies inside one, so that no occurrence that
    does not overlap a replaced one is left. *)
Theorem applyRegexTransform_default_global (input pattern replacement : jsstring) :
  let t := mkRegexTransform pattern replacement None in
  applyRegexTransform input t =
  applyRegexTransform input (mkRegexTransform pattern replacement (Some (lit "g"))) /\
  forall rx, RegExp_new pattern (Some (lit "g")) = Ok rx ->
    global (RegExp.flags rx) = true /\
    applyRegexTransform input t =
    spliceFrom (fun m => substitute rx m replacement) 0 (matchAll rx input) input /\
    (forall u v m', input = u ++ v -> matchAt rx (rev u) v = Some m' ->
       exists m, In m (matchAll rx input) /\
                 startOf m <= List.length u /\
                 (List.length u < endOf m \/ List.length u = startOf m)).
Proof.
  intros t. split; [reflexivity|]. intros rx Hrx.
  pose proof (RegExp_new_g _ _ Hrx) as Hfl.
  split; [now rewrite Hfl|]. split.
  - unfold t, applyRegexTransform. cbn [Settings.pattern Settings.flags flagsOrG Settings.replacement].
    rewrite Hrx. unfold replace, replaceWith, matchAll, view, unview. rewrite Hfl.
    cbn [unicode global]. rewrite <- (replaceLoop_splice rx _ _ [] input 0) by (cbn; lia).
    reflexivity.
  - intros u v m' Hin Hm. unfold matchAll, view. rewrite Hfl. cbn [unicode].
    destruct (matchLoop_covers rx ltac:(now rewrite Hfl) (S (List.length input)) [] input u v m')
      as (m & H1 & H2 & H3); try assumption; [lia | now rewrite app_nil_r |].
    exists m. cbn [List.length] in H2, H3. now repeat split.
Qed.

(** Without flags, each of the three occurrences of [a] is replaced. *)
Lemma applyRegexTransform_default_global_witness :
  RegExp_new (lit "a") (Some (lit "g")) = Ok (literal "a" "g") /\
  List.length (matchAll (literal "a" "g") (lit "aaa")) = 3 /\
  applyRegexTransform (lit "aaa") (mkRegexTransform (lit "a") (lit "b") None) = lit "bbb".
Proof.
  assert (Hrx : RegExp_new (lit "a") (Some (lit "g")) = Ok (literal "a" "g"))
    by (vm_compute; reflexivity).
  split; [exact Hrx|]. split; [vm_compute; reflexivity|].
  pose proof (applyRegexTransform_default_global (lit "aaa") (lit "a") (lit "b")) as T.
  cbv zeta in T. destruct T as [_ T]. destruct (T _ Hrx) as (_ & E & _).
  rewrite E. vm_compute. reflexivity.
Defined.


(** ** The expressions of the case transformers *)

(** A maximal run of characters of a set at the front of a text. *)
Fixpoint takeRun (P : N -> bool) (s : jsstring) : jsstring :=
  match s with
  | a :: s' => if P a then a :: takeRun P s' else []
  | [] => []
  end.

Fixpoint dropRun (P : N -> bool) (s : jsstring) : jsstring :=
  match s with
  | a :: s' => if P a then dropRun P s' else s
  | [] => []
  end.

Lemma takeRun_dropRun (P : N -> bool) (s : jsstring) : takeRun P s ++ dropRun P s = s.
Proof. induction s as [|a s IH]; cbn; [reflexivity|]. destruct (P a); cbn; congruence. Qed.

Lemma dropRun_length (P : N -> bool) (s : jsstring) : List.length (dropRun P s) <= List.length s.
Proof. induction s as [|a s IH]; cbn; [lia|]. destruct (P a); cbn; lia. Qed.

(** The greedy loop over a one-character body with the accepting
    continuation consumes the whole run. *)
Lemma repeat_run (m : MatchState -> Continuation -> option MatchState) (P : N -> bool) :
  (forall x c, m x c = step x P c) ->
  forall sf fuel min rp,
  min + List.length sf < fuel ->
  repeatMatcher m [] true (fun y => Some y) fuel min None (mkState rp sf [])
  = if min <=? List.length (takeRun P sf)
    then Some (mkState (rev (takeRun P sf) ++ rp) (dropRun P sf) [])
    else None.
Proof.
  intros Hm. induction sf as [|a sf IH]; intros fuel min rp Hf;
    (destruct fuel as [|fuel]; [lia|]); cbn [repeatMatcher rpre suf caps clearCaps filter];
    rewrite Hm; unfold step; cbn [suf rpre caps].
  - destruct min as [|min]; cbn; reflexivity.
  - cbn [takeRun dropRun List.length] in *.
    destruct (P a) eqn:Pa.
    + assert (Hne : Nat.eqb (List.length sf) (S (List.length sf)) = false)
        by (apply Nat.eqb_neq; lia).
      rewrite Hne, andb_false_r.
      destruct min as [|min]; cbn [Nat.eqb negb Nat.pred option_map].
      * rewrite IH by lia. cbn [Nat.leb orElse rev]. now rewrite <- app_assoc.
      * rewrite IH by lia. cbn [Nat.leb List.length rev].
        destruct (min <=? List.length (takeRun P sf)); [now rewrite <- app_assoc | reflexivity].
    + destruct min as [|min]; cbn; reflexivity.
Qed.

(** An expression [[...]+]: at each position it matches the maximal,
    non-empty run of characters of [P]. *)
Definition runOf (rx : RegExp) (P : N -> bool) : Prop :=
  forall rp sf,
    matchAt rx rp sf =
    match takeRun P sf with
    | [] => None
    | run => Some (mkMatch rp run (dropRun P sf) [])
    end.

Lemma runOf_step (src : jsstring) (fl : Flags) (r : regex) (P : N -> bool) :
  groupsOf r = [] ->
  (forall x c, matcher fl r x c = step x P c) ->
  runOf (mkRegExp src fl (Quant 1 None true r) []) P.
Proof.
  intros Hg Hm rp sf. unfold matchAt. cbn [RegExp.flags tree matcher]. rewrite Hg.
  rewrite repeat_run with (P := P); [|exact Hm | unfold repeatFuel; cbn; lia].
  pose proof (takeRun_dropRun P sf) as E.
  destruct (takeRun P sf) as [|b run]; [reflexivity|].
  cbn [Nat.leb List.length]. cbn [suf caps].
  remember (dropRun P sf) as d eqn:Ed. clear Ed. subst sf.
  now rewrite firstn_app_length.
Qed.

(** Each maximal run of characters of [P] is replaced by [r]. *)
Fixpoint collapseFrom (P : N -> bool) (r : jsstring) (inRun : bool) (s : jsstring) : jsstring :=
  match s with
  | [] => []
  | a :: s' =>
      if P a then (if inRun then [] else r) ++ collapseFrom P r true s'
      else a :: collapseFrom P r false s'
  end.

Definition collapse (P : N -> bool) (r : jsstring) (s : jsstring) : jsstring :=
  collapseFrom P r false s.

Lemma collapseFrom_run (P : N -> bool) (r : jsstring) (s : jsstring) :
  collapseFrom P r true s = collapse P r (dropRun P s).
Proof.
  induction s as [|a s IH]; [reflexivity|]. cbn [collapseFrom dropRun].
  destruct (P a) eqn:Pa; [exact IH|]. unfold collapse. cbn [collapseFrom]. now rewrite Pa.
Qed.

Lemma runOf_replaceLoop (rx : RegExp) (P : N -> bool) (repl : Match -> list N) (r : jsstring) :
  sticky (RegExp.flags rx) = false ->
  runOf rx P ->
  (forall m, repl m = r) ->
  forall n sf fuel rp,
    List.length sf <= n -> List.length sf < fuel ->
    replaceLoop fuel rx repl rp sf = collapse P r sf.
Proof.
  intros Hst Hrun Hrepl. induction n as [|n IH]; intros sf fuel rp Hn Hf.
  - destruct sf; [|cbn in Hn; lia]. apply replaceLoop_nil; [exact Hst|]. now rewrite Hrun.
  - destruct sf as [|a sf].
    { apply replaceLoop_nil; [exact Hst|]. now rewrite Hrun. }
    destruct fuel as [|fuel]; [lia|]. cbn [List.length] in Hn, Hf.
    pose proof (Hrun rp (a :: sf)) as Ha. cbn [takeRun dropRun] in Ha.
    unfold collapse. cbn [collapseFrom].
    destruct (P a) eqn:Pa.
    + rewrite (replaceLoop_hit _ _ _ _ _ _ Ha). cbn [matched rest rbefore].
      rewrite Hrepl, collapseFrom_run. f_equal.
      pose proof (dropRun_length P sf). apply IH; lia.
    + rewrite (replaceLoop_miss _ Hst _ _ _ _ _ Ha). f_equal. apply IH; lia.
Qed.

Lemma substitute_plain (rx : RegExp) (m : Match) (t : jsstring) :
  Forall (fun c => (c =? ch "$")%N = false) t -> substitute rx m t = t.
Proof.
  induction t as [|c t IH]; intros H; [reflexivity|].
  inversion H as [|? ? Hc Ht]; subst. cbn [substitute]. rewrite Hc. cbn [negb].
  now rewrite IH.
Qed.

(** [input.replace(/[...]+/g, r)] for a replacement text without [$]. *)
Lemma replace_run (rx : RegExp) (P : N -> bool) (input r : jsstring) :
  RegExp.flags rx = mkFlags true false false false false false false ->
  runOf rx P ->
  Forall (fun c => (c =? ch "$")%N = false) r ->
  replace rx input r = collapse P r input.
Proof.
  intros Hfl Hrun Hr. unfold replace, replaceWith, view, unview. rewrite Hfl. cbn [unicode global].
  apply runOf_replaceLoop with (n := List.length input); try assumption; try lia.
  - now rewrite Hfl.
  - intros m. now apply substitute_plain.
Qed.

(** *** The expressions of [toSnakeCase] *)

Definition beforeUpper (sep : N) (a : N) : jsstring := if isUpper a then [sep; a] else [a].

Lemma firstn_one_rev (a : N) (rp : jsstring) :
  rev (firstn (List.length (a :: rp) - List.length rp) (a :: rp)) = [a].
Proof.
  cbn [List.length]. replace (S (List.length rp) - List.length rp) with 1 by lia. reflexivity.
Qed.

Lemma oneChar_upper_group (src : jsstring) :
  oneChar (mkRegExp src (mkFlags true false false false false false false)
             (Group 1 (Class false [CIRange 65 90])) [None])
    isUpper (fun a => [(1, [a])]).
Proof.
  intros rp sf. unfold matchAt. destruct sf as [|a sf]; [reflexivity|].
  cbn [RegExp.flags tree matcher step suf rpre caps].
  replace (classMem (mkFlags true false false false false false false) false [CIRange 65 90] a)
    with (isUpper a)
    by (cbv [classMem setMem ignoreCase existsb itemSet xorb isUpper]; now rewrite orb_false_r).
  destruct (isUpper a); [|reflexivity].
  cbn [suf caps rpre]. unfold consumed. cbn [rpre]. rewrite firstn_one_rev, firstn_one.
  reflexivity.
Qed.

(** [input.replace(/([A-Z])/g, sep + '$1')] *)
Lemma replace_before_upper (src : string) (sep : N) (input : jsstring) :
  literal src "g" = mkRegExp (lit src) (mkFlags true false false false false false false)
                      (Group 1 (Class false [CIRange 65 90])) [None] ->
  (sep =? ch "$")%N = false ->
  replace (literal src "g") input (sep :: lit "$1") = flat_map (beforeUpper sep) input.
Proof.
  intros Hlit Hsep. rewrite Hlit. unfold replace, replaceWith, view, unview.
  cbn [RegExp.flags unicode global].
  rewrite oneChar_replaceLoop with (P := isUpper) (cs := fun a => [(1, [a])])
                                   (f := fun a => [sep; a]).
  - reflexivity.
  - reflexivity.
  - apply oneChar_upper_group.
  - intros rp a sf. cbn [substitute]. rewrite Hsep. reflexivity.
  - lia.
Qed.

(** An expression [^c] without flags matches at the start of the text
    only. *)
Definition stripLeading (c : N) (s : jsstring) : jsstring :=
  match s with
  | a :: s' => if (a =? c)%N then s' else s
  | [] => []
  end.

Lemma search_bol_later (src : jsstring) (c : N) (sf : jsstring) : forall rp,
  rp <> [] -> search (mkRegExp src noFlags (Seq Bol (Chr c)) []) rp sf = None.
Proof.
  induction sf as [|a sf IH]; intros rp Hrp; (destruct rp as [|b rp]; [congruence|]).
  - reflexivity.
  - cbn [search]. unfold matchAt at 1. cbn [RegExp.flags tree matcher atBol rpre multiline noFlags andb sticky].
    now rewrite IH.
Qed.

(** [input.replace(/^c/, '')] *)
Lemma replace_leading (src : string) (c : N) (input : jsstring) :
  literal src "" = mkRegExp (lit src) noFlags (Seq Bol (Chr c)) [] ->
  replace (literal src "") input [] = stripLeading c input.
Proof.
  intros Hlit. rewrite Hlit. unfold replace, replaceWith, view, unview.
  cbn [RegExp.flags unicode global noFlags].
  destruct input as [|a s]; [reflexivity|].
  cbn [search]. unfold matchAt at 1.
  cbn [RegExp.flags tree matcher atBol rpre step suf caps canon ignoreCase noFlags sticky].
  cbn [stripLeading]. destruct (a =? c)%N.
  - cbn [suf caps substitute app]. reflexivity.
  - now rewrite search_bol_later.
Qed.

(** *** The expressions of [toTitleCase] *)

(** The first character of each word is mapped through [f]; a word is a
    maximal run of word characters. *)
Fixpoint mapWordStarts (f : N -> N) (afterWord : bool) (s : jsstring) : jsstring :=
  match s with
  | [] => []
  | a :: s' =>
      (if isWordChar a && negb afterWord then f a else a) :: mapWordStarts f (isWordChar a) s'
  end.

Definition wordStartRegExp : RegExp :=
  mkRegExp (lit "\b\w") (mkFlags true false false false false false false)
    (Seq (WordBoundary false) (Class false [CIWord false])) [].

Lemma matchAt_word_start (rp sf : jsstring) :
  matchAt wordStartRegExp rp sf =
  match sf with
  | a :: sf' => if isWordChar a && negb (isWordAt rp)
                then Some (mkMatch rp [a] sf' []) else None
  | [] => None
  end.
Proof.
  unfold matchAt, wordStartRegExp. cbn [RegExp.flags tree matcher].
  unfold atWordBoundary, step. cbn [rpre suf caps].
  destruct sf as [|a sf].
  - cbn [isWordAt]. destruct (isWordAt rp); reflexivity.
  - cbn [isWordAt].
    replace (classMem (mkFlags true false false false false false false) false [CIWord false] a)
      with (isWordChar a)
      by (cbv [classMem setMem ignoreCase existsb itemSet xorb]; now rewrite orb_false_r).
    destruct (isWordAt rp); destruct (isWordChar a); cbn [xorb andb negb suf caps];
      rewrite ?firstn_one; reflexivity.
Qed.

Lemma replaceLoop_word_start (f : N -> N) (sf : jsstring) : forall fuel rp,
  List.length sf < fuel ->
  replaceLoop fuel wordStartRegExp (fun m => map f (matched m)) rp sf
  = mapWordStarts f (isWordAt rp) sf.
Proof.
  induction sf as [|a sf IH]; intros fuel rp Hf.
  - apply replaceLoop_nil; [reflexivity | apply matchAt_word_start].
  - destruct fuel as [|fuel]; [cbn in Hf; lia|]. cbn [List.length] in Hf.
    pose proof (matchAt_word_start rp (a :: sf)) as Ha. cbn [mapWordStarts].
    cbn iota beta in Ha.
    destruct (isWordChar a && negb (isWordAt rp)) eqn:T.
    + rewrite (replaceLoop_hit _ _ _ _ _ _ Ha). cbn [matched rest rbefore map app rev].
      f_equal. rewrite IH by lia. cbn [isWordAt].
      apply andb_true_iff in T. now destruct T as [-> _].
    + rewrite (replaceLoop_miss wordStartRegExp eq_refl _ _ _ _ _ Ha). f_equal.
      rewrite IH by lia. reflexivity.
Qed.

(** [input.replace(/\b\w/g, (char) => char.toUpperCase())] *)
Lemma replace_word_starts (input : jsstring) :
  replaceFn (literal "\b\w" "g") input toUpperCase = mapWordStarts upperChar false input.
Proof.
  change (literal "\b\w" "g") with wordStartRegExp.
  unfold replaceFn, replaceWith, view, unview. cbn [RegExp.flags wordStartRegExp unicode global].
  exact (replaceLoop_word_start upperChar input (S (List.length input)) [] (Nat.lt_succ_diag_r _)).
Qed.

Lemma collapseFrom_ext (P Q : N -> bool) (r : jsstring) :
  (forall a, P a = Q a) -> forall s b, collapseFrom P r b s = collapseFrom Q r b s.
Proof.
  intros H s. induction s as [|a s IH]; intros b; [reflexivity|].
  cbn [collapseFrom]. rewrite H, !IH. reflexivity.
Qed.

Definition isSpaceOrHyphen (a : N) : bool := isWhiteSpace a || (a =? ch "-")%N.
Definition isUnderscore (a : N) : bool := (a =? ch "_")%N.
Definition isUnderscoreOrHyphen (a : N) : bool := (a =? ch "_")%N || (a =? ch "-")%N.

Definition globalFlags : Flags := mkFlags true false false false false false false.

(** [toSnakeCase], one step after the other, without expressions. *)
Definition snakeSteps (input : jsstring) : jsstring :=
  collapse isUnderscore (lit "_")
    (stripLeading (ch "_")
       (toLowerCase
          (collapse isSpaceOrHyphen (lit "_")
             (flat_map (beforeUpper (ch "_")) input)))).

(** [toTitleCase], one step after the other, without expressions. *)
Definition titleSteps (input : jsstring) : jsstring :=
  trim (collapse isWhiteSpace (lit " ")
          (mapWordStarts upperChar false
             (collapse isUnderscoreOrHyphen (lit " ") input))).

Lemma plain_underscore : Forall (fun c => (c =? ch "$")%N = false) (lit "_").
Proof. repeat constructor. Qed.

Lemma plain_space : Forall (fun c => (c =? ch "$")%N = false) (lit " ").
Proof. repeat constructor. Qed.

Lemma toSnakeCase_steps (input : jsstring) : toSnakeCase input = snakeSteps input.
Proof.
  unfold toSnakeCase, snakeSteps.
  change (lit "_$1") with (ch "_" :: lit "$1").
  rewrite (replace_before_upper "([A-Z])" (ch "_") input eq_refl eq_refl).
  rewrite (replace_run (literal "[\s\-]+" "g")
             (classMem globalFlags false [CISpace false; CIChar 45]) _ (lit "_") eq_refl
             (runOf_step (lit "[\s\-]+") globalFlags (Class false [CISpace false; CIChar 45]) _
                eq_refl (fun _ _ => eq_refl)) plain_underscore).
  rewrite (replace_leading "^_" (ch "_") _ eq_refl).
  rewrite (replace_run (literal "_+" "g") isUnderscore _ (lit "_") eq_refl
             (runOf_step (lit "_+") globalFlags (Chr 95) _ eq_refl (fun _ _ => eq_refl))
             plain_underscore).
  f_equal. f_equal. f_equal. unfold collapse. apply collapseFrom_ext.
  intros a. cbv [classMem setMem ignoreCase globalFlags existsb itemSet xorb isSpaceOrHyphen ch].
  now rewrite orb_false_r.
Qed.

Lemma toTitleCase_steps (input : jsstring) : toTitleCase input = titleSteps input.
Proof.
  unfold toTitleCase, titleSteps.
  rewrite (replace_run (literal "[_\-]+" "g")
             (classMem globalFlags false [CIChar 95; CIChar 45]) _ (lit " ") eq_refl
             (runOf_step (lit "[_\-]+") globalFlags (Class false [CIChar 95; CIChar 45]) _
                eq_refl (fun _ _ => eq_refl)) plain_space).
  rewrite replace_word_starts.
  rewrite (replace_run (literal "\s+" "g")
             (classMem globalFlags false [CISpace false]) _ (lit " ") eq_refl
             (runOf_step (lit "\s+") globalFlags (Class false [CISpace false]) _
                eq_refl (fun _ _ => eq_refl)) plain_space).
  f_equal. unfold collapse.
  rewrite (collapseFrom_ext (classMem globalFlags false [CISpace false]) isWhiteSpace).
  - f_equal. f_equal. apply collapseFrom_ext.
    intros a. cbv [classMem setMem ignoreCase globalFlags existsb itemSet xorb isUnderscoreOrHyphen ch].
    now rewrite orb_false_r.
  - intros a. cbv [classMem setMem ignoreCase globalFlags existsb itemSet xorb].
    now rewrite orb_false_r.
Qed.

(** ** Texts made of words *)

(** Facts on character classes are decided by comparing code units. *)
Ltac char_cases :=
  repeat match goal with
         | H : context [N.leb ?a ?b] |- _ => destruct (N.leb_spec a b); cbn [andb orb negb] in H; try discriminate H
         | H : context [N.eqb ?a ?b] |- _ => destruct (N.eqb_spec a b); cbn [andb orb negb] in H; try discriminate H
         | |- context [N.leb ?a ?b] => destruct (N.leb_spec a b); cbn [andb orb negb]; try lia
         | |- context [N.eqb ?a ?b] => destruct (N.eqb_spec a b); cbn [andb orb negb]; try lia
         end; try reflexivity; try lia.

Ltac char_fact :=
  unfold isSpaceOrHyphen, isUnderscore, isUnderscoreOrHyphen, isWordChar, isWhiteSpace,
    isLineTerminator, isDigit, isUpper, isLower, upperChar, lowerChar, beforeUpper,
    in_range, ch in *;
  cbn [N_of_ascii N_of_digits] in *; char_cases.

Definition isLetter (a : N) : bool := isUpper a || isLower a.

Lemma letter_cases (a : N) : isLetter a = true -> isUpper a = true \/ isLower a = true.
Proof. unfold isLetter. intros H. apply orb_true_iff in H. exact H. Qed.

Lemma upper_not_space (a : N) : isUpper a = true -> isWhiteSpace a = false.
Proof. intros H. char_fact. Qed.

Lemma lower_not_space (a : N) : isLower a = true -> isWhiteSpace a = false.
Proof. intros H. char_fact. Qed.

Lemma upper_not_spaceOrHyphen (a : N) : isUpper a = true -> isSpaceOrHyphen a = false.
Proof. intros H. char_fact. Qed.

Lemma lower_not_spaceOrHyphen (a : N) : isLower a = true -> isSpaceOrHyphen a = false.
Proof. intros H. char_fact. Qed.

Lemma lower_not_underscore (a : N) : isLower a = true -> isUnderscore a = false.
Proof. intros H. char_fact. Qed.

Lemma lower_not_underscoreOrHyphen (a : N) : isLower a = true -> isUnderscoreOrHyphen a = false.
Proof. intros H. char_fact. Qed.

Lemma lower_word_char (a : N) : isLower a = true -> isWordChar a = true.
Proof. intros H. char_fact. Qed.

Lemma upper_word_char (a : N) : isUpper a = true -> isWordChar a = true.
Proof. intros H. char_fact. Qed.

Lemma lower_not_upper (a : N) : isLower a = true -> isUpper a = false.
Proof. intros H. char_fact. Qed.

Lemma lowerChar_lower (a : N) : isLower a = true -> lowerChar a = a.
Proof. intros H. unfold lowerChar. now rewrite lower_not_upper. Qed.

Lemma lowerChar_upper (a : N) : isUpper a = true -> isLower (lowerChar a) = true.
Proof. intros H. unfold lowerChar. rewrite H. char_fact. Qed.

Lemma upperChar_lowerChar (a : N) : isUpper a = true -> upperChar (lowerChar a) = a.
Proof.
  intros H. unfold upperChar. rewrite (lowerChar_upper _ H). unfold lowerChar. rewrite H. lia.
Qed.

Lemma join_cons (sep c : jsstring) (cs : list jsstring) :
  cs <> [] -> join sep (c :: cs) = c ++ sep ++ join sep cs.
Proof. destruct cs; [congruence | reflexivity]. Qed.

Lemma flat_map_join (f : N -> jsstring) (sep : jsstring) (cs : list jsstring) :
  flat_map f (join sep cs) = join (flat_map f sep) (map (flat_map f) cs).
Proof.
  induction cs as [|c cs IH]; [reflexivity|].
  destruct cs as [|c' cs]; [reflexivity|].
  change (flat_map f (c ++ sep ++ join sep (c' :: cs)) =
          flat_map f c ++ flat_map f sep ++ join (flat_map f sep) (map (flat_map f) (c' :: cs))).
  now rewrite !flat_map_app, IH.
Qed.

Lemma map_join (f : N -> N) (sep : jsstring) (cs : list jsstring) :
  map f (join sep cs) = join (map f sep) (map (map f) cs).
Proof.
  induction cs as [|c cs IH]; [reflexivity|].
  destruct cs as [|c' cs]; [reflexivity|].
  change (map f (c ++ sep ++ join sep (c' :: cs)) =
          map f c ++ map f sep ++ join (map f sep) (map (map f) (c' :: cs))).
  now rewrite !map_app, IH.
Qed.

(** A chunk is a non-empty text without characters of [P]. *)
Definition chunk (P : N -> bool) (c : jsstring) : Prop :=
  c <> [] /\ Forall (fun a => P a = false) c.

Lemma collapseFrom_free (P : N -> bool) (r c tail : jsstring) (b : bool) :
  Forall (fun a => P a = false) c ->
  c <> [] \/ b = false ->
  collapseFrom P r b (c ++ tail) = c ++ collapseFrom P r false tail.
Proof.
  intros Hc. revert b. induction Hc as [|a c Ha Hc IH]; intros b Hb.
  - destruct Hb as [Hb|Hb]; [congruence | now subst b].
  - cbn [app collapseFrom]. rewrite Ha. f_equal. apply IH. now right.
Qed.

Lemma collapseFrom_sep (P : N -> bool) (r sep tail : jsstring) (b : bool) :
  Forall (fun a => P a = true) sep ->
  collapseFrom P r b (sep ++ tail) =
  match sep with
  | [] => collapseFrom P r b tail
  | _ => (if b then [] else r) ++ collapseFrom P r true tail
  end.
Proof.
  intros Hs. revert b. induction Hs as [|a sep Ha Hs IH]; intros b; [reflexivity|].
  cbn [app collapseFrom]. rewrite Ha, IH. destruct sep; reflexivity.
Qed.

Lemma collapseFrom_join (P : N -> bool) (r sep : jsstring) (cs : list jsstring) :
  sep <> [] -> Forall (fun a => P a = true) sep ->
  Forall (chunk P) cs ->
  forall b, collapseFrom P r b (join sep cs) = join r cs.
Proof.
  intros Hne Hsep Hcs.
  induction Hcs as [|c cs [Hc1 Hc2] Hcs IH]; intros b; [reflexivity|].
  destruct cs as [|c' cs].
  - cbn [join]. rewrite <- (app_nil_r c) at 1.
    rewrite collapseFrom_free by auto. apply app_nil_r.
  - rewrite !join_cons by discriminate.
    rewrite collapseFrom_free by auto.
    rewrite collapseFrom_sep by assumption.
    destruct sep as [|s0 sep]; [congruence|].
    now rewrite IH.
Qed.

Lemma collapse_join (P : N -> bool) (r sep : jsstring) (cs : list jsstring) :
  sep <> [] -> Forall (fun a => P a = true) sep ->
  Forall (chunk P) cs ->
  collapse P r (join sep cs) = join r cs.
Proof. intros. now apply collapseFrom_join. Qed.

(** The words of a text: the maximal runs of characters that are not
    separators. [cur] is the word being read. *)
Definition flush (cur : jsstring) : list jsstring :=
  match cur with [] => [] | _ => [cur] end.

Fixpoint wordsFrom (P : N -> bool) (cur : jsstring) (s : jsstring) : list jsstring :=
  match s with
  | [] => flush cur
  | a :: s' => if P a then flush cur ++ wordsFrom P [] s' else wordsFrom P (cur ++ [a]) s'
  end.

Definition wordsOf (P : N -> bool) (s : jsstring) : list jsstring := wordsFrom P [] s.

Definition capitalize (w : jsstring) : jsstring :=
  match w with a :: l => upperChar a :: l | [] => [] end.

Definition isSeparator (a : N) : bool := ((a =? 32) || (a =? 95))%N.

Definition plainChar (a : N) : bool := isLetter a || isSeparator a.

Definition lowerOrSeparator (a : N) : bool := isLower a || isSeparator a.

Definition titleWord (w : jsstring) : bool :=
  match w with a :: l => isUpper a && forallb isLower l | [] => false end.

(** The Title Case form of a text: its words, split at separators and
    before every capital, each in lower case with a capital initial,
    joined by single spaces. *)
Definition titleForm (x : jsstring) : jsstring :=
  join (lit " ")
    (map capitalize (map (map lowerChar) (wordsOf isSeparator (flat_map (beforeUpper (ch "_")) x)))).

Definition roundTrip (x : jsstring) : jsstring := toTitleCase (toSnakeCase x).

Lemma flush_chunk (P : N -> bool) (cur : jsstring) :
  Forall (fun a => P a = false) cur -> Forall (chunk P) (flush cur).
Proof.
  intros H. destruct cur as [|a cur]; [constructor|].
  constructor; [split; [discriminate | exact H] | constructor].
Qed.

Lemma wordsFrom_chunks (P : N -> bool) (s : jsstring) : forall cur,
  Forall (fun a => P a = false) cur -> Forall (chunk P) (wordsFrom P cur s).
Proof.
  induction s as [|a s IH]; intros cur Hcur; cbn [wordsFrom].
  - now apply flush_chunk.
  - destruct (P a) eqn:Pa.
    + apply Forall_app. split; [now apply flush_chunk | apply IH; constructor].
    + apply IH. apply Forall_app. split; [exact Hcur | now repeat constructor].
Qed.

Lemma flush_in (R : N -> Prop) (cur : jsstring) :
  Forall R cur -> Forall (Forall R) (flush cur).
Proof. intros H. destruct cur; cbn [flush]; [constructor | constructor; [exact H | constructor]]. Qed.

Lemma wordsFrom_in (P : N -> bool) (R : N -> Prop) (s : jsstring) : forall cur,
  Forall R cur -> Forall R s -> Forall (Forall R) (wordsFrom P cur s).
Proof.
  induction s as [|a s IH]; intros cur Hcur Hs; cbn [wordsFrom].
  - now apply flush_in.
  - inversion Hs as [|? ? Ha Hs']; subst. destruct (P a).
    + apply Forall_app. split; [now apply flush_in | apply IH; [constructor | exact Hs']].
    + apply IH; [|exact Hs']. apply Forall_app. split; [exact Hcur | now repeat constructor].
Qed.

Lemma wordsFrom_ext (P Q : N -> bool) (s : jsstring) : forall cur,
  Forall (fun a => P a = Q a) s -> wordsFrom P cur s = wordsFrom Q cur s.
Proof.
  induction s as [|a s IH]; intros cur Hs; [reflexivity|].
  inversion Hs as [|? ? Ha Hs']; subst. cbn [wordsFrom]. rewrite Ha.
  now rewrite !IH by assumption.
Qed.

Lemma wordsFrom_map (Q : N -> bool) (f : N -> N) (s : jsstring) :
  (forall a, Q (f a) = Q a) ->
  forall cur, wordsFrom Q (map f cur) (map f s) = map (map f) (wordsFrom Q cur s).
Proof.
  intros Hf. induction s as [|a s IH]; intros cur; cbn [map wordsFrom].
  - now destruct cur.
  - rewrite Hf. destruct (Q a).
    + rewrite map_app. rewrite <- IH. now destruct cur.
    + rewrite <- IH. now rewrite map_app.
Qed.

Lemma wordsFrom_collapse (P Q : N -> bool) (r : jsstring) :
  r <> [] -> Forall (fun a => Q a = true) r ->
  forall s cur b, (b = true -> cur = []) ->
    wordsFrom Q cur (collapseFrom P r b s) = wordsFrom (fun a => P a || Q a) cur s.
Proof.
  intros Hne Hr.
  assert (Hsep : forall cur t, wordsFrom Q cur (r ++ t) = flush cur ++ wordsFrom Q [] t).
  { intros cur t. destruct r as [|a0 r0]; [congruence|].
    inversion Hr as [|? ? Ha0 Hr0]; subst. cbn [app wordsFrom]. rewrite Ha0. f_equal.
    clear Hne Hr. induction Hr0 as [|a1 r1 Ha1 _ IH]; [reflexivity|].
    cbn [app wordsFrom]. rewrite Ha1. exact IH. }
  induction s as [|a s IH]; intros cur b Hb; [reflexivity|].
  cbn [collapseFrom wordsFrom]. destruct (P a) eqn:Pa; cbn [orb].
  - destruct b.
    + rewrite (Hb eq_refl). cbn [app flush]. now apply IH.
    + rewrite Hsep. f_equal. now apply IH.
  - cbn [wordsFrom]. destruct (Q a).
    + f_equal. apply IH. discriminate.
    + apply IH. discriminate.
Qed.

Lemma wordsOf_collapse (P Q : N -> bool) (r s : jsstring) :
  r <> [] -> Forall (fun a => Q a = true) r ->
  wordsOf Q (collapse P r s) = wordsOf (fun a => P a || Q a) s.
Proof. intros Hne Hr. apply wordsFrom_collapse; auto. Qed.

Lemma wordsOf_stripLeading (Q : N -> bool) (c : N) (s : jsstring) :
  Q c = true -> wordsOf Q (stripLeading c s) = wordsOf Q s.
Proof.
  intros Hc. destruct s as [|a s]; [reflexivity|]. unfold stripLeading.
  destruct (N.eqb_spec a c) as [->|]; [|reflexivity].
  unfold wordsOf. cbn [wordsFrom]. now rewrite Hc.
Qed.

Lemma capitalize_snoc (cur : jsstring) (a : N) :
  cur <> [] -> capitalize (cur ++ [a]) = capitalize cur ++ [a].
Proof. destruct cur; [congruence | reflexivity]. Qed.

Definition isEmpty (s : jsstring) : bool := match s with [] => true | _ => false end.

Lemma space_not_word (a : N) : isWhiteSpace a = true -> isWordChar a = false.
Proof. intros H. char_fact. Qed.

Lemma upperChar_not_space (a : N) : isWhiteSpace a = false -> isWhiteSpace (upperChar a) = false.
Proof.
  intros H. unfold upperChar. destruct (isLower a) eqn:L; [|exact H].
  apply upper_not_space. clear H. char_fact.
Qed.

Lemma wordsFrom_mapWordStarts (s : jsstring) : forall cur,
  Forall (fun a => isWhiteSpace a || isWordChar a = true) s ->
  wordsFrom isWhiteSpace (capitalize cur) (mapWordStarts upperChar (negb (isEmpty cur)) s) =
  map capitalize (wordsFrom isWhiteSpace cur s).
Proof.
  induction s as [|a s IH]; intros cur Hs.
  - now destruct cur.
  - inversion Hs as [|? ? Ha Hs']; subst. cbn [mapWordStarts wordsFrom].
    destruct (isWhiteSpace a) eqn:Wa.
    + rewrite (space_not_word _ Wa). cbn [andb]. rewrite Wa.
      rewrite map_app. rewrite <- (IH [] Hs'). now destruct cur.
    + cbn [orb] in Ha. rewrite Ha. cbn [andb]. destruct cur as [|c0 cur].
      * cbn [isEmpty negb capitalize app]. rewrite (upperChar_not_space _ Wa).
        exact (IH [a] Hs').
      * cbn [isEmpty negb]. rewrite Wa. rewrite <- capitalize_snoc by discriminate.
        exact (IH ((c0 :: cur) ++ [a]) Hs').
Qed.

Lemma wordsOf_mapWordStarts (s : jsstring) :
  Forall (fun a => isWhiteSpace a || isWordChar a = true) s ->
  wordsOf isWhiteSpace (mapWordStarts upperChar false s) = map capitalize (wordsOf isWhiteSpace s).
Proof. exact (wordsFrom_mapWordStarts s []). Qed.

Lemma trimStart_spaces (u v : jsstring) :
  Forall (fun a => isWhiteSpace a = true) u -> trimStart (u ++ v) = trimStart v.
Proof. induction 1 as [|a u Ha _ IH]; [reflexivity|]. cbn [app trimStart]. now rewrite Ha. Qed.

Lemma join_first (P : N -> bool) (sep : jsstring) (ws : list jsstring) :
  Forall (chunk P) ws -> ws <> [] -> exists a t, join sep ws = a :: t /\ P a = false.
Proof.
  intros Hws Hne. destruct Hws as [|w ws [Hw1 Hw2] Hws]; [congruence|].
  destruct w as [|a w]; [congruence|]. inversion Hw2; subst.
  destruct ws as [|w' ws]; [now exists a, w | now exists a, (w ++ sep ++ join sep (w' :: ws))].
Qed.

Lemma join_last (P : N -> bool) (sep : jsstring) (ws : list jsstring) :
  Forall (chunk P) ws -> ws <> [] -> exists t z, join sep ws = t ++ [z] /\ P z = false.
Proof.
  intros Hws Hne. induction Hws as [|w ws [Hw1 Hw2] Hws IH]; [congruence|].
  destruct ws as [|w' ws].
  - destruct (exists_last Hw1) as [t [z ->]]. exists t, z. split; [reflexivity|].
    apply Forall_app in Hw2. destruct Hw2 as [_ Hz]. now inversion Hz.
  - destruct IH as [t [z [E Hz]]]; [discriminate|].
    exists (w ++ sep ++ t), z. rewrite join_cons by discriminate. rewrite E.
    now rewrite <- !app_assoc.
Qed.

Lemma trim_padded (sep lead trail : jsstring) (ws : list jsstring) :
  Forall (fun a => isWhiteSpace a = true) lead ->
  Forall (fun a => isWhiteSpace a = true) trail ->
  Forall (chunk isWhiteSpace) ws ->
  trim (lead ++ join sep ws ++ trail) = join sep ws.
Proof.
  intros Hl Ht Hws. unfold trim, trimEnd. rewrite (trimStart_spaces _ _ Hl).
  destruct ws as [|w ws].
  - cbn [join app]. rewrite <- (app_nil_r trail). rewrite (trimStart_spaces _ _ Ht).
    reflexivity.
  - destruct (join_first _ sep _ Hws) as [a [t [E Ha]]]; [discriminate|].
    destruct (join_last _ sep _ Hws) as [t' [z [E' Hz]]]; [discriminate|].
    rewrite E at 1. cbn [app trimStart]. rewrite Ha.
    change (a :: t ++ trail) with ((a :: t) ++ trail). rewrite <- E, E'.
    rewrite !rev_app_distr. cbn [rev app].
    rewrite trimStart_spaces by (apply Forall_rev; exact Ht).
    cbn [trimStart]. rewrite Hz. cbn [rev]. now rewrite rev_involutive.
Qed.

Lemma join_flush (sep cur : jsstring) (ws : list jsstring) :
  cur <> [] ->
  join sep (flush cur ++ ws) = cur ++ match ws with [] => [] | _ => sep ++ join sep ws end.
Proof.
  intros H. destruct cur as [|c0 cur]; [congruence|]. cbn [flush app].
  destruct ws; [now rewrite app_nil_r | reflexivity].
Qed.

(** Collapsing the white space of a text leaves its words, one space
    apart, with at most one space before and after. *)
Lemma collapse_words (s : jsstring) : forall cur b,
  (b = true -> cur = []) ->
  exists lead trail,
    Forall (fun a => isWhiteSpace a = true) lead /\
    Forall (fun a => isWhiteSpace a = true) trail /\
    (b = true \/ cur <> [] -> lead = []) /\
    cur ++ collapseFrom isWhiteSpace (lit " ") b s =
    lead ++ join (lit " ") (wordsFrom isWhiteSpace cur s) ++ trail.
Proof.
  induction s as [|a s IH]; intros cur b Hb.
  - exists [], []. repeat split; try constructor. cbn [collapseFrom wordsFrom app].
    rewrite !app_nil_r. now destruct cur.
  - cbn [collapseFrom wordsFrom]. destruct (isWhiteSpace a) eqn:Wa.
    + destruct (IH [] true (fun _ => eq_refl)) as [lead [trail [Hl [Ht [Hn E]]]]].
      rewrite (Hn (or_introl eq_refl)) in E. cbn [app] in E.
      destruct cur as [|c0 cur].
      * cbn [flush app]. exists (if b then [] else lit " "), trail.
        repeat split; [destruct b; repeat constructor | exact Ht | |].
        -- intros [-> | H]; [reflexivity | congruence].
        -- now rewrite E.
      * assert (b = false) as -> by (destruct b; [discriminate (Hb eq_refl) | reflexivity]).
        rewrite join_flush by discriminate. rewrite E.
        destruct (wordsFrom isWhiteSpace [] s) as [|w ws] eqn:Ews.
        -- exists [], (lit " " ++ trail). repeat split; [constructor | | ].
           ++ constructor; [reflexivity | exact Ht].
           ++ cbn [join app]. now rewrite app_nil_r.
        -- exists [], trail. repeat split; [constructor | exact Ht |].
           cbn [app]. now rewrite <- !app_assoc.
    + destruct (IH (cur ++ [a]) false ltac:(discriminate)) as [lead [trail [Hl [Ht [Hn E]]]]].
      assert (lead = []) as -> by (apply Hn; right; now destruct cur).
      exists [], trail. repeat split; [constructor | exact Ht |].
      rewrite <- E. now rewrite <- app_assoc.
Qed.

Lemma trim_collapse (s : jsstring) :
  trim (collapse isWhiteSpace (lit " ") s) = join (lit " ") (wordsOf isWhiteSpace s).
Proof.
  destruct (collapse_words s [] false ltac:(discriminate)) as [lead [trail [Hl [Ht [_ E]]]]].
  cbn [app] in E. unfold collapse. rewrite E. apply trim_padded; try assumption.
  apply wordsFrom_chunks. constructor.
Qed.

Lemma Forall_collapseFrom (R : N -> Prop) (P : N -> bool) (r s : jsstring) : forall b,
  Forall R r -> Forall R s -> Forall R (collapseFrom P r b s).
Proof.
  intros b Hr Hs. revert b. induction Hs as [|a s Ha Hs IH]; intros b; [constructor|].
  cbn [collapseFrom]. destruct (P a).
  - apply Forall_app. split; [destruct b; [constructor | exact Hr] | apply IH].
  - constructor; [exact Ha | apply IH].
Qed.

Lemma Forall_stripLeading (R : N -> Prop) (c : N) (s : jsstring) :
  Forall R s -> Forall R (stripLeading c s).
Proof.
  intros Hs. destruct Hs as [|a s Ha Hs]; [constructor|]. unfold stripLeading.
  destruct (a =? c)%N; [exact Hs | now constructor].
Qed.

Lemma plain_beforeUpper (x : jsstring) :
  Forall (fun a => plainChar a = true) x ->
  Forall (fun a => plainChar a = true) (flat_map (beforeUpper (ch "_")) x).
Proof.
  induction 1 as [|a x Ha _ IH]; [constructor|]. cbn [flat_map].
  apply Forall_app. split; [|exact IH]. unfold beforeUpper.
  destruct (isUpper a); repeat constructor; exact Ha.
Qed.

Lemma plain_lowerChar (a : N) : plainChar a = true -> plainChar (lowerChar a) = true.
Proof.
  intros H. unfold lowerChar. destruct (isUpper a) eqn:U; [|exact H].
  clear H. unfold plainChar, isLetter, isSeparator. char_fact.
Qed.

Lemma plain_space_or_word (a : N) : plainChar a = true -> isWhiteSpace a || isWordChar a = true.
Proof. unfold plainChar, isLetter, isSeparator. intros H. char_fact. Qed.

(** The characters that end a word at some stage of the round trip. *)
Definition stageSeparator (a : N) : bool :=
  isUnderscore a || (isUnderscoreOrHyphen a || isWhiteSpace a).

Lemma stageSeparator_lowerChar (a : N) : stageSeparator (lowerChar a) = stageSeparator a.
Proof.
  unfold lowerChar. destruct (isUpper a) eqn:U; [|reflexivity]. unfold stageSeparator.
  char_fact.
Qed.

Lemma plain_separator (a : N) :
  plainChar a = true -> isSpaceOrHyphen a || stageSeparator a = isSeparator a.
Proof. unfold plainChar, isLetter, isSeparator, stageSeparator. intros H. char_fact. Qed.

Lemma Forall_impl_bool (P : N -> bool) (R : N -> Prop) (s : jsstring) :
  (forall a, P a = true -> R a) -> Forall (fun a => P a = true) s -> Forall R s.
Proof. intros H Hs. eapply Forall_impl; [|exact Hs]. exact H. Qed.

(** On letters, spaces and underscores the round trip yields the Title
    Case form. *)
Lemma roundTrip_titleForm (x : jsstring) :
  Forall (fun a => plainChar a = true) x -> roundTrip x = titleForm x.
Proof.
  intros Hx. unfold roundTrip, titleForm.
  rewrite toTitleCase_steps, toSnakeCase_steps. unfold titleSteps, snakeSteps.
  set (s0 := flat_map (beforeUpper (ch "_")) x).
  assert (H0 : Forall (fun a => plainChar a = true) s0) by (apply plain_beforeUpper; exact Hx).
  set (s1 := toLowerCase (collapse isSpaceOrHyphen (lit "_") s0)).
  assert (H1 : Forall (fun a => plainChar a = true) s1).
  { unfold s1, toLowerCase. apply Forall_map.
    eapply Forall_impl; [exact plain_lowerChar|].
    apply Forall_collapseFrom; [repeat constructor | exact H0]. }
  set (s3 := collapse isUnderscore (lit "_") (stripLeading (ch "_") s1)).
  assert (H3 : Forall (fun a => plainChar a = true) s3).
  { apply Forall_collapseFrom; [repeat constructor | apply Forall_stripLeading; exact H1]. }
  rewrite trim_collapse.
  rewrite wordsOf_mapWordStarts.
  2:{ eapply Forall_impl_bool; [exact plain_space_or_word|].
      apply Forall_collapseFrom; [repeat constructor | exact H3]. }
  do 2 f_equal.
  rewrite wordsOf_collapse by (try discriminate; repeat constructor).
  unfold s3. rewrite wordsOf_collapse by (try discriminate; repeat constructor).
  change (fun a => isUnderscore a || (isUnderscoreOrHyphen a || isWhiteSpace a))
    with stageSeparator.
  rewrite wordsOf_stripLeading by reflexivity.
  unfold s1, toLowerCase, wordsOf.
  change (@nil N) with (map lowerChar []) at 1.
  rewrite (wordsFrom_map _ _ _ stageSeparator_lowerChar). f_equal.
  change (wordsFrom stageSeparator [] (collapse isSpaceOrHyphen (lit "_") s0))
    with (wordsOf stageSeparator (collapse isSpaceOrHyphen (lit "_") s0)).
  rewrite wordsOf_collapse by (try discriminate; repeat constructor).
  apply wordsFrom_ext. eapply Forall_impl; [|exact H0]. exact plain_separator.
Qed.

Lemma Forall_join (R : N -> Prop) (sep : jsstring) (ws : list jsstring) :
  Forall R sep -> Forall (Forall R) ws -> Forall R (join sep ws).
Proof.
  intros Hsep Hws. induction Hws as [|w ws Hw Hws IH]; [constructor|].
  destruct ws as [|w' ws]; [exact Hw|]. rewrite join_cons by discriminate.
  apply Forall_app. split; [exact Hw|]. apply Forall_app. split; [exact Hsep | exact IH].
Qed.

Lemma wordsFrom_word (P : N -> bool) (w t : jsstring) : forall cur,
  Forall (fun a => P a = false) w -> wordsFrom P cur (w ++ t) = wordsFrom P (cur ++ w) t.
Proof.
  intros cur Hw. revert cur. induction Hw as [|a w Ha _ IH]; intros cur.
  - now rewrite app_nil_r.
  - cbn [app wordsFrom]. rewrite Ha, IH. now rewrite <- app_assoc.
Qed.

Lemma wordsFrom_gap (P : N -> bool) (u t : jsstring) :
  Forall (fun a => P a = true) u -> wordsFrom P [] (u ++ t) = wordsFrom P [] t.
Proof. induction 1 as [|a u Ha _ IH]; [reflexivity|]. cbn [app wordsFrom]. now rewrite Ha. Qed.

Lemma wordsFrom_end (P : N -> bool) (cur u t : jsstring) :
  u <> [] -> Forall (fun a => P a = true) u ->
  wordsFrom P cur (u ++ t) = flush cur ++ wordsFrom P [] t.
Proof.
  intros Hne Hu. destruct Hu as [|a u Ha Hu]; [congruence|].
  cbn [app wordsFrom]. rewrite Ha. f_equal. now apply wordsFrom_gap.
Qed.

(** Words written one after the other, each behind [pre], [sep] apart,
    are read back. *)
Lemma wordsOf_join (P : N -> bool) (pre sep : jsstring) (ws : list jsstring) :
  sep <> [] ->
  Forall (fun a => P a = true) pre -> Forall (fun a => P a = true) sep ->
  Forall (chunk P) ws ->
  wordsOf P (join sep (map (app pre) ws)) = ws.
Proof.
  intros Hne Hpre Hsep Hws. unfold wordsOf.
  induction Hws as [|w ws [Hw1 Hw2] Hws IH]; [reflexivity|].
  destruct ws as [|w' ws].
  - cbn [map join]. rewrite (wordsFrom_gap _ _ _ Hpre).
    rewrite <- (app_nil_r w) at 1. rewrite (wordsFrom_word _ _ _ _ Hw2).
    cbn [app wordsFrom]. now destruct w.
  - cbn [map] in *. rewrite join_cons by discriminate. rewrite <- app_assoc.
    rewrite (wordsFrom_gap _ _ _ Hpre), (wordsFrom_word _ _ _ _ Hw2).
    rewrite (wordsFrom_end _ _ _ _ Hne Hsep). rewrite IH. cbn [app]. now destruct w.
Qed.

Lemma map_fixed (A : Type) (f : A -> A) (l : list A) :
  Forall (fun a => f a = a) l -> map f l = l.
Proof. induction 1 as [|a l Ha _ IH]; [reflexivity|]. cbn [map]. now rewrite Ha, IH. Qed.

Lemma titleWord_inv (w : jsstring) :
  titleWord w = true ->
  exists a l, w = a :: l /\ isUpper a = true /\ Forall (fun c => isLower c = true) l.
Proof.
  destruct w as [|a l]; [discriminate|]. cbn [titleWord]. intros H.
  apply andb_true_iff in H. destruct H as [Ha Hl]. exists a, l.
  repeat split; [exact Ha|]. apply Forall_forall. now apply forallb_forall.
Qed.

Lemma upper_plain (a : N) : isUpper a = true -> plainChar a = true.
Proof. intros H. unfold plainChar, isLetter. now rewrite H. Qed.

Lemma lower_plain (a : N) : isLower a = true -> plainChar a = true.
Proof. intros H. unfold plainChar, isLetter. rewrite H. now rewrite orb_true_r. Qed.

Lemma upper_not_separator (a : N) : isUpper a = true -> isSeparator a = false.
Proof. intros H. unfold isSeparator. char_fact. Qed.

Lemma lower_not_separator (a : N) : isLower a = true -> isSeparator a = false.
Proof. intros H. unfold isSeparator. char_fact. Qed.

Lemma beforeUpper_lower (x : jsstring) :
  Forall (fun a => isUpper a = false) x -> flat_map (beforeUpper (ch "_")) x = x.
Proof.
  induction 1 as [|a x Ha _ IH]; [reflexivity|]. cbn [flat_map]. unfold beforeUpper at 1.
  rewrite Ha. cbn [app]. now rewrite IH.
Qed.

Lemma beforeUpper_titleWord (w : jsstring) :
  titleWord w = true -> flat_map (beforeUpper (ch "_")) w = lit "_" ++ w.
Proof.
  intros H. destruct (titleWord_inv _ H) as [a [l [-> [Ha Hl]]]].
  cbn [flat_map]. unfold beforeUpper at 1. rewrite Ha.
  change (lit "_" ++ a :: l) with (ch "_" :: a :: l). cbn [app]. do 2 f_equal.
  apply beforeUpper_lower. eapply Forall_impl; [|exact Hl]. exact lower_not_upper.
Qed.

Lemma titleWord_plain (w : jsstring) :
  titleWord w = true -> Forall (fun a => plainChar a = true) w.
Proof.
  intros H. destruct (titleWord_inv _ H) as [a [l [-> [Ha Hl]]]].
  constructor; [now apply upper_plain|]. eapply Forall_impl; [|exact Hl]. exact lower_plain.
Qed.

Lemma titleWord_chunk (w : jsstring) : titleWord w = true -> chunk isSeparator w.
Proof.
  intros H. destruct (titleWord_inv _ H) as [a [l [-> [Ha Hl]]]].
  split; [discriminate|]. constructor; [now apply upper_not_separator|].
  eapply Forall_impl; [|exact Hl]. exact lower_not_separator.
Qed.

Lemma titleWord_capitalize (w : jsstring) :
  titleWord w = true -> capitalize (map lowerChar w) = w.
Proof.
  intros H. destruct (titleWord_inv _ H) as [a [l [-> [Ha Hl]]]].
  cbn [map capitalize]. rewrite (upperChar_lowerChar _ Ha). f_equal.
  apply map_fixed. eapply Forall_impl; [|exact Hl]. exact lowerChar_lower.
Qed.

(** A Title Case text is returned unchanged by the round trip. *)
Lemma roundTrip_title_words (ws : list jsstring) :
  Forall (fun w => titleWord w = true) ws ->
  roundTrip (join (lit " ") ws) = join (lit " ") ws.
Proof.
  intros Hws. rewrite roundTrip_titleForm.
  2:{ apply Forall_join; [repeat constructor|].
      eapply Forall_impl; [|exact Hws]. exact titleWord_plain. }
  unfold titleForm. f_equal. rewrite flat_map_join.
  replace (map (flat_map (beforeUpper (ch "_"))) ws) with (map (app (lit "_")) ws).
  2:{ apply map_ext_Forall. eapply Forall_impl; [|exact Hws].
      intros w Hw. now rewrite beforeUpper_titleWord. }
  change (flat_map (beforeUpper (ch "_")) (lit " ")) with (lit " ").
  rewrite wordsOf_join; try (repeat constructor); try discriminate.
  - rewrite map_map. apply map_fixed. eapply Forall_impl; [|exact Hws].
    exact titleWord_capitalize.
  - eapply Forall_impl; [|exact Hws]. exact titleWord_chunk.
Qed.

Lemma lowerOrSeparator_plain (a : N) : lowerOrSeparator a = true -> plainChar a = true.
Proof.
  unfold lowerOrSeparator, plainChar, isLetter. intros H.
  apply orb_true_iff in H. destruct H as [H|H]; rewrite H; now rewrite ?orb_true_r.
Qed.

Lemma lowerOrSeparator_not_upper (a : N) : lowerOrSeparator a = true -> isUpper a = false.
Proof. unfold lowerOrSeparator, isSeparator. intros H. char_fact. Qed.

Lemma lowerOrSeparator_lowerChar (a : N) : lowerOrSeparator a = true -> lowerChar a = a.
Proof. intros H. unfold lowerChar. now rewrite (lowerOrSeparator_not_upper _ H). Qed.

Lemma lowerOrSeparator_word (a : N) :
  lowerOrSeparator a = true -> isSeparator a = false -> isLower a = true.
Proof. unfold lowerOrSeparator. intros H S. rewrite S in H. now rewrite orb_false_r in H. Qed.

Lemma upperChar_upper (a : N) : isLower a = true -> isUpper (upperChar a) = true.
Proof. intros H. unfold upperChar. rewrite H. char_fact. Qed.

Lemma upper_not_lowerOrSeparator (a : N) : isUpper a = true -> lowerOrSeparator a = false.
Proof. intros H. unfold lowerOrSeparator, isSeparator. char_fact. Qed.

(** The words of a text of lowercase letters and separators are
    lowercase, so their capitalised forms are Title Case words. *)
Lemma lowercase_words (x : jsstring) :
  Forall (fun a => lowerOrSeparator a = true) x ->
  Forall (fun w => exists a l, w = a :: l /\ isLower a = true /\
                               Forall (fun c => isLower c = true) l)
         (wordsOf isSeparator x).
Proof.
  intros Hx. apply Forall_forall. intros w Hw.
  pose proof (wordsFrom_chunks isSeparator x [] (Forall_nil _)) as Hc.
  pose proof (wordsFrom_in isSeparator _ x [] (Forall_nil _) Hx) as Hr.
  rewrite Forall_forall in Hc, Hr. destruct (Hc w Hw) as [Hne Hsep]. specialize (Hr w Hw).
  assert (Hl : Forall (fun c => isLower c = true) w).
  { apply Forall_forall. intros c Hin. rewrite Forall_forall in Hsep, Hr.
    apply lowerOrSeparator_word; auto. }
  destruct w as [|a l]; [congruence|]. exists a, l. inversion Hl; subst. auto.
Qed.

Lemma capitalize_titleWord (w : jsstring) :
  (exists a l, w = a :: l /\ isLower a = true /\ Forall (fun c => isLower c = true) l) ->
  titleWord (capitalize w) = true.
Proof.
  intros [a [l [-> [Ha Hl]]]]. cbn [capitalize titleWord].
  rewrite (upperChar_upper _ Ha). cbn [andb]. apply forallb_forall.
  now apply Forall_forall.
Qed.

(** The lossless round trip of the specification: on lowercase
    letters, spaces and underscores the round trip returns its input. *)
Definition losslessRoundTrip (x : jsstring) : Prop :=
  Forall (fun a => lowerOrSeparator a = true) x -> toTitleCase (toSnakeCase x) = x.

(** A lowercase word comes back capitalised: [my project] becomes
    [My Project]. *)
Lemma roundTrip_lowercase_counterexample : ~ losslessRoundTrip (lit "my project").
Proof.
  intros H.
  assert (D : Forall (fun a => lowerOrSeparator a = true) (lit "my project"))
    by (repeat constructor).
  specialize (H D). clear D.
  assert (R : toTitleCase (toSnakeCase (lit "my project")) = lit "My Project")
    by (vm_compute; reflexivity).
  rewrite R in H. vm_compute in H. discriminate H.
Qed.

(** C8, amended. On a text of lowercase letters, spaces and underscores,
    [toTitleCase (toSnakeCase x)] is the Title Case form of [x]: its
    words, each with a capital initial, one space apart. That form is
    returned unchanged by a further round trip, so repeated round trips
    are stable from the first result on; it is [x] itself only when [x]
    is empty. *)
Theorem roundTrip_title_case (x : jsstring) :
  Forall (fun a => lowerOrSeparator a = true) x ->
  toTitleCase (toSnakeCase x) = join (lit " ") (map capitalize (wordsOf isSeparator x)) /\
  Forall (fun w => titleWord w = true) (map capitalize (wordsOf isSeparator x)) /\
  toTitleCase (toSnakeCase (toTitleCase (toSnakeCase x))) = toTitleCase (toSnakeCase x) /\
  (toTitleCase (toSnakeCase x) = x <-> x = []).
Proof.
  intros Hx.
  assert (Hform : toTitleCase (toSnakeCase x) =
                  join (lit " ") (map capitalize (wordsOf isSeparator x))).
  { change (roundTrip x = join (lit " ") (map capitalize (wordsOf isSeparator x))).
    rewrite roundTrip_titleForm
      by (eapply Forall_impl; [|exact Hx]; exact lowerOrSeparator_plain).
    unfold titleForm. rewrite beforeUpper_lower
      by (eapply Forall_impl; [|exact Hx]; exact lowerOrSeparator_not_upper).
    do 2 f_equal. apply map_fixed.
    pose proof (wordsFrom_in isSeparator (fun a => lowerChar a = a) x [] (Forall_nil _)) as Hr.
    eapply Forall_impl; [|apply Hr].
    - intros w Hw. now apply map_fixed.
    - eapply Forall_impl; [|exact Hx]. exact lowerOrSeparator_lowerChar. }
  assert (Htitle : Forall (fun w => titleWord w = true)
                          (map capitalize (wordsOf isSeparator x))).
  { apply Forall_map. eapply Forall_impl; [|exact (lowercase_words x Hx)].
    exact capitalize_titleWord. }
  split; [exact Hform|]. split; [exact Htitle|]. split.
  - rewrite Hform. exact (roundTrip_title_words _ Htitle).
  - split.
    + intros E. rewrite Hform in E.
      pose proof (lowercase_words x Hx) as Hw.
      destruct (wordsOf isSeparator x) as [|w ws]; [now rewrite <- E|]. exfalso.
      apply Forall_inv in Hw. destruct Hw as [a [l [Ew [Ha Hl]]]].
      assert (Hhd : exists t, x = upperChar a :: t).
      { rewrite <- E, Ew. cbn [map capitalize]. destruct ws; cbn [map join app]; eauto. }
      destruct Hhd as [t ->]. inversion Hx as [|? ? Hu _]; subst.
      rewrite (upper_not_lowerOrSeparator _ (upperChar_upper _ Ha)) in Hu. discriminate Hu.
    + intros ->. vm_compute. reflexivity.
Qed.

Lemma roundTrip_title_case_witness :
  Forall (fun a => lowerOrSeparator a = true) (lit "my_project name") /\
  toTitleCase (toSnakeCase (lit "my_project name")) = lit "My Project Name" /\
  toTitleCase (toSnakeCase (lit "My Project Name")) = lit "My Project Name".
Proof.
  assert (D : Forall (fun a => lowerOrSeparator a = true) (lit "my_project name"))
    by (repeat constructor).
  destruct (roundTrip_title_case (lit "my_project name") D) as [E [_ [F _]]].
  split; [exact D|]. split.
  - rewrite E. vm_compute. reflexivity.
  - rewrite E in F. exact F.
Defined.

(* ================================================================= *)
(** * Further properties of the rule engine *)

(** ** What a match says about its rule *)

Lemma directionExcluded_false (r : MappingRule) (context : RuleEvaluationContext) :
  directionExcluded r context = false <->
  forall d, ctxDirection context = Some d ->
            direction r = Bidirectional \/ direction r = d.
Proof.
  unfold directionExcluded. destruct (ctxDirection context) as [d|].
  - split.
    + intros H d' [= <-]. destruct (direction r), d; cbn in H; try discriminate; auto.
    + intros H. destruct (H d eq_refl) as [-> | ->]; [reflexivity | now destruct d].
  - split; [discriminate | reflexivity].
Qed.

(** X1. Every match returned by [findMatchingRules] comes from a rule of
    the list that is enabled (unless disabled rules were asked for) and
    whose direction is bidirectional or the one asked for; it carries the
    match type of the context and the pattern of that type, which is not
    empty and is found in the input. *)
Theorem findMatchingRules_respects_gates (input : jsstring) (rules : list MappingRule)
  (context : RuleEvaluationContext) (m : RuleMatch) :
  In m (findMatchingRules input rules context) ->
  In (rule m) rules /\
  (enabled (rule m) = true \/ includeDisabled context = Some true) /\
  (forall d, ctxDirection context = Some d ->
             direction (rule m) = Bidirectional \/ direction (rule m) = d) /\
  matchType m = ctxMatchType context /\
  selectedPattern (rule m) (ctxMatchType context) = Some (matchedPattern m) /\
  matchedPattern m <> [] /\
  matchesPattern input (matchedPattern m) None = true.
Proof.
  intros Hm. apply findMatchingRules_in in Hm. destruct Hm as (r & Hr & He).
  destruct (evaluateRule_some _ _ _ _ He) as (c & p & Hs & Hg & Hp & ->).
  cbn [rule matchType matchedPattern].
  unfold gatesPass in Hg. apply andb_true_iff in Hg. destruct Hg as [Hen Hdir].
  apply negb_true_iff in Hdir. apply orb_true_iff in Hen.
  repeat split; try assumption.
  - destruct Hen as [H|H]; [now left | right].
    destruct (includeDisabled context) as [[|]|]; cbn in H; congruence.
  - now apply directionExcluded_false.
  - discriminate.
Qed.

Lemma findMatchingRules_respects_gates_witness :
  In firstTiedMatch
     (findMatchingRules (lit "Projects/Test") tiedRules (folderContext "Projects/Test")) /\
  enabled (rule firstTiedMatch) = true /\
  matchedPattern firstTiedMatch = lit "Projects/*".
Proof.
  assert (H : In firstTiedMatch
                 (findMatchingRules (lit "Projects/Test") tiedRules
                    (folderContext "Projects/Test")))
    by (vm_compute; left; reflexivity).
  split; [exact H|].
  destruct (findMatchingRules_respects_gates _ _ _ _ H) as (_ & [E|E] & _);
    [|discriminate E].
  split; [exact E | reflexivity].
Defined.

(** ** Rules that can never match *)

Lemma evaluateRule_uncompilable (input : jsstring) (r : MappingRule)
  (context : RuleEvaluationContext) (p : jsstring) (msg : string) :
  selectedPattern r (ctxMatchType context) = Some p ->
  RegExp_new p None = Throw msg ->
  evaluateRule input r context = None.
Proof.
  intros Hs Hc. destruct (evaluateRule input r context) as [m|] eqn:E; [|reflexivity].
  destruct (evaluateRule_some _ _ _ _ E) as (c & q & Hs' & _ & Hm & _).
  rewrite Hs in Hs'. injection Hs' as ->. unfold matchesPattern in Hm.
  rewrite Hc in Hm. discriminate Hm.
Qed.

(** X2. A rule whose pattern begins with a star or a question mark is
    never matched, whatever the input and the rule list: the pattern is
    compiled as a regular expression, and as such it does not compile. *)
Theorem evaluateRule_leading_wildcard (input : jsstring) (r : MappingRule)
  (context : RuleEvaluationContext) (c : N) (p : jsstring) :
  selectedPattern r (ctxMatchType context) = Some (c :: p) ->
  isWildcard c = true ->
  evaluateRule input r context = None /\
  forall rules m, In m (findMatchingRules input rules context) -> rule m <> r.
Proof.
  intros Hs Hw. destruct (leading_wildcard_throws c p Hw) as [msg Hc].
  pose proof (evaluateRule_uncompilable input r context _ _ Hs Hc) as Hn.
  split; [exact Hn|]. intros rules m Hm Hr.
  apply findMatchingRules_in in Hm. destruct Hm as (r' & _ & He).
  pose proof (evaluateRule_rule _ _ _ _ He) as Er. rewrite Hr in Er. subst r'.
  rewrite Hn in He. discriminate He.
Qed.

Lemma evaluateRule_leading_wildcard_witness :
  isGlobPattern (lit "*/test/*") = true /\
  matchesPattern (lit "parent/test/child") (globToRegex (lit "*/test/*")) None = true /\
  evaluateRule (lit "parent/test/child") (folderRule "nested" "*/test/*" 1)
    (folderContext "parent/test/child") = None.
Proof.
  split; [vm_compute; reflexivity|]. split; [vm_compute; reflexivity|].
  exact (proj1 (evaluateRule_leading_wildcard (lit "parent/test/child")
                  (folderRule "nested" "*/test/*" 1) (folderContext "parent/test/child")
                  (ch "*") (lit "/test/*") eq_refl eq_refl)).
Defined.

(** ** Conflicts *)

Definition priorityOf (m : RuleMatch) : Z := priority (rule m).

Definition withPriority (k : Z) (ms : list RuleMatch) : list RuleMatch :=
  filter (fun m => (priorityOf m =? k)%Z) ms.

(** The map [byPriority] after the matches [seen] were pushed: its keys
    are distinct, and each key holds the matches of that priority, in
    their order. *)
Definition groupedBy (seen : list RuleMatch) (byPriority : list (Z * list RuleMatch)) : Prop :=
  NoDup (map fst byPriority) /\
  (forall k g, In (k, g) byPriority -> g = withPriority k seen /\ g <> []) /\
  (forall m, In m seen -> In (priorityOf m) (map fst byPriority)).

Lemma withPriority_app (k : Z) (l1 l2 : list RuleMatch) :
  withPriority k (l1 ++ l2) = withPriority k l1 ++ withPriority k l2.
Proof. apply filter_app. Qed.

Lemma withPriority_one (k : Z) (m : RuleMatch) :
  withPriority k [m] = if (priorityOf m =? k)%Z then [m] else [].
Proof. reflexivity. Qed.

Lemma pushByPriority_keys (byPriority : list (Z * list RuleMatch)) (m : RuleMatch) (k : Z) :
  In k (map fst (pushByPriority byPriority m)) <->
  In k (map fst byPriority) \/ k = priorityOf m.
Proof.
  induction byPriority as [|[k' g] others IH]; cbn [pushByPriority map fst In].
  - unfold priorityOf. intuition congruence.
  - change (priority (rule m)) with (priorityOf m).
    destruct (Z.eqb_spec k' (priorityOf m)) as [E|E]; cbn [map fst In].
    + intuition congruence.
    + rewrite IH. intuition.
Qed.

Lemma pushByPriority_nodup (byPriority : list (Z * list RuleMatch)) (m : RuleMatch) :
  NoDup (map fst byPriority) -> NoDup (map fst (pushByPriority byPriority m)).
Proof.
  induction byPriority as [|[k' g'] others IH]; cbn [pushByPriority map fst]; intros H.
  - repeat constructor. intros [].
  - change (priority (rule m)) with (priorityOf m).
    inversion H as [|? ? Hk Hn]; subst.
    destruct (Z.eqb_spec k' (priorityOf m)) as [E|E]; cbn [map fst].
    + exact H.
    + constructor; [|now apply IH]. rewrite pushByPriority_keys. intros [K|K]; auto.
Qed.

Lemma pushByPriority_entries (byPriority : list (Z * list RuleMatch)) (m : RuleMatch)
  (k : Z) (g : list RuleMatch) :
  NoDup (map fst byPriority) ->
  In (k, g) (pushByPriority byPriority m) ->
  (k <> priorityOf m /\ In (k, g) byPriority) \/
  (k = priorityOf m /\
   ((exists g0, In (k, g0) byPriority /\ g = g0 ++ [m]) \/
    (~ In k (map fst byPriority) /\ g = [m]))).
Proof.
  induction byPriority as [|[k' g'] others IH]; cbn [pushByPriority In map fst]; intros Hnd.
  - intros [[= <- <-]|[]]. right. split; [reflexivity|]. right. split; [tauto | reflexivity].
  - change (priority (rule m)) with (priorityOf m).
    inversion Hnd as [|? ? Hk Hn]; subst.
    destruct (Z.eqb_spec k' (priorityOf m)) as [E|E]; cbn [In].
    + intros [[= <- <-]|H].
      * right. split; [exact E|]. left. exists g'. split; [now left | reflexivity].
      * left. split; [|now right]. intros K. apply Hk. rewrite E, <- K.
        apply (in_map fst) in H. exact H.
    + intros [[= <- <-]|H].
      * left. split; [exact E | now left].
      * destruct (IH Hn H) as [[H1 H2]|[H1 [[g0 [H2 H3]]|[H2 H3]]]].
        -- left. split; [exact H1 | now right].
        -- right. split; [exact H1|]. left. exists g0. split; [now right | exact H3].
        -- right. split; [exact H1|]. right. split; [|exact H3].
           intros [K|K]; [congruence | exact (H2 K)].
Qed.

Lemma withPriority_nil (k : Z) (seen : list RuleMatch) :
  (forall m, In m seen -> priorityOf m <> k) -> withPriority k seen = [].
Proof.
  intros H. induction seen as [|a seen IH]; [reflexivity|]. cbn [withPriority filter].
  destruct (Z.eqb_spec (priorityOf a) k) as [E|E].
  - exfalso. apply (H a); [now left | exact E].
  - apply IH. intros m Hm. apply H. now right.
Qed.

Lemma pushByPriority_grouped (seen : list RuleMatch) (byPriority : list (Z * list RuleMatch))
  (m : RuleMatch) :
  groupedBy seen byPriority -> groupedBy (seen ++ [m]) (pushByPriority byPriority m).
Proof.
  intros (Hnd & Hg & Hk). split; [now apply pushByPriority_nodup|]. split.
  - intros k g Hin. rewrite withPriority_app, withPriority_one.
    destruct (pushByPriority_entries _ _ _ _ Hnd Hin) as [[H1 H2]|[H1 [[g0 [H2 H3]]|[H2 H3]]]].
    + destruct (Hg _ _ H2) as [-> Hne].
      destruct (Z.eqb_spec (priorityOf m) k); [congruence|].
      now rewrite app_nil_r.
    + destruct (Hg _ _ H2) as [-> Hne]. subst k g. rewrite Z.eqb_refl.
      split; [reflexivity|]. now destruct (withPriority (priorityOf m) seen).
    + subst k g. rewrite Z.eqb_refl. rewrite withPriority_nil; [split; [reflexivity | discriminate]|].
      intros m' Hm' E. apply H2. rewrite <- E. now apply Hk.
  - intros m' Hm'. rewrite pushByPriority_keys.
    apply in_app_or in Hm'. destruct Hm' as [Hm'|[<-|[]]]; [left; now apply Hk | now right].
Qed.

Lemma fold_pushByPriority_grouped (ms : list RuleMatch) :
  forall seen byPriority,
    groupedBy seen byPriority ->
    groupedBy (seen ++ ms) (fold_left pushByPriority ms byPriority).
Proof.
  induction ms as [|m ms IH]; intros seen byPriority H; cbn [fold_left].
  - now rewrite app_nil_r.
  - replace (seen ++ m :: ms) with ((seen ++ [m]) ++ ms) by now rewrite <- app_assoc.
    apply IH. now apply pushByPriority_grouped.
Qed.

Lemma grouped_all (ms : list RuleMatch) : groupedBy ms (fold_left pushByPriority ms []).
Proof.
  apply (fold_pushByPriority_grouped ms [] []).
  split; [constructor|]. split; [intros k g []|intros m []].
Qed.

Lemma withPriority_in (k : Z) (ms : list RuleMatch) (m : RuleMatch) :
  In m (withPriority k ms) <-> In m ms /\ priorityOf m = k.
Proof. unfold withPriority. rewrite filter_In, Z.eqb_eq. reflexivity. Qed.

Lemma withPriority_short (k : Z) (ms : list RuleMatch) :
  List.length ms <= 1 -> List.length (withPriority k ms) <= 1.
Proof.
  intros H. pose proof (filter_length_le (fun m => (priorityOf m =? k)%Z) ms) as L.
  unfold withPriority. lia.
Qed.

(** The groups reported by [findConflicts], whatever the number of
    matches. *)
Lemma findConflicts_in (input : jsstring) (rules : list MappingRule)
  (context : RuleEvaluationContext) (g : list RuleMatch) :
  In g (findConflicts input rules context) <->
  exists k, g = withPriority k (findMatchingRules input rules context) /\ 2 <= List.length g.
Proof.
  unfold findConflicts. set (ms := findMatchingRules input rules context).
  destruct (grouped_all ms) as (Hnd & Hg & Hk).
  destruct (Nat.leb_spec (List.length ms) 1) as [Hs|Hs].
  - split; [intros []|]. intros (k & -> & Hl).
    pose proof (withPriority_short k ms Hs). lia.
  - rewrite filter_In, in_map_iff. split.
    + intros [[[k g'] [E Hin]] Hl]. cbn [snd] in E. subst g'.
      apply Nat.ltb_lt in Hl. exists k. split; [|lia]. now destruct (Hg _ _ Hin).
    + intros (k & -> & Hl). split; [|apply Nat.ltb_lt; lia].
      destruct (withPriority k ms) as [|m0 g0] eqn:E; [cbn in Hl; lia|].
      assert (Hm0 : In m0 ms /\ priorityOf m0 = k)
        by (apply withPriority_in; rewrite E; now left).
      destruct Hm0 as [Hm0 Hp].
      pose proof (Hk _ Hm0) as Hkey. apply in_map_iff in Hkey.
      destruct Hkey as ([k' g'] & Ek & Hin). cbn [fst] in Ek.
      exists (k', g'). split; [|exact Hin]. cbn [snd].
      destruct (Hg _ _ Hin) as [-> _]. rewrite Ek, Hp. exact E.
Qed.

(** X3. [findConflicts] reports exactly the groups of two or more
    matches that share a priority: each group holds all the matches of
    its priority in the order of [findMatchingRules], no two groups have
    the same priority, and a match belongs to a group exactly when
    another match has its priority. *)
Theorem findConflicts_groups (input : jsstring) (rules : list MappingRule)
  (context : RuleEvaluationContext) :
  let matches := findMatchingRules input rules context in
  let conflicts := findConflicts input rules context in
  (forall g, In g conflicts <->
             exists k, g = withPriority k matches /\ 2 <= List.length g) /\
  NoDup conflicts /\
  (forall g1 g2 m1 m2, In g1 conflicts -> In g2 conflicts -> In m1 g1 -> In m2 g2 ->
                       priorityOf m1 = priorityOf m2 -> g1 = g2) /\
  (forall m, In m matches ->
             ((exists g, In g conflicts /\ In m g) <->
              2 <= List.length (withPriority (priorityOf m) matches))).
Proof.
  intros matches conflicts.
  assert (Hin : forall g, In g conflicts <->
                          exists k, g = withPriority k matches /\ 2 <= List.length g)
    by (intros g; apply findConflicts_in).
  assert (Hsame : forall g1 g2 m1 m2, In g1 conflicts -> In g2 conflicts ->
                    In m1 g1 -> In m2 g2 -> priorityOf m1 = priorityOf m2 -> g1 = g2).
  { intros g1 g2 m1 m2 H1 H2 M1 M2 E.
    apply Hin in H1. apply Hin in H2.
    destruct H1 as (k1 & -> & _). destruct H2 as (k2 & -> & _).
    apply withPriority_in in M1. apply withPriority_in in M2.
    destruct M1 as [_ <-]. destruct M2 as [_ <-]. now rewrite E. }
  split; [exact Hin|]. split; [|split; [exact Hsame|]].
  - unfold conflicts, findConflicts. fold matches.
    destruct (List.length matches <=? 1); [constructor|].
    apply NoDup_filter.
    destruct (grouped_all matches) as (Hnd & Hg & _).
    induction (fold_left pushByPriority matches []) as [|[k g] acc IH]; [constructor|].
    cbn [map fst snd] in *. inversion Hnd as [|? ? Hk Hn]; subst. constructor.
    + intros K. apply in_map_iff in K. destruct K as ([k' g'] & E & K). cbn [snd] in E. subst g'.
      destruct (Hg k g (or_introl eq_refl)) as [E1 Hne].
      destruct (Hg k' g (or_intror K)) as [E2 _].
      destruct g as [|m0 g0]; [congruence|].
      assert (P1 : In m0 (withPriority k matches)) by (rewrite <- E1; now left).
      assert (P2 : In m0 (withPriority k' matches)) by (rewrite <- E2; now left).
      apply withPriority_in in P1. apply withPriority_in in P2.
      apply Hk. replace k with k' by (destruct P1, P2; congruence).
      apply (in_map fst) in K. exact K.
    + apply IH; [exact Hn|]. intros k' g' K. apply Hg. now right.
  - intros m Hm. split.
    + intros (g & Hg & Hmg). apply Hin in Hg. destruct Hg as (k & -> & Hl).
      pose proof Hmg as Hmg'. apply withPriority_in in Hmg'. destruct Hmg' as [_ <-]. exact Hl.
    + intros Hl. exists (withPriority (priorityOf m) matches). split.
      * apply Hin. now exists (priorityOf m).
      * apply withPriority_in. now split.
Qed.

Lemma withPriority_two (k : Z) (l1 l2 : list RuleMatch) (a b : RuleMatch) :
  priorityOf a = k -> priorityOf b = k ->
  (In a l1 \/ In a l2) -> 2 <= List.length (withPriority k (l1 ++ b :: l2)).
Proof.
  intros Ha Hb Hin. rewrite withPriority_app. cbn [withPriority filter].
  fold (withPriority k l1). fold (withPriority k l2).
  rewrite <- Hb at 2. rewrite Z.eqb_refl, length_app. cbn [List.length].
  destruct Hin as [Hin|Hin].
  - assert (In a (withPriority k l1)) by (apply withPriority_in; now split).
    destruct (withPriority k l1); [contradiction | cbn [List.length]; lia].
  - assert (In a (withPriority k l2)) by (apply withPriority_in; now split).
    destruct (withPriority k l2); [contradiction | cbn [List.length]; lia].
Qed.

(** X4. When [findConflicts] reports nothing, the best match is the
    only match of its priority: every other match has a strictly greater
    priority number, so the choice does not depend on confidence or on
    the order of the rules. *)
Theorem findBestMatch_unique_without_conflicts (input : jsstring) (rules : list MappingRule)
  (context : RuleEvaluationContext) (M : RuleMatch) :
  findConflicts input rules context = [] ->
  findBestMatch input rules context = Some M ->
  exists l1 l2,
    findMatchingRules input rules context = l1 ++ M :: l2 /\
    forall m, In m l1 \/ In m l2 -> (priorityOf M < priorityOf m)%Z.
Proof.
  intros Hc HM. destruct (findBestMatch_split _ _ _ _ HM) as (l1 & l2 & E & H1 & H2).
  exists l1, l2. split; [exact E|]. intros m Hm.
  assert (Hle : (priorityOf M <= priorityOf m)%Z).
  { destruct Hm as [Hm|Hm].
    - destruct (H1 _ Hm) as [L|[L _]]; unfold priorityOf; lia.
    - specialize (H2 _ Hm). unfold ranksBefore in H2. unfold priorityOf.
      destruct (Z.lt_ge_cases (priority (rule m)) (priority (rule M))); [|lia].
      exfalso. apply H2. now left. }
  destruct (Z.eq_dec (priorityOf M) (priorityOf m)) as [Eq|Ne]; [|lia]. exfalso.
  assert (Hg : In (withPriority (priorityOf M) (findMatchingRules input rules context))
                  (findConflicts input rules context)).
  { apply findConflicts_in. exists (priorityOf M). split; [reflexivity|].
    rewrite E. apply withPriority_two with (a := m); auto. }
  rewrite Hc in Hg. exact Hg.
Qed.

Definition rankedMatches : list RuleMatch :=
  [mkRuleMatch (folderRule "broad" "Projects" 5) Folder (lit "Projects")
     (calculateMatchConfidence (lit "Projects/Test") (lit "Projects"))].

Lemma findBestMatch_unique_without_conflicts_witness :
  findConflicts (lit "Projects/Test") rankedRules (folderContext "Projects/Test") = [] /\
  findMatchingRules (lit "Projects/Test") rankedRules (folderContext "Projects/Test")
    = rankedMatches ++ [narrowMatch] /\
  exists l1 l2,
    findMatchingRules (lit "Projects/Test") rankedRules (folderContext "Projects/Test")
      = l1 ++ narrowMatch :: l2 /\
    forall m, In m l1 \/ In m l2 -> (priorityOf narrowMatch < priorityOf m)%Z.
Proof.
  assert (Hc : findConflicts (lit "Projects/Test") rankedRules (folderContext "Projects/Test") = [])
    by (vm_compute; reflexivity).
  assert (HM : findBestMatch (lit "Projects/Test") rankedRules (folderContext "Projects/Test")
               = Some narrowMatch) by (vm_compute; reflexivity).
  split; [exact Hc|]. split; [vm_compute; reflexivity|].
  exact (findBestMatch_unique_without_conflicts _ _ _ _ Hc HM).
Defined.

(** ** The direction filters *)

Definition folderToTagContext (input : jsstring) (includeDisabled : option bool)
  : RuleEvaluationContext :=
  mkContext input Folder (Some FolderToTag) includeDisabled.

Definition tagToFolderContext (input : jsstring) (includeDisabled : option bool)
  : RuleEvaluationContext :=
  mkContext input Tag (Some TagToFolder) includeDisabled.

Lemma flat_map_filter_none {A B} (f : A -> list B) (keep : A -> bool) (l : list A) :
  (forall a, keep a = false -> f a = []) ->
  flat_map f (filter keep l) = flat_map f l.
Proof.
  intros H. induction l as [|a l IH]; [reflexivity|]. cbn [filter flat_map].
  destruct (keep a) eqn:K; cbn [flat_map]; rewrite IH; [reflexivity|].
  now rewrite (H a K).
Qed.

Lemma evaluateRule_missing_pattern (input : jsstring) (r : MappingRule)
  (context : RuleEvaluationContext) :
  present (selectedPattern r (ctxMatchType context)) = false ->
  evaluateRule input r context = None.
Proof.
  intros H. unfold evaluateRule.
  destruct (negb (enabled r) && negb (isTrue (includeDisabled context))); [reflexivity|].
  destruct (directionExcluded r context); [reflexivity|].
  destruct (selectedPattern r (ctxMatchType context)) as [[|c p]|]; try reflexivity.
  discriminate H.
Qed.

(** X5. Filtering the rules with [getFolderToTagRules] before matching
    folders in the folder-to-tag direction changes nothing, and so for
    [getTagToFolderRules] and tags, as long as disabled rules are not
    asked for: the rules these filters leave out are those that
    [evaluateRule] rejects before looking at the input. *)
Theorem findMatchingRules_direction_filters (input : jsstring) (rules : list MappingRule)
  (flag : option bool) :
  isTrue flag = false ->
  findMatchingRules input (getFolderToTagRules rules) (folderToTagContext input flag)
    = findMatchingRules input rules (folderToTagContext input flag) /\
  findMatchingRules input (getTagToFolderRules rules) (tagToFolderContext input flag)
    = findMatchingRules input rules (tagToFolderContext input flag).
Proof.
  intros Hf. rewrite !findMatchingRules_flat_map. unfold getFolderToTagRules, getTagToFolderRules.
  split; apply flat_map_filter_none; intros r Hr; unfold matchOf.
  - replace (evaluateRule input r (folderToTagContext input flag)) with (@None RuleMatch);
      [reflexivity|]. symmetry.
    destruct (enabled r) eqn:En.
    + destruct (present (folderPattern r)) eqn:Pr.
      * cbn [andb] in Hr. unfold evaluateRule. rewrite En.
        cbn [negb andb folderToTagContext includeDisabled].
        unfold directionExcluded. cbn [ctxDirection]. unfold isRuleApplicable in Hr.
        destruct (direction r); cbn in Hr |- *; try discriminate Hr; reflexivity.
      * apply evaluateRule_missing_pattern. exact Pr.
    + unfold evaluateRule. rewrite En. cbn [negb andb folderToTagContext includeDisabled].
      now rewrite Hf.
  - replace (evaluateRule input r (tagToFolderContext input flag)) with (@None RuleMatch);
      [reflexivity|]. symmetry.
    destruct (enabled r) eqn:En.
    + destruct (present (tagPattern r)) eqn:Pr.
      * cbn [andb] in Hr. unfold evaluateRule. rewrite En.
        cbn [negb andb tagToFolderContext includeDisabled].
        unfold directionExcluded. cbn [ctxDirection]. unfold isRuleApplicable in Hr.
        destruct (direction r); cbn in Hr |- *; try discriminate Hr; reflexivity.
      * apply evaluateRule_missing_pattern. exact Pr.
    + unfold evaluateRule. rewrite En. cbn [negb andb tagToFolderContext includeDisabled].
      now rewrite Hf.
Qed.

Definition mixedRules : list MappingRule :=
  [mkMappingRule (lit "back") (lit "Back") None true 1 TagToFolder
     (Some (lit "Projects")) None None (Some (lit "projects")) None None sampleOptions;
   folderRule "forward" "Projects" 2].

Lemma findMatchingRules_direction_filters_witness :
  List.length (getFolderToTagRules mixedRules) = 1 /\
  List.length (findMatchingRules (lit "Projects") mixedRules
                 (folderToTagContext (lit "Projects") None)) = 1 /\
  findMatchingRules (lit "Projects") (getFolderToTagRules mixedRules)
      (folderToTagContext (lit "Projects") None)
    = findMatchingRules (lit "Projects") mixedRules (folderToTagContext (lit "Projects") None).
Proof.
  split; [reflexivity|]. split; [vm_compute; reflexivity|].
  exact (proj1 (findMatchingRules_direction_filters (lit "Projects") mixedRules None eq_refl)).
Defined.

(* ================================================================= *)
(** * Further properties of the transformers *)

(** ** Trimming *)

Lemma trimStart_suffix (s : jsstring) : exists u, s = u ++ trimStart s.
Proof.
  induction s as [|a s [u IH]]; [now exists []|]. cbn [trimStart].
  destruct (isWhiteSpace a); [|now exists []].
  exists (a :: u). cbn [app]. now rewrite <- IH.
Qed.

Lemma Forall_trimStart (R : N -> Prop) (s : jsstring) : Forall R s -> Forall R (trimStart s).
Proof.
  intros H. destruct (trimStart_suffix s) as [u E]. rewrite E in H.
  apply Forall_app in H. tauto.
Qed.

Lemma Forall_trim (R : N -> Prop) (s : jsstring) : Forall R s -> Forall R (trim s).
Proof.
  intros H. unfold trim, trimEnd. apply Forall_rev. apply Forall_trimStart.
  apply Forall_rev. now apply Forall_trimStart.
Qed.

Lemma trimStart_idem (s : jsstring) : trimStart (trimStart s) = trimStart s.
Proof.
  induction s as [|a s IH]; [reflexivity|]. cbn [trimStart].
  destruct (isWhiteSpace a) eqn:W; [exact IH|]. cbn [trimStart]. now rewrite W.
Qed.

Lemma trimStart_keeps (s : jsstring) :
  match s with a :: _ => isWhiteSpace a = false | [] => True end -> trimStart s = s.
Proof. destruct s as [|a s]; [reflexivity|]. cbn [trimStart]. now intros ->. Qed.

Lemma trimStart_head (s : jsstring) :
  match trimStart s with a :: _ => isWhiteSpace a = false | [] => True end.
Proof.
  induction s as [|a s IH]; [exact I|]. cbn [trimStart].
  destruct (isWhiteSpace a) eqn:W; [exact IH | exact W].
Qed.

Lemma trimStart_snoc (l : jsstring) (a : N) :
  isWhiteSpace a = false -> exists u, trimStart (l ++ [a]) = u ++ [a].
Proof.
  intros W. induction l as [|b l IH]; cbn [app trimStart].
  - rewrite W. now exists [].
  - destruct (isWhiteSpace b); [exact IH | now exists (b :: l)].
Qed.

Lemma trimEnd_idem (s : jsstring) : trimEnd (trimEnd s) = trimEnd s.
Proof. unfold trimEnd. now rewrite rev_involutive, trimStart_idem. Qed.

Lemma trimStart_trimEnd (s : jsstring) :
  trimStart (trimEnd (trimStart s)) = trimEnd (trimStart s).
Proof.
  pose proof (trimStart_head s) as H. destruct (trimStart s) as [|a t]; [reflexivity|].
  unfold trimEnd. cbn [rev]. destruct (trimStart_snoc (rev t) a H) as [u ->].
  rewrite rev_app_distr. cbn [rev app trimStart]. now rewrite H.
Qed.

(** [trim] removes nothing from a text that it has trimmed. *)
Lemma trim_idem (s : jsstring) : trim (trim s) = trim s.
Proof. unfold trim. now rewrite trimStart_trimEnd, trimEnd_idem. Qed.

(** ** Characters that a tag cannot hold *)

Definition invalidTagChars : jsstring := lit ".:;,?!@\".

Definition isInvalidTagChar (a : N) : bool := existsb (N.eqb a) invalidTagChars.

Lemma invalidTag_literal :
  literal "[.:;,?!@\\]" "g" =
  mkRegExp (lit "[.:;,?!@\\]") globalFlags
    (Class false [CIChar 46; CIChar 58; CIChar 59; CIChar 44; CIChar 63; CIChar 33;
                  CIChar 64; CIChar 92]) [].
Proof. reflexivity. Qed.

Lemma oneChar_invalidTag : oneChar (literal "[.:;,?!@\\]" "g") isInvalidTagChar (fun _ => []).
Proof.
  rewrite invalidTag_literal. intros rp sf. unfold matchAt.
  destruct sf as [|a sf]; [reflexivity|].
  cbn [RegExp.flags tree matcher step suf rpre caps].
  replace (classMem globalFlags false
             [CIChar 46; CIChar 58; CIChar 59; CIChar 44; CIChar 63; CIChar 33;
              CIChar 64; CIChar 92] a) with (isInvalidTagChar a) by reflexivity.
  destruct (isInvalidTagChar a); [|reflexivity].
  cbn [suf caps]. now rewrite firstn_one.
Qed.

(** Replacing the characters of a set by nothing filters them out. *)
Lemma replace_oneChar_empty (rx : RegExp) (P : N -> bool) (cs : N -> list (nat * jsstring))
  (s : jsstring) :
  RegExp.flags rx = globalFlags -> oneChar rx P cs ->
  replace rx s [] = filter (fun a => negb (P a)) s.
Proof.
  intros Hf H1. unfold replace, replaceWith, view, unview. rewrite Hf.
  cbn [unicode global globalFlags].
  rewrite oneChar_replaceLoop with (P := P) (cs := cs) (f := fun _ => []).
  - induction s as [|a s IH]; [reflexivity|]. cbn [flat_map filter].
    destruct (P a); cbn [negb app]; now rewrite IH.
  - now rewrite Hf.
  - exact H1.
  - reflexivity.
  - lia.
Qed.

Lemma stripInvalidTagChars_filter (input : jsstring) :
  stripInvalidTagChars input = filter (fun a => negb (isInvalidTagChar a)) input.
Proof.
  unfold stripInvalidTagChars.
  apply replace_oneChar_empty with (cs := fun _ => []); [reflexivity | exact oneChar_invalidTag].
Qed.

Lemma filter_idem {A} (f : A -> bool) (l : list A) : filter f (filter f l) = filter f l.
Proof.
  induction l as [|a l IH]; [reflexivity|]. cbn [filter].
  destruct (f a) eqn:E; cbn [filter]; rewrite ?E, IH; reflexivity.
Qed.

(** X6. [stripInvalidTagChars] removes every occurrence of the eight
    characters [. : ; , ? ! @ \] and keeps all other characters in
    their order; applying it twice changes nothing more. *)
Theorem stripInvalidTagChars_removes_all (input : jsstring) :
  stripInvalidTagChars input = filter (fun a => negb (isInvalidTagChar a)) input /\
  Forall (fun a => isInvalidTagChar a = false) (stripInvalidTagChars input) /\
  (forall a, In a input -> isInvalidTagChar a = false -> In a (stripInvalidTagChars input)) /\
  stripInvalidTagChars (stripInvalidTagChars input) = stripInvalidTagChars input /\
  (Forall (fun a => isInvalidTagChar a = false) input -> stripInvalidTagChars input = input).
Proof.
  rewrite !stripInvalidTagChars_filter. split; [reflexivity|]. split; [|split; [|split]].
  - apply Forall_forall. intros a Ha. apply filter_In in Ha. destruct Ha as [_ Ha].
    now apply negb_true_iff.
  - intros a Ha Hv. apply filter_In. split; [exact Ha | now rewrite Hv].
  - apply filter_idem.
  - intros H. induction H as [|a l Ha _ IH]; [reflexivity|]. cbn [filter].
    now rewrite Ha, IH.
Qed.

(** ** The pipeline over the transformers of the source *)

Definition totalStage (st : Stage) : Prop := forall r, exists v, st r = Ok v.

Lemma runStages_app (l1 l2 : list Stage) (r : jsstring) :
  runStages (l1 ++ l2) r = (mid <- runStages l1 r ;; runStages l2 mid).
Proof.
  revert r. induction l1 as [|st l1 IH]; intros r; [reflexivity|].
  cbn [app runStages]. destruct (st r) as [v|e]; cbn [bind]; [apply IH | reflexivity].
Qed.

Lemma runStages_total (l : list Stage) :
  Forall totalStage l -> forall r, exists v, runStages l r = Ok v.
Proof.
  induction 1 as [|st l Hst _ IH]; intros r; [now exists r|].
  cbn [runStages]. destruct (Hst r) as [v ->]. cbn [bind]. apply IH.
Qed.

Lemma source_stages_total (config : TransformConfig) (options : PipelineOptions) :
  Forall totalStage (emojiStage sourceCallees config ++ numberStage sourceCallees config
                     ++ caseStage sourceCallees config ++ regexStage sourceCallees config).
Proof.
  apply Forall_app; split; [|apply Forall_app; split; [|apply Forall_app; split]].
  - unfold emojiStage. destruct (emojiHandling config); repeat constructor.
    intros r. eexists. reflexivity.
  - unfold numberStage. destruct (numberPrefixHandling config) as [[]|]; repeat constructor;
      intros r; eexists; reflexivity.
  - unfold caseStage. destruct (caseTransform config) as [[]|]; repeat constructor;
      intros r; eexists; reflexivity.
  - unfold regexStage. destruct (customTransforms config) as [[|t ts]|]; repeat constructor.
    intros r. eexists. reflexivity.
Qed.

(** The text handed to the last two steps: the result of the stages of
    the configuration on the trimmed input. *)
Definition stagedText (input : jsstring) (config : TransformConfig) : jsstring :=
  valueOf (runStages (emojiStage sourceCallees config ++ numberStage sourceCallees config
                      ++ caseStage sourceCallees config ++ regexStage sourceCallees config)
                     (trim input)).

Lemma applyTransformPipeline_staged (input : jsstring) (config : TransformConfig)
  (options : PipelineOptions) :
  applyTransformPipeline input config options =
  trim (if isTrue (isTagTransform options)
        then stripInvalidTagChars (stagedText input config)
        else stagedText input config).
Proof.
  unfold applyTransformPipeline, applyTransformPipelineWith, stagedText.
  rewrite tryBlock_stages. unfold andThen.
  destruct (runStages_total _ (source_stages_total config options) (trim input)) as [mid Hmid].
  rewrite Hmid. cbn [valueOf].
  assert (Hrun : runStages (configuredStages sourceCallees config options) (trim input) =
                 Ok (if isTrue (isTagTransform options) then stripInvalidTagChars mid else mid)).
  { unfold configuredStages. rewrite !app_assoc. rewrite runStages_app.
    rewrite <- !app_assoc. rewrite Hmid. cbn [bind]. unfold tagStage.
    destruct (isTrue (isTagTransform options)); reflexivity. }
  rewrite (execStages_ok _ _ _ Hrun). reflexivity.
Qed.

(** X7. Whatever the input and the configuration, the tag text returned
    by [folderToTag] holds none of the characters [. : ; , ? ! @ \], and
    neither it nor the folder text returned by [tagToFolder] begins or
    ends with white space: trimming them again changes nothing. *)
Theorem folderToTag_is_clean (input : jsstring) (config : TransformConfig) :
  Forall (fun a => isInvalidTagChar a = false) (folderToTag input config) /\
  trim (folderToTag input config) = folderToTag input config /\
  trim (tagToFolder input config) = tagToFolder input config.
Proof.
  unfold folderToTag, tagToFolder. rewrite !applyTransformPipeline_staged.
  cbn [isTagTransform isTrue]. split; [|split; apply trim_idem].
  apply Forall_trim. rewrite stripInvalidTagChars_filter.
  apply Forall_forall. intros a Ha. apply filter_In in Ha. destruct Ha as [_ Ha].
  now apply negb_true_iff.
Qed.

(** A configuration that asks for nothing: every setting is absent or
    has its neutral value. *)
Definition inert (config : TransformConfig) : bool :=
  match emojiHandling config with Some EmojiStrip => false | _ => true end
  && match numberPrefixHandling config with
     | Some NumberStrip | Some NumberExtract => false
     | _ => true
     end
  && match caseTransform config with None | Some CaseNone => true | _ => false end
  && match customTransforms config with Some (_ :: _) => false | _ => true end.

Lemma stagedText_inert (input : jsstring) (config : TransformConfig) :
  inert config = true -> stagedText input config = trim input.
Proof.
  intros H. unfold stagedText, emojiStage, numberStage, caseStage, regexStage.
  unfold inert in H.
  destruct (emojiHandling config) as [[]|]; try discriminate H;
    destruct (numberPrefixHandling config) as [[]|]; try discriminate H;
    destruct (caseTransform config) as [[]|]; try discriminate H;
    destruct (customTransforms config) as [[|t ts]|]; try discriminate H; reflexivity.
Qed.

(** X8. With a configuration that asks for nothing, the pipeline only
    trims: [tagToFolder] returns the trimmed input, and [folderToTag]
    the trimmed input without the characters a tag cannot hold, trimmed
    again. *)
Theorem applyTransformPipeline_inert (input : jsstring) (config : TransformConfig)
  (options : PipelineOptions) :
  inert config = true ->
  applyTransformPipeline input config options =
    trim (if isTrue (isTagTransform options)
          then stripInvalidTagChars (trim input) else trim input) /\
  tagToFolder input config = trim input /\
  folderToTag input config = trim (stripInvalidTagChars (trim input)).
Proof.
  intros H. pose proof (stagedText_inert input config H) as Hs.
  unfold folderToTag, tagToFolder. rewrite !applyTransformPipeline_staged, Hs.
  cbn [isTagTransform isTrue]. rewrite trim_idem. repeat split.
Qed.

Lemma applyTransformPipeline_inert_witness :
  applyTransformPipeline (lit "  Test Input  ") (mkTransformConfig None None None None)
    defaultOptions = lit "Test Input" /\
  folderToTag (lit " a.b ") (mkTransformConfig (Some CaseNone) (Some EmojiKeep)
                               (Some NumberKeep) (Some [])) = lit "ab".
Proof.
  split.
  - rewrite (proj1 (applyTransformPipeline_inert (lit "  Test Input  ")
                      (mkTransformConfig None None None None) defaultOptions eq_refl)).
    vm_compute. reflexivity.
  - vm_compute. reflexivity.
Defined.

(** ** Patterns that do not compile *)



Definition compiles (t : RegexTransform) : bool :=
  match RegExp_new (pattern t) (Some (flagsOrG (Settings.flags t))) with
  | Ok _ => true
  | Throw _ => false
  end.

Lemma applyRegexTransform_invalid (input : jsstring) (t : RegexTransform) :
  compiles t = false -> applyRegexTransform input t = input.
Proof.
  unfold compiles, applyRegexTransform.
  destruct (RegExp_new _ _); [discriminate | reflexivity].
Qed.






(** ** Sequences of transforms *)

Lemma applyRegexTransforms_app (input : jsstring) (ts1 ts2 : list RegexTransform) :
  applyRegexTransforms input (ts1 ++ ts2) =
  applyRegexTransforms (applyRegexTransforms input ts1) ts2.
Proof. apply fold_left_app. Qed.

(** X10. [applyRegexTransforms] applies the transforms from left to
    right, each with [applyRegexTransform] to the result of the one
    before: the empty list gives the input, a list of one transform the
    result of that transform, and a longer list the result of the rest
    on the result of the first (or of the last on the result of the
    others).  A transform whose pattern and flags compile replaces with
    the compiled expression; one that does not compile returns its
    input, so it is skipped wherever it stands and the others are still
    applied: the result is that of the list without the invalid
    transforms, and the input itself when none compiles. *)
Theorem applyRegexTransforms_skips_invalid (input : jsstring) (ts : list RegexTransform) :
  applyRegexTransforms input [] = input /\
  (forall t, applyRegexTransforms input [t] = applyRegexTransform input t) /\
  (forall t, applyRegexTransforms input (t :: ts) =
             applyRegexTransforms (applyRegexTransform input t) ts) /\
  (forall t, applyRegexTransforms input (ts ++ [t]) =
             applyRegexTransform (applyRegexTransforms input ts) t) /\
  (forall t,
     match RegExp_new (pattern t) (Some (flagsOrG (Settings.flags t))) with
     | Ok regex => compiles t = true /\
                   applyRegexTransform input t = replace regex input (replacement t)
     | Throw _ => compiles t = false /\ applyRegexTransform input t = input
     end) /\
  (forall ts1 t ts2, ts = ts1 ++ t :: ts2 -> compiles t = false ->
     applyRegexTransforms input ts = applyRegexTransforms input (ts1 ++ ts2)) /\
  applyRegexTransforms input ts = applyRegexTransforms input (filter compiles ts) /\
  (forall ts1 ts2, ts = ts1 ++ ts2 ->
     applyRegexTransforms input ts =
     applyRegexTransforms (applyRegexTransforms input ts1) ts2) /\
  (forallb (fun t => negb (compiles t)) ts = true -> applyRegexTransforms input ts = input).
Proof.
  split; [reflexivity|]. split; [reflexivity|]. split; [reflexivity|].
  split; [intros t; apply applyRegexTransforms_app|].
  split.
  { intros t. unfold compiles, applyRegexTransform.
    destruct (RegExp_new _ _); split; reflexivity. }
  split.
  { intros ts1 t ts2 -> C. rewrite !applyRegexTransforms_app.
    change (applyRegexTransforms (applyRegexTransforms input ts1) (t :: ts2))
      with (applyRegexTransforms (applyRegexTransform (applyRegexTransforms input ts1) t) ts2).
    now rewrite (applyRegexTransform_invalid _ _ C). }
  split; [|split].
  - revert input. induction ts as [|t ts IH]; intros input; [reflexivity|].
    cbn [filter]. destruct (compiles t) eqn:C.
    + change (applyRegexTransforms (applyRegexTransform input t) ts =
              applyRegexTransforms (applyRegexTransform input t) (filter compiles ts)).
      apply IH.
    + change (applyRegexTransforms (applyRegexTransform input t) ts =
              applyRegexTransforms input (filter compiles ts)).
      rewrite (applyRegexTransform_invalid _ _ C). apply IH.
  - intros ts1 ts2 ->. apply applyRegexTransforms_app.
  - revert input. induction ts as [|t ts IH]; intros input H; [reflexivity|].
    cbn [forallb] in H. apply andb_true_iff in H. destruct H as [Ht Hts].
    apply negb_true_iff in Ht.
    change (applyRegexTransforms (applyRegexTransform input t) ts = input).
    rewrite (applyRegexTransform_invalid _ _ Ht). now apply IH.
Qed.

(** Three transforms on [hello world]: the second does not compile, the
    first and the third are applied in turn. *)
Definition mixedTransforms : list RegexTransform :=
  [mkRegexTransform (lit "o") (lit "0") None;
   mkRegexTransform (lit "[invalid(") (lit "x") None;
   mkRegexTransform (lit "\s") (lit "_") (Some (lit "g"))].

Lemma applyRegexTransforms_skips_invalid_witness :
  applyRegexTransforms (lit "hello world") mixedTransforms = lit "hell0_w0rld" /\
  map compiles mixedTransforms = [true; false; true] /\
  applyRegexTransforms (lit "hello world") mixedTransforms =
    applyRegexTransform (applyRegexTransform (lit "hello world")
                           (mkRegexTransform (lit "o") (lit "0") None))
      (mkRegexTransform (lit "\s") (lit "_") (Some (lit "g"))).
Proof.
  pose proof (applyRegexTransforms_skips_invalid (lit "hello world") mixedTransforms) as T.
  destruct T as (_ & _ & _ & _ & _ & _ & F & _).
  split; [rewrite F; vm_compute; reflexivity|].
  split; [vm_compute; reflexivity|].
  rewrite F. vm_compute. reflexivity.
Defined.

(** ** Case conversions, word by word *)

(** A text begins, or ends, with a character that is not of [P]; the
    empty text does both. *)
Definition headClean (P : N -> bool) (s : jsstring) : Prop :=
  match s with a :: _ => P a = false | [] => True end.

Fixpoint lastClean (P : N -> bool) (s : jsstring) : Prop :=
  match s with
  | [] => True
  | a :: s' => match s' with [] => P a = false | _ => lastClean P s' end
  end.

Lemma lastClean_cons (P : N -> bool) (a : N) (s : jsstring) :
  s <> [] -> (lastClean P (a :: s) <-> lastClean P s).
Proof. destruct s; [congruence | reflexivity]. Qed.

Lemma lastClean_tail (P : N -> bool) (a : N) (s : jsstring) :
  lastClean P (a :: s) -> lastClean P s.
Proof. destruct s; [intros _; exact I | now intros H]. Qed.

Lemma lastClean_app (P : N -> bool) (u v : jsstring) :
  v <> [] -> (lastClean P (u ++ v) <-> lastClean P v).
Proof.
  intros Hv. induction u as [|a u IH]; [reflexivity|]. cbn [app].
  rewrite lastClean_cons; [exact IH|]. destruct u; [exact Hv | discriminate].
Qed.

Lemma wordsFrom_nonempty (P : N -> bool) (s : jsstring) : forall cur,
  lastClean P s -> s <> [] \/ cur <> [] -> wordsFrom P cur s <> [].
Proof.
  induction s as [|a s IH]; intros cur Hl Hne; cbn [wordsFrom].
  - destruct Hne as [Hne|Hne]; [congruence|]. now destruct cur.
  - destruct (P a) eqn:Pa.
    + assert (Hs : s <> []) by (intros ->; cbn in Hl; congruence).
      intros E. apply app_eq_nil in E. destruct E as [_ E].
      revert E. apply IH; [now apply lastClean_tail in Hl | now left].
    + apply IH; [now apply lastClean_tail in Hl|]. right. now destruct cur.
Qed.

(** On a text that neither begins nor ends with a character of [P],
    replacing each run of such characters by [r] joins the words with
    [r]. *)
Lemma collapseFrom_clean (P : N -> bool) (r : jsstring) (s : jsstring) : forall cur b,
  lastClean P s ->
  (b = true -> cur = [] /\ s <> []) ->
  (b = false -> cur = [] -> headClean P s) ->
  cur ++ collapseFrom P r b s = join r (wordsFrom P cur s).
Proof.
  induction s as [|a s IH]; intros cur b Hl Hb Hc.
  - destruct b; [destruct (Hb eq_refl) as [_ H]; congruence|].
    cbn [collapseFrom wordsFrom]. rewrite app_nil_r. now destruct cur.
  - cbn [collapseFrom wordsFrom]. destruct (P a) eqn:Pa.
    + assert (Hs : s <> []) by (intros ->; cbn in Hl; congruence).
      pose proof (lastClean_tail _ _ _ Hl) as Hl'.
      assert (Hin : collapseFrom P r true s = join r (wordsFrom P [] s)).
      { apply (IH [] true Hl'); [intros _; now split | discriminate]. }
      destruct b.
      * destruct (Hb eq_refl) as [-> _]. cbn [app flush]. exact Hin.
      * destruct cur as [|c0 cur]; [specialize (Hc eq_refl eq_refl); cbn in Hc; congruence|].
        rewrite Hin. cbn [flush app].
        pose proof (wordsFrom_nonempty P s [] Hl' (or_introl Hs)) as Hw.
        destruct (wordsFrom P [] s) as [|w ws]; [congruence|]. reflexivity.
    + pose proof (lastClean_tail _ _ _ Hl) as Hl'.
      rewrite <- (IH (cur ++ [a]) false Hl').
      * now rewrite <- app_assoc.
      * discriminate.
      * intros _ E. now destruct cur.
Qed.

Lemma collapse_clean (P : N -> bool) (r s : jsstring) :
  headClean P s -> lastClean P s -> collapse P r s = join r (wordsOf P s).
Proof.
  intros Hh Hl. unfold collapse, wordsOf.
  apply (collapseFrom_clean P r s [] false Hl); [discriminate | now intros _ _].
Qed.

Lemma collapseFrom_last (P Q : N -> bool) (r : jsstring) (s : jsstring) : forall b,
  s <> [] -> lastClean (fun a => P a || Q a) s ->
  collapseFrom P r b s <> [] /\ lastClean Q (collapseFrom P r b s).
Proof.
  induction s as [|a s IH]; intros b Hne Hl; [congruence|].
  destruct s as [|a' s'].
  - cbn in Hl. apply orb_false_iff in Hl. destruct Hl as [Pa Qa].
    cbn [collapseFrom]. rewrite Pa. split; [discriminate | exact Qa].
  - assert (Hl' : lastClean (fun a => P a || Q a) (a' :: s')) by exact Hl.
    cbn [collapseFrom]. destruct (P a).
    + destruct (IH true ltac:(discriminate) Hl') as [H1 H2]. split.
      * intros E. apply app_eq_nil in E. destruct E as [_ E]. exact (H1 E).
      * apply lastClean_app; assumption.
    + destruct (IH false ltac:(discriminate) Hl') as [H1 H2]. split; [discriminate|].
      apply lastClean_cons; assumption.
Qed.

Lemma lastClean_map (Q : N -> bool) (f : N -> N) (s : jsstring) :
  (forall a, Q (f a) = Q a) -> lastClean Q s -> lastClean Q (map f s).
Proof.
  intros Hf. induction s as [|a s IH]; [exact (fun H => H)|].
  destruct s as [|a' s']; cbn [map lastClean]; [now rewrite Hf | exact IH].
Qed.

Lemma lastClean_ext (P Q : N -> bool) (s : jsstring) :
  (forall a, Q a = true -> P a = true) -> lastClean P s -> lastClean Q s.
Proof.
  intros H. induction s as [|a s IH]; [exact (fun H => H)|].
  destruct s as [|a' s']; cbn [lastClean]; [|exact IH].
  intros Pa. destruct (Q a) eqn:Qa; [|reflexivity]. rewrite (H a Qa) in Pa. discriminate.
Qed.

Lemma lastClean_stripLeading (Q : N -> bool) (c : N) (s : jsstring) :
  lastClean Q s -> lastClean Q (stripLeading c s).
Proof.
  destruct s as [|a s]; [exact (fun H => H)|]. unfold stripLeading.
  destruct (a =? c)%N; [apply lastClean_tail | exact (fun H => H)].
Qed.

Lemma lastClean_beforeUpper (Q : N -> bool) (sep : N) (s : jsstring) :
  lastClean Q s -> lastClean Q (flat_map (beforeUpper sep) s).
Proof.
  induction s as [|a s IH]; [exact (fun H => H)|]. intros Hl.
  destruct s as [|a' s'].
  - cbn in Hl |- *. unfold beforeUpper. destruct (isUpper a); cbn; exact Hl.
  - cbn [flat_map]. apply lastClean_app.
    + cbn [flat_map]. unfold beforeUpper at 1. destruct (isUpper a'); discriminate.
    + apply IH. exact Hl.
Qed.

(** The words of a text for the case conversions: the text is cut at
    white space, hyphens and underscores, and before every capital. *)
Definition wordSeparator (a : N) : bool :=
  isWhiteSpace a || (a =? ch "-")%N || (a =? ch "_")%N.

Fixpoint caseWordsFrom (cur : jsstring) (s : jsstring) : list jsstring :=
  match s with
  | [] => flush cur
  | a :: s' =>
      if wordSeparator a then flush cur ++ caseWordsFrom [] s'
      else if isUpper a then flush cur ++ caseWordsFrom [a] s'
      else caseWordsFrom (cur ++ [a]) s'
  end.

Definition caseWords (s : jsstring) : list jsstring := caseWordsFrom [] s.

Lemma upper_not_wordSeparator (a : N) : isUpper a = true -> wordSeparator a = false.
Proof. intros H. unfold wordSeparator. char_fact. Qed.

Lemma wordsFrom_beforeUpper (sep : N) (s : jsstring) : forall cur,
  wordSeparator sep = true ->
  wordsFrom wordSeparator cur (flat_map (beforeUpper sep) s) = caseWordsFrom cur s.
Proof.
  intros cur Hsep. revert cur. induction s as [|a s IH]; intros cur; [reflexivity|].
  cbn [flat_map caseWordsFrom]. unfold beforeUpper at 1.
  destruct (isUpper a) eqn:Ua.
  - rewrite (upper_not_wordSeparator _ Ua). cbn [app wordsFrom].
    rewrite Hsep, (upper_not_wordSeparator _ Ua). cbn [app]. now rewrite IH.
  - cbn [app wordsFrom]. destruct (wordSeparator a); now rewrite IH.
Qed.

(** [toSnakeCase] and [toKebabCase] differ by the separator [sep] and
    by the set [P1] of the characters that the second step replaces. *)
Definition separatorSteps (sep : N) (P1 : N -> bool) (input : jsstring) : jsstring :=
  collapse (fun a => (a =? sep)%N) [sep]
    (stripLeading sep
       (toLowerCase (collapse P1 [sep] (flat_map (beforeUpper sep) input)))).

Lemma separatorSteps_words (sep : N) (P1 : N -> bool) (x : jsstring) :
  (forall a, P1 a || (a =? sep)%N = wordSeparator a) ->
  P1 sep = false ->
  (forall a, (lowerChar a =? sep)%N = (a =? sep)%N) ->
  headClean wordSeparator x -> lastClean wordSeparator x ->
  separatorSteps sep P1 x = join [sep] (map toLowerCase (caseWords x)).
Proof.
  intros Hsep HP1 Hlow Hh Hl. unfold separatorSteps.
  assert (Ws : wordSeparator sep = true).
  { rewrite <- Hsep, N.eqb_refl. apply orb_true_r. }
  set (t1 := flat_map (beforeUpper sep) x).
  set (t3 := toLowerCase (collapse P1 [sep] t1)).
  assert (Hwords : wordsOf (fun a => (a =? sep)%N) (stripLeading sep t3)
                   = map toLowerCase (caseWords x)).
  { rewrite wordsOf_stripLeading by apply N.eqb_refl.
    unfold t3, toLowerCase, wordsOf. change (@nil N) with (map lowerChar []) at 1.
    rewrite (wordsFrom_map _ _ _ Hlow). f_equal.
    change (wordsFrom (fun a => (a =? sep)%N) [] (collapse P1 [sep] t1))
      with (wordsOf (fun a => (a =? sep)%N) (collapse P1 [sep] t1)).
    rewrite wordsOf_collapse;
      [| discriminate | constructor; [apply N.eqb_refl | constructor]].
    unfold wordsOf. rewrite (wordsFrom_ext _ wordSeparator)
      by (apply Forall_forall; intros a _; apply Hsep).
    apply wordsFrom_beforeUpper. exact Ws. }
  rewrite <- Hwords. apply collapse_clean.
  - (* the first character *)
    destruct x as [|a x']; [exact I|]. cbn [headClean] in Hh.
    assert (Pa : P1 a = false /\ (a =? sep)%N = false).
    { apply orb_false_iff. now rewrite Hsep. }
    destruct Pa as [Pa Ea]. unfold t3, t1, toLowerCase, collapse. cbn [flat_map].
    unfold beforeUpper at 1. destruct (isUpper a).
    + cbn [app collapseFrom]. rewrite HP1, Pa. cbn [map stripLeading].
      rewrite Hlow, N.eqb_refl. cbn [headClean]. now rewrite Hlow.
    + cbn [app collapseFrom]. rewrite Pa. cbn [map stripLeading].
      rewrite Hlow, Ea. cbn [headClean]. now rewrite Hlow.
  - (* the last character *)
    apply lastClean_stripLeading. unfold t3, toLowerCase.
    apply lastClean_map; [exact Hlow|].
    destruct x as [|a x']; [exact I|].
    assert (Hne : t1 <> []).
    { unfold t1. cbn [flat_map]. unfold beforeUpper at 1. destruct (isUpper a); discriminate. }
    apply (collapseFrom_last P1 (fun a => (a =? sep)%N) [sep] t1 false Hne).
    apply lastClean_ext with (P := wordSeparator); [intros c Hc; now rewrite <- Hsep|].
    now apply lastClean_beforeUpper.
Qed.

Definition isSpaceOrUnderscore (a : N) : bool := isWhiteSpace a || (a =? ch "_")%N.
Definition isHyphen (a : N) : bool := (a =? ch "-")%N.

Lemma plain_hyphen : Forall (fun c => (c =? ch "$")%N = false) (lit "-").
Proof. repeat constructor. Qed.

Lemma toSnakeCase_separatorSteps (input : jsstring) :
  toSnakeCase input = separatorSteps (ch "_") isSpaceOrHyphen input.
Proof. apply toSnakeCase_steps. Qed.

Lemma toKebabCase_separatorSteps (input : jsstring) :
  toKebabCase input = separatorSteps (ch "-") isSpaceOrUnderscore input.
Proof.
  unfold toKebabCase, separatorSteps.
  change (lit "-$1") with (ch "-" :: lit "$1").
  rewrite (replace_before_upper "([A-Z])" (ch "-") input eq_refl eq_refl).
  rewrite (replace_run (literal "[\s_]+" "g")
             (classMem globalFlags false [CISpace false; CIChar 95]) _ (lit "-") eq_refl
             (runOf_step (lit "[\s_]+") globalFlags (Class false [CISpace false; CIChar 95]) _
                eq_refl (fun _ _ => eq_refl)) plain_hyphen).
  rewrite (replace_leading "^-" (ch "-") _ eq_refl).
  rewrite (replace_run (literal "-+" "g") isHyphen _ (lit "-") eq_refl
             (runOf_step (lit "-+") globalFlags (Chr 45) _ eq_refl (fun _ _ => eq_refl))
             plain_hyphen).
  f_equal. f_equal. f_equal. unfold collapse. apply collapseFrom_ext.
  intros a. cbv [classMem setMem ignoreCase globalFlags existsb itemSet xorb isSpaceOrUnderscore ch].
  now rewrite orb_false_r.
Qed.

Lemma lowerChar_keeps (sep : N) :
  isUpper sep = false -> isLower sep = false ->
  forall a, (lowerChar a =? sep)%N = (a =? sep)%N.
Proof.
  intros Hu Hl a. unfold lowerChar. destruct (isUpper a) eqn:Ua; [|reflexivity].
  destruct (N.eqb_spec a sep) as [->|Hn]; [congruence|].
  apply N.eqb_neq. intros E. rewrite <- E in Hl. clear Hu Hn E. char_fact.
Qed.

(** ASCII text: the case mapping of the model is that of the ASCII
    letters. *)
Definition ascii (s : jsstring) : Prop := Forall (fun a => (a < 128)%N) s.

Lemma toSnakeCase_caseWords (x : jsstring) :
  headClean wordSeparator x -> lastClean wordSeparator x ->
  toSnakeCase x = join (lit "_") (map toLowerCase (caseWords x)).
Proof.
  intros Hh Hl. rewrite toSnakeCase_separatorSteps. apply separatorSteps_words; try assumption.
  - intros a. reflexivity.
  - reflexivity.
  - now apply lowerChar_keeps.
Qed.

Lemma toKebabCase_caseWords (x : jsstring) :
  headClean wordSeparator x -> lastClean wordSeparator x ->
  toKebabCase x = join (lit "-") (map toLowerCase (caseWords x)).
Proof.
  intros Hh Hl. rewrite toKebabCase_separatorSteps. apply separatorSteps_words; try assumption.
  - intros a. unfold isSpaceOrUnderscore, wordSeparator.
    rewrite <- !orb_assoc. f_equal. apply orb_comm.
  - reflexivity.
  - now apply lowerChar_keeps.
Qed.

(** X11. On an ASCII text that neither begins nor ends with white space,
    a hyphen or an underscore, [toSnakeCase] returns the words of the
    text in lower case joined by single underscores, and [toKebabCase]
    the same words joined by single hyphens; the words are cut at white
    space, hyphens and underscores and before every capital. *)
Theorem toSnakeCase_words (x : jsstring) :
  ascii x -> headClean wordSeparator x -> lastClean wordSeparator x ->
  toSnakeCase x = join (lit "_") (map toLowerCase (caseWords x)) /\
  toKebabCase x = join (lit "-") (map toLowerCase (caseWords x)).
Proof.
  intros _ Hh Hl. split; [now apply toSnakeCase_caseWords | now apply toKebabCase_caseWords].
Qed.

Lemma toSnakeCase_words_witness :
  caseWords (lit "myProject-name v2") = [lit "my"; lit "Project"; lit "name"; lit "v2"] /\
  toSnakeCase (lit "myProject-name v2") = lit "my_project_name_v2" /\
  toKebabCase (lit "myProject-name v2") = lit "my-project-name-v2".
Proof.
  assert (A : ascii (lit "myProject-name v2")) by (repeat constructor).
  destruct (toSnakeCase_words (lit "myProject-name v2") A eq_refl eq_refl) as [S K].
  split; [reflexivity|]. split; [rewrite S | rewrite K]; reflexivity.
Defined.

Lemma Forall_collapseFrom_kept (R : N -> Prop) (P : N -> bool) (r s : jsstring) : forall b,
  Forall R r -> Forall (fun a => P a = false -> R a) s -> Forall R (collapseFrom P r b s).
Proof.
  intros b Hr Hs. revert b. induction Hs as [|a s Ha Hs IH]; intros b; [constructor|].
  cbn [collapseFrom]. destruct (P a) eqn:Pa.
  - apply Forall_app. split; [destruct b; [constructor | exact Hr] | apply IH].
  - constructor; [now apply Ha | apply IH].
Qed.

Lemma titleSeparator_wordSeparator (a : N) :
  isUnderscoreOrHyphen a || isWhiteSpace a = wordSeparator a.
Proof.
  unfold isUnderscoreOrHyphen, wordSeparator.
  destruct (isWhiteSpace a), (a =? ch "-")%N, (a =? ch "_")%N; reflexivity.
Qed.

Lemma toTitleCase_wordsOf (x : jsstring) :
  Forall (fun a => wordSeparator a || isWordChar a = true) x ->
  toTitleCase x = join (lit " ") (map capitalize (wordsOf wordSeparator x)).
Proof.
  intros Hx. rewrite toTitleCase_steps. unfold titleSteps.
  rewrite trim_collapse, wordsOf_mapWordStarts.
  - do 2 f_equal. rewrite wordsOf_collapse by (try discriminate; repeat constructor).
    apply wordsFrom_ext. apply Forall_forall. intros a _. apply titleSeparator_wordSeparator.
  - apply Forall_collapseFrom_kept; [repeat constructor|].
    eapply Forall_impl; [|exact Hx]. intros a Ha Pa. cbn beta in Ha.
    rewrite <- titleSeparator_wordSeparator, Pa in Ha. cbn [orb] in Ha.
    destruct (isWhiteSpace a); [reflexivity | exact Ha].
Qed.

(** X12. On an ASCII text made of letters, digits, underscores, hyphens
    and white space, [toTitleCase] returns the words of the text, each
    with its first character in upper case, joined by single spaces; the
    words are cut at white space, hyphens and underscores only. *)
Theorem toTitleCase_words (x : jsstring) :
  ascii x ->
  Forall (fun a => wordSeparator a || isWordChar a = true) x ->
  toTitleCase x = join (lit " ") (map capitalize (wordsOf wordSeparator x)).
Proof.
  intros _ Hx. now apply toTitleCase_wordsOf.
Qed.

Lemma toTitleCase_words_witness :
  toTitleCase (lit " my_project-name  v2 ") = lit "My Project Name V2".
Proof.
  rewrite (toTitleCase_words (lit " my_project-name  v2 ")).
  - reflexivity.
  - repeat constructor.
  - repeat constructor.
Defined.

(** *** Texts in snake case, kebab case and Title Case *)

(** A word of lowercase letters and digits. *)
Definition lowerWord (w : jsstring) : bool :=
  match w with
  | [] => false
  | _ => forallb (fun a => isLower a || isDigit a) w
  end.

Lemma lowerWord_inv (w : jsstring) :
  lowerWord w = true -> w <> [] /\ Forall (fun a => isLower a || isDigit a = true) w.
Proof.
  destruct w as [|a l]; [discriminate|]. intros H. split; [discriminate|].
  apply Forall_forall. now apply forallb_forall.
Qed.

Lemma lowerOrDigit_facts (a : N) :
  isLower a || isDigit a = true ->
  wordSeparator a = false /\ isUpper a = false /\ (a < 128)%N /\ isWordChar a = true /\
  lowerChar a = a /\ lowerChar (upperChar a) = a /\
  wordSeparator (upperChar a) = false /\ (upperChar a < 128)%N /\
  isWordChar (upperChar a) = true.
Proof.
  intros H. unfold wordSeparator, lowerChar, upperChar.
  destruct (isLower a) eqn:L.
  - assert (U : isUpper a = false) by (apply lower_not_upper; exact L).
    assert (U' : isUpper (a - 32) = true) by (clear H U; char_fact).
    rewrite U, U'. clear H U U'. repeat split; char_fact.
  - cbn [orb] in H. assert (U : isUpper a = false) by (clear L; char_fact).
    rewrite U. clear L U. repeat split; char_fact.
Qed.

Lemma join_headClean (P : N -> bool) (sep : jsstring) (ws : list jsstring) :
  Forall (chunk P) ws -> headClean P (join sep ws).
Proof.
  intros H. destruct ws as [|w ws]; [exact I|].
  destruct (join_first P sep _ H) as (a & t & E & Pa); [discriminate|].
  rewrite E. exact Pa.
Qed.

Lemma join_lastClean (P : N -> bool) (sep : jsstring) (ws : list jsstring) :
  Forall (chunk P) ws -> lastClean P (join sep ws).
Proof.
  intros H. destruct ws as [|w ws]; [exact I|].
  destruct (join_last P sep _ H) as (t & z & E & Pz); [discriminate|].
  rewrite E. apply lastClean_app; [discriminate | exact Pz].
Qed.

Lemma caseWordsFrom_word (l t : jsstring) : forall cur,
  Forall (fun a => wordSeparator a = false /\ isUpper a = false) l ->
  caseWordsFrom cur (l ++ t) = caseWordsFrom (cur ++ l) t.
Proof.
  intros cur H. revert cur. induction H as [|a l [Sa Ua] _ IH]; intros cur.
  - now rewrite app_nil_r.
  - cbn [app caseWordsFrom]. rewrite Sa, Ua, IH. now rewrite <- app_assoc.
Qed.

(** A word in which only the first character may be a capital. *)
Definition cappedWord (w : jsstring) : Prop :=
  exists a l, w = a :: l /\ wordSeparator a = false /\
              Forall (fun c => wordSeparator c = false /\ isUpper c = false) l.

Lemma caseWordsFrom_capped (w t : jsstring) :
  cappedWord w -> caseWordsFrom [] (w ++ t) = caseWordsFrom w t.
Proof.
  intros (a & l & -> & Sa & Hl). cbn [app caseWordsFrom]. rewrite Sa.
  destruct (isUpper a); cbn [flush app]; now rewrite caseWordsFrom_word.
Qed.

Lemma caseWords_join (ws : list jsstring) :
  Forall cappedWord ws -> caseWords (join (lit " ") ws) = ws.
Proof.
  unfold caseWords. induction 1 as [|w ws Hw Hws IH]; [reflexivity|].
  destruct ws as [|w' ws].
  - cbn [join]. rewrite <- (app_nil_r w) at 1. rewrite (caseWordsFrom_capped _ _ Hw).
    cbn [caseWordsFrom]. destruct Hw as (a & l & -> & _). reflexivity.
  - rewrite join_cons by discriminate. rewrite (caseWordsFrom_capped _ _ Hw).
    change (lit " " ++ join (lit " ") (w' :: ws)) with (32%N :: join (lit " ") (w' :: ws)).
    cbn [caseWordsFrom]. change (wordSeparator 32) with true. cbn iota.
    rewrite IH. destruct Hw as (a & l & -> & _). reflexivity.
Qed.

Lemma capitalize_capped (w : jsstring) : lowerWord w = true -> cappedWord (capitalize w).
Proof.
  intros H. destruct (lowerWord_inv _ H) as [Hne Hw].
  destruct w as [|a l]; [congruence|]. inversion Hw as [|? ? Ha Hl]; subst.
  exists (upperChar a), l. split; [reflexivity|]. split.
  - now destruct (lowerOrDigit_facts a Ha) as (_ & _ & _ & _ & _ & _ & S & _).
  - eapply Forall_impl; [|exact Hl]. intros c Hc.
    now destruct (lowerOrDigit_facts c Hc) as (S & U & _).
Qed.

Lemma capitalize_lower (w : jsstring) :
  lowerWord w = true -> toLowerCase (capitalize w) = w.
Proof.
  intros H. destruct (lowerWord_inv _ H) as [Hne Hw].
  destruct w as [|a l]; [congruence|]. inversion Hw as [|? ? Ha Hl]; subst.
  cbn [capitalize toLowerCase map]. f_equal.
  - now destruct (lowerOrDigit_facts a Ha) as (_ & _ & _ & _ & _ & E & _).
  - apply map_fixed. eapply Forall_impl; [|exact Hl]. intros c Hc.
    now destruct (lowerOrDigit_facts c Hc) as (_ & _ & _ & _ & E & _).
Qed.

Lemma lowerWord_chunk (w : jsstring) : lowerWord w = true -> chunk wordSeparator w.
Proof.
  intros H. destruct (lowerWord_inv _ H) as [Hne Hw]. split; [exact Hne|].
  eapply Forall_impl; [|exact Hw]. intros c Hc.
  now destruct (lowerOrDigit_facts c Hc) as (S & _).
Qed.

Lemma cappedWord_chunk (w : jsstring) : cappedWord w -> chunk wordSeparator w.
Proof.
  intros (a & l & -> & Sa & Hl). split; [discriminate|].
  constructor; [exact Sa|]. eapply Forall_impl; [|exact Hl]. now intros c [S _].
Qed.

Lemma wordsOf_join_plain (P : N -> bool) (sep : jsstring) (ws : list jsstring) :
  sep <> [] -> Forall (fun a => P a = true) sep -> Forall (chunk P) ws ->
  wordsOf P (join sep ws) = ws.
Proof.
  intros Hne Hsep Hws.
  rewrite <- (wordsOf_join P [] sep ws Hne (Forall_nil _) Hsep Hws) at 2.
  do 2 f_equal. symmetry. apply map_fixed. apply Forall_forall. now intros w _.
Qed.

(** X13. For words of lowercase letters and digits, the snake-case
    text, the kebab-case text and the Title Case text made of these
    words are converted into one another: [toTitleCase] turns the first
    two into the third, and [toSnakeCase] and [toKebabCase] turn the
    third back into each of them. *)
Theorem case_forms_convert (ws : list jsstring) :
  Forall (fun w => lowerWord w = true) ws ->
  let snake := join (lit "_") ws in
  let kebab := join (lit "-") ws in
  let title := join (lit " ") (map capitalize ws) in
  toTitleCase snake = title /\ toTitleCase kebab = title /\
  toSnakeCase title = snake /\ toKebabCase title = kebab /\
  toSnakeCase (toTitleCase snake) = snake /\ toKebabCase (toTitleCase kebab) = kebab.
Proof.
  intros Hws snake kebab title.
  assert (Hchunks : Forall (chunk wordSeparator) ws)
    by (eapply Forall_impl; [|exact Hws]; exact lowerWord_chunk).
  assert (Hchars : forall sep, Forall (fun a => wordSeparator a = true) sep ->
            Forall (fun a => wordSeparator a || isWordChar a = true) (join sep ws)).
  { intros sep Hsep. apply Forall_join.
    - eapply Forall_impl; [|exact Hsep]. now intros a ->.
    - eapply Forall_impl; [|exact Hws]. intros w Hw.
      destruct (lowerWord_inv _ Hw) as [_ Hl]. eapply Forall_impl; [|exact Hl].
      intros c Hc. destruct (lowerOrDigit_facts c Hc) as (_ & _ & _ & W & _).
      rewrite W. apply orb_true_r. }
  assert (Hs : toTitleCase snake = title).
  { unfold snake, title. rewrite toTitleCase_wordsOf.
    - rewrite wordsOf_join_plain; try assumption; [reflexivity | discriminate | repeat constructor].
    - apply Hchars. repeat constructor. }
  assert (Hk : toTitleCase kebab = title).
  { unfold kebab, title. rewrite toTitleCase_wordsOf.
    - rewrite wordsOf_join_plain; try assumption; [reflexivity | discriminate | repeat constructor].
    - apply Hchars. repeat constructor. }
  assert (Hcap : Forall cappedWord (map capitalize ws))
    by (apply Forall_map; eapply Forall_impl; [|exact Hws]; exact capitalize_capped).
  assert (Hcc : Forall (chunk wordSeparator) (map capitalize ws))
    by (eapply Forall_impl; [|exact Hcap]; exact cappedWord_chunk).
  assert (Hwords : map toLowerCase (caseWords title) = ws).
  { unfold title. rewrite (caseWords_join _ Hcap), map_map.
    apply map_fixed. eapply Forall_impl; [|exact Hws]. exact capitalize_lower. }
  pose proof (toSnakeCase_caseWords title (join_headClean _ _ _ Hcc) (join_lastClean _ _ _ Hcc))
    as Hts.
  pose proof (toKebabCase_caseWords title (join_headClean _ _ _ Hcc) (join_lastClean _ _ _ Hcc))
    as Htk.
  rewrite Hwords in Hts, Htk.
  split; [exact Hs|]. split; [exact Hk|]. split; [exact Hts|]. split; [exact Htk|].
  split; [now rewrite Hs | now rewrite Hk].
Qed.

Lemma case_forms_convert_witness :
  toTitleCase (lit "my_project_name") = lit "My Project Name" /\
  toSnakeCase (lit "My Project Name") = lit "my_project_name" /\
  toKebabCase (toTitleCase (lit "my-project-name")) = lit "my-project-name".
Proof.
  assert (H : Forall (fun w => lowerWord w = true) [lit "my"; lit "project"; lit "name"])
    by (repeat constructor).
  destruct (case_forms_convert _ H) as (A & _ & B & _ & _ & C).
  split; [exact A | split; [exact B | exact C]].
Defined.

(* ================================================================= *)
(** * Quantifiers over one character *)

(** The greedy loop over a one-character body, written on the text: the
    longest run is tried first, then the shorter ones down to [min]
    characters. *)
Fixpoint greedyRun (P : N -> bool) (c : Continuation) (min : nat)
  (rp sf : jsstring) (cs : list (nat * jsstring)) : option MatchState :=
  let stop := if Nat.eqb min 0 then c (mkState rp sf cs) else None in
  match sf with
  | a :: sf' =>
      if P a then orElse (greedyRun P c (Nat.pred min) (a :: rp) sf' cs) (fun _ => stop)
      else stop
  | [] => stop
  end.

Lemma clearCaps_nil (cs : list (nat * jsstring)) : clearCaps [] cs = cs.
Proof.
  unfold clearCaps.
  assert (H : forall f : nat * jsstring -> bool, (forall p, f p = true) -> filter f cs = cs).
  { intros f Hf. induction cs as [|p cs IH]; [reflexivity|].
    cbn [filter]. now rewrite Hf, IH. }
  apply H. reflexivity.
Qed.

Lemma orElse_none (a : option MatchState) : orElse a (fun _ => None) = a.
Proof. now destruct a. Qed.

Lemma repeatMatcher_greedy (m : MatchState -> Continuation -> option MatchState)
  (P : N -> bool) (c : Continuation) :
  (forall x k, m x k = step x P k) ->
  forall sf fuel min rp cs,
    min + List.length sf < fuel ->
    repeatMatcher m [] true c fuel min None (mkState rp sf cs) = greedyRun P c min rp sf cs.
Proof.
  intros Hm. induction sf as [|a sf IH]; intros fuel min rp cs Hf;
    (destruct fuel as [|fuel]; [lia|]);
    cbn [repeatMatcher greedyRun rpre suf caps]; rewrite clearCaps_nil, Hm;
    unfold step; cbn [suf rpre caps].
  - destruct min as [|min]; reflexivity.
  - cbn [List.length] in Hf. destruct (P a) eqn:Pa.
    + assert (Hne : Nat.eqb (List.length sf) (S (List.length sf)) = false)
        by (apply Nat.eqb_neq; lia).
      cbn [List.length]. rewrite Hne, andb_false_r.
      destruct min as [|min]; cbn [Nat.eqb negb Nat.pred option_map];
        rewrite IH by lia; [reflexivity | now rewrite orElse_none].
    + destruct min as [|min]; reflexivity.
Qed.

(** A quantifier [r*], [r+] or [r{min,}] whose body [r] matches one
    character of [P]. *)
Lemma quant_greedy (fl : Flags) (r : regex) (P : N -> bool) (min : nat)
  (rp sf : jsstring) (cs : list (nat * jsstring)) (c : Continuation) :
  groupsOf r = [] ->
  (forall x k, matcher fl r x k = step x P k) ->
  matcher fl (Quant min None true r) (mkState rp sf cs) c = greedyRun P c min rp sf cs.
Proof.
  intros Hg Hm. cbn [matcher]. rewrite Hg.
  apply repeatMatcher_greedy; [exact Hm | unfold repeatFuel; cbn [suf]; lia].
Qed.

Lemma greedyRun_sound (P : N -> bool) (c : Continuation) (sf : jsstring) :
  forall min rp cs z,
    greedyRun P c min rp sf cs = Some z ->
    exists u v, sf = u ++ v /\ Forall (fun a => P a = true) u /\ min <= List.length u /\
                c (mkState (rev u ++ rp) v cs) = Some z.
Proof.
  induction sf as [|a sf IH]; intros min rp cs z H; cbn [greedyRun] in H.
  - destruct min; [|discriminate]. exists [], []. repeat split; auto.
  - assert (Hstop : (if Nat.eqb min 0 then c (mkState rp (a :: sf) cs) else None) = Some z ->
                    exists u v, a :: sf = u ++ v /\ Forall (fun a => P a = true) u /\
                                min <= List.length u /\ c (mkState (rev u ++ rp) v cs) = Some z).
    { intros K. destruct min; [|discriminate]. exists [], (a :: sf). repeat split; auto. }
    destruct (P a) eqn:Pa; [|now apply Hstop].
    destruct (greedyRun P c (Nat.pred min) (a :: rp) sf cs) as [z'|] eqn:E; cbn [orElse] in H.
    + injection H as ->. destruct (IH _ _ _ _ E) as (u & v & -> & Hu & Hl & Hc).
      exists (a :: u), v. repeat split.
      * now constructor.
      * cbn [List.length]. lia.
      * cbn [rev]. now rewrite <- app_assoc.
    + now apply Hstop.
Qed.

(** The longest run is taken when the continuation accepts it. *)
Lemma greedyRun_first (P : N -> bool) (c : Continuation) (u v : jsstring) :
  forall min rp cs z,
    Forall (fun a => P a = true) u -> headClean P v -> min <= List.length u ->
    c (mkState (rev u ++ rp) v cs) = Some z ->
    greedyRun P c min rp (u ++ v) cs = Some z.
Proof.
  induction u as [|a u IH]; intros min rp cs z Hu Hv Hl Hc.
  - cbn [List.length] in Hl. assert (min = 0) as -> by lia. cbn [app rev] in *.
    destruct v as [|b v]; cbn [greedyRun Nat.eqb]; [exact Hc|].
    cbn [headClean] in Hv. now rewrite Hv.
  - inversion Hu as [|? ? Pa Hu']; subst. cbn [app greedyRun]. rewrite Pa.
    rewrite (IH (Nat.pred min) (a :: rp) cs z); [reflexivity | assumption | assumption | |].
    + cbn [List.length] in Hl. lia.
    + cbn [rev] in Hc. now rewrite <- app_assoc in Hc.
Qed.

Lemma greedyRun_none (P : N -> bool) (c : Continuation) (sf : jsstring) :
  forall min rp cs,
    (forall u v, sf = u ++ v -> Forall (fun a => P a = true) u ->
                 c (mkState (rev u ++ rp) v cs) = None) ->
    greedyRun P c min rp sf cs = None.
Proof.
  induction sf as [|a sf IH]; intros min rp cs H; cbn [greedyRun].
  - destruct min; [|reflexivity]. exact (H [] [] eq_refl (Forall_nil _)).
  - assert (Hstop : (if Nat.eqb min 0 then c (mkState rp (a :: sf) cs) else None) = None).
    { destruct min; [|reflexivity]. exact (H [] (a :: sf) eq_refl (Forall_nil _)). }
    destruct (P a) eqn:Pa; [|exact Hstop].
    rewrite IH; [exact Hstop|]. intros u v -> Hu.
    specialize (H (a :: u) v eq_refl (Forall_cons _ Pa Hu)).
    cbn [rev] in H. now rewrite <- app_assoc in H.
Qed.

(** A run of [P] followed by a text that does not continue it: a
    prefix of the whole made of characters of [P] is a prefix of the
    run. *)
Lemma run_split (P : N -> bool) (d t : jsstring) : forall u r,
  Forall (fun a => P a = true) d -> headClean P t ->
  Forall (fun a => P a = true) u -> d ++ t = u ++ r ->
  exists d2, d = u ++ d2 /\ r = d2 ++ t.
Proof.
  induction d as [|a d IH]; intros u r Hd Ht Hu E.
  - destruct u as [|b u]; [exists []; split; [reflexivity | exact (eq_sym E)]|].
    cbn [app] in E. subst t. cbn [headClean] in Ht. inversion Hu; congruence.
  - destruct u as [|b u].
    + exists (a :: d). split; [reflexivity | exact (eq_sym E)].
    + cbn [app] in E. injection E as <- E. inversion Hd; inversion Hu; subst.
      destruct (IH u r) as (d2 & -> & ->); try assumption.
      exists d2. split; reflexivity.
Qed.

(** An expression that begins with [^] and has no [m] flag matches at
    the start of the text only. *)
Lemma search_anchored (rx : RegExp) (r : regex) (sf : jsstring) :
  tree rx = Seq Bol r -> multiline (RegExp.flags rx) = false ->
  search rx [] sf = option_map (fun m => ([], m)) (matchAt rx [] sf).
Proof.
  intros Ht Hm.
  assert (Hlater : forall s rp, rp <> [] -> search rx rp s = None).
  { induction s as [|a s IH]; intros rp Hrp; (destruct rp as [|b rp]; [congruence|]);
      cbn [search]; unfold matchAt at 1; rewrite Ht;
      cbn [matcher atBol rpre]; rewrite Hm; cbn [andb].
    - now destruct (sticky (RegExp.flags rx)).
    - destruct (sticky (RegExp.flags rx)); [reflexivity|]. now rewrite IH. }
  destruct sf as [|a sf]; cbn [search].
  - destruct (matchAt rx [] []); [reflexivity|]. now destruct (sticky (RegExp.flags rx)).
  - destruct (matchAt rx [] (a :: sf)); [reflexivity|].
    destruct (sticky (RegExp.flags rx)); [reflexivity|]. now rewrite Hlater.
Qed.

Lemma consumed_app (rp u s1 s2 : jsstring) (c1 c2 : list (nat * jsstring)) :
  consumed (mkState rp s1 c1) (mkState (rev u ++ rp) s2 c2) = u.
Proof.
  unfold consumed. cbn [rpre]. rewrite firstn_app_length. apply rev_involutive.
Qed.

(* ================================================================= *)
(** * Number prefixes *)

Definition digitSet : N -> bool := classMem noFlags false [CIDigit false].
Definition spaceSet : N -> bool := classMem noFlags false [CISpace false].
Definition dotSet : N -> bool := dotMem noFlags.

Lemma digitSet_spec (a : N) : digitSet a = isDigit a.
Proof. unfold digitSet, classMem, setMem. cbn. now rewrite orb_false_r. Qed.

Lemma spaceSet_spec (a : N) : spaceSet a = isWhiteSpace a.
Proof. unfold spaceSet, classMem, setMem. cbn. now rewrite orb_false_r. Qed.

Lemma dotSet_spec (a : N) : dotSet a = negb (isLineTerminator a).
Proof. reflexivity. Qed.

Lemma Forall_digitSet (s : jsstring) :
  Forall (fun a => digitSet a = true) s <-> Forall (fun a => isDigit a = true) s.
Proof. split; apply Forall_impl; intros a; now rewrite digitSet_spec. Qed.

Lemma Forall_spaceSet (s : jsstring) :
  Forall (fun a => spaceSet a = true) s <-> Forall (fun a => isWhiteSpace a = true) s.
Proof. split; apply Forall_impl; intros a; now rewrite spaceSet_spec. Qed.

Definition accept : Continuation := fun y => Some y.

(** The end of both expressions: [(.+)$] captures the rest of the text,
    which must not be empty nor hold a line terminator. *)
Definition restToEnd : regex := Seq (Group 2 (Quant 1 None true Dot)) Eol.

Lemma restToEnd_greedy (rp sf : jsstring) (cs : list (nat * jsstring)) :
  matcher noFlags restToEnd (mkState rp sf cs) accept =
  greedyRun dotSet
    (fun y => if atEol noFlags (mkState (rpre y) (suf y)
                                  (setCap 2 (consumed (mkState rp sf cs) y) (caps y)))
              then Some (mkState (rpre y) (suf y)
                           (setCap 2 (consumed (mkState rp sf cs) y) (caps y)))
              else None)
    1 rp sf cs.
Proof.
  unfold restToEnd. cbn [matcher]. cbn [groupsOf].
  rewrite (repeatMatcher_greedy _ dotSet) by
    (try (intros; reflexivity); unfold repeatFuel; cbn [suf]; lia).
  reflexivity.
Qed.

Lemma restToEnd_sound (rp sf : jsstring) (cs : list (nat * jsstring)) (z : MatchState) :
  matcher noFlags restToEnd (mkState rp sf cs) accept = Some z ->
  sf <> [] /\ Forall (fun a => dotSet a = true) sf /\
  z = mkState (rev sf ++ rp) [] (setCap 2 sf cs).
Proof.
  rewrite restToEnd_greedy. intros H.
  destruct (greedyRun_sound _ _ _ _ _ _ _ H) as (u & v & -> & Hu & Hl & Hc).
  cbn [rpre suf caps atEol] in Hc. rewrite consumed_app in Hc.
  destruct v as [|b v]; [|cbn in Hc; discriminate].
  injection Hc as <-. rewrite app_nil_r.
  split; [destruct u; [cbn in Hl; lia | discriminate]|]. split; [exact Hu | reflexivity].
Qed.

Lemma restToEnd_complete (rp sf : jsstring) (cs : list (nat * jsstring)) :
  sf <> [] -> Forall (fun a => dotSet a = true) sf ->
  matcher noFlags restToEnd (mkState rp sf cs) accept =
  Some (mkState (rev sf ++ rp) [] (setCap 2 sf cs)).
Proof.
  intros Hne Hs. rewrite restToEnd_greedy.
  match goal with
  | |- greedyRun _ ?c _ _ _ _ = Some ?z =>
      pose proof (greedyRun_first dotSet c sf [] 1 rp cs z Hs I) as E
  end.
  rewrite app_nil_r in E. apply E; [destruct sf; [congruence | cbn; lia]|].
  cbn [rpre suf caps atEol]. now rewrite consumed_app.
Qed.

Definition spaces0 : regex := Quant 0 None true (Class false [CISpace false]).
Definition spaces1 : regex := Quant 1 None true (Class false [CISpace false]).
Definition digits1 : regex := Quant 1 None true (Class false [CIDigit false]).

(** [\s*-\s*(.+)$] and [\.?\s+(.+)$] *)
Definition johnnyTail : regex := Seq spaces0 (Seq (Chr 45) (Seq spaces0 restToEnd)).
Definition simpleTail : regex := Seq (Quant 0 (Some 1) true (Chr 46)) (Seq spaces1 restToEnd).

Definition prefixed (tail : regex) : regex := Seq Bol (Seq (Group 1 digits1) tail).

Lemma spaces_greedy (min : nat) (rest : regex) (rp sf : jsstring)
  (cs : list (nat * jsstring)) :
  matcher noFlags (Seq (Quant min None true (Class false [CISpace false])) rest)
    (mkState rp sf cs) accept =
  greedyRun spaceSet (fun y => matcher noFlags rest y accept) min rp sf cs.
Proof.
  cbn [matcher groupsOf].
  rewrite (repeatMatcher_greedy _ spaceSet) by
    (try (intros; reflexivity); unfold repeatFuel; cbn [suf]; lia).
  reflexivity.
Qed.

(** After the separator: optional white space and the rest. *)
Lemma spacesRest_sound (min : nat) (rp sf : jsstring) (cs : list (nat * jsstring))
  (z : MatchState) :
  matcher noFlags (Seq (Quant min None true (Class false [CISpace false])) restToEnd)
    (mkState rp sf cs) accept = Some z ->
  exists w t, sf = w ++ t /\ Forall (fun a => isWhiteSpace a = true) w /\
              min <= List.length w /\ t <> [] /\ Forall (fun a => dotSet a = true) t /\
              suf z = [] /\ caps z = setCap 2 t cs.
Proof.
  rewrite spaces_greedy. intros H.
  destruct (greedyRun_sound _ _ _ _ _ _ _ H) as (w & t & -> & Hw & Hl & Hc).
  destruct (restToEnd_sound _ _ _ _ Hc) as (Hne & Ht & ->).
  exists w, t. repeat split; try assumption. now apply Forall_spaceSet.
Qed.

Lemma spacesRest_complete (min : nat) (rp w t : jsstring) (cs : list (nat * jsstring)) :
  Forall (fun a => isWhiteSpace a = true) w -> min <= List.length w ->
  headClean isWhiteSpace t -> t <> [] -> Forall (fun a => dotSet a = true) t ->
  matcher noFlags (Seq (Quant min None true (Class false [CISpace false])) restToEnd)
    (mkState rp (w ++ t) cs) accept =
  Some (mkState (rev t ++ rev w ++ rp) [] (setCap 2 t cs)).
Proof.
  intros Hw Hl Hh Hne Ht. rewrite spaces_greedy.
  apply greedyRun_first; [now apply Forall_spaceSet | | exact Hl |].
  - destruct t as [|b t]; [exact I|]. cbn [headClean] in *. now rewrite spaceSet_spec.
  - now apply restToEnd_complete.
Qed.

Lemma johnnyTail_sound (rp sf : jsstring) (cs : list (nat * jsstring)) (z : MatchState) :
  matcher noFlags johnnyTail (mkState rp sf cs) accept = Some z ->
  exists w1 w2 t,
    sf = w1 ++ 45%N :: w2 ++ t /\
    Forall (fun a => isWhiteSpace a = true) w1 /\ Forall (fun a => isWhiteSpace a = true) w2 /\
    t <> [] /\ Forall (fun a => dotSet a = true) t /\
    suf z = [] /\ caps z = setCap 2 t cs.
Proof.
  unfold johnnyTail, spaces0. rewrite spaces_greedy. intros H.
  destruct (greedyRun_sound _ _ _ _ _ _ _ H) as (w1 & r & -> & Hw1 & _ & Hc).
  change (matcher noFlags (Seq (Chr 45) (Seq spaces0 restToEnd))
            (mkState (rev w1 ++ rp) r cs) accept = Some z) in Hc.
  cbn [matcher] in Hc. unfold step in Hc. cbn [suf rpre caps] in Hc.
  destruct r as [|b r]; [discriminate|].
  cbn [canon ignoreCase noFlags] in Hc.
  destruct (N.eqb_spec b 45) as [->|]; [|discriminate].
  change (matcher noFlags (Seq (Quant 0 None true (Class false [CISpace false])) restToEnd)
            (mkState (45%N :: rev w1 ++ rp) r cs) accept = Some z) in Hc.
  destruct (spacesRest_sound _ _ _ _ _ Hc) as (w2 & t & -> & Hw2 & _ & Hne & Ht & Hs & Hcaps).
  exists w1, w2, t. repeat split; try assumption. now apply Forall_spaceSet.
Qed.

Lemma johnnyTail_complete (rp w1 w2 t : jsstring) (cs : list (nat * jsstring)) :
  Forall (fun a => isWhiteSpace a = true) w1 -> Forall (fun a => isWhiteSpace a = true) w2 ->
  headClean isWhiteSpace t -> t <> [] -> Forall (fun a => dotSet a = true) t ->
  matcher noFlags johnnyTail (mkState rp (w1 ++ 45%N :: w2 ++ t) cs) accept =
  Some (mkState (rev t ++ rev w2 ++ 45%N :: rev w1 ++ rp) [] (setCap 2 t cs)).
Proof.
  intros Hw1 Hw2 Hh Hne Ht.
  unfold johnnyTail, spaces0. rewrite spaces_greedy.
  apply greedyRun_first; [now apply Forall_spaceSet | reflexivity | lia |].
  change (matcher noFlags (Seq (Chr 45) (Seq spaces0 restToEnd))
            (mkState (rev w1 ++ rp) (45%N :: w2 ++ t) cs) accept =
          Some (mkState (rev t ++ rev w2 ++ 45%N :: rev w1 ++ rp) [] (setCap 2 t cs))).
  cbn [matcher]. unfold step. cbn [suf rpre caps canon ignoreCase noFlags].
  rewrite N.eqb_refl.
  change (matcher noFlags (Seq (Quant 0 None true (Class false [CISpace false])) restToEnd)
            (mkState (45%N :: rev w1 ++ rp) (w2 ++ t) cs) accept =
          Some (mkState (rev t ++ rev w2 ++ 45%N :: rev w1 ++ rp) [] (setCap 2 t cs))).
  apply spacesRest_complete; try assumption. lia.
Qed.

(** [\.?] before [rest]: a dot is taken when there is one and [rest]
    matches after it. *)
Lemma optionalDot (rest : regex) (rp sf : jsstring) (cs : list (nat * jsstring)) :
  matcher noFlags (Seq (Quant 0 (Some 1) true (Chr 46)) rest) (mkState rp sf cs) accept =
  match sf with
  | a :: sf' =>
      if (a =? 46)%N
      then orElse (matcher noFlags rest (mkState (a :: rp) sf' cs) accept)
                  (fun _ => matcher noFlags rest (mkState rp sf cs) accept)
      else matcher noFlags rest (mkState rp sf cs) accept
  | [] => matcher noFlags rest (mkState rp sf cs) accept
  end.
Proof.
  cbn [matcher groupsOf]. unfold repeatFuel. cbn [suf Nat.add].
  cbn [repeatMatcher Nat.eqb negb andb rpre suf caps]. rewrite clearCaps_nil.
  unfold step. cbn [suf rpre caps canon ignoreCase noFlags].
  destruct sf as [|a sf']; [reflexivity|].
  destruct (a =? 46)%N; [|reflexivity].
  cbn [List.length]. replace (List.length sf' =? S (List.length sf')) with false
    by (symmetry; apply Nat.eqb_neq; lia).
  cbn [repeatMatcher option_map Nat.pred]. reflexivity.
Qed.

Lemma simpleTail_sound (rp sf : jsstring) (cs : list (nat * jsstring)) (z : MatchState) :
  matcher noFlags simpleTail (mkState rp sf cs) accept = Some z ->
  exists dot w t,
    sf = dot ++ w ++ t /\ (dot = [] \/ dot = [46%N]) /\
    w <> [] /\ Forall (fun a => isWhiteSpace a = true) w /\
    t <> [] /\ Forall (fun a => dotSet a = true) t /\
    suf z = [] /\ caps z = setCap 2 t cs.
Proof.
  unfold simpleTail, spaces1. rewrite optionalDot. intros H.
  assert (Hplain : forall rp' sf', matcher noFlags
             (Seq (Quant 1 None true (Class false [CISpace false])) restToEnd)
             (mkState rp' sf' cs) accept = Some z ->
           exists w t, sf' = w ++ t /\ w <> [] /\ Forall (fun a => isWhiteSpace a = true) w /\
                       t <> [] /\ Forall (fun a => dotSet a = true) t /\
                       suf z = [] /\ caps z = setCap 2 t cs).
  { intros rp' sf' K.
    destruct (spacesRest_sound _ _ _ _ _ K) as (w & t & -> & Hw & Hl & Hne & Ht & Hs & Hc).
    exists w, t. repeat split; try assumption. destruct w; [cbn in Hl; lia | discriminate]. }
  destruct sf as [|a sf'].
  - destruct (Hplain _ _ H) as (w & t & E & R). exists [], w, t. split; [exact E|]. split; [now left | exact R].
  - destruct (N.eqb_spec a 46) as [->|Hn].
    + destruct (matcher noFlags _ (mkState (46%N :: rp) sf' cs) accept) as [z'|] eqn:E1;
        cbn [orElse] in H.
      * injection H as ->. destruct (Hplain _ _ E1) as (w & t & -> & R).
        exists [46%N], w, t. split; [reflexivity|]. split; [now right | exact R].
      * destruct (Hplain _ _ H) as (w & t & E & R). exists [], w, t.
        split; [exact E|]. split; [now left | exact R].
    + destruct (Hplain _ _ H) as (w & t & E & R). exists [], w, t.
      split; [exact E|]. split; [now left | exact R].
Qed.

Lemma simpleTail_complete (rp w t : jsstring) (cs : list (nat * jsstring)) :
  w <> [] -> Forall (fun a => isWhiteSpace a = true) w ->
  headClean isWhiteSpace t -> t <> [] -> Forall (fun a => dotSet a = true) t ->
  matcher noFlags simpleTail (mkState rp (w ++ t) cs) accept =
  Some (mkState (rev t ++ rev w ++ rp) [] (setCap 2 t cs)).
Proof.
  intros Hne Hw Hh Ht Hd. unfold simpleTail, spaces1. rewrite optionalDot.
  destruct w as [|a w]; [congruence|]. cbn [app].
  inversion Hw as [|? ? Ha Hw']; subst.
  replace (a =? 46)%N with false by (clear - Ha; char_fact).
  apply (spacesRest_complete 1 rp (a :: w) t cs); try assumption. cbn; lia.
Qed.

(** The digits in front. *)
Lemma prefixed_greedy (tail : regex) (input : jsstring) :
  matcher noFlags (prefixed tail) (mkState [] input []) accept =
  greedyRun digitSet
    (fun y => matcher noFlags tail
                (mkState (rpre y) (suf y)
                   (setCap 1 (consumed (mkState [] input []) y) (caps y))) accept)
    1 [] input [].
Proof.
  unfold prefixed, digits1. cbn [matcher atBol rpre groupsOf].
  rewrite (repeatMatcher_greedy _ digitSet) by
    (try (intros; reflexivity); unfold repeatFuel; cbn [suf]; lia).
  reflexivity.
Qed.

Lemma prefixed_sound (tail : regex) (input : jsstring) (z : MatchState) :
  matcher noFlags (prefixed tail) (mkState [] input []) accept = Some z ->
  exists d r, input = d ++ r /\ d <> [] /\ Forall (fun a => isDigit a = true) d /\
              matcher noFlags tail (mkState (rev d) r [(1, d)]) accept = Some z.
Proof.
  rewrite prefixed_greedy. intros H.
  destruct (greedyRun_sound _ _ _ _ _ _ _ H) as (d & r & -> & Hd & Hl & Hc).
  cbn [rpre suf caps] in Hc. rewrite consumed_app in Hc. rewrite app_nil_r in Hc.
  exists d, r. repeat split; try assumption.
  - destruct d; [cbn in Hl; lia | discriminate].
  - now apply Forall_digitSet.
Qed.

Lemma prefixed_complete (tail : regex) (d r : jsstring) (z : MatchState) :
  d <> [] -> Forall (fun a => isDigit a = true) d -> headClean isDigit r ->
  matcher noFlags tail (mkState (rev d) r [(1, d)]) accept = Some z ->
  matcher noFlags (prefixed tail) (mkState [] (d ++ r) []) accept = Some z.
Proof.
  intros Hne Hd Hr H. rewrite prefixed_greedy.
  apply greedyRun_first; [now apply Forall_digitSet | | destruct d; [congruence | cbn; lia] |].
  - destruct r as [|b r]; [exact I|]. cbn [headClean] in *. now rewrite digitSet_spec.
  - cbn [rpre suf caps]. rewrite consumed_app, app_nil_r. exact H.
Qed.

Lemma prefixed_none (tail : regex) (input : jsstring) :
  (forall d r, input = d ++ r -> Forall (fun a => isDigit a = true) d ->
               matcher noFlags tail (mkState (rev d) r [(1, d)]) accept = None) ->
  matcher noFlags (prefixed tail) (mkState [] input []) accept = None.
Proof.
  intros H. rewrite prefixed_greedy. apply greedyRun_none.
  intros d r -> Hd. cbn [rpre suf caps]. rewrite consumed_app, app_nil_r.
  apply H; [reflexivity | now apply Forall_digitSet].
Qed.

Lemma prefixed_no_digit (tail : regex) (input : jsstring) :
  headClean isDigit input ->
  matcher noFlags (prefixed tail) (mkState [] input []) accept = None.
Proof.
  intros H. rewrite prefixed_greedy.
  destruct input as [|a s]; [reflexivity|]. cbn [headClean] in H.
  cbn [greedyRun Nat.eqb]. now rewrite digitSet_spec, H.
Qed.

Definition johnnyRegExp : RegExp := literal "^(\d+)\s*-\s*(.+)$" "".
Definition simpleRegExp : RegExp := literal "^(\d+)\.?\s+(.+)$" "".

Lemma johnny_literal :
  johnnyRegExp = mkRegExp (lit "^(\d+)\s*-\s*(.+)$") noFlags (prefixed johnnyTail) [None; None].
Proof. reflexivity. Qed.

Lemma simple_literal :
  simpleRegExp = mkRegExp (lit "^(\d+)\.?\s+(.+)$") noFlags (prefixed simpleTail) [None; None].
Proof. reflexivity. Qed.

Lemma exec_prefixed (src : jsstring) (tail : regex) (gs : list (option jsstring))
  (input : jsstring) :
  exec (mkRegExp src noFlags (prefixed tail) gs) input =
  match matcher noFlags (prefixed tail) (mkState [] input []) accept with
  | Some y => Some (mkMatch [] (firstn (List.length input - List.length (suf y)) input)
                      (suf y) (caps y))
  | None => None
  end.
Proof.
  unfold exec, view. cbn [RegExp.flags unicode noFlags].
  rewrite (search_anchored _ (Seq (Group 1 digits1) tail)) by reflexivity.
  unfold matchAt. cbn [RegExp.flags tree]. fold accept.
  now destruct (matcher noFlags (prefixed tail) (mkState [] input []) accept).
Qed.

(** The outcome of an extraction that found the digits [d] and the rest
    [t]. *)
Definition extracted (d t : jsstring) : NumberPrefixResult :=
  mkNumberPrefixResult (Some d) (trim t) true.

Definition unprefixed (input : jsstring) : NumberPrefixResult :=
  mkNumberPrefixResult None input false.

(** [extractNumberPrefix] in terms of the two matchers. *)
Lemma extractNumberPrefix_cases (input : jsstring) :
  extractNumberPrefix input =
  match matcher noFlags (prefixed johnnyTail) (mkState [] input []) accept with
  | Some y => mkNumberPrefixResult
                (Some (match getCap 1 (caps y) with Some s => s | None => [] end))
                (trim (match getCap 2 (caps y) with Some s => s | None => [] end)) true
  | None =>
      match matcher noFlags (prefixed simpleTail) (mkState [] input []) accept with
      | Some y => mkNumberPrefixResult
                    (Some (match getCap 1 (caps y) with Some s => s | None => [] end))
                    (trim (match getCap 2 (caps y) with Some s => s | None => [] end)) true
      | None => unprefixed input
      end
  end.
Proof.
  unfold extractNumberPrefix. fold johnnyRegExp simpleRegExp.
  rewrite johnny_literal, simple_literal, !exec_prefixed.
  destruct (matcher noFlags (prefixed johnnyTail) (mkState [] input []) accept) as [y|].
  - unfold group. cbn [captures RegExp.flags unview unicode noFlags].
    destruct (getCap 1 (caps y)), (getCap 2 (caps y)); reflexivity.
  - destruct (matcher noFlags (prefixed simpleTail) (mkState [] input []) accept) as [y|];
      [|reflexivity].
    unfold group. cbn [captures RegExp.flags unview unicode noFlags].
    destruct (getCap 1 (caps y)), (getCap 2 (caps y)); reflexivity.
Qed.

Lemma caps_two (d t : jsstring) :
  getCap 1 (setCap 2 t [(1, d)]) = Some d /\ getCap 2 (setCap 2 t [(1, d)]) = Some t.
Proof. split; reflexivity. Qed.

(** The text between the digits and the name. *)
Definition johnnySeparator (sep : jsstring) : Prop :=
  exists w1 w2, sep = w1 ++ 45%N :: w2 /\
                Forall (fun a => isWhiteSpace a = true) w1 /\
                Forall (fun a => isWhiteSpace a = true) w2.

Definition simpleSeparator (sep : jsstring) : Prop :=
  exists dot w, sep = dot ++ w /\ (dot = [] \/ dot = [46%N]) /\ w <> [] /\
                Forall (fun a => isWhiteSpace a = true) w.

Definition noLineTerminator (t : jsstring) : Prop :=
  Forall (fun a => isLineTerminator a = false) t.

Lemma dotSet_noLineTerminator (t : jsstring) :
  Forall (fun a => dotSet a = true) t <-> noLineTerminator t.
Proof.
  unfold noLineTerminator. split; apply Forall_impl; intros a; rewrite dotSet_spec;
    destruct (isLineTerminator a); cbn; congruence.
Qed.

(** X14. A text that does not begin with a digit has no number prefix:
    [extractNumberPrefix] reports no number and returns the text as the
    name, so [stripNumberPrefix] and [normalizeNumberPrefix] return the
    text unchanged, however many digits it holds further on. *)
Theorem extractNumberPrefix_no_leading_digit (input : jsstring) (padLength : option nat) :
  headClean isDigit input ->
  extractNumberPrefix input = unprefixed input /\
  stripNumberPrefix input = input /\
  hasNumberPrefix input = false /\
  normalizeNumberPrefix input padLength = input.
Proof.
  intros H.
  assert (E : extractNumberPrefix input = unprefixed input).
  { rewrite extractNumberPrefix_cases. now rewrite !prefixed_no_digit. }
  unfold stripNumberPrefix, hasNumberPrefix, normalizeNumberPrefix. rewrite E.
  repeat split.
Qed.

Lemma extractNumberPrefix_no_leading_digit_witness :
  stripNumberPrefix (lit "Project 123 - x") = lit "Project 123 - x" /\
  hasNumberPrefix (lit "Project 123 - x") = false.
Proof.
  destruct (extractNumberPrefix_no_leading_digit (lit "Project 123 - x") None eq_refl)
    as (_ & S & H & _).
  split; [exact S | exact H].
Defined.

(** X15. When [extractNumberPrefix] finds a prefix, the text is the
    number, a separator and a rest, in this order: the number is a
    non-empty run of digits at the start; the separator is a hyphen with
    optional white space on both sides or, failing that, an optional dot
    followed by white space; the rest is not empty and holds no line
    terminator; the name returned is the rest, trimmed.  Otherwise no
    number is reported and the name is the text itself. *)
Theorem extractNumberPrefix_shape (input : jsstring) :
  (fullMatch (extractNumberPrefix input) = true /\
   exists d sep t,
     input = d ++ sep ++ t /\
     d <> [] /\ Forall (fun a => isDigit a = true) d /\
     (johnnySeparator sep \/ simpleSeparator sep) /\
     t <> [] /\ noLineTerminator t /\
     extractNumberPrefix input = extracted d t) \/
  (fullMatch (extractNumberPrefix input) = false /\
   extractNumberPrefix input = unprefixed input).
Proof.
  rewrite extractNumberPrefix_cases.
  destruct (matcher noFlags (prefixed johnnyTail) (mkState [] input []) accept) as [y|] eqn:J.
  - left. split; [reflexivity|].
    destruct (prefixed_sound _ _ _ J) as (d & r & -> & Hne & Hd & Ht).
    destruct (johnnyTail_sound _ _ _ _ Ht) as (w1 & w2 & t & -> & Hw1 & Hw2 & Htn & Hdot & _ & Hc).
    exists d, (w1 ++ 45%N :: w2), t. rewrite Hc.
    rewrite <- !app_assoc. cbn [app]. repeat split; try assumption.
    + left. exists w1, w2. repeat split; assumption.
    + now apply dotSet_noLineTerminator.
  - destruct (matcher noFlags (prefixed simpleTail) (mkState [] input []) accept) as [y|] eqn:S.
    + left. split; [reflexivity|].
      destruct (prefixed_sound _ _ _ S) as (d & r & -> & Hne & Hd & Ht).
      destruct (simpleTail_sound _ _ _ _ Ht)
        as (dot & w & t & -> & Hdot & Hwn & Hw & Htn & Hdt & _ & Hc).
      exists d, (dot ++ w), t. rewrite Hc.
      rewrite <- !app_assoc. repeat split; try assumption.
      * right. exists dot, w. repeat split; assumption.
      * now apply dotSet_noLineTerminator.
    + right. split; reflexivity.
Qed.

Lemma space_not_digit (a : N) : isWhiteSpace a = true -> isDigit a = false.
Proof. intros H. char_fact. Qed.

Lemma space_not_hyphen (a : N) : isWhiteSpace a = true -> a <> 45%N.
Proof. intros H E. subst a. discriminate H. Qed.

Lemma digit_not_space (a : N) : isDigit a = true -> isWhiteSpace a = false.
Proof. intros H. char_fact. Qed.

Lemma digit_not_hyphen (a : N) : isDigit a = true -> a <> 45%N.
Proof. intros H E. subst a. discriminate H. Qed.

Lemma extract_johnny (d w1 w2 t : jsstring) :
  d <> [] -> Forall (fun a => isDigit a = true) d ->
  Forall (fun a => isWhiteSpace a = true) w1 -> Forall (fun a => isWhiteSpace a = true) w2 ->
  headClean isWhiteSpace t -> t <> [] -> noLineTerminator t ->
  extractNumberPrefix (d ++ w1 ++ 45%N :: w2 ++ t) = extracted d t.
Proof.
  intros Hne Hd Hw1 Hw2 Hh Ht Hl. rewrite extractNumberPrefix_cases.
  rewrite (prefixed_complete johnnyTail d (w1 ++ 45%N :: w2 ++ t)
             (mkState (rev t ++ rev w2 ++ 45%N :: rev w1 ++ rev d) [] (setCap 2 t [(1, d)]))).
  - reflexivity.
  - exact Hne.
  - exact Hd.
  - destruct w1 as [|a w1]; [reflexivity|]. inversion Hw1; subst. cbn [app headClean].
    now apply space_not_digit.
  - apply johnnyTail_complete; try assumption. now apply dotSet_noLineTerminator.
Qed.

Definition notHyphenFirst (v : jsstring) : Prop :=
  match v with b :: _ => b <> 45%N | [] => True end.

Lemma johnnyTail_none (rp sf : jsstring) (cs : list (nat * jsstring)) :
  (forall u v, sf = u ++ v -> Forall (fun a => isWhiteSpace a = true) u -> notHyphenFirst v) ->
  matcher noFlags johnnyTail (mkState rp sf cs) accept = None.
Proof.
  intros H. unfold johnnyTail, spaces0. rewrite spaces_greedy. apply greedyRun_none.
  intros u v -> Hu. apply Forall_spaceSet in Hu. specialize (H u v eq_refl Hu).
  change (matcher noFlags (Seq (Chr 45) (Seq spaces0 restToEnd))
            (mkState (rev u ++ rp) v cs) accept = None).
  cbn [matcher]. unfold step. cbn [suf rpre caps canon ignoreCase noFlags].
  destruct v as [|b v]; [reflexivity|]. cbn [notHyphenFirst] in H.
  now destruct (N.eqb_spec b 45).
Qed.

Lemma extract_simple (d w t : jsstring) :
  d <> [] -> Forall (fun a => isDigit a = true) d ->
  w <> [] -> Forall (fun a => isWhiteSpace a = true) w ->
  headClean isWhiteSpace t -> notHyphenFirst t -> t <> [] -> noLineTerminator t ->
  extractNumberPrefix (d ++ w ++ t) = extracted d t.
Proof.
  intros Hne Hd Hwn Hw Hh Hy Ht Hl. rewrite extractNumberPrefix_cases.
  assert (Hwd : headClean isDigit (w ++ t)).
  { destruct w as [|a w]; [congruence|]. inversion Hw; subst. cbn [app headClean].
    now apply space_not_digit. }
  rewrite prefixed_none.
  - rewrite (prefixed_complete simpleTail d (w ++ t)
               (mkState (rev t ++ rev w ++ rev d) [] (setCap 2 t [(1, d)])));
      [reflexivity | exact Hne | exact Hd | exact Hwd |].
    apply simpleTail_complete; try assumption. now apply dotSet_noLineTerminator.
  - intros d' r E Hd'.
    destruct (run_split isDigit d (w ++ t) d' r Hd Hwd Hd' E) as (d2 & -> & ->).
    apply johnnyTail_none. intros u v E2 Hu.
    destruct d2 as [|a d2].
    + cbn [app] in E2.
      destruct (run_split isWhiteSpace w t u v Hw Hh Hu E2) as (w3 & -> & ->).
      destruct w3 as [|b w3]; [exact Hy|]. cbn [app notHyphenFirst].
      apply Forall_app in Hw. destruct Hw as [_ Hw]. inversion Hw; subst.
      now apply space_not_hyphen.
    + apply Forall_app in Hd. destruct Hd as [_ Hd]. inversion Hd as [|? ? Ha _]; subst.
      destruct u as [|b u].
      * cbn [app] in E2. subst v. cbn [app notHyphenFirst]. now apply digit_not_hyphen.
      * cbn [app] in E2. injection E2 as <- _. inversion Hu as [|? ? Hb _]; subst.
        rewrite (digit_not_space _ Ha) in Hb. discriminate Hb.
Qed.

(** X16. A number and a name put together by [addNumberPrefix] are
    found again by [extractNumberPrefix], in both formats: the number is
    a non-empty run of digits; the name is not empty, does not begin
    with white space and holds no line terminator, and in the simple
    format it does not begin with a hyphen.  The name comes back
    trimmed. *)
Theorem addNumberPrefix_extracted (name number : jsstring) (format : option PrefixFormat) :
  number <> [] -> Forall (fun a => isDigit a = true) number ->
  name <> [] -> headClean isWhiteSpace name -> noLineTerminator name ->
  (format = Some Simple -> notHyphenFirst name) ->
  extractNumberPrefix (addNumberPrefix name number format) = extracted number name /\
  hasNumberPrefix (addNumberPrefix name number format) = true /\
  stripNumberPrefix (addNumberPrefix name number format) = trim name.
Proof.
  intros Hn Hd Hne Hh Hl Hf.
  assert (E : extractNumberPrefix (addNumberPrefix name number format) = extracted number name).
  { unfold addNumberPrefix. destruct format as [[|]|].
    - apply (extract_johnny number (lit " ") (lit " ") name); try assumption; repeat constructor.
    - apply (extract_simple number (lit " ") name); try assumption;
        [discriminate | repeat constructor | now apply Hf].
    - apply (extract_johnny number (lit " ") (lit " ") name); try assumption; repeat constructor. }
  unfold hasNumberPrefix, stripNumberPrefix. rewrite E. repeat split.
Qed.

Lemma addNumberPrefix_extracted_witness :
  extractNumberPrefix (addNumberPrefix (lit "Projects") (lit "01") None)
    = mkNumberPrefixResult (Some (lit "01")) (lit "Projects") true /\
  stripNumberPrefix (addNumberPrefix (lit "2024 plan") (lit "7") (Some Simple)) = lit "2024 plan".
Proof.
  split.
  - rewrite (proj1 (addNumberPrefix_extracted (lit "Projects") (lit "01") None
                      ltac:(discriminate) ltac:(repeat constructor) ltac:(discriminate)
                      eq_refl ltac:(repeat constructor) ltac:(discriminate))).
    reflexivity.
  - rewrite (proj2 (proj2 (addNumberPrefix_extracted (lit "2024 plan") (lit "7") (Some Simple)
                      ltac:(discriminate) ltac:(repeat constructor) ltac:(discriminate)
                      eq_refl ltac:(repeat constructor) ltac:(intros _; discriminate)))).
    reflexivity.
Defined.

(** ** Normalising a prefix *)

Lemma trim_headClean (s : jsstring) : headClean isWhiteSpace (trim s).
Proof.
  pose proof (trimStart_head (trim s)) as H. unfold trim in H at 1.
  rewrite trimStart_trimEnd in H. exact H.
Qed.

Lemma padStart_digits (d : jsstring) (n : nat) :
  Forall (fun a => isDigit a = true) d ->
  Forall (fun a => isDigit a = true) (padStart d n (ch "0")).
Proof.
  intros H. unfold padStart. apply Forall_app. split; [|exact H].
  induction (n - List.length d) as [|k IH]; cbn [repeat]; constructor; [reflexivity | exact IH].
Qed.

Lemma padStart_idem (d : jsstring) (n : nat) (fill : N) :
  padStart (padStart d n fill) n fill = padStart d n fill.
Proof.
  unfold padStart at 1.
  replace (n - List.length (padStart d n fill)) with 0; [reflexivity|].
  unfold padStart. rewrite length_app, repeat_length. lia.
Qed.

Lemma padStart_nonempty (d : jsstring) (n : nat) (fill : N) :
  d <> [] -> padStart d n fill <> [].
Proof.
  intros H E. unfold padStart in E. apply app_eq_nil in E. tauto.
Qed.

(** The name may be blank: [\s*] then gives back the space it took, and
    [(.+)] captures it. *)
Lemma extract_johnny_blank (d : jsstring) :
  d <> [] -> Forall (fun a => isDigit a = true) d ->
  extractNumberPrefix (d ++ lit " - ") = extracted d (lit " ").
Proof.
  intros Hne Hd. rewrite extractNumberPrefix_cases.
  rewrite (prefixed_complete johnnyTail d (lit " - ")
             (mkState (ch " " :: ch "-" :: ch " " :: rev d) [] (setCap 2 (lit " ") [(1, d)]))).
  - reflexivity.
  - exact Hne.
  - exact Hd.
  - reflexivity.
  - unfold johnnyTail, spaces0. rewrite spaces_greedy.
    apply (greedyRun_first spaceSet _ (lit " ") (lit "- ")); [repeat constructor | reflexivity | cbn; lia |].
    change (matcher noFlags (Seq (Chr 45) (Seq spaces0 restToEnd))
              (mkState (ch " " :: rev d) (lit "- ") [(1, d)]) accept =
            Some (mkState (ch " " :: ch "-" :: ch " " :: rev d) [] (setCap 2 (lit " ") [(1, d)]))).
    cbn [matcher]. unfold step. cbn [suf rpre caps canon ignoreCase noFlags].
    change (matcher noFlags (Seq (Quant 0 None true (Class false [CISpace false])) restToEnd)
              (mkState (ch "-" :: ch " " :: rev d) (lit " ") [(1, d)]) accept =
            Some (mkState (ch " " :: ch "-" :: ch " " :: rev d) [] (setCap 2 (lit " ") [(1, d)]))).
    rewrite spaces_greedy. change (lit " ") with [ch " "].
    cbn [greedyRun Nat.eqb Nat.pred]. change (spaceSet (ch " ")) with true. cbv iota.
    replace (matcher noFlags restToEnd (mkState (ch " " :: ch "-" :: ch " " :: rev d) [] [(1, d)]) accept)
      with (@None MatchState).
    + cbn [orElse]. apply (restToEnd_complete _ [ch " "]); [discriminate | repeat constructor].
    + symmetry. rewrite restToEnd_greedy. reflexivity.
Qed.

Lemma extractNumberPrefix_found (input : jsstring) :
  fullMatch (extractNumberPrefix input) = true ->
  exists d t, d <> [] /\ Forall (fun a => isDigit a = true) d /\ noLineTerminator t /\
              extractNumberPrefix input = extracted d t.
Proof.
  rewrite extractNumberPrefix_cases.
  destruct (matcher noFlags (prefixed johnnyTail) (mkState [] input []) accept) as [y|] eqn:J.
  - intros _. destruct (prefixed_sound _ _ _ J) as (d & r & -> & Hne & Hd & Ht).
    destruct (johnnyTail_sound _ _ _ _ Ht) as (w1 & w2 & t & -> & _ & _ & _ & Hdot & _ & Hc).
    exists d, t. rewrite Hc. repeat split; try assumption. now apply dotSet_noLineTerminator.
  - destruct (matcher noFlags (prefixed simpleTail) (mkState [] input []) accept) as [y|] eqn:S.
    + intros _. destruct (prefixed_sound _ _ _ S) as (d & r & -> & Hne & Hd & Ht).
      destruct (simpleTail_sound _ _ _ _ Ht) as (dot & w & t & -> & _ & _ & _ & _ & Hdt & _ & Hc).
      exists d, t. rewrite Hc. repeat split; try assumption. now apply dotSet_noLineTerminator.
    + discriminate.
Qed.

Lemma extractNumberPrefix_normal (d t : jsstring) :
  d <> [] -> Forall (fun a => isDigit a = true) d -> noLineTerminator t ->
  extractNumberPrefix (d ++ lit " - " ++ trim t) = extracted d (trim t).
Proof.
  intros Hne Hd Hl. destruct (trim t) as [|a s] eqn:E.
  - exact (extract_johnny_blank d Hne Hd).
  - rewrite <- E.
    apply (extract_johnny d (lit " ") (lit " ") (trim t)); try assumption.
    + repeat constructor.
    + repeat constructor.
    + apply trim_headClean.
    + congruence.
    + now apply Forall_trim.
Qed.

(** X17. [normalizeNumberPrefix] is idempotent and keeps the name: a
    text without a prefix is returned as it is; one with a prefix
    becomes the number, padded with zeros to the pad length, then
    [" - "] and the trimmed name, and this text has the padded number
    as its prefix and the same name. *)
Theorem normalizeNumberPrefix_idempotent (input : jsstring) (padLength : option nat) :
  normalizeNumberPrefix (normalizeNumberPrefix input padLength) padLength
    = normalizeNumberPrefix input padLength /\
  stripNumberPrefix (normalizeNumberPrefix input padLength) = stripNumberPrefix input /\
  hasNumberPrefix (normalizeNumberPrefix input padLength) = hasNumberPrefix input /\
  (forall d, NumberTransformers.number (extractNumberPrefix input) = Some d ->
     normalizeNumberPrefix input padLength =
       padStart d (match padLength with Some n => n | None => 2 end) (ch "0")
         ++ lit " - " ++ stripNumberPrefix input).
Proof.
  destruct (fullMatch (extractNumberPrefix input)) eqn:F.
  - destruct (extractNumberPrefix_found input F) as (d & t & Hne & Hd & Hl & E).
    set (n := match padLength with Some n => n | None => 2 end).
    assert (N1 : normalizeNumberPrefix input padLength
                 = padStart d n (ch "0") ++ lit " - " ++ trim t).
    { unfold normalizeNumberPrefix. rewrite E. cbn [extracted fullMatch NumberTransformers.number negb orb].
      destruct d as [|a d]; [congruence|]. reflexivity. }
    assert (E2 : extractNumberPrefix (padStart d n (ch "0") ++ lit " - " ++ trim t)
                 = extracted (padStart d n (ch "0")) (trim t)).
    { apply extractNumberPrefix_normal;
        [now apply padStart_nonempty | now apply padStart_digits | exact Hl]. }
    split; [|split; [|split]].
    + rewrite N1. unfold normalizeNumberPrefix at 1. rewrite E2.
      cbn [extracted fullMatch NumberTransformers.number name negb orb]. fold n.
      pose proof (padStart_nonempty d n (ch "0") Hne) as Hp.
      destruct (padStart d n (ch "0")) as [|a p] eqn:P; [congruence|].
      cbn [present orb]. rewrite <- P, padStart_idem, trim_idem. reflexivity.
    + unfold stripNumberPrefix. rewrite N1, E2, E. cbn [extracted name]. apply trim_idem.
    + unfold hasNumberPrefix. rewrite N1, E2, E. reflexivity.
    + intros d' Hd'. rewrite E in Hd'. cbn [extracted NumberTransformers.number] in Hd'. injection Hd' as <-.
      rewrite N1. unfold stripNumberPrefix. rewrite E. reflexivity.
  - assert (N0 : normalizeNumberPrefix input padLength = input).
    { unfold normalizeNumberPrefix. now rewrite F. }
    rewrite !N0. repeat split.
    intros d Hd. exfalso. revert F Hd. rewrite extractNumberPrefix_cases.
    destruct (matcher noFlags (prefixed johnnyTail) (mkState [] input []) accept);
      [discriminate|].
    destruct (matcher noFlags (prefixed simpleTail) (mkState [] input []) accept);
      discriminate.
Qed.

(* ================================================================= *)
(** * Paths, segment by segment *)

Lemma split_nonempty (sep : N) (s : jsstring) : split sep s <> [].
Proof.
  destruct s as [|c s]; cbn [split]; [discriminate|].
  destruct (c =? sep)%N; [discriminate|]. destruct (split sep s); discriminate.
Qed.

Lemma split_app_sep (sep : N) (a b : jsstring) :
  split sep (a ++ sep :: b) = split sep a ++ split sep b.
Proof.
  induction a as [|c a IH]; cbn [app split].
  - now rewrite N.eqb_refl.
  - rewrite IH. destruct (c =? sep)%N; [reflexivity|].
    pose proof (split_nonempty sep a) as Hne.
    destruct (split sep a) as [|seg segs]; [congruence | reflexivity].
Qed.

Lemma split_single (sep : N) (a : jsstring) :
  Forall (fun c => c <> sep) a -> split sep a = [a].
Proof.
  induction 1 as [|c a Hc _ IH]; [reflexivity|]. cbn [split].
  destruct (N.eqb_spec c sep); [congruence|]. now rewrite IH.
Qed.

Lemma join_app (sep : jsstring) (l1 l2 : list jsstring) :
  l1 <> [] -> l2 <> [] -> join sep (l1 ++ l2) = join sep l1 ++ sep ++ join sep l2.
Proof.
  intros H1 H2. induction l1 as [|p l1 IH]; [congruence|].
  destruct l1 as [|q l1].
  - cbn [app]. now rewrite join_cons.
  - change ((p :: q :: l1) ++ l2) with (p :: (q :: l1) ++ l2).
    rewrite join_cons by discriminate. rewrite IH by discriminate.
    rewrite (join_cons sep p (q :: l1)) by discriminate. now rewrite <- !app_assoc.
Qed.

Lemma join_split (sep : N) (s : jsstring) : join [sep] (split sep s) = s.
Proof.
  induction s as [|c s IH]; [reflexivity|]. cbn [split].
  pose proof (split_nonempty sep s) as Hne.
  destruct (N.eqb_spec c sep) as [->|Hc].
  - rewrite join_cons by exact Hne. now rewrite IH.
  - destruct (split sep s) as [|seg segs]; [congruence|].
    destruct segs as [|seg' segs].
    + cbn [join] in *. now rewrite IH.
    + rewrite <- IH. reflexivity.
Qed.

Lemma applyCaseTransformToPath_map (f : N -> N) (input transformType : jsstring) :
  f (ch "/") = ch "/" ->
  (forall segment, applyCaseTransform segment transformType = map f segment) ->
  applyCaseTransformToPath input transformType = map f input.
Proof.
  intros Hf H. unfold applyCaseTransformToPath.
  rewrite (map_ext _ (map f)) by exact H.
  rewrite <- (join_split (ch "/") input) at 2. rewrite map_join. cbn [map]. now rewrite Hf.
Qed.

(** X18. [applyCaseTransformToPath] works segment by segment: the path
    made of two paths with a slash between them is transformed into the
    two transformed paths with a slash between them, and a text without
    slash is transformed as by [applyCaseTransform].  For [lowercase],
    [UPPERCASE] and [none] the result is that of the transform on the
    whole path. *)
Theorem applyCaseTransformToPath_by_segment (a b transformType : jsstring) :
  applyCaseTransformToPath (a ++ ch "/" :: b) transformType
    = applyCaseTransformToPath a transformType ++ ch "/" :: applyCaseTransformToPath b transformType /\
  (Forall (fun c => c <> ch "/") a ->
   applyCaseTransformToPath a transformType = applyCaseTransform a transformType) /\
  applyCaseTransformToPath a (lit "lowercase") = toLowerCase a /\
  applyCaseTransformToPath a (lit "UPPERCASE") = toUpperCase a /\
  applyCaseTransformToPath a (lit "none") = a.
Proof.
  split; [|split; [|split; [|split]]].
  - unfold applyCaseTransformToPath. rewrite split_app_sep, map_app.
    rewrite join_app.
    + reflexivity.
    + intros E. apply map_eq_nil in E. exact (split_nonempty _ _ E).
    + intros E. apply map_eq_nil in E. exact (split_nonempty _ _ E).
  - intros H. unfold applyCaseTransformToPath. now rewrite (split_single _ _ H).
  - apply (applyCaseTransformToPath_map lowerChar); reflexivity.
  - apply (applyCaseTransformToPath_map upperChar); reflexivity.
  - rewrite (applyCaseTransformToPath_map (fun c => c)); [apply map_id | reflexivity |].
    intros s. now rewrite map_id.
Qed.

(* ================================================================= *)
(** * Capture groups *)

Lemma matchAll_nil (rx : RegExp) (input : jsstring) :
  matchAll rx input = [] <-> test rx input = false.
Proof.
  unfold matchAll, test. cbn [matchLoop].
  destruct (search rx [] (view (RegExp.flags rx) input)) as [[sk m]|]; split;
    intros H; try discriminate; reflexivity.
Qed.

Lemma exec_none (rx : RegExp) (input : jsstring) :
  exec rx input = None <-> test rx input = false.
Proof.
  unfold exec, test.
  destruct (search rx [] (view (RegExp.flags rx) input)) as [[sk m]|]; split;
    intros H; try discriminate; reflexivity.
Qed.

Lemma matchArray_none (rx : RegExp) (input : jsstring) :
  matchArray rx input = None <-> test rx input = false.
Proof.
  unfold matchArray. destruct (global (RegExp.flags rx)).
  - rewrite <- matchAll_nil. destruct (matchAll rx input); split; intros H;
      try discriminate; reflexivity.
  - rewrite <- exec_none. destruct (exec rx input); split; intros H;
      try discriminate; reflexivity.
Qed.

(** X19. [extractCaptureGroups] answers null exactly when
    [matchesPattern] answers false, with the same pattern and flags.
    When it answers, the array of matches is not empty; without the [g]
    flag it holds the matched text and one entry for each capture group
    of the pattern, and with the [g] flag there is no [groups] object. *)
Theorem extractCaptureGroups_null_iff (input pattern : jsstring) (flags : option jsstring) :
  (extractCaptureGroups input pattern flags = None <->
   matchesPattern input pattern flags = false) /\
  (forall found, extractCaptureGroups input pattern flags = Some found ->
     cgMatches found <> [] /\
     forall regex, RegExp_new pattern flags = Ok regex ->
       (global (RegExp.flags regex) = false ->
        List.length (cgMatches found) = S (List.length (groups regex)) /\
        exists m, exec regex input = Some m /\
                  hd None (cgMatches found) = Some (unview (RegExp.flags regex) (matched m))) /\
       (global (RegExp.flags regex) = true -> cgGroups found = None)).
Proof.
  unfold extractCaptureGroups, matchesPattern.
  destruct (RegExp_new pattern flags) as [regex|msg]; [|split; [tauto | discriminate]].
  split.
  - rewrite <- matchArray_none. destruct (matchArray regex input); split; intros H;
      try discriminate; reflexivity.
  - intros found H. unfold matchArray in H.
    destruct (global (RegExp.flags regex)) eqn:G.
    + destruct (matchAll regex input) as [|m ms] eqn:M; [discriminate|].
      injection H as <-. cbn [cgMatches cgGroups]. split; [discriminate|].
      intros regex' E. injection E as <-. rewrite G. split; [discriminate | reflexivity].
    + destruct (exec regex input) as [m|] eqn:X; [|discriminate].
      injection H as <-. cbn [cgMatches cgGroups]. split; [discriminate|].
      intros regex' E. injection E as <-. rewrite G. split; [|discriminate].
      intros _. split.
      * cbn [List.length]. now rewrite length_map, length_seq.
      * exists m. rewrite X. split; reflexivity.
Qed.

(* ================================================================= *)
(** * Globs without double stars *)

(** The characters that [globToRegex] escapes. *)
Definition isRegexSpecial (a : N) : bool :=
  existsb (N.eqb a) (lit ".+^${}()|[]\").

(** What [globToRegex] writes for one character of the glob. *)
Definition globChar (a : N) : jsstring :=
  if isRegexSpecial a then [ch "\"; a]
  else if isStar a then lit "[^/]*"
  else if isQuestion a then lit "."
  else [a].

(** No two stars in a row; [prev] tells whether the character before is
    a star. *)
Fixpoint starPairFree (prev : bool) (s : jsstring) : bool :=
  match s with
  | [] => true
  | a :: t => if isStar a then negb prev && starPairFree true t else starPairFree false t
  end.

Definition noDoubleStar (s : jsstring) : Prop := starPairFree false s = true.

Definition noNul (s : jsstring) : Prop := Forall (fun a => a <> 0%N) s.

Lemma escape_literal :
  literal "[.+^${}()|[\]\\]" "g" =
  mkRegExp (lit "[.+^${}()|[\]\\]") globalFlags
    (Class false [CIChar 46; CIChar 43; CIChar 94; CIChar 36; CIChar 123; CIChar 125;
                  CIChar 40; CIChar 41; CIChar 124; CIChar 91; CIChar 93; CIChar 92]) [].
Proof. reflexivity. Qed.

Lemma oneChar_escape : oneChar (literal "[.+^${}()|[\]\\]" "g") isRegexSpecial (fun _ => []).
Proof.
  rewrite escape_literal. intros rp sf. unfold matchAt.
  destruct sf as [|a sf]; [reflexivity|].
  cbn [RegExp.flags tree matcher step suf rpre caps].
  replace (classMem globalFlags false
             [CIChar 46; CIChar 43; CIChar 94; CIChar 36; CIChar 123; CIChar 125;
              CIChar 40; CIChar 41; CIChar 124; CIChar 91; CIChar 93; CIChar 92] a)
    with (isRegexSpecial a) by reflexivity.
  destruct (isRegexSpecial a); [|reflexivity].
  cbn [suf caps]. now rewrite firstn_one.
Qed.

(** Replacing the characters of a set by a text computed from each. *)
Lemma replace_oneChar (rx : RegExp) (P : N -> bool) (cs : N -> list (nat * jsstring))
  (s template : jsstring) (f : N -> jsstring) :
  RegExp.flags rx = globalFlags -> oneChar rx P cs ->
  (forall rp a sf, substitute rx (mkMatch rp [a] sf (cs a)) template = f a) ->
  replace rx s template = flat_map (fun a => if P a then f a else [a]) s.
Proof.
  intros Hf H1 Hs. unfold replace, replaceWith, view, unview. rewrite Hf.
  cbn [unicode global globalFlags].
  apply oneChar_replaceLoop with (cs := cs); [now rewrite Hf | exact H1 | exact Hs | lia].
Qed.

Lemma search_nowhere (rx : RegExp) (Q : jsstring -> Prop) :
  sticky (RegExp.flags rx) = false ->
  (forall a s, Q (a :: s) -> Q s) ->
  (forall rp s, Q s -> matchAt rx rp s = None) ->
  forall s rp, Q s -> search rx rp s = None.
Proof.
  intros Hst Ht Hm. induction s as [|a s IH]; intros rp Hq.
  - apply search_miss_nil; [exact Hst | now apply Hm].
  - rewrite search_miss_cons; [|exact Hst | now apply Hm].
    rewrite IH; [reflexivity | exact (Ht _ _ Hq)].
Qed.

(** An expression that matches nowhere leaves the text as it is. *)
Lemma replace_nowhere (rx : RegExp) (Q : jsstring -> Prop) (s template : jsstring) :
  RegExp.flags rx = globalFlags ->
  (forall a s, Q (a :: s) -> Q s) ->
  (forall rp s, Q s -> matchAt rx rp s = None) ->
  Q s -> replace rx s template = s.
Proof.
  intros Hf Ht Hm Hq. unfold replace, replaceWith, view, unview. rewrite Hf.
  cbn [unicode global globalFlags replaceLoop].
  rewrite (search_nowhere rx Q); try assumption; [reflexivity | now rewrite Hf].
Qed.

Lemma starPairFree_weaken (s : jsstring) :
  starPairFree true s = true -> starPairFree false s = true.
Proof.
  destruct s as [|a s]; [reflexivity|]. cbn [starPairFree].
  destruct (isStar a); [discriminate | exact (fun H => H)].
Qed.

Lemma noDoubleStar_tail (a : N) (s : jsstring) : noDoubleStar (a :: s) -> noDoubleStar s.
Proof.
  unfold noDoubleStar. cbn [starPairFree]. destruct (isStar a); [|exact (fun H => H)].
  cbn [negb andb]. apply starPairFree_weaken.
Qed.

Lemma noDoubleStar_pair (s : jsstring) : noDoubleStar (42%N :: 42%N :: s) -> False.
Proof. unfold noDoubleStar. cbn. discriminate. Qed.

Lemma noDoubleStar_pair_after (a : N) (s : jsstring) :
  noDoubleStar (a :: 42%N :: 42%N :: s) -> False.
Proof. intros H. apply noDoubleStar_tail in H. exact (noDoubleStar_pair s H). Qed.

(** The four expressions for [**] need two stars in a row. *)
Ltac needs_star_pair :=
  let rp := fresh "rp" in
  let s := fresh "s" in
  let H := fresh "H" in
  intros rp s H; unfold matchAt;
  cbn [RegExp.flags tree matcher suf rpre caps atBol atEol canon ignoreCase globalFlags];
  destruct s as [|? [|? [|? ?]]]; unfold step; cbn [suf rpre caps]; cbn beta;
  repeat match goal with
         | |- context [(?a =? ?k)%N] => destruct (N.eqb_spec a k); subst
         end;
  first [ reflexivity
        | exfalso; first [ exact (noDoubleStar_pair _ H) | exact (noDoubleStar_pair_after _ _ H) ]
        | destruct rp; reflexivity ].

Lemma midPath_literal :
  literal "\/\*\*\/" "g" =
  mkRegExp (lit "\/\*\*\/") globalFlags (Seq (Chr 47) (Seq (Chr 42) (Seq (Chr 42) (Chr 47)))) [].
Proof. reflexivity. Qed.

Lemma endPath_literal :
  literal "\/\*\*$" "g" =
  mkRegExp (lit "\/\*\*$") globalFlags (Seq (Chr 47) (Seq (Chr 42) (Seq (Chr 42) Eol))) [].
Proof. reflexivity. Qed.

Lemma startPath_literal :
  literal "^\*\*\/" "g" =
  mkRegExp (lit "^\*\*\/") globalFlags (Seq Bol (Seq (Chr 42) (Seq (Chr 42) (Chr 47)))) [].
Proof. reflexivity. Qed.

Lemma doubleStar_literal :
  literal "\*\*" "g" = mkRegExp (lit "\*\*") globalFlags (Seq (Chr 42) (Chr 42)) [].
Proof. reflexivity. Qed.

Lemma midPath_nowhere (rp s : jsstring) :
  noDoubleStar s -> matchAt (literal "\/\*\*\/" "g") rp s = None.
Proof. rewrite midPath_literal. revert rp s. needs_star_pair. Qed.

Lemma endPath_nowhere (rp s : jsstring) :
  noDoubleStar s -> matchAt (literal "\/\*\*$" "g") rp s = None.
Proof. rewrite endPath_literal. revert rp s. needs_star_pair. Qed.

Lemma startPath_nowhere (rp s : jsstring) :
  noDoubleStar s -> matchAt (literal "^\*\*\/" "g") rp s = None.
Proof. rewrite startPath_literal. revert rp s. needs_star_pair. Qed.

Lemma doubleStar_nowhere (rp s : jsstring) :
  noDoubleStar s -> matchAt (literal "\*\*" "g") rp s = None.
Proof. rewrite doubleStar_literal. revert rp s. needs_star_pair. Qed.

(** The placeholder expressions begin with the NUL character. *)
Lemma placeholder_nowhere (p : jsstring) (r : regex) (rp s : jsstring) :
  placeholderRegExp p = mkRegExp p globalFlags (Seq (Chr 0) r) [] ->
  noNul s -> matchAt (placeholderRegExp p) rp s = None.
Proof.
  intros -> H. unfold matchAt.
  cbn [RegExp.flags tree matcher canon ignoreCase globalFlags]. unfold step at 1.
  cbn [suf rpre caps]. destruct s as [|a s]; [reflexivity|].
  inversion H as [|? ? Ha _]; subst. now destruct (N.eqb_spec a 0).
Qed.

Lemma noNul_tail (a : N) (s : jsstring) : noNul (a :: s) -> noNul s.
Proof. intros H. now inversion H. Qed.

Lemma replace_placeholder (p : jsstring) (r : regex) (s template : jsstring) :
  placeholderRegExp p = mkRegExp p globalFlags (Seq (Chr 0) r) [] ->
  noNul s -> replace (placeholderRegExp p) s template = s.
Proof.
  intros E H. apply (replace_nowhere _ noNul); [now rewrite E | exact noNul_tail | | exact H].
  intros rp s' Hs. now apply (placeholder_nowhere p r).
Qed.

Definition escapeChar (a : N) : jsstring := if isRegexSpecial a then [ch "\"; a] else [a].
Definition starChar (a : N) : jsstring := if isStar a then lit "[^/]*" else [a].
Definition questionChar (a : N) : jsstring := if isQuestion a then lit "." else [a].

Lemma escape_pass (s : jsstring) :
  replace (literal "[.+^${}()|[\]\\]" "g") s (lit "\$&") = flat_map escapeChar s.
Proof.
  apply replace_oneChar with (cs := fun _ => []);
    [reflexivity | exact oneChar_escape | reflexivity].
Qed.

Lemma star_pass (s : jsstring) :
  replace (literal "\*" "g") s (lit "[^/]*") = flat_map starChar s.
Proof.
  apply replace_oneChar with (cs := fun _ => []);
    [reflexivity | exact oneChar_star | reflexivity].
Qed.

Lemma question_pass (s : jsstring) :
  replace (literal "\?" "g") s (lit ".") = flat_map questionChar s.
Proof.
  apply replace_oneChar with (cs := fun _ => []);
    [reflexivity | exact oneChar_question | reflexivity].
Qed.

Lemma special_not_star (a : N) : isRegexSpecial a = true -> isStar a = false.
Proof.
  unfold isStar. destruct (N.eqb_spec a (ch "*")) as [->|]; [discriminate | reflexivity].
Qed.

Lemma special_not_question (a : N) : isRegexSpecial a = true -> isQuestion a = false.
Proof.
  unfold isQuestion. destruct (N.eqb_spec a (ch "?")) as [->|]; [discriminate | reflexivity].
Qed.

Lemma starPairFree_escape (s : jsstring) : forall prev,
  starPairFree prev (flat_map escapeChar s) = starPairFree prev s.
Proof.
  induction s as [|a s IH]; intros prev; [reflexivity|].
  cbn [flat_map]. unfold escapeChar at 1. destruct (isRegexSpecial a) eqn:E.
  - cbn [app starPairFree]. change (isStar (ch "\")) with false. cbv iota.
    rewrite (special_not_star a E). apply IH.
  - cbn [app starPairFree]. now rewrite !IH.
Qed.

Lemma three_passes (s : jsstring) :
  flat_map questionChar (flat_map starChar (flat_map escapeChar s)) = flat_map globChar s.
Proof.
  induction s as [|a s IH]; [reflexivity|].
  cbn [flat_map]. rewrite !flat_map_app, IH. f_equal.
  unfold escapeChar, globChar. destruct (isRegexSpecial a) eqn:E.
  - cbn [flat_map app]. unfold starChar. change (isStar (ch "\")) with false. cbv iota.
    rewrite (special_not_star a E). cbn [flat_map app]. unfold questionChar.
    change (isQuestion (ch "\")) with false. cbv iota.
    now rewrite (special_not_question a E).
  - cbn [flat_map app]. unfold starChar. destruct (isStar a) eqn:S; [reflexivity|].
    cbn [flat_map app]. unfold questionChar. now destruct (isQuestion a).
Qed.

Lemma noNul_flat_map (f : N -> jsstring) (s : jsstring) :
  (forall a, a <> 0%N -> noNul (f a)) -> noNul s -> noNul (flat_map f s).
Proof.
  intros Hf H. induction H as [|a s Ha _ IH]; [constructor|].
  cbn [flat_map]. apply Forall_app. split; [now apply Hf | exact IH].
Qed.

Lemma noNul_globChar (a : N) : a <> 0%N -> noNul (globChar a).
Proof.
  intros Ha. unfold globChar.
  destruct (isRegexSpecial a); [repeat constructor; [discriminate | exact Ha]|].
  destruct (isStar a); [repeat constructor; discriminate|].
  destruct (isQuestion a); repeat constructor; [discriminate | exact Ha].
Qed.

Lemma double_star_passes (s : jsstring) :
  noDoubleStar s ->
  replace (literal "\*\*" "g")
    (replace (literal "^\*\*\/" "g")
       (replace (literal "\/\*\*$" "g")
          (replace (literal "\/\*\*\/" "g") s PATH_SEG_PLACEHOLDER)
          (lit "/" ++ DOUBLE_STAR_PLACEHOLDER))
       START_PATH_SEG_PLACEHOLDER)
    DOUBLE_STAR_PLACEHOLDER = s.
Proof.
  intros H.
  rewrite (replace_nowhere (literal "\/\*\*\/" "g") noDoubleStar s);
    [|reflexivity | exact noDoubleStar_tail | intros; now apply midPath_nowhere | exact H].
  rewrite (replace_nowhere (literal "\/\*\*$" "g") noDoubleStar s);
    [|reflexivity | exact noDoubleStar_tail | intros; now apply endPath_nowhere | exact H].
  rewrite (replace_nowhere (literal "^\*\*\/" "g") noDoubleStar s);
    [|reflexivity | exact noDoubleStar_tail | intros; now apply startPath_nowhere | exact H].
  apply (replace_nowhere (literal "\*\*" "g") noDoubleStar s);
    [reflexivity | exact noDoubleStar_tail | intros; now apply doubleStar_nowhere | exact H].
Qed.

Lemma doubleStarPlaceholder_literal :
  placeholderRegExp DOUBLE_STAR_PLACEHOLDER =
  mkRegExp DOUBLE_STAR_PLACEHOLDER globalFlags
    (Seq (Chr 0) (Seq (Chr 68) (Seq (Chr 79) (Seq (Chr 85) (Seq (Chr 66) (Seq (Chr 76)
      (Seq (Chr 69) (Seq (Chr 83) (Seq (Chr 84) (Seq (Chr 65) (Seq (Chr 82) (Chr 0)))))))))))) [].
Proof. vm_compute. reflexivity. Qed.

Lemma pathSegPlaceholder_literal :
  placeholderRegExp PATH_SEG_PLACEHOLDER =
  mkRegExp PATH_SEG_PLACEHOLDER globalFlags
    (Seq (Chr 0) (Seq (Chr 80) (Seq (Chr 65) (Seq (Chr 84) (Seq (Chr 72) (Seq (Chr 83)
      (Seq (Chr 69) (Seq (Chr 71) (Chr 0))))))))) [].
Proof. vm_compute. reflexivity. Qed.

Lemma startPathSegPlaceholder_literal :
  placeholderRegExp START_PATH_SEG_PLACEHOLDER =
  mkRegExp START_PATH_SEG_PLACEHOLDER globalFlags
    (Seq (Chr 0) (Seq (Chr 83) (Seq (Chr 84) (Seq (Chr 65) (Seq (Chr 82) (Seq (Chr 84)
      (Seq (Chr 80) (Seq (Chr 65) (Seq (Chr 84) (Seq (Chr 72) (Seq (Chr 83) (Seq (Chr 69)
      (Seq (Chr 71) (Chr 0)))))))))))))) [].
Proof. vm_compute. reflexivity. Qed.

Lemma placeholder_passes (s : jsstring) :
  noNul s ->
  replace (placeholderRegExp START_PATH_SEG_PLACEHOLDER)
    (replace (placeholderRegExp PATH_SEG_PLACEHOLDER)
       (replace (placeholderRegExp DOUBLE_STAR_PLACEHOLDER) s (lit ".*"))
       (lit "(?:/[^/]+)*/"))
    (lit "(?:[^/]+/)*") = s.
Proof.
  intros H.
  rewrite (replace_placeholder DOUBLE_STAR_PLACEHOLDER _ s (lit ".*")
             doubleStarPlaceholder_literal H).
  rewrite (replace_placeholder PATH_SEG_PLACEHOLDER _ s (lit "(?:/[^/]+)*/")
             pathSegPlaceholder_literal H).
  exact (replace_placeholder START_PATH_SEG_PLACEHOLDER _ s (lit "(?:[^/]+/)*")
           startPathSegPlaceholder_literal H).
Qed.

(** X20. For a glob without NUL character and without two stars in a
    row, [globToRegex] translates character by character between [^]
    and [$]: each of [. + ^ $ { } ( ) | [ ] \] is escaped with a
    backslash, a star becomes [[^/]*], a question mark becomes [.], and
    every other character is kept. *)
Theorem globToRegex_translates (glob : jsstring) :
  noNul glob -> noDoubleStar glob ->
  globToRegex glob = lit "^" ++ flat_map globChar glob ++ lit "$".
Proof.
  intros Hn Hd. unfold globToRegex. rewrite escape_pass.
  assert (He : noDoubleStar (flat_map escapeChar glob))
    by (unfold noDoubleStar; now rewrite starPairFree_escape).
  rewrite (double_star_passes _ He).
  rewrite star_pass, question_pass, three_passes.
  pose proof (noNul_flat_map globChar glob noNul_globChar Hn) as Hg.
  rewrite (placeholder_passes _ Hg).
  reflexivity.
Qed.

Lemma globToRegex_translates_witness :
  globToRegex (lit "src/*/file?.(md)") = lit "^src/[^/]*/file.\.\(md\)$".
Proof.
  rewrite (globToRegex_translates (lit "src/*/file?.(md)")).
  - reflexivity.
  - repeat constructor; discriminate.
  - reflexivity.
Defined.

(* ================================================================= *)
(** * Emoji, code point by code point *)

(** Unicode scalar values: the code points of well-formed UTF-16 text. *)
Definition isScalar (c : N) : bool :=
  (c <? 0x110000)%N && negb (in_range 0xD800 0xDFFF c).

Definition wellFormed (cps : list N) : Prop := Forall (fun c => isScalar c = true) cps.

Definition guFlags : Flags := mkFlags true false false false true false false.
Definition uFlags : Flags := mkFlags false false false false true false false.

Lemma decode_cons (h : N) (t : jsstring) :
  in_range 0xD800 0xDBFF h = false -> decode (h :: t) = h :: decode t.
Proof. intros H. destruct t as [|l s]; [reflexivity|]. cbn [decode]. now rewrite H. Qed.

Lemma encodeCodePoint_bmp (c : N) :
  isScalar c = true -> (c <? 0x10000)%N = true ->
  encodeCodePoint c = [c] /\ in_range 0xD800 0xDBFF c = false.
Proof.
  intros Hs Hb. unfold encodeCodePoint. rewrite Hb. split; [reflexivity|].
  unfold isScalar, in_range in *.
  destruct (N.leb_spec 0xD800 c), (N.leb_spec c 0xDBFF), (N.leb_spec c 0xDFFF);
    cbn in *; try reflexivity; try lia.
Qed.

Lemma encodeCodePoint_astral (c : N) :
  isScalar c = true -> (c <? 0x10000)%N = false ->
  exists h l, encodeCodePoint c = [h; l] /\
              in_range 0xD800 0xDBFF h = true /\ in_range 0xDC00 0xDFFF l = true /\
              (0x10000 + (h - 0xD800) * 0x400 + (l - 0xDC00))%N = c.
Proof.
  intros Hs Hb. unfold encodeCodePoint. rewrite Hb.
  apply andb_true_iff in Hs. destruct Hs as [Hlt _].
  apply N.ltb_lt in Hlt. apply N.ltb_ge in Hb.
  pose proof (N.div_mod' (c - 0x10000) 0x400) as Hdm.
  pose proof (N.mod_lt (c - 0x10000) 0x400 ltac:(discriminate)) as Hm.
  set (q := ((c - 0x10000) / 0x400)%N) in *. set (r := ((c - 0x10000) mod 0x400)%N) in *.
  assert (Hq : (q < 0x400)%N) by lia.
  exists (0xD800 + q)%N, (0xDC00 + r)%N. split; [reflexivity|].
  unfold in_range. repeat split.
  - apply andb_true_iff. split; apply N.leb_le; lia.
  - apply andb_true_iff. split; apply N.leb_le; lia.
  - lia.
Qed.

(** Well-formed text is read back as the code points it was written
    from. *)
Lemma decode_encode (cps : list N) : wellFormed cps -> decode (encode cps) = cps.
Proof.
  induction 1 as [|c cps Hc _ IH]; [reflexivity|].
  unfold encode in *. cbn [flat_map].
  destruct (c <? 0x10000)%N eqn:Hb.
  - destruct (encodeCodePoint_bmp c Hc Hb) as [-> Hn]. cbn [app].
    now rewrite decode_cons, IH.
  - destruct (encodeCodePoint_astral c Hc Hb) as (h & l & -> & Hh & Hl & E).
    cbn [app decode]. rewrite Hh, Hl. cbn [andb]. now rewrite E, IH.
Qed.

Lemma oneChar_class (src : jsstring) (fl : Flags) (items : list ClassItem) :
  oneChar (mkRegExp src fl (Class false items) []) (classMem fl false items) (fun _ => []).
Proof.
  intros rp sf. unfold matchAt. destruct sf as [|a sf]; [reflexivity|].
  cbn [RegExp.flags tree matcher step suf rpre caps]. unfold step. cbn [suf rpre caps].
  destruct (classMem fl false items a); [|reflexivity].
  cbn [suf caps]. now rewrite firstn_one.
Qed.

(** With the flags [gu], replacing the code points of a set by nothing
    filters them out of the code points of the text. *)
Lemma replace_unicode_strip (rx : RegExp) (P : N -> bool) (cs : N -> list (nat * jsstring))
  (s : jsstring) :
  RegExp.flags rx = guFlags -> oneChar rx P cs ->
  replace rx s [] = encode (filter (fun a => negb (P a)) (decode s)).
Proof.
  intros Hf H1. unfold replace, replaceWith, view, unview. rewrite Hf.
  cbn [unicode global guFlags]. f_equal.
  rewrite oneChar_replaceLoop with (P := P) (cs := cs) (f := fun _ => []).
  - induction (decode s) as [|a l IH]; [reflexivity|]. cbn [flat_map filter].
    destruct (P a); cbn [negb app]; now rewrite IH.
  - now rewrite Hf.
  - exact H1.
  - reflexivity.
  - lia.
Qed.

(** One pass of [stripEmoji]: the expression and the range it removes. *)
Record StripPass := mkStripPass { passSource : string; passLow : N; passHigh : N }.

Definition stripPasses : list StripPass :=
  [ mkStripPass "[\u{1F600}-\u{1F64F}]" 0x1F600 0x1F64F;
    mkStripPass "[\u{1F300}-\u{1F5FF}]" 0x1F300 0x1F5FF;
    mkStripPass "[\u{1F680}-\u{1F6FF}]" 0x1F680 0x1F6FF;
    mkStripPass "[\u{1F1E0}-\u{1F1FF}]" 0x1F1E0 0x1F1FF;
    mkStripPass "[\u{2600}-\u{26FF}]" 0x2600 0x26FF;
    mkStripPass "[\u{2700}-\u{27BF}]" 0x2700 0x27BF;
    mkStripPass "[\u{1F900}-\u{1F9FF}]" 0x1F900 0x1F9FF;
    mkStripPass "[\u{1FA00}-\u{1FA6F}]" 0x1FA00 0x1FA6F;
    mkStripPass "[\u{1FA70}-\u{1FAFF}]" 0x1FA70 0x1FAFF;
    mkStripPass "[\u{FE00}-\u{FE0F}]" 0xFE00 0xFE0F;
    mkStripPass "[\u{1F000}-\u{1F02F}]" 0x1F000 0x1F02F;
    mkStripPass "[\u{2B00}-\u{2BFF}]" 0x2B00 0x2BFF ].

Definition inPass (c : N) (p : StripPass) : bool := in_range (passLow p) (passHigh p) c.

(** The code points that [stripEmoji] removes. *)
Definition isStrippedEmoji (c : N) : bool := existsb (inPass c) stripPasses.

Definition passCompiles (p : StripPass) : Prop :=
  literal (passSource p) "gu" =
  mkRegExp (lit (passSource p)) guFlags (Class false [CIRange (passLow p) (passHigh p)]) [].

Lemma stripPasses_compile : Forall passCompiles stripPasses.
Proof. repeat (constructor; [vm_compute; reflexivity|]). constructor. Qed.

Definition runPass (s : jsstring) (p : StripPass) : jsstring :=
  replace (literal (passSource p) "gu") s [].

Lemma stripEmoji_passes (input : jsstring) :
  stripEmoji input =
  trim (replace (literal "\s+" "g") (fold_left runPass stripPasses input) (lit " ")).
Proof.
  unfold stripEmoji, stripPasses, runPass. cbn [fold_left passSource]. reflexivity.
Qed.

Lemma wellFormed_filter (f : N -> bool) (cps : list N) :
  wellFormed cps -> wellFormed (filter f cps).
Proof.
  intros H. apply Forall_forall. intros c Hc. apply filter_In in Hc.
  exact (proj1 (Forall_forall _ _) H c (proj1 Hc)).
Qed.

Lemma filter_filter {A} (f g : A -> bool) (l : list A) :
  filter g (filter f l) = filter (fun a => f a && g a) l.
Proof.
  induction l as [|a l IH]; [reflexivity|]. cbn [filter].
  destruct (f a); cbn [filter andb]; [destruct (g a)|]; now rewrite IH.
Qed.

Lemma runPass_filter (p : StripPass) (cps : list N) :
  passCompiles p -> wellFormed cps ->
  runPass (encode cps) p = encode (filter (fun c => negb (inPass c p)) cps).
Proof.
  intros Hp Hw. unfold runPass. rewrite Hp.
  rewrite (replace_unicode_strip
             (mkRegExp (lit (passSource p)) guFlags
                (Class false [CIRange (passLow p) (passHigh p)]) [])
             _ _ _ eq_refl (oneChar_class _ guFlags _)).
  rewrite (decode_encode _ Hw). f_equal. apply filter_ext. intros c.
  unfold inPass, classMem, setMem. cbn [ignoreCase guFlags existsb itemSet xorb].
  now rewrite orb_false_r.
Qed.

Lemma runPasses_filter (passes : list StripPass) : forall cps,
  Forall passCompiles passes -> wellFormed cps ->
  fold_left runPass passes (encode cps) =
  encode (filter (fun c => negb (existsb (inPass c) passes)) cps).
Proof.
  induction passes as [|p passes IH]; intros cps Hp Hw; cbn [fold_left existsb].
  - f_equal. symmetry. apply forallb_filter_id. apply forallb_forall. now intros.
  - inversion Hp as [|? ? Hp1 Hp2]; subst.
    rewrite (runPass_filter p cps Hp1 Hw).
    rewrite (IH _ Hp2 (wellFormed_filter _ _ Hw)), filter_filter.
    f_equal. apply filter_ext. intros c. now rewrite negb_orb.
Qed.

Lemma scalar_space_bmp (c : N) : isWhiteSpace c = true -> encodeCodePoint c = [c].
Proof.
  intros H. unfold encodeCodePoint.
  destruct (N.ltb_spec c 0x10000) as [_|Hc]; [reflexivity|]. exfalso. char_fact.
Qed.

Lemma surrogate_not_space (c : N) : in_range 0xD800 0xDFFF c = true -> isWhiteSpace c = false.
Proof. intros H. char_fact. Qed.

Lemma encode_app (a b : list N) : encode (a ++ b) = encode a ++ encode b.
Proof. apply flat_map_app. Qed.

Lemma encode_nil_iff (cps : list N) : encode cps = [] <-> cps = [].
Proof.
  split; [|now intros ->]. destruct cps as [|c cps]; [reflexivity|].
  unfold encode. cbn [flat_map]. unfold encodeCodePoint.
  destruct (c <? 0x10000)%N; discriminate.
Qed.

Lemma flush_encode (cur : list N) : flush (encode cur) = map encode (flush cur).
Proof.
  destruct cur as [|c cur]; [reflexivity|].
  destruct (encode (c :: cur)) eqn:E.
  - apply (proj1 (encode_nil_iff _)) in E. discriminate.
  - cbn [flush map]. now rewrite E.
Qed.

(** Words of the text and words of its code points. *)
Lemma wordsFrom_encode (cps : list N) : wellFormed cps -> forall cur,
  wordsFrom isWhiteSpace (encode cur) (encode cps) = map encode (wordsFrom isWhiteSpace cur cps).
Proof.
  induction 1 as [|c cps Hc _ IH]; intros cur.
  - apply flush_encode.
  - change (encode (c :: cps)) with (encodeCodePoint c ++ encode cps). cbn [wordsFrom].
    destruct (isWhiteSpace c) eqn:W.
    + rewrite (scalar_space_bmp c W). cbn [app wordsFrom]. rewrite W.
      rewrite map_app, flush_encode. f_equal. exact (IH []).
    + rewrite <- IH, encode_app. change (encode [c]) with (encodeCodePoint c ++ []).
      rewrite app_nil_r.
      destruct (c <? 0x10000)%N eqn:Hb.
      * destruct (encodeCodePoint_bmp c Hc Hb) as [-> _]. cbn [app wordsFrom]. now rewrite W.
      * destruct (encodeCodePoint_astral c Hc Hb) as (h & l & -> & Hh & Hl & _).
        cbn [app wordsFrom].
        assert (Wh : isWhiteSpace h = false).
        { apply surrogate_not_space. unfold in_range in *.
          apply andb_true_iff in Hh. destruct Hh as [A B].
          apply N.leb_le in A, B. apply andb_true_iff. split; apply N.leb_le; lia. }
        assert (Wl : isWhiteSpace l = false).
        { apply surrogate_not_space. unfold in_range in *.
          apply andb_true_iff in Hl. destruct Hl as [A B].
          apply N.leb_le in A, B. apply andb_true_iff. split; apply N.leb_le; lia. }
        rewrite Wh, Wl. now rewrite <- app_assoc.
Qed.

(** The code points that are left by [stripEmoji]. *)
Definition strippedCodePoints (cps : list N) : list N :=
  join [ch " "] (wordsOf isWhiteSpace (filter (fun c => negb (isStrippedEmoji c)) cps)).

Lemma stripEmoji_encode (cps : list N) :
  wellFormed cps -> stripEmoji (encode cps) = encode (strippedCodePoints cps).
Proof.
  intros Hw. rewrite stripEmoji_passes.
  rewrite (runPasses_filter stripPasses cps stripPasses_compile Hw).
  fold isStrippedEmoji.
  rewrite (replace_run (literal "\s+" "g")
             (classMem globalFlags false [CISpace false]) _ (lit " ") eq_refl
             (runOf_step (lit "\s+") globalFlags (Class false [CISpace false]) _
                eq_refl (fun _ _ => eq_refl)) plain_space).
  assert (E : forall x, collapse (classMem globalFlags false [CISpace false]) (lit " ") x
                        = collapse isWhiteSpace (lit " ") x).
  { intros x. unfold collapse. apply collapseFrom_ext. intros a.
    cbv [classMem setMem ignoreCase globalFlags existsb itemSet xorb].
    now rewrite orb_false_r. }
  rewrite E, trim_collapse. unfold wordsOf, strippedCodePoints.
  change (@nil N) with (encode []) at 1.
  rewrite (wordsFrom_encode _ (wellFormed_filter _ _ Hw) []).
  symmetry. unfold encode at 1. rewrite flat_map_join. reflexivity.
Qed.

(** X21. On well-formed text, given by its code points, [stripEmoji]
    removes exactly the code points of its twelve ranges and nothing
    else; what is left is cut into words at white space, and the words
    are joined by single spaces. *)
Theorem stripEmoji_code_points (cps : list N) :
  wellFormed cps ->
  stripEmoji (encode cps) =
    join (lit " ") (map encode
      (wordsOf isWhiteSpace (filter (fun c => negb (isStrippedEmoji c)) cps))) /\
  (existsb isStrippedEmoji cps = false ->
   stripEmoji (encode cps) = join (lit " ") (wordsOf isWhiteSpace (encode cps))).
Proof.
  intros Hw. rewrite (stripEmoji_encode cps Hw). unfold strippedCodePoints.
  split.
  - unfold encode at 1. rewrite flat_map_join. reflexivity.
  - intros Hn.
    assert (E : filter (fun c => negb (isStrippedEmoji c)) cps = cps).
    { apply forallb_filter_id. apply forallb_forall. intros c Hc.
      destruct (isStrippedEmoji c) eqn:S; [|reflexivity].
      assert (X : existsb isStrippedEmoji cps = true) by (apply existsb_exists; eauto).
      congruence. }
    rewrite E. unfold wordsOf.
    change (wordsFrom isWhiteSpace [] (encode cps))
      with (wordsFrom isWhiteSpace (encode []) (encode cps)).
    rewrite (wordsFrom_encode _ Hw []).
    unfold encode at 1. rewrite flat_map_join. reflexivity.
Qed.

Lemma stripEmoji_code_points_witness :
  stripEmoji (encode [0x1F4C1; 32; 80; 0x2B07; 0xFE0F; 32; 32; 81])%N = lit "P Q".
Proof.
  rewrite (proj1 (stripEmoji_code_points [0x1F4C1; 32; 80; 0x2B07; 0xFE0F; 32; 32; 81]%N
                    ltac:(repeat constructor))).
  reflexivity.
Defined.

(** ** Detecting emoji *)

Definition detectedRanges : list (N * N) :=
  [ (0x1F600, 0x1F64F); (0x1F300, 0x1F5FF); (0x1F680, 0x1F6FF); (0x1F1E0, 0x1F1FF);
    (0x2600, 0x26FF); (0x2700, 0x27BF); (0x1F900, 0x1F9FF); (0x1FA00, 0x1FA6F);
    (0x1FA70, 0x1FAFF); (0x2B00, 0x2BFF) ]%N.

(** The code points that [containsEmoji] and [extractEmoji] look for. *)
Definition isDetectedEmoji (c : N) : bool :=
  existsb (fun r => in_range (fst r) (snd r) c) detectedRanges.

Definition detectedClass : list ClassItem :=
  map (fun r => CIRange (fst r) (snd r)) detectedRanges.

Definition containsEmojiSource : string :=
  "[\u{1F600}-\u{1F64F}\u{1F300}-\u{1F5FF}\u{1F680}-\u{1F6FF}\u{1F1E0}-\u{1F1FF}\u{2600}-\u{26FF}\u{2700}-\u{27BF}\u{1F900}-\u{1F9FF}\u{1FA00}-\u{1FA6F}\u{1FA70}-\u{1FAFF}\u{2B00}-\u{2BFF}]".

Lemma containsEmoji_literal :
  literal containsEmojiSource "u" =
  mkRegExp (lit containsEmojiSource) uFlags (Class false detectedClass) [].
Proof. vm_compute. reflexivity. Qed.

Lemma detectedClass_mem (fl : Flags) (c : N) :
  ignoreCase fl = false -> classMem fl false detectedClass c = isDetectedEmoji c.
Proof.
  intros H. unfold classMem, setMem. rewrite H. cbn [xorb].
  unfold detectedClass, isDetectedEmoji.
  induction detectedRanges as [|r rs IH]; [reflexivity|].
  cbn [map existsb itemSet]. now rewrite IH.
Qed.

Lemma oneChar_search (rx : RegExp) (P : N -> bool) (cs : N -> list (nat * jsstring)) :
  sticky (RegExp.flags rx) = false -> oneChar rx P cs ->
  forall s rp,
    match search rx rp s with Some _ => true | None => false end = existsb P s.
Proof.
  intros Hst H1. induction s as [|a s IH]; intros rp.
  - rewrite search_miss_nil; [reflexivity | exact Hst | apply H1].
  - pose proof (H1 rp (a :: s)) as Ha. cbv iota in Ha. cbn [existsb]. destruct (P a).
    + now rewrite (search_hit rx _ _ _ Ha).
    + rewrite (search_miss_cons rx Hst _ _ _ Ha). cbn [orb]. rewrite <- (IH (a :: rp)).
      now destruct (search rx (a :: rp) s) as [[sk m]|].
Qed.

Lemma containsEmoji_decode (s : jsstring) :
  containsEmoji s = existsb isDetectedEmoji (decode s).
Proof.
  unfold containsEmoji. fold containsEmojiSource. rewrite containsEmoji_literal.
  unfold test, view. cbn [RegExp.flags unicode uFlags].
  rewrite (oneChar_search (mkRegExp (lit containsEmojiSource) uFlags (Class false detectedClass) [])
             _ _ eq_refl (oneChar_class (lit containsEmojiSource) uFlags detectedClass)).
  induction (decode s) as [|a l IH]; [reflexivity|]. cbn [existsb].
  now rewrite IH, detectedClass_mem.
Qed.

Lemma detected_is_stripped (c : N) : isDetectedEmoji c = true -> isStrippedEmoji c = true.
Proof.
  unfold isDetectedEmoji, isStrippedEmoji. intros H.
  apply existsb_exists in H. destruct H as [r [Hr Hc]].
  assert (Hp : exists p, In p stripPasses /\ passLow p = fst r /\ passHigh p = snd r).
  { assert (Hall : forallb (fun r => existsb (fun p => (passLow p =? fst r)%N &&
                                                       (passHigh p =? snd r)%N) stripPasses)
                     detectedRanges = true) by reflexivity.
    pose proof (proj1 (forallb_forall _ _) Hall r Hr) as Hex.
    apply existsb_exists in Hex. destruct Hex as [p [Hin Hp]].
    apply andb_true_iff in Hp. destruct Hp as [Hlo Hhi].
    apply N.eqb_eq in Hlo, Hhi. now exists p. }
  destruct Hp as (p & Hin & Hlo & Hhi).
  apply existsb_exists. exists p. split; [exact Hin|]. unfold inPass. now rewrite Hlo, Hhi.
Qed.

Lemma strippedCodePoints_clean (cps : list N) :
  wellFormed cps ->
  Forall (fun c => isScalar c = true /\ isStrippedEmoji c = false) (strippedCodePoints cps).
Proof.
  intros Hw. unfold strippedCodePoints. apply Forall_join.
  - repeat constructor.
  - apply wordsFrom_in; [constructor|]. apply Forall_forall. intros c Hc.
    apply filter_In in Hc. destruct Hc as [Hin Hk]. split.
    + exact (proj1 (Forall_forall _ _) Hw c Hin).
    + now destruct (isStrippedEmoji c).
Qed.

(** X22. On well-formed text, given by its code points, [containsEmoji]
    tells whether a code point lies in one of its ten ranges; every such
    code point is one that [stripEmoji] removes, so [containsEmoji]
    answers false on the result of [stripEmoji]. *)
Theorem containsEmoji_code_points (cps : list N) :
  wellFormed cps ->
  containsEmoji (encode cps) = existsb isDetectedEmoji cps /\
  (forall c, isDetectedEmoji c = true -> isStrippedEmoji c = true) /\
  containsEmoji (stripEmoji (encode cps)) = false.
Proof.
  intros Hw. split; [|split].
  - now rewrite containsEmoji_decode, decode_encode.
  - exact detected_is_stripped.
  - rewrite (stripEmoji_encode cps Hw), containsEmoji_decode.
    pose proof (strippedCodePoints_clean cps Hw) as Hc.
    rewrite decode_encode by (eapply Forall_impl; [|exact Hc]; now intros c [H _]).
    destruct (existsb isDetectedEmoji (strippedCodePoints cps)) eqn:E; [|reflexivity].
    apply existsb_exists in E. destruct E as [c [Hin Hd]].
    destruct (proj1 (Forall_forall _ _) Hc c Hin) as [_ Hs].
    rewrite (detected_is_stripped c Hd) in Hs. discriminate.
Qed.

Lemma containsEmoji_code_points_witness :
  containsEmoji (encode [0x1F4C1; 32; 80])%N = true /\
  containsEmoji (stripEmoji (encode [0x1F4C1; 32; 80]%N)) = false.
Proof.
  destruct (containsEmoji_code_points [0x1F4C1; 32; 80]%N ltac:(repeat constructor))
    as (A & _ & B).
  split; [rewrite A; reflexivity | exact B].
Defined.

(** ** Extracting emoji *)

Definition extractEmojiSource : string :=
  "([\u{1F600}-\u{1F64F}\u{1F300}-\u{1F5FF}\u{1F680}-\u{1F6FF}\u{1F1E0}-\u{1F1FF}\u{2600}-\u{26FF}\u{2700}-\u{27BF}\u{1F900}-\u{1F9FF}\u{1FA00}-\u{1FA6F}\u{1FA70}-\u{1FAFF}\u{2B00}-\u{2BFF}][\u{FE00}-\u{FE0F}]?)".

Definition isVariationSelector (c : N) : bool := in_range 0xFE00 0xFE0F c.

Definition extractTree : regex :=
  Group 1 (Seq (Class false detectedClass)
               (Quant 0 (Some 1) true (Class false [CIRange 0xFE00 0xFE0F]))).

Definition extractRegExp : RegExp :=
  mkRegExp (lit extractEmojiSource) guFlags extractTree [None].

Lemma extractEmoji_literal : literal extractEmojiSource "gu" = extractRegExp.
Proof. vm_compute. reflexivity. Qed.

Lemma variationSelector_mem (c : N) :
  classMem guFlags false [CIRange 0xFE00 0xFE0F] c = isVariationSelector c.
Proof. unfold classMem, setMem. cbn. now rewrite orb_false_r. Qed.

(** A match of the expression: a detected code point, with the
    variation selector that follows it, if any. *)
Lemma extract_matchAt (rp sf : jsstring) :
  matchAt extractRegExp rp sf =
  match sf with
  | c :: t =>
      if isDetectedEmoji c then
        match t with
        | v :: t' =>
            if isVariationSelector v
            then Some (mkMatch rp [c; v] t' [(1, [c; v])])
            else Some (mkMatch rp [c] t [(1, [c])])
        | [] => Some (mkMatch rp [c] [] [(1, [c])])
        end
      else None
  | [] => None
  end.
Proof.
  unfold matchAt, extractRegExp, extractTree.
  cbn [RegExp.flags tree matcher groupsOf app]. unfold repeatFuel. cbn [suf Nat.add].
  destruct sf as [|c t]; [reflexivity|].
  unfold step at 1. cbn [suf rpre caps].
  rewrite (detectedClass_mem guFlags c eq_refl).
  destruct (isDetectedEmoji c); [|reflexivity].
  cbn [repeatMatcher Nat.eqb negb andb rpre suf caps]. rewrite clearCaps_nil.
  unfold step. cbn [suf rpre caps].
  destruct t as [|v t'].
  - cbn [orElse rpre suf caps List.length Nat.sub firstn]. unfold consumed. cbn [rpre List.length].
    replace (S (List.length rp) - List.length rp) with 1 by lia. reflexivity.
  - rewrite variationSelector_mem. destruct (isVariationSelector v).
    + cbn [List.length]. replace (List.length t' =? S (List.length t')) with false
        by (symmetry; apply Nat.eqb_neq; lia).
      cbn [repeatMatcher option_map Nat.pred orElse rpre suf caps]. unfold consumed.
      cbn [rpre List.length].
      replace (S (S (List.length rp)) - List.length rp) with 2 by lia.
      replace (S (S (List.length t')) - List.length t') with 2 by lia. reflexivity.
    + cbn [orElse rpre suf caps List.length]. unfold consumed. cbn [rpre List.length].
      replace (S (List.length rp) - List.length rp) with 1 by lia.
      replace (S (S (List.length t')) - S (List.length t')) with 1 by lia. reflexivity.
Qed.

(** The emoji of a list of code points, each with its variation
    selector. *)
Fixpoint emojiRuns (cps : list N) : list (list N) :=
  match cps with
  | [] => []
  | c :: t =>
      if isDetectedEmoji c then
        match t with
        | v :: t' => if isVariationSelector v then [c; v] :: emojiRuns t' else [c] :: emojiRuns t
        | [] => [[c]]
        end
      else emojiRuns t
  end.

Lemma matchLoop_emojiRuns (n : nat) : forall l fuel rp,
  List.length l <= n -> List.length l < fuel ->
  map matched (matchLoop fuel extractRegExp rp l) = emojiRuns l.
Proof.
  induction n as [|n IH]; intros l fuel rp Hn Hf.
  - destruct l; [|cbn in Hn; lia].
    rewrite matchLoop_nil; [reflexivity | reflexivity | apply extract_matchAt].
  - destruct l as [|c t].
    { rewrite matchLoop_nil; [reflexivity | reflexivity | apply extract_matchAt]. }
    destruct fuel as [|fuel]; [lia|]. cbn [List.length] in Hn, Hf.
    pose proof (extract_matchAt rp (c :: t)) as Hm. cbv iota in Hm. cbn [emojiRuns].
    destruct (isDetectedEmoji c).
    + destruct t as [|v t'].
      * rewrite (matchLoop_hit extractRegExp _ _ _ _ Hm).
        cbn [matched rest rbefore rev app map].
        rewrite matchLoop_nil; [reflexivity | reflexivity | apply extract_matchAt].
      * destruct (isVariationSelector v);
          rewrite (matchLoop_hit extractRegExp _ _ _ _ Hm);
          cbn [matched rest rbefore rev app map]; f_equal; apply IH;
          cbn [List.length] in *; lia.
    + rewrite (matchLoop_miss extractRegExp eq_refl _ _ _ _ Hm). apply IH; lia.
Qed.

Lemma extractEmoji_runs (s : jsstring) :
  extractEmoji s = map encode (emojiRuns (decode s)).
Proof.
  unfold extractEmoji. fold extractEmojiSource. rewrite extractEmoji_literal.
  unfold matchAll, view, unview. cbn [RegExp.flags extractRegExp unicode guFlags].
  rewrite <- (matchLoop_emojiRuns (List.length (decode s)) (decode s)
                (S (List.length (decode s))) []) by lia.
  now rewrite map_map.
Qed.

Lemma variationSelector_not_detected (v : N) :
  isVariationSelector v = true -> isDetectedEmoji v = false.
Proof.
  unfold isVariationSelector, isDetectedEmoji, detectedRanges, in_range. cbn [existsb fst snd].
  intros H. apply andb_true_iff in H. destruct H as [A B]. apply N.leb_le in A, B.
  repeat match goal with
         | |- context [(?a <=? ?b)%N] => destruct (N.leb_spec a b); try lia
         end; reflexivity.
Qed.

Lemma emojiRuns_length (n : nat) : forall l,
  List.length l <= n ->
  List.length (emojiRuns l) = List.length (filter isDetectedEmoji l).
Proof.
  induction n as [|n IH]; intros l Hn.
  - destruct l; [reflexivity | cbn in Hn; lia].
  - destruct l as [|c t]; [reflexivity|]. cbn [List.length] in Hn.
    cbn [emojiRuns filter]. destruct (isDetectedEmoji c); [|apply IH; lia].
    destruct t as [|v t']; [reflexivity|]. cbn [List.length] in *.
    destruct (isVariationSelector v) eqn:V.
    + cbn [filter List.length]. rewrite (variationSelector_not_detected v V).
      f_equal. apply IH. lia.
    + cbn [List.length]. f_equal. apply IH. cbn [List.length]. lia.
Qed.

(** X23. [extractEmoji] returns, in the order of the text, one entry
    for each code point that [containsEmoji] looks for: the code point
    itself, followed by the variation selector when one comes next.  It
    returns the empty array exactly when [containsEmoji] answers
    false. *)
Theorem extractEmoji_entries (s : jsstring) :
  extractEmoji s = map encode (emojiRuns (decode s)) /\
  List.length (extractEmoji s) = List.length (filter isDetectedEmoji (decode s)) /\
  (extractEmoji s = [] <-> containsEmoji s = false).
Proof.
  assert (L : List.length (extractEmoji s) = List.length (filter isDetectedEmoji (decode s))).
  { rewrite extractEmoji_runs, length_map. now apply (emojiRuns_length (List.length (decode s))). }
  split; [apply extractEmoji_runs|]. split; [exact L|].
  rewrite containsEmoji_decode. split.
  - intros E. rewrite E in L. cbn [List.length] in L.
    destruct (existsb isDetectedEmoji (decode s)) eqn:X; [|reflexivity].
    apply existsb_exists in X. destruct X as [c [Hin Hd]].
    assert (Hf : In c (filter isDetectedEmoji (decode s))) by (apply filter_In; now split).
    destruct (filter isDetectedEmoji (decode s)); [contradiction | discriminate].
  - intros X. destruct (extractEmoji s) as [|e es]; [reflexivity|].
    cbn [List.length] in L.
    destruct (filter isDetectedEmoji (decode s)) as [|c cs] eqn:F; [discriminate|].
    assert (Hin : In c (filter isDetectedEmoji (decode s))) by (rewrite F; now left).
    apply filter_In in Hin. destruct Hin as [Hin Hd].
    assert (Y : existsb isDetectedEmoji (decode s) = true) by (apply existsb_exists; eauto).
    congruence.
Qed.

(* ================================================================= *)
(** * What [isTransformReversible] promises *)

Lemma reversible_inert (config : TransformConfig) :
  isTransformReversible config = (true, []) ->
  caseTransform config <> Some TitleCase ->
  inert config = true.
Proof.
  unfold isTransformReversible, inert.
  destruct (emojiHandling config) as [[]|];
    destruct (numberPrefixHandling config) as [[]|];
    destruct (caseTransform config) as [[]|];
    destruct (customTransforms config) as [[|t ts]|];
    intros H Hc; try discriminate H; try congruence; reflexivity.
Qed.

Lemma stripInvalidTagChars_clean (s : jsstring) :
  Forall (fun a => isInvalidTagChar a = false) (stripInvalidTagChars s).
Proof.
  rewrite stripInvalidTagChars_filter. apply Forall_forall. intros a Ha.
  apply filter_In in Ha. destruct Ha as [_ Ha]. now destruct (isInvalidTagChar a).
Qed.

Lemma stripInvalidTagChars_keeps (s : jsstring) :
  Forall (fun a => isInvalidTagChar a = false) s -> stripInvalidTagChars s = s.
Proof.
  intros H. rewrite stripInvalidTagChars_filter. apply forallb_filter_id.
  apply forallb_forall. intros a Ha.
  now rewrite (proj1 (Forall_forall _ _) H a Ha).
Qed.

(** X24. For a configuration that [isTransformReversible] reports as
    reversible without any warning, and that does not ask for Title
    Case, the pipeline only trims and removes the characters a tag
    cannot hold.  Going from a folder to its tag and back gives the
    folder again exactly when the folder text has no white space at
    either end and none of these characters; going to the tag a second
    time always gives the same tag. *)
Theorem reversible_round_trip (config : TransformConfig) (input : jsstring) :
  isTransformReversible config = (true, []) ->
  caseTransform config <> Some TitleCase ->
  folderToTag input config = trim (stripInvalidTagChars (trim input)) /\
  tagToFolder input config = trim input /\
  (tagToFolder (folderToTag input config) config = input <->
   trim input = input /\ Forall (fun a => isInvalidTagChar a = false) input) /\
  folderToTag (tagToFolder (folderToTag input config) config) config
    = folderToTag input config.
Proof.
  intros Hr Hc. pose proof (reversible_inert config Hr Hc) as Hi.
  assert (T : forall x, tagToFolder x config = trim x).
  { intros x. unfold tagToFolder. rewrite applyTransformPipeline_staged.
    cbn [isTagTransform isTrue]. now rewrite (stagedText_inert x config Hi), trim_idem. }
  assert (F : forall x, folderToTag x config = trim (stripInvalidTagChars (trim x))).
  { intros x. unfold folderToTag. rewrite applyTransformPipeline_staged.
    cbn [isTagTransform isTrue]. now rewrite (stagedText_inert x config Hi). }
  split; [apply F|]. split; [apply T|]. split.
  - rewrite T, F, trim_idem. split.
    + intros E. split.
      * rewrite <- E at 1. now rewrite trim_idem.
      * rewrite <- E. apply Forall_trim. apply stripInvalidTagChars_clean.
    + intros [Et Ec]. rewrite Et, (stripInvalidTagChars_keeps _ Ec). exact Et.
  - rewrite T, !F, !trim_idem.
    rewrite (stripInvalidTagChars_keeps (trim (stripInvalidTagChars (trim input)))).
    + now rewrite trim_idem.
    + apply Forall_trim. apply stripInvalidTagChars_clean.
Qed.

Lemma reversible_round_trip_witness :
  folderToTag (lit " Notes v1.2 ") (mkTransformConfig None None None None) = lit "Notes v12" /\
  tagToFolder (folderToTag (lit "Notes") (mkTransformConfig None None None None))
    (mkTransformConfig None None None None) = lit "Notes".
Proof.
  pose proof (reversible_round_trip (mkTransformConfig None None None None)) as H.
  split.
  - destruct (H (lit " Notes v1.2 ") eq_refl ltac:(discriminate)) as (F & _).
    rewrite F. vm_compute. reflexivity.
  - destruct (H (lit "Notes") eq_refl ltac:(discriminate)) as (_ & _ & R & _).
    apply R. split; [reflexivity | repeat constructor].
Defined.

(* ================================================================= *)
(** * camelCase and PascalCase *)

Definition camelRegExp : RegExp :=
  mkRegExp (lit "[\s_\-]+(.)") globalFlags
    (Seq (Quant 1 None true (Class false [CISpace false; CIChar 95; CIChar 45]))
         (Group 1 Dot)) [None].

Lemma camel_literal : literal "[\s_\-]+(.)" "g" = camelRegExp.
Proof. vm_compute. reflexivity. Qed.

Definition firstCharRegExp : RegExp :=
  mkRegExp (lit "^(.)") noFlags (Seq Bol (Group 1 Dot)) [None].

Lemma firstChar_literal : literal "^(.)" "" = firstCharRegExp.
Proof. vm_compute. reflexivity. Qed.

Lemma camelClass_spec (a : N) :
  classMem globalFlags false [CISpace false; CIChar 95; CIChar 45] a = wordSeparator a.
Proof.
  unfold classMem, setMem, wordSeparator.
  cbn [ignoreCase globalFlags existsb itemSet xorb].
  change (ch "-") with 45%N. change (ch "_") with 95%N.
  destruct (isWhiteSpace a), (a =? 95)%N, (a =? 45)%N; reflexivity.
Qed.

Lemma separator_step (x : MatchState) (k : Continuation) :
  step x (classMem globalFlags false [CISpace false; CIChar 95; CIChar 45]) k
  = step x wordSeparator k.
Proof. unfold step. destruct (suf x) as [|a s]; [reflexivity|]. now rewrite camelClass_spec. Qed.

Lemma camel_greedy (rp sf : jsstring) :
  matcher (RegExp.flags camelRegExp) (tree camelRegExp) (mkState rp sf []) (fun y => Some y) =
  greedyRun wordSeparator
    (fun y => matcher globalFlags (Group 1 Dot) y (fun z => Some z)) 1 rp sf [].
Proof.
  cbn [RegExp.flags tree camelRegExp matcher groupsOf].
  rewrite (repeatMatcher_greedy _ wordSeparator);
    [reflexivity | intros; apply separator_step | unfold repeatFuel; cbn [suf]; lia].
Qed.

Lemma separator_not_terminator (a : N) : wordSeparator a = false -> isLineTerminator a = false.
Proof.
  unfold wordSeparator. intros H. apply orb_false_iff in H. destruct H as [H _].
  apply orb_false_iff in H. destruct H as [H _]. clear - H. char_fact.
Qed.

Lemma camel_matchAt_run (rp u rest : jsstring) (a : N) :
  u <> [] -> Forall (fun c => wordSeparator c = true) u -> wordSeparator a = false ->
  matchAt camelRegExp rp (u ++ a :: rest) = Some (mkMatch rp (u ++ [a]) rest [(1, [a])]).
Proof.
  intros Hne Hu Ha. unfold matchAt. rewrite camel_greedy.
  rewrite (greedyRun_first wordSeparator _ u (a :: rest) 1 rp []
             (mkState (a :: rev u ++ rp) rest [(1, [a])])).
  - cbn [suf caps]. replace (u ++ a :: rest) with ((u ++ [a]) ++ rest)
      by (now rewrite <- app_assoc).
    now rewrite firstn_app_length.
  - exact Hu.
  - exact Ha.
  - destruct u; [congruence | cbn; lia].
  - cbn [matcher]. unfold step. cbn [suf rpre caps].
    unfold dotMem. cbn [dotAll globalFlags orb].
    rewrite (separator_not_terminator a Ha). cbn [negb rpre suf caps].
    change (a :: rev u ++ rp) with (rev [a] ++ (rev u ++ rp)).
    now rewrite consumed_app.
Qed.

Lemma camel_matchAt_none (rp sf : jsstring) :
  headClean wordSeparator sf -> matchAt camelRegExp rp sf = None.
Proof.
  intros H. unfold matchAt. rewrite camel_greedy.
  destruct sf as [|a s]; [reflexivity|]. cbn [headClean] in H.
  cbn [greedyRun Nat.eqb]. now rewrite H.
Qed.

(** The text without its separators, each character that follows a
    separator in upper case. *)
Fixpoint capAfter (up : bool) (s : jsstring) : jsstring :=
  match s with
  | [] => []
  | a :: t =>
      if wordSeparator a then capAfter true t
      else (if up then upperChar a else a) :: capAfter false t
  end.

Lemma capAfter_run (u s : jsstring) (up : bool) :
  u <> [] -> Forall (fun c => wordSeparator c = true) u ->
  capAfter up (u ++ s) = capAfter true s.
Proof.
  intros Hne Hu. revert up. induction Hu as [|c u Hc Hu IH]; intros up; [congruence|].
  cbn [app capAfter]. rewrite Hc. destruct u as [|c' u]; [reflexivity|].
  apply IH. discriminate.
Qed.

Lemma takeRun_all (P : N -> bool) (s : jsstring) : Forall (fun c => P c = true) (takeRun P s).
Proof.
  induction s as [|a s IH]; [constructor|]. cbn [takeRun].
  destruct (P a) eqn:Pa; [now constructor | constructor].
Qed.

Lemma dropRun_head (P : N -> bool) (s : jsstring) : headClean P (dropRun P s).
Proof.
  induction s as [|a s IH]; [exact I|]. cbn [dropRun].
  destruct (P a) eqn:Pa; [exact IH | exact Pa].
Qed.

Lemma lastClean_run (P : N -> bool) (u : jsstring) :
  u <> [] -> Forall (fun c => P c = true) u -> lastClean P u -> False.
Proof.
  intros Hne Hu. induction Hu as [|c u Hc Hu IH]; [congruence|].
  destruct u as [|c' u]; cbn [lastClean]; [congruence|]. apply IH. discriminate.
Qed.

Lemma camel_replaceLoop (n : nat) : forall sf fuel rp,
  List.length sf <= n -> List.length sf < fuel -> lastClean wordSeparator sf ->
  replaceLoop fuel camelRegExp (fun m => toUpperCase (group camelRegExp m 1)) rp sf
  = capAfter false sf.
Proof.
  induction n as [|n IH]; intros sf fuel rp Hn Hf Hl.
  - destruct sf; [|cbn in Hn; lia].
    apply replaceLoop_nil; [reflexivity | now apply camel_matchAt_none].
  - destruct sf as [|a t].
    { apply replaceLoop_nil; [reflexivity | now apply camel_matchAt_none]. }
    destruct fuel as [|fuel]; [lia|]. cbn [List.length] in Hn, Hf.
    cbn [capAfter]. destruct (wordSeparator a) eqn:Pa.
    + pose proof (takeRun_dropRun wordSeparator t) as Ht.
      pose proof (takeRun_all wordSeparator t) as Hu.
      pose proof (dropRun_head wordSeparator t) as Hd.
      pose proof (dropRun_length wordSeparator t) as Hlen.
      destruct (dropRun wordSeparator t) as [|b more] eqn:D.
      * exfalso. rewrite app_nil_r in Ht. rewrite <- Ht in Hl.
        apply (lastClean_run wordSeparator (a :: takeRun wordSeparator t));
          [discriminate | now constructor | exact Hl].
      * cbn [headClean] in Hd. clear D.
        remember (takeRun wordSeparator t) as u eqn:Eu. clear Eu. subst t.
        assert (Hm : matchAt camelRegExp rp ((a :: u) ++ b :: more)
                     = Some (mkMatch rp ((a :: u) ++ [b]) more [(1, [b])]))
          by (apply camel_matchAt_run; [discriminate | now constructor | exact Hd]).
        change (a :: u ++ b :: more) with ((a :: u) ++ b :: more).
        rewrite (replaceLoop_hit camelRegExp _ _ _ _ _ Hm).
        cbn [matched RegExp.rest rbefore app].
        change (toUpperCase (group camelRegExp
                  (mkMatch rp (a :: u ++ [b]) more [(1, [b])]) 1))
          with [upperChar b].
        assert (Hc : capAfter true (u ++ b :: more) = upperChar b :: capAfter false more).
        { destruct u as [|c u].
          - cbn [app capAfter]. now rewrite Hd.
          - rewrite capAfter_run; [|discriminate | exact Hu]. cbn [capAfter]. now rewrite Hd. }
        rewrite Hc. cbn [app]. f_equal.
        rewrite length_app in Hlen, Hn, Hf. cbn [List.length] in Hlen, Hn, Hf.
        apply IH.
        -- lia.
        -- lia.
        -- change (a :: u ++ b :: more) with ((a :: u) ++ b :: more) in Hl.
           apply lastClean_app in Hl; [|discriminate]. now apply lastClean_tail in Hl.
    + rewrite (replaceLoop_miss camelRegExp eq_refl _ _ _ _ _
                 (camel_matchAt_none rp (a :: t) Pa)).
      f_equal. apply IH; [lia | lia | now apply lastClean_tail in Hl].
Qed.

Lemma camel_pass (x : jsstring) :
  lastClean wordSeparator x ->
  replaceFn1 (literal "[\s_\-]+(.)" "g") x toUpperCase = capAfter false x.
Proof.
  intros Hl. rewrite camel_literal. unfold replaceFn1, replaceWith, view, unview.
  cbn [RegExp.flags camelRegExp unicode global globalFlags].
  apply (camel_replaceLoop (List.length x)); [lia | lia | exact Hl].
Qed.

Lemma firstChar_pass (s : jsstring) (f : jsstring -> jsstring) :
  headClean isLineTerminator s ->
  replaceFn (literal "^(.)" "") s f = match s with a :: t => f [a] ++ t | [] => [] end.
Proof.
  intros H. rewrite firstChar_literal. unfold replaceFn, replaceWith, view, unview.
  cbn [RegExp.flags firstCharRegExp unicode global noFlags].
  destruct s as [|a t]; [reflexivity|]. cbn [headClean] in H.
  assert (Hm : matchAt firstCharRegExp [] (a :: t) = Some (mkMatch [] [a] t [(1, [a])])).
  { unfold matchAt. cbn [RegExp.flags tree firstCharRegExp matcher atBol rpre].
    unfold step. cbn [suf rpre caps]. unfold dotMem. cbn [dotAll noFlags orb].
    rewrite H. cbn [negb suf caps rpre]. rewrite firstn_one.
    unfold consumed. cbn [rpre List.length Nat.sub firstn rev app]. reflexivity. }
  rewrite (search_hit firstCharRegExp _ _ _ Hm). reflexivity.
Qed.

Definition uncapitalize (w : jsstring) : jsstring :=
  match w with a :: l => lowerChar a :: l | [] => [] end.

(** The words of a camelCase text: the first with its first character
    in lower case, the others with theirs in upper case. *)
Definition camelWords (ws : list jsstring) : jsstring :=
  match ws with
  | [] => []
  | w :: rest => uncapitalize w ++ concat (map capitalize rest)
  end.

Lemma words_capAfter (s : jsstring) : forall cur,
  concat (map capitalize (wordsFrom wordSeparator cur s)) =
  match cur with
  | [] => capAfter true s
  | _ => capitalize cur ++ capAfter false s
  end.
Proof.
  induction s as [|a s IH]; intros cur; cbn [wordsFrom capAfter].
  - destruct cur; cbn [flush map concat]; [reflexivity | now rewrite app_nil_r].
  - destruct (wordSeparator a).
    + rewrite map_app, concat_app, (IH []).
      destruct cur; cbn [flush map concat app]; [reflexivity | now rewrite app_nil_r].
    + rewrite IH. destruct cur as [|c cur]; [reflexivity|].
      cbn [app capitalize]. now rewrite <- app_assoc.
Qed.

Lemma words_capAfter_first (s : jsstring) : forall cur,
  cur <> [] ->
  match wordsFrom wordSeparator cur s with
  | [] => []
  | w :: rest => w ++ concat (map capitalize rest)
  end = cur ++ capAfter false s.
Proof.
  induction s as [|a s IH]; intros cur Hc; cbn [wordsFrom capAfter].
  - destruct cur; [congruence|]. cbn [flush map concat]. reflexivity.
  - destruct (wordSeparator a).
    + destruct cur as [|c cur]; [congruence|]. cbn [flush app].
      now rewrite (words_capAfter s []).
    + rewrite IH by (destruct cur; discriminate). now rewrite <- app_assoc.
Qed.

(** X25. On an ASCII text that neither begins nor ends with white space,
    a hyphen or an underscore, [toPascalCase] returns the words of the
    text, each with its first character in upper case, put together
    without separators, and [toCamelCase] returns the same with the
    first character of the first word in lower case; the words are cut
    at white space, hyphens and underscores. *)
Theorem toPascalCase_words (x : jsstring) :
  ascii x -> headClean wordSeparator x -> lastClean wordSeparator x ->
  toPascalCase x = concat (map capitalize (wordsOf wordSeparator x)) /\
  toCamelCase x = camelWords (wordsOf wordSeparator x).
Proof.
  intros _ Hh Hl. unfold toPascalCase, toCamelCase. rewrite (camel_pass x Hl).
  destruct x as [|a t]; [split; reflexivity|]. cbn [headClean] in Hh.
  assert (Hc : capAfter false (a :: t) = a :: capAfter false t)
    by (cbn [capAfter]; now rewrite Hh).
  rewrite Hc, !firstChar_pass by (cbn [headClean]; now apply separator_not_terminator).
  unfold wordsOf. cbn [wordsFrom]. rewrite Hh. cbn [app]. split.
  - now rewrite (words_capAfter t [a]).
  - pose proof (words_capAfter_first t [a] ltac:(discriminate)) as E.
    pose proof (wordsFrom_chunks wordSeparator t [a] ltac:(now repeat constructor)) as Hk.
    destruct (wordsFrom wordSeparator [a] t) as [|w rest]; [discriminate E|].
    inversion Hk as [|? ? [Hw _] _]; subst. destruct w as [|b w]; [congruence|].
    cbn [camelWords uncapitalize app] in *. injection E as -> E. now rewrite E.
Qed.

Lemma toPascalCase_words_witness :
  toPascalCase (lit "my project_name") = lit "MyProjectName" /\
  toCamelCase (lit "My-project name") = lit "myProjectName".
Proof.
  split.
  - rewrite (proj1 (toPascalCase_words (lit "my project_name")
                      ltac:(repeat constructor) eq_refl eq_refl)).
    reflexivity.
  - rewrite (proj2 (toPascalCase_words (lit "My-project name")
                      ltac:(repeat constructor) eq_refl eq_refl)).
    reflexivity.
Defined.

(* ================================================================= *)
(** * The tags of the front matter *)

Definition tagsBody : regex :=
  Seq (Chr 32) (Seq (Chr 32) (Seq (Chr 45) (Seq (Chr 32)
    (Seq (Quant 1 None true Dot) (Quant 0 (Some 1) true (Chr 10)))))).

Definition tagsGroup : regex :=
  Group 1 (Alt (Quant 0 None true tagsBody)
               (Seq (Chr 91) (Seq (Quant 0 None false Dot) (Chr 93)))).

Definition tagsTail : regex :=
  Seq (Quant 0 None true (Class false [CISpace false]))
      (Seq (Quant 0 (Some 1) true (Chr 10)) tagsGroup).

Lemma tagsRegex_literal :
  tagsRegex =
  mkRegExp (lit "tags:\s*\n?((?:  - .+\n?)*|\[.*?\])") noFlags
    (Seq (Chr 116) (Seq (Chr 97) (Seq (Chr 103) (Seq (Chr 115) (Seq (Chr 58) tagsTail)))))
    [None].
Proof. vm_compute. reflexivity. Qed.

(** After [tags:] and the white space, nothing is captured: the text
    then begins with a character that is not white space, so there is
    no line break to skip and no list item, which would begin with two
    spaces; the first alternative matches the empty text. *)
Lemma tagsGroup_empty (rp v : jsstring) :
  headClean isWhiteSpace v ->
  matcher noFlags (Seq (Quant 0 (Some 1) true (Chr 10)) tagsGroup) (mkState rp v []) accept
  = Some (mkState rp v [(1, [])]).
Proof.
  intros H. cbn [matcher groupsOf tagsGroup tagsBody app]. unfold repeatFuel.
  cbn [suf Nat.add repeatMatcher Nat.eqb negb andb rpre caps canon ignoreCase noFlags].
  rewrite !clearCaps_nil. unfold step. cbn [suf rpre caps].
  destruct v as [|b v'].
  - cbn [orElse]. unfold consumed. cbn [rpre]. rewrite Nat.sub_diag. reflexivity.
  - cbn [headClean] in H.
    replace (b =? 10)%N with false by (symmetry; clear - H; char_fact).
    replace (b =? 32)%N with false by (symmetry; clear - H; char_fact).
    cbn [orElse]. unfold consumed. cbn [rpre]. rewrite Nat.sub_diag. reflexivity.
Qed.

Lemma tagsTail_empty (rp sf : jsstring) :
  exists y, matcher noFlags tagsTail (mkState rp sf []) accept = Some y /\ caps y = [(1, [])].
Proof.
  unfold tagsTail. rewrite spaces_greedy.
  rewrite <- (takeRun_dropRun isWhiteSpace sf).
  eexists. split.
  - apply greedyRun_first.
    + apply Forall_spaceSet. apply takeRun_all.
    + pose proof (dropRun_head isWhiteSpace sf) as H.
      destruct (dropRun isWhiteSpace sf) as [|b v]; [exact I|].
      cbn [headClean] in *. now rewrite spaceSet_spec.
    + lia.
    + apply tagsGroup_empty. apply dropRun_head.
  - reflexivity.
Qed.

Lemma chr_step (k : N) (r : regex) (x : MatchState) (c : Continuation) :
  matcher noFlags (Seq (Chr k) r) x c =
  match suf x with
  | a :: s' => if (a =? k)%N then matcher noFlags r (mkState (a :: rpre x) s' (caps x)) c
               else None
  | [] => None
  end.
Proof. reflexivity. Qed.

Lemma tags_matchAt (rp sf : jsstring) (m : Match) :
  matchAt tagsRegex rp sf = Some m -> captures m = [(1, [])].
Proof.
  rewrite tagsRegex_literal. unfold matchAt. cbn [RegExp.flags tree]. fold accept.
  repeat (rewrite chr_step; cbn [suf rpre caps];
          match goal with
          | |- match match ?s with [] => None | _ :: _ => _ end with _ => _ end = _ -> _ =>
              destruct s as [|? ?]; [discriminate|]
          end;
          match goal with
          | |- match (if ?b then _ else None) with _ => _ end = _ -> _ =>
              destruct b; [|discriminate]
          end).
  match goal with
  | |- context [matcher noFlags tagsTail (mkState ?r ?s [])] =>
      destruct (tagsTail_empty r s) as (y & -> & Hy)
  end.
  intros H. injection H as <-. exact Hy.
Qed.

Lemma tags_group_empty (frontmatter : jsstring) (m : Match) :
  exec tagsRegex frontmatter = Some m -> group tagsRegex m 1 = [].
Proof.
  unfold exec. intros H.
  destruct (search tagsRegex [] (view (RegExp.flags tagsRegex) frontmatter)) as [[sk m']|] eqn:S;
    [|discriminate].
  injection H as ->. destruct (search_spec _ _ _ _ _ S) as (_ & _ & Hm).
  unfold group. now rewrite (tags_matchAt _ _ _ Hm).
Qed.

Lemma extractTags_nil (frontmatter : jsstring) : extractTags frontmatter = [].
Proof.
  unfold extractTags.
  destruct (exec tagsRegex frontmatter) as [m|] eqn:E; [|reflexivity].
  rewrite (tags_group_empty frontmatter m E). reflexivity.
Qed.

(** X26. [extractTags] returns no tag, whatever the front matter: in
    its expression the white space after [tags:] is taken by [\s*],
    line break and indentation included, so the captured text is always
    empty, for the list form as for the array form. *)
Theorem extractTags_empty (frontmatter : jsstring) :
  extractTags frontmatter = [] /\
  (forall m, exec tagsRegex frontmatter = Some m -> group tagsRegex m 1 = []).
Proof.
  split; [|apply tags_group_empty].
  unfold extractTags.
  destruct (exec tagsRegex frontmatter) as [m|] eqn:E; [|reflexivity].
  rewrite (tags_group_empty frontmatter m E). reflexivity.
Qed.

(* ================================================================= *)
(** * Folder-to-tag synchronisation *)

Definition folderSyncContext (folderPath : jsstring) : RuleEvaluationContext :=
  mkContext folderPath Folder (Some FolderToTag) None.

Lemma hashTag_starts (t : jsstring) : startsWith (hashTag t) (lit "#") = true.
Proof.
  unfold hashTag. destruct (startsWith t (lit "#")) eqn:E; [exact E|].
  change (lit "#") with [35%N]. cbn [app startsWith]. rewrite N.eqb_refl.
  now destruct t.
Qed.

Lemma hashTag_nonempty (t : jsstring) : hashTag t <> [].
Proof.
  unfold hashTag. change (lit "#") with [35%N].
  destruct t as [|a t]; [discriminate|]. destruct (startsWith (a :: t) [35%N]); discriminate.
Qed.

Lemma transformFolderToTag_hashed (folderPath : jsstring) (r : MappingRule) (tag : jsstring) :
  transformFolderToTag folderPath r = Some tag -> exists t, tag = hashTag t.
Proof.
  unfold transformFolderToTag, bind.
  destruct (RegExp_new _ None) as [pattern|]; [|discriminate].
  destruct (exec pattern folderPath) as [m|]; [|discriminate].
  destruct (match folderEntryPoint r with Some (c :: e) => _ | _ => _ end) as [path|];
    [|discriminate].
  destruct (tagTransforms r) as [config|]; [|discriminate].
  intros [= <-]. eexists. reflexivity.
Qed.

Lemma first_match_direction (folderPath : jsstring) (rules : list MappingRule)
  (first : RuleMatch) (others : list RuleMatch) :
  findMatchingRules folderPath rules (folderSyncContext folderPath) = first :: others ->
  RuleDirection_eqb (direction (rule first)) TagToFolder = false.
Proof.
  intros H.
  assert (Hin : In first (findMatchingRules folderPath rules (folderSyncContext folderPath)))
    by (rewrite H; now left).
  apply findMatchingRules_in in Hin. destruct Hin as (r & _ & He).
  rewrite (evaluateRule_rule _ _ _ _ He).
  destruct (evaluateRule_some _ _ _ _ He) as (c & p & _ & Hg & _).
  unfold gatesPass in Hg. apply andb_true_iff in Hg. destruct Hg as [_ Hd].
  apply negb_true_iff in Hd. unfold directionExcluded in Hd.
  cbn [ctxDirection folderSyncContext] in Hd. now destruct (direction r).
Qed.

(** X27. [syncFile] never answers that the rule only supports
    tag-to-folder, and never that the tag already exists.  It answers
    that no rule matches exactly when [findMatchingRules] returns
    nothing; otherwise it uses the first match in the order of the rule
    list: the transformation fails when [transformFolderToTag] returns
    null for this rule, and else the tag, which begins with [#], is
    added, the tag list written to the front matter being this tag
    alone. *)
Theorem syncFile_results (folderPath : jsstring) (rules : list MappingRule)
  (content : jsstring) :
  syncFile folderPath rules content <> RuleOnlySupportsTagToFolder /\
  syncFile folderPath rules content <> TagAlreadyExists /\
  (syncFile folderPath rules content = NoMatchingRules <->
   findMatchingRules folderPath rules (folderSyncContext folderPath) = []) /\
  (forall first others,
     findMatchingRules folderPath rules (folderSyncContext folderPath) = first :: others ->
     (transformFolderToTag folderPath (rule first) = None ->
      syncFile folderPath rules content = TransformationFailed) /\
     (forall tag, transformFolderToTag folderPath (rule first) = Some tag ->
        startsWith tag (lit "#") = true /\
        syncFile folderPath rules content =
          TagAdded tag (reconstructFile (updateTags (fst (parseFrontmatter content)) [tag])
                          (snd (parseFrontmatter content))))).
Proof.
  assert (Hcases :
    forall first others,
      findMatchingRules folderPath rules (folderSyncContext folderPath) = first :: others ->
      (transformFolderToTag folderPath (rule first) = None ->
       syncFile folderPath rules content = TransformationFailed) /\
      (forall tag, transformFolderToTag folderPath (rule first) = Some tag ->
         startsWith tag (lit "#") = true /\
         syncFile folderPath rules content =
           TagAdded tag (reconstructFile (updateTags (fst (parseFrontmatter content)) [tag])
                           (snd (parseFrontmatter content))))).
  { intros first others H. pose proof (first_match_direction _ _ _ _ H) as Hd.
    unfold syncFile. fold (folderSyncContext folderPath). rewrite H, Hd. split.
    - now intros ->.
    - intros tag Ht. destruct (transformFolderToTag_hashed _ _ _ Ht) as [t ->].
      split; [apply hashTag_starts|]. rewrite Ht.
      pose proof (hashTag_nonempty t) as Hne.
      destruct (hashTag t) as [|c t'] eqn:E; [congruence|].
      destruct (parseFrontmatter content) as [frontmatter body].
      rewrite extractTags_nil. reflexivity. }
  assert (Hout :
    (syncFile folderPath rules content = NoMatchingRules /\
     findMatchingRules folderPath rules (folderSyncContext folderPath) = []) \/
    (findMatchingRules folderPath rules (folderSyncContext folderPath) <> [] /\
     (syncFile folderPath rules content = TransformationFailed \/
      exists tag newContent, syncFile folderPath rules content = TagAdded tag newContent))).
  { destruct (findMatchingRules folderPath rules (folderSyncContext folderPath))
      as [|first others] eqn:M.
    - left. split; [|reflexivity].
      unfold syncFile. fold (folderSyncContext folderPath). now rewrite M.
    - right. split; [discriminate|].
      destruct (Hcases first others eq_refl) as [Hn Hs].
      destruct (transformFolderToTag folderPath (rule first)) as [tag|].
      + right. destruct (Hs tag eq_refl) as [_ E]. eauto.
      + left. now apply Hn. }
  split; [|split; [|split; [|exact Hcases]]].
  - destruct Hout as [[E _]|[_ [E|(tag & c & E)]]]; rewrite E; discriminate.
  - destruct Hout as [[E _]|[_ [E|(tag & c & E)]]]; rewrite E; discriminate.
  - destruct Hout as [[E M]|[M [E|(tag & c & E)]]]; rewrite E; split; intros H;
      try reflexivity; try assumption; try discriminate; try congruence.
Qed.

Lemma matched_rule_compiles (folderPath : jsstring) (rules : list MappingRule)
  (first : RuleMatch) (others : list RuleMatch) :
  findMatchingRules folderPath rules (folderSyncContext folderPath) = first :: others ->
  exists c p pattern m,
    folderPattern (rule first) = Some (c :: p) /\
    RegExp_new (c :: p) None = Ok pattern /\
    exec pattern folderPath = Some m.
Proof.
  intros H.
  assert (Hin : In first (findMatchingRules folderPath rules (folderSyncContext folderPath)))
    by (rewrite H; now left).
  apply findMatchingRules_in in Hin. destruct Hin as (r & _ & He).
  rewrite (evaluateRule_rule _ _ _ _ He).
  destruct (evaluateRule_some _ _ _ _ He) as (c & p & Hs & _ & Hm & _).
  cbn [selectedPattern ctxMatchType folderSyncContext] in Hs.
  unfold matchesPattern in Hm.
  destruct (RegExp_new (c :: p) None) as [pattern|] eqn:E; [|discriminate].
  destruct (exec pattern folderPath) as [m|] eqn:X.
  - exists c, p, pattern, m. repeat split; assumption.
  - apply exec_none in X. congruence.
Qed.

(** X28. For the rule that [syncFile] uses, the first one that
    [findMatchingRules] returns, [transformFolderToTag] returns null in
    two cases only: the rule has no tag transforms, or its folder entry
    point, put between [^] and [/?], is not a regular expression.  The
    folder pattern cannot be the cause: it has compiled and matched in
    [evaluateRule]. *)
Theorem transformFolderToTag_null_cases (folderPath : jsstring) (rules : list MappingRule)
  (first : RuleMatch) (others : list RuleMatch) :
  findMatchingRules folderPath rules (folderSyncContext folderPath) = first :: others ->
  (transformFolderToTag folderPath (rule first) = None <->
   tagTransforms (rule first) = None \/
   exists c e msg,
     folderEntryPoint (rule first) = Some (c :: e) /\
     RegExp_new (lit "^" ++ (c :: e) ++ lit "/?") None = Throw msg).
Proof.
  intros H. destruct (matched_rule_compiles _ _ _ _ H) as (c & p & pattern & m & Hp & Hc & Hx).
  unfold transformFolderToTag, removeEntryPoint, bind. rewrite Hp, Hc, Hx.
  destruct (folderEntryPoint (rule first)) as [[|c' e]|] eqn:Ef.
  - destruct (tagTransforms (rule first)); split.
    + discriminate.
    + intros [K|(c0 & e0 & msg & K & _)]; discriminate.
    + now left.
    + reflexivity.
  - destruct (RegExp_new (lit "^" ++ (c' :: e) ++ lit "/?") None) as [rx|msg] eqn:Ee.
    + destruct (tagTransforms (rule first)); split.
      * discriminate.
      * intros [K|(c0 & e0 & msg & K & T)]; [discriminate|].
        injection K as <- <-. congruence.
      * now left.
      * reflexivity.
    + split; [|reflexivity]. intros _. right. exists c', e, msg. now split.
  - destruct (tagTransforms (rule first)); split.
    + discriminate.
    + intros [K|(c0 & e0 & msg & K & _)]; discriminate.
    + now left.
    + reflexivity.
Qed.

Lemma transformFolderToTag_null_cases_witness :
  transformFolderToTag (lit "Projects/Test") (rule firstTiedMatch) = None.
Proof.
  assert (M : findMatchingRules (lit "Projects/Test") tiedRules
                (folderSyncContext (lit "Projects/Test"))
              = firstTiedMatch
                :: tl (findMatchingRules (lit "Projects/Test") tiedRules
                         (folderSyncContext (lit "Projects/Test"))))
    by (vm_compute; reflexivity).
  apply (proj2 (transformFolderToTag_null_cases _ _ _ _ M)). left. reflexivity.
Defined.

(* ================================================================= *)
(** * Tag-to-folder synchronisation *)

Definition tagSyncContext (tag : jsstring) : RuleEvaluationContext :=
  mkContext (unhashTag tag) Tag (Some TagToFolder) None.

(** The folder that one tag gives: the first matching rule is asked,
    and an empty answer counts as none. *)
Definition folderOfTag (rules : list MappingRule) (tag : jsstring) : option jsstring :=
  match findMatchingRules (unhashTag tag) rules (tagSyncContext tag) with
  | first :: _ =>
      match transformTagToFolder tag (rule first) with
      | Some (c :: p) => Some (c :: p)
      | _ => None
      end
  | [] => None
  end.

Lemma first_tag_match_direction (tag : jsstring) (rules : list MappingRule)
  (first : RuleMatch) (others : list RuleMatch) :
  findMatchingRules (unhashTag tag) rules (tagSyncContext tag) = first :: others ->
  RuleDirection_eqb (direction (rule first)) FolderToTag = false.
Proof.
  intros H.
  assert (Hin : In first (findMatchingRules (unhashTag tag) rules (tagSyncContext tag)))
    by (rewrite H; now left).
  apply findMatchingRules_in in Hin. destruct Hin as (r & _ & He).
  rewrite (evaluateRule_rule _ _ _ _ He).
  destruct (evaluateRule_some _ _ _ _ He) as (c & p & _ & Hg & _).
  unfold gatesPass in Hg. apply andb_true_iff in Hg. destruct Hg as [_ Hd].
  apply negb_true_iff in Hd. unfold directionExcluded in Hd.
  cbn [ctxDirection tagSyncContext] in Hd. now destruct (direction r).
Qed.

Lemma determineTargetFolder_cons (rules : list MappingRule) (tag : jsstring)
  (others : list jsstring) :
  determineTargetFolder rules (tag :: others) =
  match folderOfTag rules tag with
  | Some folder => Some folder
  | None => determineTargetFolder rules others
  end.
Proof.
  cbn [determineTargetFolder]. unfold folderOfTag. fold (tagSyncContext tag).
  destruct (findMatchingRules (unhashTag tag) rules (tagSyncContext tag))
    as [|first rest'] eqn:M; [reflexivity|].
  rewrite (first_tag_match_direction _ _ _ _ M).
  destruct (transformTagToFolder tag (rule first)) as [[|c p]|]; reflexivity.
Qed.

(** X29. [determineTargetFolder] returns the folder of the first tag, in
    the order of the list, that has one: the tag's first matching rule
    must give a folder text that is not empty.  The test for a rule that
    only supports folder-to-tag never holds, the result is never the
    empty text, and with no tags the result is null. *)
Theorem determineTargetFolder_first_tag (rules : list MappingRule) (tags : list jsstring) :
  determineTargetFolder rules tags = hd_error (flat_map (fun tag =>
     match folderOfTag rules tag with Some folder => [folder] | None => [] end) tags) /\
  determineTargetFolder rules tags <> Some [] /\
  (forall tags1 tags2, tags = tags1 ++ tags2 ->
     determineTargetFolder rules tags =
     match determineTargetFolder rules tags1 with
     | Some folder => Some folder
     | None => determineTargetFolder rules tags2
     end).
Proof.
  assert (A : forall l, determineTargetFolder rules l = hd_error (flat_map (fun tag =>
     match folderOfTag rules tag with Some folder => [folder] | None => [] end) l)).
  { induction l as [|tag l IH]; [reflexivity|].
    rewrite determineTargetFolder_cons. cbn [flat_map].
    destruct (folderOfTag rules tag); [reflexivity | exact IH]. }
  split; [apply A|]. split.
  - induction tags as [|tag tags IH]; [discriminate|].
    rewrite determineTargetFolder_cons.
    destruct (folderOfTag rules tag) as [folder|] eqn:F; [|exact IH].
    unfold folderOfTag in F.
    destruct (findMatchingRules _ _ _) as [|first rest']; [discriminate|].
    destruct (transformTagToFolder tag (rule first)) as [[|c p]|]; try discriminate.
    injection F as <-. discriminate.
  - intros tags1 tags2 ->. induction tags1 as [|tag tags1 IH].
    + reflexivity.
    + cbn [app]. rewrite !determineTargetFolder_cons.
      destruct (folderOfTag rules tag); [reflexivity | exact IH].
Qed.

(* ================================================================= *)
(** * Front matter *)

(** The lazy loop over a one-character body that accepts every
    character: the shortest text is tried first. *)
Fixpoint lazyRun (c : Continuation) (rp sf : jsstring) (cs : list (nat * jsstring))
  : option MatchState :=
  orElse (c (mkState rp sf cs))
         (fun _ => match sf with
                   | a :: sf' => lazyRun c (a :: rp) sf' cs
                   | [] => None
                   end).

Lemma repeatMatcher_lazy (m : MatchState -> Continuation -> option MatchState)
  (c : Continuation) :
  (forall x k, m x k = step x (fun _ => true) k) ->
  forall sf fuel rp cs,
    List.length sf < fuel ->
    repeatMatcher m [] false c fuel 0 None (mkState rp sf cs) = lazyRun c rp sf cs.
Proof.
  intros Hm. induction sf as [|a sf IH]; intros fuel rp cs Hf;
    (destruct fuel as [|fuel]; [cbn in Hf; lia|]);
    cbn [repeatMatcher lazyRun rpre suf caps Nat.eqb negb andb];
    rewrite clearCaps_nil, Hm; unfold step; cbn [suf rpre caps].
  - reflexivity.
  - cbn [List.length] in *.
    replace (List.length sf =? S (List.length sf)) with false
      by (symmetry; apply Nat.eqb_neq; lia).
    cbn [Nat.pred option_map]. rewrite IH by lia. reflexivity.
Qed.

Lemma lazyRun_first (c : Continuation) (u v : jsstring) : forall rp cs z,
  (forall u1 u2, u = u1 ++ u2 -> u2 <> [] ->
                 c (mkState (rev u1 ++ rp) (u2 ++ v) cs) = None) ->
  c (mkState (rev u ++ rp) v cs) = Some z ->
  lazyRun c rp (u ++ v) cs = Some z.
Proof.
  induction u as [|a u IH]; intros rp cs z Hn Hc.
  - cbn [app rev] in *. destruct v; cbn [lazyRun]; now rewrite Hc.
  - cbn [app lazyRun].
    pose proof (Hn [] (a :: u) eq_refl ltac:(discriminate)) as H0.
    cbn [rev app] in H0. rewrite H0. cbn [orElse].
    apply IH.
    + intros u1 u2 -> Hu2. specialize (Hn (a :: u1) u2 eq_refl Hu2).
      cbn [rev] in Hn. now rewrite <- app_assoc in Hn.
    + cbn [rev] in Hc. now rewrite <- app_assoc in Hc.
Qed.

Definition anyClass : regex := Class false [CISpace false; CISpace true].

Lemma anyClass_step (x : MatchState) (k : Continuation) :
  matcher noFlags anyClass x k = step x (fun _ => true) k.
Proof.
  cbn [matcher anyClass]. unfold step. destruct (suf x) as [|a s]; [reflexivity|].
  replace (classMem noFlags false [CISpace false; CISpace true] a) with true; [reflexivity|].
  unfold classMem, setMem. cbn [ignoreCase noFlags existsb itemSet xorb].
  now destruct (isWhiteSpace a).
Qed.

(** [---] and a line break *)
Definition delimiter : jsstring := lit "---" ++ newline.

(** A line break and the delimiter: what closes the front matter. *)
Definition closing : jsstring := newline ++ delimiter.

Definition bodyToEnd : regex := Seq (Group 2 (Quant 0 None true anyClass)) Eol.

Definition closingThenBody : regex :=
  Seq (Chr 10) (Seq (Chr 45) (Seq (Chr 45) (Seq (Chr 45) (Seq (Chr 10) bodyToEnd)))).

Definition frontMatterRegExp : RegExp :=
  mkRegExp (lit "^---\n([\s\S]*?)\n---\n([\s\S]*)$") noFlags
    (Seq Bol (Seq (Chr 45) (Seq (Chr 45) (Seq (Chr 45) (Seq (Chr 10)
       (Seq (Group 1 (Quant 0 None false anyClass)) closingThenBody))))))
    [None; None].

Lemma frontMatter_literal :
  literal "^---\n([\s\S]*?)\n---\n([\s\S]*)$" "" = frontMatterRegExp.
Proof. vm_compute. reflexivity. Qed.

Lemma bodyToEnd_all (rp body : jsstring) (cs : list (nat * jsstring)) :
  matcher noFlags bodyToEnd (mkState rp body cs) accept
  = Some (mkState (rev body ++ rp) [] (setCap 2 body cs)).
Proof.
  unfold bodyToEnd. cbn [matcher groupsOf anyClass]. fold anyClass.
  rewrite (repeatMatcher_greedy _ (fun _ => true)) by
    (try (intros; apply anyClass_step); unfold repeatFuel; cbn [suf]; lia).
  match goal with
  | |- greedyRun _ ?c _ _ _ _ = Some ?z =>
      pose proof (greedyRun_first (fun _ => true) c body [] 0 rp cs z) as E
  end.
  rewrite app_nil_r in E. apply E.
  - apply Forall_forall. now intros.
  - exact I.
  - lia.
  - cbn [rpre suf caps atEol]. now rewrite consumed_app.
Qed.

Lemma closing_found (rp body : jsstring) (cs : list (nat * jsstring)) :
  matcher noFlags closingThenBody (mkState rp (closing ++ body) cs) accept
  = Some (mkState (rev body ++ rev closing ++ rp) [] (setCap 2 body cs)).
Proof.
  unfold closingThenBody, closing, delimiter, newline.
  change (lit "---") with [45%N; 45%N; 45%N]. cbn [app].
  repeat (rewrite chr_step; cbn [suf rpre caps N.eqb Pos.eqb]).
  rewrite bodyToEnd_all. cbn [rev app]. reflexivity.
Qed.

Lemma closing_missing (rp s : jsstring) (cs : list (nat * jsstring)) :
  startsWith s closing = false ->
  matcher noFlags closingThenBody (mkState rp s cs) accept = None.
Proof.
  unfold closingThenBody, closing, delimiter, newline. change (lit "---") with [45%N; 45%N; 45%N].
  cbn [app]. intros H.
  repeat (rewrite chr_step; cbn [suf rpre caps];
          match goal with
          | |- match ?s with [] => None | _ :: _ => _ end = None =>
              destruct s as [|? ?]; [reflexivity|]; cbn [startsWith] in H
          end;
          match goal with
          | |- (if ?b then _ else None) = None =>
              destruct b; [cbn [andb] in H | reflexivity]
          end).
  destruct s; discriminate H.
Qed.

(** The front matter text closes early when the closing line is found
    before its end. *)
Definition closesEarly (frontmatter : jsstring) : bool :=
  existsb (fun k => startsWith (skipn k frontmatter ++ closing) closing)
          (seq 0 (List.length frontmatter)).

Lemma startsWith_nil (s : jsstring) : startsWith s [] = true.
Proof. now destruct s. Qed.

Lemma startsWith_app (p s t : jsstring) :
  List.length p <= List.length s -> startsWith (s ++ t) p = startsWith s p.
Proof.
  revert s. induction p as [|a p IH]; intros s H.
  - now rewrite !startsWith_nil.
  - destruct s as [|b s]; [cbn in H; lia|]. cbn [app startsWith List.length] in *.
    rewrite IH by lia. reflexivity.
Qed.

Lemma closesEarly_split (frontmatter u1 u2 body : jsstring) :
  closesEarly frontmatter = false -> frontmatter = u1 ++ u2 -> u2 <> [] ->
  startsWith (u2 ++ closing ++ body) closing = false.
Proof.
  intros H -> Hu. rewrite app_assoc, startsWith_app.
  - unfold closesEarly in H.
    destruct (startsWith (u2 ++ closing) closing) eqn:E; [|reflexivity].
    assert (X : existsb (fun k => startsWith (skipn k (u1 ++ u2) ++ closing) closing)
                  (seq 0 (List.length (u1 ++ u2))) = true).
    { apply existsb_exists. exists (List.length u1). split.
      - apply in_seq. rewrite length_app. destruct u2; [congruence | cbn; lia].
      - rewrite skipn_app, skipn_all, Nat.sub_diag. cbn [skipn app]. exact E. }
    congruence.
  - rewrite length_app. destruct u2; [congruence|]. cbn. lia.
Qed.

Lemma frontMatter_matchAt (frontmatter body : jsstring) :
  closesEarly frontmatter = false ->
  exists m,
    matchAt frontMatterRegExp [] (delimiter ++ frontmatter ++ closing ++ body) = Some m /\
    captures m = setCap 2 body [(1, frontmatter)].
Proof.
  intros H. unfold matchAt.
  cbn [RegExp.flags tree frontMatterRegExp matcher atBol rpre multiline noFlags].
  fold accept.
  unfold delimiter at 1, newline. change (lit "---") with [45%N; 45%N; 45%N]. cbn [app].
  unfold step. cbn [suf rpre caps canon ignoreCase noFlags N.eqb Pos.eqb].
  cbn [groupsOf anyClass]. fold anyClass.
  rewrite (repeatMatcher_lazy _ _ anyClass_step) by (unfold repeatFuel; cbn [suf]; lia).
  rewrite (lazyRun_first _ frontmatter (closing ++ body) _ _
             (mkState (rev body ++ rev closing ++ rev frontmatter ++ [10%N; 45%N; 45%N; 45%N])
                [] (setCap 2 body [(1, frontmatter)]))).
  - eexists. split; [reflexivity|]. reflexivity.
  - intros u1 u2 E Hu. cbn [rpre suf caps].
    fold closingThenBody. apply closing_missing.
    exact (closesEarly_split _ _ _ _ H E Hu).
  - cbn [rpre suf caps]. fold closingThenBody.
    rewrite consumed_app. apply closing_found.
Qed.

(** X30. [parseFrontmatter] undoes [reconstructFile]: for a front matter
    text that is not blank and in which the closing line, a line break
    followed by [---] and a line break, is not found before its end,
    parsing the reconstructed file gives back the front matter and the
    body. *)
Theorem parseFrontmatter_reconstructFile (frontmatter body : jsstring) :
  trim frontmatter <> [] -> closesEarly frontmatter = false ->
  parseFrontmatter (reconstructFile frontmatter body) = (frontmatter, body).
Proof.
  intros Hb Hc. unfold reconstructFile.
  destruct (JS.eqb (trim frontmatter) []) eqn:E; [apply JS_eqb_eq in E; congruence|].
  unfold parseFrontmatter. rewrite frontMatter_literal.
  destruct (frontMatter_matchAt frontmatter body Hc) as (m & Hm & Hcaps).
  unfold exec, view. cbn [RegExp.flags frontMatterRegExp unicode noFlags].
  change (lit "---" ++ newline ++ frontmatter ++ newline ++ lit "---" ++ newline ++ body)
    with (delimiter ++ frontmatter ++ closing ++ body).
  rewrite (search_hit frontMatterRegExp _ _ _ Hm). cbn [option_map snd].
  unfold group. rewrite Hcaps. reflexivity.
Qed.

Lemma parseFrontmatter_reconstructFile_witness :
  parseFrontmatter (reconstructFile (lit "title: x") (lit "body")) = (lit "title: x", lit "body").
Proof.
  apply parseFrontmatter_reconstructFile; [discriminate | reflexivity].
Defined.
